(** * M5Core2 Koshi Chime: the frame loop of [M5Core2-KoshiChime.ino]

    The sketch keeps all of its state in globals and advances it once per
    call of [loop()]: buttons, IMU tilt, ball physics, wall constraint,
    rod collisions (note-on events for the UNIT-SYNTH) and the glow decay
    done by [drawUpdate()].

    The embedding below follows the sketch statement by statement.  The C++
    type [float] is kept abstract behind the class [FloatArith]; the code is
    written once against that interface and then read in two arithmetics:

    - [Binary32]: IEEE 754 single precision (24-bit significand, round to
      nearest even), built on the Standard Library's [SpecFloat], every
      operation of the source rounded on its own (no fused multiply-add).
      Every definition evaluates in it.
    - [Ideal]: the same operations over the real numbers, i.e. the
      arithmetic with every rounding error removed.  The device does not
      compute in it: a statement about [Ideal] says what the code aims at,
      and what the sketch does is stated in [Binary32] or for every
      arithmetic.

    What is not modelled: the LCD (all [M5.Lcd] calls, together with the
    screen coordinates [rod_px], [rod_py], [prev_ball_sx], [prev_ball_sy]
    that only those calls read), the serial console and the SD updater. *)

From Stdlib Require Import ZArith QArith List Bool Lia Reals Lra Psatz.
From Stdlib Require Import Floats.SpecFloat.
From stdpp Require Import base list.

Local Open Scope Z_scope.

(** ** The arithmetic of [float] *)

Class FloatArith (F : Type) := {
  fadd : F -> F -> F;
  fsub : F -> F -> F;
  fmul : F -> F -> F;
  fdiv : F -> F -> F;
  fsqrt : F -> F;
  (** [flt a b] is the C++ test [a < b]; [a > b] is [flt b a]. *)
  flt : F -> F -> bool;
  (** Conversion of an integer operand ([int], [int16_t]) to [float]. *)
  float_of_int : Z -> F;
  (** [float_lit m d] is the decimal literal [m/d] ([0.97f] is
      [float_lit 97 100]). *)
  float_lit : Z -> Z -> F;
  (** Integer part of a [float], rounding toward zero, as a C++ cast to an
      integer type takes it; [None] on values that have none. *)
  float_trunc : F -> option Z
}.

Declare Scope float_scope.
Delimit Scope float_scope with fl.
Infix "+" := fadd : float_scope.
Infix "-" := fsub : float_scope.
Infix "*" := fmul : float_scope.
Infix "/" := fdiv : float_scope.

#[global] Instance float_inhabited `{FloatArith F} : Inhabited F :=
  populate (float_of_int 0).

(** [(uint8_t)x]: the integer part, reduced to 8 bits.  (A value whose
    integer part does not fit is undefined behaviour in C++; the reduction
    modulo 256 is what a conversion through a wider integer gives.) *)
Definition to_uint8 `{FloatArith F} (x : F) : Z :=
  match float_trunc x with
  | Some z => z mod 256
  | None => 0
  end.

(** ** Chime types and note tables *)

Inductive ChimeType := TERRA | AQUA | ARIA | IGNIS.

Definition chime_index (c : ChimeType) : Z :=
  match c with TERRA => 0 | AQUA => 1 | ARIA => 2 | IGNIS => 3 end.

Definition chime_of_index (z : Z) : ChimeType :=
  match z with 0 => TERRA | 1 => AQUA | 2 => ARIA | _ => IGNIS end.

(** The [NOTE_*] names of [M5UnitSynth.h] that the tables use.  Their
    numeric values live in that header and play no role here. *)
Inductive Note :=
  | NOTE_G3 | NOTE_A3 | NOTE_B3
  | NOTE_C4 | NOTE_D4 | NOTE_E4 | NOTE_F4 | NOTE_G4 | NOTE_A4 | NOTE_B4
  | NOTE_C5 | NOTE_D5 | NOTE_E5 | NOTE_G5 | NOTE_A5 | NOTE_B5
  | NOTE_C6.

Definition chime_notes (c : ChimeType) : list Note :=
  match c with
  | TERRA => [NOTE_G3; NOTE_C4; NOTE_E4; NOTE_G4; NOTE_B4; NOTE_E5; NOTE_G5; NOTE_B5]
  | AQUA  => [NOTE_A3; NOTE_D4; NOTE_F4; NOTE_A4; NOTE_C5; NOTE_E5; NOTE_A5; NOTE_C6]
  | ARIA  => [NOTE_A3; NOTE_C4; NOTE_E4; NOTE_A4; NOTE_B4; NOTE_E5; NOTE_A5; NOTE_C6]
  | IGNIS => [NOTE_G3; NOTE_B3; NOTE_D4; NOTE_G4; NOTE_A4; NOTE_D5; NOTE_G5; NOTE_A5]
  end.

#[global] Instance note_inhabited : Inhabited Note := populate NOTE_C4.

(** [current_chime = (ChimeType)((current_chime + 3) % 4)] and
    [... + 1) % 4]: the handlers of BtnA and BtnC. *)
Definition select_prev (c : ChimeType) : ChimeType :=
  chime_of_index (Z.rem (chime_index c + 3) 4).

Definition select_next (c : ChimeType) : ChimeType :=
  chime_of_index (Z.rem (chime_index c + 1) 4).

(** ** Integer constants and machine integers *)

Definition TUBE_R : Z := 65.
Definition ROD_ORBIT : Z := 55.
Definition BALL_R : Z := 10.
Definition ROD_DEBOUNCE : Z := 80.
Definition NUM_RODS : nat := 8.

(** [unsigned long] is 32 bits wide on the ESP32: [millis()] and the
    subtraction [now - rod_last_hit[i]] wrap modulo [2^32]. *)
Definition ULONG_MOD : Z := 2 ^ 32.

Definition ulong_sub (a b : Z) : Z := (a - b) mod ULONG_MOD.

(** [rod_glow[i]--] on a [uint8_t]. *)
Definition uint8_dec (g : Z) : Z := (g - 1) mod 256.

(** ** Program state and events *)

Record State (F : Type) := mkState {
  current_chime : ChimeType;
  cal_ax : F;
  cal_ay : F;
  ball_x : F;
  ball_y : F;
  ball_vx : F;
  ball_vy : F;
  rod_last_hit : list Z;
  rod_glow : list Z;
  rod_fx : list F;
  rod_fy : list F
}.

Arguments mkState {F}.
Arguments current_chime {F}.
Arguments cal_ax {F}.
Arguments cal_ay {F}.
Arguments ball_x {F}.
Arguments ball_y {F}.
Arguments ball_vx {F}.
Arguments ball_vy {F}.
Arguments rod_last_hit {F}.
Arguments rod_glow {F}.
Arguments rod_fx {F}.
Arguments rod_fy {F}.

(** [synth.setNoteOn(channel, note, velocity)]. *)
Record NoteOn := mkNoteOn {
  channel : Z;
  pitch : Note;
  velocity : Z
}.

(** What one call of [loop()] reads from the outside world. *)
Record Input (F : Type) := mkInput {
  btnA_pressed : bool;      (* M5.BtnA.wasPressed()  *)
  btnB_released : bool;     (* M5.BtnB.wasReleased() *)
  btnC_pressed : bool;      (* M5.BtnC.wasPressed()  *)
  cal_sample : F * F;       (* the IMU read of the BtnB handler *)
  accel : F * F;            (* the IMU read of step 1 *)
  now : Z                   (* millis() *)
}.

Arguments mkInput {F}.
Arguments btnA_pressed {F}.
Arguments btnB_released {F}.
Arguments btnC_pressed {F}.
Arguments cal_sample {F}.
Arguments accel {F}.
Arguments now {F}.

Section Sketch.
Context {F : Type} `{FA : FloatArith F}.

Local Open Scope float_scope.

(** *** Float constants *)

Definition HIT_DIST : F := float_of_int 24.
Definition GRAVITY_SCALE : F := float_of_int 120.
Definition FRICTION : F := float_lit 97 100.
Definition MAX_SPEED : F := float_of_int 20.
Definition ROD_BOUNCE : F := float_of_int 2.
Definition PI_LIT : F := float_lit 314159 100000.
Definition fzero : F := float_of_int 0.

(** *** State updates *)

Definition set_chime (c : ChimeType) (s : State F) : State F :=
  mkState c (cal_ax s) (cal_ay s) (ball_x s) (ball_y s) (ball_vx s) (ball_vy s)
          (rod_last_hit s) (rod_glow s) (rod_fx s) (rod_fy s).

Definition set_cal (c : F * F) (s : State F) : State F :=
  mkState (current_chime s) (fst c) (snd c) (ball_x s) (ball_y s) (ball_vx s) (ball_vy s)
          (rod_last_hit s) (rod_glow s) (rod_fx s) (rod_fy s).

Definition set_pos (x y : F) (s : State F) : State F :=
  mkState (current_chime s) (cal_ax s) (cal_ay s) x y (ball_vx s) (ball_vy s)
          (rod_last_hit s) (rod_glow s) (rod_fx s) (rod_fy s).

Definition set_vel (vx vy : F) (s : State F) : State F :=
  mkState (current_chime s) (cal_ax s) (cal_ay s) (ball_x s) (ball_y s) vx vy
          (rod_last_hit s) (rod_glow s) (rod_fx s) (rod_fy s).

Definition set_last_hit (l : list Z) (s : State F) : State F :=
  mkState (current_chime s) (cal_ax s) (cal_ay s) (ball_x s) (ball_y s) (ball_vx s) (ball_vy s)
          l (rod_glow s) (rod_fx s) (rod_fy s).

Definition set_glow (g : list Z) (s : State F) : State F :=
  mkState (current_chime s) (cal_ax s) (cal_ay s) (ball_x s) (ball_y s) (ball_vx s) (ball_vy s)
          (rod_last_hit s) g (rod_fx s) (rod_fy s).

(** *** [setup()] *)

(** [i * 3.14159f * 2.0f / 8.0f - 3.14159f / 2.0f] *)
Definition rod_angle (i : nat) : F :=
  float_of_int (Z.of_nat i) * PI_LIT * float_of_int 2 / float_of_int 8
  - PI_LIT / float_of_int 2.

(** *** [drawFullScreen()]: of its effects only the ball reset is state *)
Definition drawFullScreen (s : State F) : State F :=
  set_vel fzero fzero (set_pos fzero fzero s).

(** [cos] and [sin] come from the C library and are parameters.  The
    globals start at their initialisers; the first IMU read becomes the
    calibration offset, and the call ends with [drawFullScreen()]. *)
Definition setup (cosine sine : F -> F) (imu : F * F) : State F :=
  drawFullScreen
    {| current_chime := TERRA;
       cal_ax := fst imu;
       cal_ay := snd imu;
       ball_x := fzero; ball_y := fzero;
       ball_vx := fzero; ball_vy := fzero;
       rod_last_hit := replicate NUM_RODS 0%Z;
       rod_glow := replicate NUM_RODS 0%Z;
       rod_fx := map (fun i => cosine (rod_angle i) * float_of_int ROD_ORBIT) (seq 0 NUM_RODS);
       rod_fy := map (fun i => sine (rod_angle i) * float_of_int ROD_ORBIT) (seq 0 NUM_RODS) |}.

(** *** [loop()], the button handlers *)
Definition handle_buttons (inp : Input F) (s : State F) : State F :=
  let s :=
    if btnA_pressed inp
    then drawFullScreen (set_chime (select_prev (current_chime s)) s)
    else s in
  let s :=
    if btnB_released inp
    then drawFullScreen
           (set_vel fzero fzero (set_pos fzero fzero (set_cal (cal_sample inp) s)))
    else s in
  if btnC_pressed inp
  then drawFullScreen (set_chime (select_next (current_chime s)) s)
  else s.

(** *** [loop()], steps 1 to 4: the physics *)

(** [sqrt(a * a + b * b)] *)
Definition norm2 (a b : F) : F := fsqrt (a * a + b * b).

(** 1. Read IMU tilt (subtract calibration offset) *)
Definition read_tilt (inp : Input F) (s : State F) : F * F :=
  (fst (accel inp) - cal_ax s, snd (accel inp) - cal_ay s).

(** 2. Update ball velocity, apply friction *)
Definition accelerate (tilt : F * F) (v : F * F) : F * F :=
  (fst v - fst tilt * GRAVITY_SCALE * float_lit 2 100,
   snd v + snd tilt * GRAVITY_SCALE * float_lit 2 100).

Definition apply_friction (v : F * F) : F * F :=
  (fst v * FRICTION, snd v * FRICTION).

(** Clamp speed *)
Definition clamp_speed (v : F * F) : F * F :=
  let speed := norm2 (fst v) (snd v) in
  if flt MAX_SPEED speed
  then (fst v / speed * MAX_SPEED, snd v / speed * MAX_SPEED)
  else v.

(** [float max_dist = TUBE_R - BALL_R - 4;] (integer arithmetic, then
    converted) *)
Definition max_dist : F := float_of_int (TUBE_R - BALL_R - 4).

(** 4. Constrain to tube interior (bounce off wall); the arguments are
    the position and velocity after step 3. *)
Definition constrain_to_tube (p v : F * F) : (F * F) * (F * F) :=
  let dist_from_center := norm2 (fst p) (snd p) in
  if flt max_dist dist_from_center
  then
    let nx := fst p / dist_from_center in
    let ny := snd p / dist_from_center in
    let dot := fst v * nx + snd v * ny in
    let vx := fst v - float_of_int 2 * dot * nx in
    let vy := snd v - float_of_int 2 * dot * ny in
    ((nx * max_dist, ny * max_dist),
     (vx * float_lit 5 10, vy * float_lit 5 10))
  else (p, v).

(** Steps 1 to 3: the position and velocity that reach the wall test. *)
Definition integrate (inp : Input F) (s : State F) : (F * F) * (F * F) :=
  let v := (ball_vx s, ball_vy s) in
  let v := accelerate (read_tilt inp s) v in
  let v := apply_friction v in
  let v := clamp_speed v in
  (* 3. Update position *)
  ((ball_x s + fst v, ball_y s + snd v), v).

Definition physics_step (inp : Input F) (s : State F) : State F :=
  let '(p, v) := integrate inp s in
  let '(p, v) := constrain_to_tube p v in
  set_vel (fst v) (snd v) (set_pos (fst p) (snd p) s).

(** *** [loop()], step 5: rod collisions *)

Definition rod_dx (s : State F) (i : nat) : F := ball_x s - rod_fx s !!! i.
Definition rod_dy (s : State F) (i : nat) : F := ball_y s - rod_fy s !!! i.
Definition rod_dist (s : State F) (i : nat) : F := norm2 (rod_dx s i) (rod_dy s i).

(** [d < HIT_DIST && (now - rod_last_hit[i]) > ROD_DEBOUNCE] *)
Definition rod_fires (t : Z) (s : State F) (i : nat) : bool :=
  flt (rod_dist s i) HIT_DIST
  && (ROD_DEBOUNCE <? ulong_sub t (rod_last_hit s !!! i))%Z.

(** [uint8_t velocity = (uint8_t)(30 + hit_speed * 5);
    if (velocity > 127) velocity = 127;] *)
Definition hit_speed (s : State F) : F := norm2 (ball_vx s) (ball_vy s).

Definition note_velocity (s : State F) : Z :=
  let velocity := to_uint8 (float_of_int 30 + hit_speed s * float_of_int 5) in
  if (127 <? velocity)%Z then 127%Z else velocity.

(** Bounce ball away from rod *)
Definition rod_bounce (i : nat) (s : State F) : State F :=
  let d := rod_dist s i in
  if flt (float_lit 1 10) d
  then set_vel (rod_dx s i / d * ROD_BOUNCE) (rod_dy s i / d * ROD_BOUNCE) s
  else s.

(** [rod_last_hit[i] = now; rod_glow[i] = 15;] *)
Definition mark_hit (t : Z) (i : nat) (s : State F) : State F :=
  set_glow (<[i := 15%Z]> (rod_glow s))
    (set_last_hit (<[i := t]> (rod_last_hit s)) s).

(** [synth.setNoteOn(0, chime_notes[current_chime][i], velocity)] *)
Definition note_on (i : nat) (s : State F) : NoteOn :=
  mkNoteOn 0 (chime_notes (current_chime s) !!! i) (note_velocity s).

(** The body of the [for] loop for rod [i]; events are appended in the
    order in which [setNoteOn] is called. *)
Definition rod_step (t : Z) (acc : State F * list NoteOn) (i : nat)
  : State F * list NoteOn :=
  let '(s, out) := acc in
  if rod_fires t s i
  then
    let s1 := mark_hit t i s in
    (rod_bounce i s1, out ++ [note_on i s1])
  else (s, out).

Definition check_rods (t : Z) (s : State F) : State F * list NoteOn :=
  fold_left (rod_step t) (seq 0 NUM_RODS) (s, []).

(** *** [drawUpdate()]: of its effects only the glow decay is state *)
Definition glow_step (g : list Z) (i : nat) : list Z :=
  if (0 <? g !!! i)%Z then <[i := uint8_dec (g !!! i)]> g else g.

Definition drawUpdate (s : State F) : State F :=
  set_glow (fold_left glow_step (seq 0 NUM_RODS) (rod_glow s)) s.

(** *** [loop()] *)
Definition loop (s : State F) (inp : Input F) : State F * list NoteOn :=
  let s := handle_buttons inp s in
  let s := physics_step inp s in
  let '(s, out) := check_rods (now inp) s in
  (drawUpdate s, out).

(** Successive calls of [loop()], one per input, with the events in the
    order of emission. *)
Fixpoint run (s : State F) (inps : list (Input F)) : State F * list NoteOn :=
  match inps with
  | [] => (s, [])
  | inp :: rest =>
      let '(s1, out1) := loop s inp in
      let '(s2, out2) := run s1 rest in
      (s2, out1 ++ out2)
  end.

(** *** Predicates used in the statements below *)

(** The part of the state that the collision pass only reads. *)
Definition same_frame (s s' : State F) : Prop :=
  ball_x s' = ball_x s /\ ball_y s' = ball_y s /\
  rod_fx s' = rod_fx s /\ rod_fy s' = rod_fy s /\
  current_chime s' = current_chime s /\
  cal_ax s' = cal_ax s /\ cal_ay s' = cal_ay s /\
  length (rod_last_hit s') = length (rod_last_hit s) /\
  length (rod_glow s') = length (rod_glow s).

(** The input of a call during which no button event is pending. *)
Definition tick (a : F * F) (t : Z) : Input F :=
  mkInput false false false a a t.

(** The input of a call that finds BtnC pressed, and of one that finds
    BtnA pressed, nothing else pending. *)
Definition press_next (a : F * F) (t : Z) : Input F :=
  mkInput false false true a a t.

Definition press_prev (a : F * F) (t : Z) : Input F :=
  mkInput true false false a a t.

End Sketch.

(** Every glow counter lies in [0, 15]. *)
Definition glow_ok (g : list Z) : Prop := Forall (fun x => 0 <= x <= 15) g.

(** A note-on velocity between the base constant and the MIDI maximum. *)
Definition velocity_in_range (ev : NoteOn) : Prop := (30 <= velocity ev <= 127)%Z.

(** ** Further inputs and the screen position of the ball *)

(** The input of a call that finds BtnB released while the IMU reads [a],
    in the handler and in step 1 alike. *)
Definition press_calibrate {F : Type} (a : F * F) (t : Z) : Input F :=
  mkInput false true false a a t.

(** Whether a call finds any button event pending. *)
Definition button_event {F : Type} (inp : Input F) : bool :=
  btnA_pressed inp || btnB_released inp || btnC_pressed inp.

(** [const int16_t CX = 160;  const int16_t CY = 115;] *)
Definition CX : Z := 160.
Definition CY : Z := 115.

(** Storing an [int] into an [int16_t] (two's complement). *)
Definition int16_wrap (z : Z) : Z := (z + 32768) mod 65536 - 32768.

(** [(int16_t)x] of a [float] [x]: the integer part when an [int16_t] can
    hold it; the conversion is undefined otherwise ([None]). *)
Definition to_int16 `{FloatArith F} (x : F) : option Z :=
  match float_trunc x with
  | Some z => if (-32768 <=? z) && (z <=? 32767) then Some z else None
  | None => None
  end.

(** [drawUpdate()]:
    [int16_t ball_sx = CX + (int16_t)ball_x;
     int16_t ball_sy = CY + (int16_t)ball_y;] *)
Definition ball_screen `{FloatArith F} (s : State F) : option (Z * Z) :=
  match to_int16 (ball_x s), to_int16 (ball_y s) with
  | Some x, Some y => Some (int16_wrap (CX + x), int16_wrap (CY + y))
  | _, _ => None
  end.

(** The rods whose strike overwrites the ball velocity: those that fire
    with the guard [d > 0.1f] of the bounce passed. *)
Definition rod_bounces `{FloatArith F} (t : Z) (s : State F) (i : nat) : bool :=
  rod_fires t s i && flt (float_lit 1 10) (rod_dist s i).

(** The ball lies in the centre at rest and the calibration offset is [a]. *)
Definition at_rest `{FloatArith F} (a : F * F) (s : State F) : Prop :=
  ball_x s = float_of_int 0 /\ ball_y s = float_of_int 0 /\
  ball_vx s = float_of_int 0 /\ ball_vy s = float_of_int 0 /\
  cal_ax s = fst a /\ cal_ay s = snd a.

(** ** Binary32: the arithmetic of the ESP32's [float] *)

Module Binary32.

Definition prec : Z := 24.
Definition emax : Z := 128.

Definition float32 : Type := spec_float.

Definition of_int (z : Z) : float32 := binary_normalize prec emax z 0 false.

(** Both parts of every literal of the sketch are integers below [2^24],
    hence exact in binary32, so the correctly rounded quotient is the
    literal's value. *)
Definition lit (m d : Z) : float32 := SFdiv prec emax (of_int m) (of_int d).

Definition trunc (x : float32) : option Z :=
  match x with
  | S754_zero _ => Some 0
  | S754_finite s m e =>
      let mag := match e with
                 | Zneg p => Z.shiftr (Zpos m) (Zpos p)
                 | _ => Z.shiftl (Zpos m) e
                 end in
      Some (if s then - mag else mag)
  | S754_infinity _ | S754_nan => None
  end.

#[global] Instance arith : FloatArith float32 := {
  fadd := SFadd prec emax;
  fsub := SFsub prec emax;
  fmul := SFmul prec emax;
  fdiv := SFdiv prec emax;
  fsqrt := SFsqrt prec emax;
  flt := SFltb;
  float_of_int := of_int;
  float_lit := lit;
  float_trunc := trunc
}.

#[global] Instance float32_eq_dec : EqDecision float32.
Proof. solve_decision. Defined.

(** [cos] and [sin] at the eight arguments [rod_angle 0 .. rod_angle 7]
    that [setup()] passes them, each rounded to the nearest binary32
    value; a C library may differ from these in the last bit.  Rows are
    [(angle, (cos angle, sin angle))]. *)
Definition trig_table : list (float32 * (float32 * float32)) :=
  [ (S754_finite true 13176784 (-23),
      (S754_finite false 11149847 (-43), S754_finite true 8388608 (-23)));
    (S754_finite true 13176784 (-24),
      (S754_finite false 11863291 (-24), S754_finite true 11863276 (-24)));
    (S754_zero false,
      (S754_finite false 8388608 (-23), S754_zero false));
    (S754_finite false 13176784 (-24),
      (S754_finite false 11863291 (-24), S754_finite false 11863276 (-24)));
    (S754_finite false 13176784 (-23),
      (S754_finite false 11149847 (-43), S754_finite false 8388608 (-23)));
    (S754_finite false 9882588 (-22),
      (S754_finite true 11863261 (-24), S754_finite false 11863306 (-24)));
    (S754_finite false 13176784 (-22),
      (S754_finite true 8388608 (-23), S754_finite false 11149847 (-42)));
    (S754_finite false 16470980 (-22),
      (S754_finite true 11863321 (-24), S754_finite true 11863246 (-24))) ].

Definition trig (x : float32) : float32 * float32 :=
  match List.find (fun row => bool_decide (fst row = x)) trig_table with
  | Some row => snd row
  | None => (S754_nan, S754_nan)
  end.

Definition cosf (x : float32) : float32 := fst (trig x).
Definition sinf (x : float32) : float32 := snd (trig x).

(** The state after [setup()] with the device lying flat. *)
Definition boot : State float32 := setup cosf sinf (of_int 0, of_int 0).

(** [n] calls of [loop()] under the constant IMU reading [a], the first at
    [millis() = t0] and one every 20 ms (the [delay(20)] of the sketch)
    from there, the clock wrapping at [2^32]. *)
Definition ticks (a : float32 * float32) (t0 : Z) (n : nat) : list (Input float32) :=
  map (fun k => tick a ((t0 + 20 * Z.of_nat k) mod ULONG_MOD)) (seq 0 n).

(** The rational number a finite binary32 value stands for. *)
Definition exact (x : float32) : Q :=
  match x with
  | S754_finite s m e =>
      ((if s then -1 else 1) * inject_Z (Zpos m) * Qpower 2 e)%Q
  | _ => 0%Q
  end.

(** Tilt readings used in the runs below. *)
Definition tilt_right_down : float32 * float32 := (lit (-5) 10, lit 25 100).
Definition tilt_up : float32 * float32 := (of_int 0, of_int (-1)).
Definition tilt_up_right : float32 * float32 := (lit (-375) 1000, of_int (-1)).

(** ** Binary32 values as real numbers

    The vocabulary of the rounding-error analysis of the speed clamp and
    of the wall projection. *)

(** The integer content of [binary_round_aux] on a mantissa that is at
    least as fine as the format asks ([ex <= fexp (digits mx + ex)]). *)
Record round_shape (mx ex : Z) (m1 m2 m3 e1 e3 : Z) : Prop := {
  rs_e1 : e1 = fexp prec emax (Zdigits2 mx + ex);
  rs_m1 : m1 = mx / 2 ^ (e1 - ex);
  rs_m2 : m1 <= m2 <= m1 + 1;
  rs_e3 : e3 = Z.max e1 (fexp prec emax (Zdigits2 m2 + e1));
  rs_m3 : m3 = m2 / 2 ^ (e3 - e1)
}.

Local Open Scope R_scope.

Definition bpow (e : Z) : R := powerRZ 2 e.

Definition Rsign (s : bool) : R := if s then -1 else 1.

Definition to_R (x : spec_float) : R :=
  match x with
  | S754_finite s m e => Rsign s * IZR (Zpos m) * bpow e
  | _ => 0
  end.

Definition is_finite (x : spec_float) : bool :=
  match x with
  | S754_zero _ | S754_finite _ _ _ => true
  | _ => false
  end.

(** The relative and the absolute error of one rounding. *)
Definition eps : R := bpow (-23).
Definition eta : R := bpow (-149).

(** [r] stands for the exact value [v]: either an overflow, which needs a
    large [v], or a finite value within one unit in the last place. *)
Definition approx (r : spec_float) (v : R) : Prop :=
  match r with
  | S754_nan => False
  | S754_infinity _ => bpow 105 <= Rabs v
  | _ => Rabs (to_R r - v) <= eps * Rabs (to_R r) + eta
  end.

Definition sign_is (r : spec_float) (s : bool) : Prop :=
  match r with
  | S754_nan => False
  | S754_zero s' | S754_infinity s' | S754_finite s' _ _ => s' = s
  end.

Definition valid (r : spec_float) : Prop := valid_binary prec emax r = true.

(** The operations of the instance, by name. *)
Definition fmul32 := SFmul prec emax.
Definition fadd32 := SFadd prec emax.
Definition fdiv32 := SFdiv prec emax.
Definition fsqrt32 := SFsqrt prec emax.
Definition norm32 (a b : spec_float) := fsqrt32 (fadd32 (fmul32 a a) (fmul32 b b)).

Definition rescale (L : spec_float) (p : spec_float * spec_float) :=
  let d := norm32 (fst p) (snd p) in
  if SFltb L d then (fmul32 (fdiv32 (fst p) d) L, fmul32 (fdiv32 (snd p) d) L) else p.

Definition nonneg_fin (a : spec_float) : Prop :=
  a = S754_zero false \/ exists m e, a = S754_finite false m e.

Definition near (r : spec_float) (v : R) : Prop :=
  Rabs (to_R r - v) <= eps * Rabs (to_R r) + eta.

(** The exact Euclidean length of a vector of two binary32 numbers. *)
Definition magnitude (x y : float32) : R :=
  sqrt (to_R x * to_R x + to_R y * to_R y).


Local Open Scope Z_scope.

(** ** The rod table as integers

    [scaled64 x] is the exact value of [x] times [2^64], an integer for
    every [x] whose exponent is at least -64. *)
Definition scaled64 (x : spec_float) : Z :=
  match x with
  | S754_finite s m e => (if s then -1 else 1) * (Z.pos m * 2 ^ (e + 64))
  | _ => 0
  end.

Definition fine64 (x : spec_float) : bool :=
  match x with
  | S754_finite _ _ e => -64 <=? e
  | S754_zero _ => true
  | _ => false
  end.

(** The position of rod [i] in the table that [setup()] computes. *)
Definition rod_x (i : nat) : float32 := rod_fx boot !!! i.
Definition rod_y (i : nat) : float32 := rod_fy boot !!! i.

(** Rods [i] and [j] of that table are more than 50 apart. *)
Definition far_apart (i j : nat) : bool :=
  let dx := scaled64 (rod_x i) - scaled64 (rod_x j) in
  let dy := scaled64 (rod_y i) - scaled64 (rod_y j) in
  2500 * 2 ^ 128 <? dx * dx + dy * dy.

(** Neighbours on the circle of eight rods. *)
Definition neighbours (i j : nat) : bool :=
  (j =? S i)%nat || (i =? S j)%nat
  || ((i =? 0)%nat && (j =? 7)%nat) || ((i =? 7)%nat && (j =? 0)%nat).

(** Among the flags of the eight rods, no two that are set belong to rods
    that are not neighbours. *)
Definition only_neighbours (bs : list bool) : bool :=
  forallb (fun i =>
    forallb (fun j =>
      (i =? j)%nat || neighbours i j || negb (bs !!! i && bs !!! j))
      (seq 0 NUM_RODS))
    (seq 0 NUM_RODS).

(** ** Values in range

    The velocity that reaches the clamp: the tilt, scaled by
    [GRAVITY_SCALE * 0.02f], and friction. *)
Definition kicked (inp : Input float32) (s : State float32) : float32 * float32 :=
  (SFmul prec emax
     (SFsub prec emax (ball_vx s)
        (SFmul prec emax
           (SFmul prec emax (SFsub prec emax (fst (accel inp)) (cal_ax s)) GRAVITY_SCALE)
           (lit 2 100)))
     FRICTION,
   SFmul prec emax
     (SFadd prec emax (ball_vy s)
        (SFmul prec emax
           (SFmul prec emax (SFsub prec emax (snd (accel inp)) (cal_ay s)) GRAVITY_SCALE)
           (lit 2 100)))
     FRICTION).

(** A number (neither infinite nor NaN) of magnitude at most [B]. *)
Definition in_range (B : R) (x : float32) : Prop :=
  is_finite x = true /\ (Rabs (to_R x) <= B)%R.

(** The IMU reads of a call that the arithmetic is safe with: finite
    accelerations of magnitude at most 64 on both axes, in step 1 and, when
    the call finds BtnB released, in the handler's read. *)
Definition input_ok (inp : Input float32) : Prop :=
  in_range 64 (fst (accel inp)) /\ in_range 64 (snd (accel inp)) /\
  (btnB_released inp = true ->
   in_range 64 (fst (cal_sample inp)) /\ in_range 64 (snd (cal_sample inp))).

(** The states reached under such reads. *)
Definition safe (s : State float32) : Prop :=
  in_range 64 (cal_ax s) /\ in_range 64 (cal_ay s) /\
  is_finite (ball_x s) = true /\ is_finite (ball_y s) = true /\
  (magnitude (ball_x s) (ball_y s) <= 51 * (1 + / 1048576))%R /\
  in_range 4096 (ball_vx s) /\ in_range 4096 (ball_vy s) /\
  forall i, (i < NUM_RODS)%nat ->
    in_range 64 (rod_fx s !!! i) /\ in_range 64 (rod_fy s !!! i).

(** The states in which the collision pass examines a rod: safe, with a
    velocity of at most 31 on each axis. *)
Definition calm (s : State float32) : Prop :=
  safe s /\ in_range 31 (ball_vx s) /\ in_range 31 (ball_vy s).

(** ** States of a run, whatever the IMU reads

    [placed]: the rod table is the one [setup()] computed and the
    position, if it is a pair of numbers, is inside the tube (up to
    rounding).  [ready]: moreover position and velocity are numbers and
    the speed is at most [MAX_SPEED] (up to rounding); the collision pass
    can strike a rod only in such a state. *)
Definition placed (s : State float32) : Prop :=
  rod_fx s = rod_fx boot /\ rod_fy s = rod_fy boot /\
  (is_finite (ball_x s) = true -> is_finite (ball_y s) = true ->
   (magnitude (ball_x s) (ball_y s) <= 51 * (1 + / 1048576))%R).

Definition ready (s : State float32) : Prop :=
  rod_fx s = rod_fx boot /\ rod_fy s = rod_fy boot /\
  is_finite (ball_x s) = true /\ is_finite (ball_y s) = true /\
  (magnitude (ball_x s) (ball_y s) <= 51 * (1 + / 1048576))%R /\
  is_finite (ball_vx s) = true /\ is_finite (ball_vy s) = true /\
  (magnitude (ball_vx s) (ball_vy s) <= 20 * (1 + / 1048576))%R.

End Binary32.

(** ** Ideal: the same code over the real numbers *)

Module Ideal.

Definition Rltb (a b : R) : bool := if Rlt_dec a b then true else false.

(** Rounding toward zero. *)
Definition Rtrunc (r : R) : Z :=
  if Rle_dec 0 r then Int_part r else (- Int_part (- r))%Z.

#[global] Instance arith : FloatArith R := {
  fadd := Rplus;
  fsub := Rminus;
  fmul := Rmult;
  fdiv := Rdiv;
  fsqrt := sqrt;
  flt := Rltb;
  float_of_int := IZR;
  float_lit := fun m d => (IZR m / IZR d)%R;
  float_trunc := fun r => Some (Rtrunc r)
}.

(** The state after [setup()], the first IMU read being [imu]. *)
Definition boot (imu : R * R) : State R := setup cos sin imu.

End Ideal.

(** * Properties that hold in every arithmetic *)

Section Frame.
Context {F : Type} `{FA : FloatArith F}.

Implicit Types (s : State F) (out : list NoteOn) (i j : nat) (t : Z).

(** ** Chime selection *)

Lemma select_next_index c :
  chime_index (select_next c) = (chime_index c + 1) mod 4.
Proof. destruct c; reflexivity. Qed.

Lemma select_prev_index c :
  chime_index (select_prev c) = (chime_index c + 3) mod 4.
Proof. destruct c; reflexivity. Qed.

Lemma select_prev_next c : select_prev (select_next c) = c.
Proof. destruct c; reflexivity. Qed.

Lemma select_next_prev c : select_next (select_prev c) = c.
Proof. destruct c; reflexivity. Qed.

(** ** What the rod loop leaves alone *)

Lemma same_frame_refl s : same_frame s s.
Proof. repeat split. Qed.

Lemma same_frame_trans s1 s2 s3 :
  same_frame s1 s2 -> same_frame s2 s3 -> same_frame s1 s3.
Proof.
  unfold same_frame; intros H12 H23.
  destruct H12 as (?&?&?&?&?&?&?&?&?), H23 as (?&?&?&?&?&?&?&?&?).
  repeat split; congruence.
Qed.

Lemma mark_hit_frame t i s : same_frame s (mark_hit t i s).
Proof.
  unfold same_frame, mark_hit; simpl.
  rewrite !length_insert. repeat split.
Qed.

Lemma rod_bounce_frame i s : same_frame s (rod_bounce i s).
Proof.
  unfold rod_bounce. destruct (flt _ _); [|apply same_frame_refl].
  repeat split.
Qed.

Lemma rod_bounce_last_hit i s : rod_last_hit (rod_bounce i s) = rod_last_hit s.
Proof. unfold rod_bounce. destruct (flt _ _); reflexivity. Qed.

Lemma rod_bounce_glow i s : rod_glow (rod_bounce i s) = rod_glow s.
Proof. unfold rod_bounce. destruct (flt _ _); reflexivity. Qed.

Lemma rod_step_frame t s out i : same_frame s (fst (rod_step t (s, out) i)).
Proof.
  unfold rod_step. destruct (rod_fires t s i); simpl.
  - eapply same_frame_trans; [apply mark_hit_frame | apply rod_bounce_frame].
  - apply same_frame_refl.
Qed.

(** The [if] of rod [i] reads the ball position, the rod table and the
    rod's own timestamp, nothing else. *)
Lemma rod_fires_ext t s s' i :
  same_frame s s' ->
  rod_last_hit s' !!! i = rod_last_hit s !!! i ->
  rod_fires t s' i = rod_fires t s i.
Proof.
  intros (Hx & Hy & Hfx & Hfy & _) Hl.
  unfold rod_fires, rod_dist, rod_dx, rod_dy.
  rewrite Hx, Hy, Hfx, Hfy, Hl. reflexivity.
Qed.

Lemma rod_step_last_hit_ne t s out i j :
  i <> j ->
  rod_last_hit (fst (rod_step t (s, out) j)) !!! i = rod_last_hit s !!! i.
Proof.
  intros Hne. unfold rod_step. destruct (rod_fires t s j); simpl; [|reflexivity].
  rewrite rod_bounce_last_hit. unfold mark_hit; simpl.
  apply list_lookup_total_insert_ne. congruence.
Qed.

Lemma rod_step_glow_ne t s out i j :
  i <> j ->
  rod_glow (fst (rod_step t (s, out) j)) !!! i = rod_glow s !!! i.
Proof.
  intros Hne. unfold rod_step. destruct (rod_fires t s j); simpl; [|reflexivity].
  rewrite rod_bounce_glow. unfold mark_hit; simpl.
  apply list_lookup_total_insert_ne. congruence.
Qed.

Lemma rod_step_last_hit_eq t s out i :
  (i < length (rod_last_hit s))%nat ->
  rod_last_hit (fst (rod_step t (s, out) i)) !!! i
  = if rod_fires t s i then t else rod_last_hit s !!! i.
Proof.
  intros Hi. unfold rod_step. destruct (rod_fires t s i); simpl; [|reflexivity].
  rewrite rod_bounce_last_hit. unfold mark_hit; simpl.
  apply list_lookup_total_insert_eq. exact Hi.
Qed.

Lemma rod_step_glow_eq t s out i :
  (i < length (rod_glow s))%nat ->
  rod_glow (fst (rod_step t (s, out) i)) !!! i
  = if rod_fires t s i then 15 else rod_glow s !!! i.
Proof.
  intros Hi. unfold rod_step. destruct (rod_fires t s i); simpl; [|reflexivity].
  rewrite rod_bounce_glow. unfold mark_hit; simpl.
  apply list_lookup_total_insert_eq. exact Hi.
Qed.

Lemma rod_step_out t s out i :
  snd (rod_step t (s, out) i)
  = out ++ (if rod_fires t s i then [note_on i (mark_hit t i s)] else []).
Proof.
  unfold rod_step. destruct (rod_fires t s i); simpl; [reflexivity|].
  symmetry; apply app_nil_r.
Qed.

(** One pass over a duplicate-free list of rods, started in a state [s]
    that still shows the rods of [l] as the pass found them in [s0]. *)
Lemma fold_rods_frame t l : forall s out,
  same_frame s (fst (fold_left (rod_step t) l (s, out))).
Proof.
  induction l as [|a l IH]; intros s out; cbn [fold_left].
  - apply same_frame_refl.
  - destruct (rod_step t (s, out) a) as [s1 out1] eqn:E.
    eapply same_frame_trans; [|apply IH].
    replace s1 with (fst (rod_step t (s, out) a)) by (rewrite E; reflexivity).
    apply rod_step_frame.
Qed.

Lemma fold_rods_events t l : NoDup l -> forall s out,
  map (fun ev => (channel ev, pitch ev)) (snd (fold_left (rod_step t) l (s, out)))
  = map (fun ev => (channel ev, pitch ev)) out
    ++ map (fun i => (0, chime_notes (current_chime s) !!! i))
           (List.filter (rod_fires t s) l).
Proof.
  induction 1 as [|a l Ha Hl IH]; intros s out; cbn [fold_left List.filter].
  - simpl. symmetry; apply app_nil_r.
  - destruct (rod_step t (s, out) a) as [s1 out1] eqn:E.
    assert (Hs1 : s1 = fst (rod_step t (s, out) a)) by (rewrite E; reflexivity).
    assert (Ho1 : out1 = snd (rod_step t (s, out) a)) by (rewrite E; reflexivity).
    assert (Hfr : same_frame s s1) by (rewrite Hs1; apply rod_step_frame).
    rewrite IH.
    assert (Hflt : List.filter (rod_fires t s1) l = List.filter (rod_fires t s) l).
    { apply List.filter_ext_in. intros i Hi.
      apply rod_fires_ext; [exact Hfr|].
      rewrite Hs1. apply rod_step_last_hit_ne.
      intros ->. apply Ha. apply list_elem_of_In. exact Hi. }
    rewrite Hflt.
    destruct Hfr as (_ & _ & _ & _ & Hc & _). rewrite Hc.
    rewrite Ho1, rod_step_out.
    destruct (rod_fires t s a); simpl.
    + rewrite map_app, <- app_assoc. reflexivity.
    + rewrite app_nil_r. reflexivity.
Qed.

Lemma fold_rods_last_hit t i l : NoDup l -> forall s out,
  (i < length (rod_last_hit s))%nat ->
  rod_last_hit (fst (fold_left (rod_step t) l (s, out))) !!! i
  = if bool_decide (i ∈ l) && rod_fires t s i then t else rod_last_hit s !!! i.
Proof.
  induction 1 as [|a l Ha Hl IH]; intros s out Hi; cbn [fold_left].
  - reflexivity.
  - destruct (rod_step t (s, out) a) as [s1 out1] eqn:E.
    assert (Hs1 : s1 = fst (rod_step t (s, out) a)) by (rewrite E; reflexivity).
    assert (Hfr : same_frame s s1) by (rewrite Hs1; apply rod_step_frame).
    assert (Hlen : (i < length (rod_last_hit s1))%nat).
    { destruct Hfr as (_&_&_&_&_&_&_&Hlen&_). rewrite Hlen. exact Hi. }
    rewrite IH by exact Hlen.
    destruct (decide (i = a)) as [->|Hne].
    + rewrite (bool_decide_eq_false_2 (a ∈ l)) by exact Ha.
      rewrite (bool_decide_eq_true_2 (a ∈ a :: l)) by apply list_elem_of_here.
      simpl. rewrite Hs1. apply rod_step_last_hit_eq. exact Hi.
    + rewrite (rod_fires_ext t s s1 i Hfr)
        by (rewrite Hs1; apply rod_step_last_hit_ne; exact Hne).
      rewrite Hs1, rod_step_last_hit_ne by exact Hne.
      assert (Hb : bool_decide (i ∈ a :: l) = bool_decide (i ∈ l)).
      { apply bool_decide_ext. rewrite elem_of_cons. tauto. }
      rewrite Hb. reflexivity.
Qed.

Lemma check_rods_events t s :
  map (fun ev => (channel ev, pitch ev)) (snd (check_rods t s))
  = map (fun i => (0, chime_notes (current_chime s) !!! i))
        (List.filter (rod_fires t s) (seq 0 NUM_RODS)).
Proof. unfold check_rods. rewrite fold_rods_events by apply NoDup_seq. reflexivity. Qed.

Lemma check_rods_last_hit t s i :
  (i < NUM_RODS)%nat -> (i < length (rod_last_hit s))%nat ->
  rod_last_hit (fst (check_rods t s)) !!! i
  = if rod_fires t s i then t else rod_last_hit s !!! i.
Proof.
  intros Hi Hlen. unfold check_rods.
  rewrite fold_rods_last_hit by (apply NoDup_seq || exact Hlen).
  rewrite bool_decide_eq_true_2; [reflexivity|].
  apply elem_of_seq. lia.
Qed.

(** ** The other phases of [loop()] *)

Lemma loop_fst s (inp : Input F) :
  fst (loop s inp)
  = drawUpdate (fst (check_rods (now inp) (physics_step inp (handle_buttons inp s)))).
Proof. unfold loop. destruct (check_rods _ _); reflexivity. Qed.

Lemma loop_snd s (inp : Input F) :
  snd (loop s inp)
  = snd (check_rods (now inp) (physics_step inp (handle_buttons inp s))).
Proof. unfold loop. destruct (check_rods _ _); reflexivity. Qed.

Lemma handle_buttons_tables (inp : Input F) s :
  rod_last_hit (handle_buttons inp s) = rod_last_hit s /\
  rod_glow (handle_buttons inp s) = rod_glow s /\
  rod_fx (handle_buttons inp s) = rod_fx s /\
  rod_fy (handle_buttons inp s) = rod_fy s.
Proof.
  unfold handle_buttons.
  destruct (btnA_pressed inp), (btnB_released inp), (btnC_pressed inp);
    repeat split.
Qed.

Lemma physics_step_tables (inp : Input F) s :
  rod_last_hit (physics_step inp s) = rod_last_hit s /\
  rod_glow (physics_step inp s) = rod_glow s /\
  rod_fx (physics_step inp s) = rod_fx s /\
  rod_fy (physics_step inp s) = rod_fy s /\
  current_chime (physics_step inp s) = current_chime s.
Proof.
  unfold physics_step. destruct (integrate inp s) as [p v].
  destruct (constrain_to_tube p v) as [p' v'].
  repeat split.
Qed.

Lemma drawUpdate_last_hit s : rod_last_hit (drawUpdate s) = rod_last_hit s.
Proof. reflexivity. Qed.

Lemma drawUpdate_glow s :
  rod_glow (drawUpdate s) = fold_left glow_step (seq 0 NUM_RODS) (rod_glow s).
Proof. reflexivity. Qed.

Lemma drawUpdate_chime s : current_chime (drawUpdate s) = current_chime s.
Proof. reflexivity. Qed.

Lemma loop_chime s (inp : Input F) :
  current_chime (fst (loop s inp)) = current_chime (handle_buttons inp s).
Proof.
  rewrite loop_fst, drawUpdate_chime.
  destruct (fold_rods_frame (now inp) (seq 0 NUM_RODS)
              (physics_step inp (handle_buttons inp s)) []) as (_&_&_&_&Hc&_).
  unfold check_rods. rewrite Hc.
  apply physics_step_tables.
Qed.

(** ** Glow counters *)

Lemma glow_step_ok g i : glow_ok g -> glow_ok (glow_step g i).
Proof.
  unfold glow_ok, glow_step. intros Hg.
  destruct (0 <? g !!! i) eqn:Hpos; [|exact Hg].
  destruct (decide (i < length g)%nat) as [Hi|Hi].
  - apply Forall_insert; [exact Hg|].
    pose proof (Forall_lookup_total_1 _ _ i Hg Hi) as Hb; simpl in Hb.
    apply Z.ltb_lt in Hpos. unfold uint8_dec.
    rewrite Z.mod_small by lia. lia.
  - rewrite list_insert_ge by lia. exact Hg.
Qed.

Lemma fold_glow_step_ok l : forall g, glow_ok g -> glow_ok (fold_left glow_step l g).
Proof.
  induction l as [|a l IH]; intros g Hg; cbn [fold_left]; [exact Hg|].
  apply IH, glow_step_ok, Hg.
Qed.

Lemma rod_step_glow_ok t s out i :
  glow_ok (rod_glow s) -> glow_ok (rod_glow (fst (rod_step t (s, out) i))).
Proof.
  intros Hg. unfold rod_step. destruct (rod_fires t s i); simpl; [|exact Hg].
  rewrite rod_bounce_glow. unfold mark_hit; simpl.
  apply Forall_insert; [exact Hg | lia].
Qed.

Lemma fold_rods_glow_ok t l : forall s out,
  glow_ok (rod_glow s) ->
  glow_ok (rod_glow (fst (fold_left (rod_step t) l (s, out)))).
Proof.
  induction l as [|a l IH]; intros s out Hg; cbn [fold_left]; [exact Hg|].
  destruct (rod_step t (s, out) a) as [s1 out1] eqn:E.
  apply IH.
  replace s1 with (fst (rod_step t (s, out) a)) by (rewrite E; reflexivity).
  apply rod_step_glow_ok, Hg.
Qed.

Lemma check_rods_glow_ok t s :
  glow_ok (rod_glow s) -> glow_ok (rod_glow (fst (check_rods t s))).
Proof. apply fold_rods_glow_ok. Qed.

Lemma loop_glow_ok s (inp : Input F) :
  glow_ok (rod_glow s) -> glow_ok (rod_glow (fst (loop s inp))).
Proof.
  intros Hg. rewrite loop_fst, drawUpdate_glow.
  apply fold_glow_step_ok, check_rods_glow_ok.
  destruct (physics_step_tables inp (handle_buttons inp s)) as (_ & -> & _).
  destruct (handle_buttons_tables inp s) as (_ & -> & _).
  exact Hg.
Qed.

Lemma run_fst_cons s (inp : Input F) inps :
  fst (run s (inp :: inps)) = fst (run (fst (loop s inp)) inps).
Proof.
  simpl. destruct (loop s inp) as [s1 o1]. simpl.
  destruct (run s1 inps). reflexivity.
Qed.

Lemma run_glow_ok inps : forall s,
  glow_ok (rod_glow s) -> glow_ok (rod_glow (fst (run s inps))).
Proof.
  induction inps as [|inp inps IH]; intros s Hg; [exact Hg|].
  rewrite run_fst_cons. apply IH, loop_glow_ok, Hg.
Qed.

(** ** Where the ball ends up *)

Lemma physics_step_ball (inp : Input F) s :
  let pv := constrain_to_tube (fst (integrate inp s)) (snd (integrate inp s)) in
  ball_x (physics_step inp s) = fst (fst pv) /\
  ball_y (physics_step inp s) = snd (fst pv) /\
  ball_vx (physics_step inp s) = fst (snd pv) /\
  ball_vy (physics_step inp s) = snd (snd pv).
Proof.
  cbv zeta. unfold physics_step.
  destruct (integrate inp s) as [p v]; cbn [fst snd].
  destruct (constrain_to_tube p v) as [p' v']. repeat split.
Qed.

Lemma loop_position (inp : Input F) s :
  ball_x (fst (loop s inp)) = ball_x (physics_step inp (handle_buttons inp s)) /\
  ball_y (fst (loop s inp)) = ball_y (physics_step inp (handle_buttons inp s)).
Proof.
  rewrite loop_fst.
  destruct (fold_rods_frame (now inp) (seq 0 NUM_RODS)
              (physics_step inp (handle_buttons inp s)) []) as (Hx & Hy & _).
  unfold check_rods. split; [exact Hx | exact Hy].
Qed.

End Frame.

(** * The geometry, in real arithmetic *)

Section IdealGeometry.
Import Ideal.
Local Open Scope R_scope.

Implicit Types (s : State R) (a b m : R).

Lemma Rltb_true a b : Rltb a b = true <-> a < b.
Proof. unfold Rltb. destruct (Rlt_dec a b); split; intros; (congruence || tauto). Qed.

Lemma Rltb_false a b : Rltb a b = false <-> b <= a.
Proof.
  unfold Rltb. destruct (Rlt_dec a b); split; intros; try congruence; lra.
Qed.

Lemma norm2_eq a b : norm2 a b = sqrt (a * a + b * b).
Proof. reflexivity. Qed.

Lemma sum_sq_nonneg a b : 0 <= a * a + b * b.
Proof. nra. Qed.

Lemma norm2_nonneg a b : 0 <= norm2 a b.
Proof. rewrite norm2_eq. apply sqrt_pos. Qed.

Lemma norm2_sq a b : norm2 a b * norm2 a b = a * a + b * b.
Proof. rewrite norm2_eq. apply sqrt_sqrt, sum_sq_nonneg. Qed.

Lemma norm2_zero : norm2 0 0 = 0.
Proof. rewrite norm2_eq. replace (0 * 0 + 0 * 0) with 0 by ring. apply sqrt_0. Qed.

(** A vector divided by its own length and multiplied by [m] has length [m]. *)
Lemma norm2_rescale a b m :
  0 < norm2 a b -> 0 <= m ->
  norm2 (a / norm2 a b * m) (b / norm2 a b * m) = m.
Proof.
  intros Hd Hm. pose proof (norm2_sq a b) as Hsq.
  set (d := norm2 a b) in *.
  rewrite norm2_eq.
  replace (a / d * m * (a / d * m) + b / d * m * (b / d * m))
    with (m * m * ((a * a + b * b) / (d * d))) by (field; lra).
  rewrite <- Hsq.
  replace (m * m * (d * d / (d * d))) with (m * m) by (field; lra).
  apply sqrt_square, Hm.
Qed.

Lemma norm2_le a b a' b' :
  a' * a' + b' * b' <= a * a + b * b -> norm2 a' b' <= norm2 a b.
Proof. intros H. rewrite !norm2_eq. apply sqrt_le_1; auto using sum_sq_nonneg. Qed.

(** Mirroring about a unit normal keeps the length. *)
Lemma reflect_sq vx vy nx ny :
  nx * nx + ny * ny = 1 ->
  let dot := vx * nx + vy * ny in
  (vx - 2 * dot * nx) * (vx - 2 * dot * nx) + (vy - 2 * dot * ny) * (vy - 2 * dot * ny)
  = vx * vx + vy * vy.
Proof.
  intros H dot.
  replace ((vx - 2 * dot * nx) * (vx - 2 * dot * nx)
           + (vy - 2 * dot * ny) * (vy - 2 * dot * ny))
    with (vx * vx + vy * vy + 4 * dot * dot * (nx * nx + ny * ny - 1))
    by (unfold dot; ring).
  rewrite H. ring.
Qed.

Lemma unit_normal a b :
  0 < norm2 a b ->
  a / norm2 a b * (a / norm2 a b) + b / norm2 a b * (b / norm2 a b) = 1.
Proof.
  intros Hd. pose proof (norm2_sq a b) as Hsq.
  set (d := norm2 a b) in *.
  replace (a / d * (a / d) + b / d * (b / d)) with ((a * a + b * b) / (d * d))
    by (field; lra).
  rewrite <- Hsq. field; lra.
Qed.

Lemma MAX_SPEED_eq : MAX_SPEED = 20.
Proof. reflexivity. Qed.

Lemma max_dist_eq : max_dist = 51.
Proof. unfold max_dist, TUBE_R, BALL_R; simpl. reflexivity. Qed.

Lemma ROD_BOUNCE_eq : ROD_BOUNCE = 2.
Proof. reflexivity. Qed.

Lemma HIT_DIST_eq : HIT_DIST = 24.
Proof. reflexivity. Qed.

(** ** The speed clamp *)

Lemma clamp_speed_over v :
  MAX_SPEED < norm2 (fst v) (snd v) ->
  clamp_speed v
  = (fst v / norm2 (fst v) (snd v) * MAX_SPEED,
     snd v / norm2 (fst v) (snd v) * MAX_SPEED).
Proof.
  intros H. unfold clamp_speed; cbn [flt fdiv fmul arith].
  apply Rltb_true in H. rewrite H. reflexivity.
Qed.

Lemma clamp_speed_under v :
  norm2 (fst v) (snd v) <= MAX_SPEED -> clamp_speed v = v.
Proof.
  intros H. unfold clamp_speed; cbn [flt arith].
  apply Rltb_false in H. rewrite H. reflexivity.
Qed.

Lemma clamp_speed_bound v :
  norm2 (fst (clamp_speed v)) (snd (clamp_speed v)) <= MAX_SPEED.
Proof.
  destruct (Rlt_dec MAX_SPEED (norm2 (fst v) (snd v))) as [H|H].
  - rewrite clamp_speed_over by exact H. cbn [fst snd].
    rewrite norm2_rescale; rewrite MAX_SPEED_eq in *; lra.
  - rewrite clamp_speed_under by lra. lra.
Qed.

(** ** The wall *)

Lemma constrain_outside p v :
  max_dist < norm2 (fst p) (snd p) ->
  let d := norm2 (fst p) (snd p) in
  let nx := fst p / d in
  let ny := snd p / d in
  let dot := fst v * nx + snd v * ny in
  constrain_to_tube p v
  = ((nx * max_dist, ny * max_dist),
     ((fst v - 2 * dot * nx) * (5 / 10), (snd v - 2 * dot * ny) * (5 / 10))).
Proof.
  intros H. unfold constrain_to_tube; cbn [flt fdiv fmul fadd fsub float_of_int float_lit arith].
  apply Rltb_true in H. rewrite H. reflexivity.
Qed.

Lemma constrain_inside p v :
  norm2 (fst p) (snd p) <= max_dist -> constrain_to_tube p v = (p, v).
Proof.
  intros H. unfold constrain_to_tube; cbn [flt arith].
  apply Rltb_false in H. rewrite H. reflexivity.
Qed.

Lemma constrain_position_bound p v :
  let p' := fst (constrain_to_tube p v) in
  norm2 (fst p') (snd p') <= max_dist.
Proof.
  cbv zeta.
  destruct (Rlt_dec max_dist (norm2 (fst p) (snd p))) as [H|H].
  - rewrite constrain_outside by exact H. cbn [fst snd].
    rewrite norm2_rescale; rewrite max_dist_eq in *; lra.
  - rewrite constrain_inside by lra. cbn [fst]. lra.
Qed.

Lemma constrain_speed_bound p v :
  let v' := snd (constrain_to_tube p v) in
  norm2 (fst v') (snd v') <= norm2 (fst v) (snd v).
Proof.
  cbv zeta.
  destruct (Rlt_dec max_dist (norm2 (fst p) (snd p))) as [H|H].
  - rewrite constrain_outside by exact H. cbn [fst snd].
    apply norm2_le.
    assert (Hd : 0 < norm2 (fst p) (snd p)) by (rewrite max_dist_eq in H; lra).
    pose proof (reflect_sq (fst v) (snd v) _ _ (unit_normal _ _ Hd)) as Hr.
    cbv zeta in Hr.
    set (wx := fst v - _) in *. set (wy := snd v - _) in *.
    nra.
  - rewrite constrain_inside by lra. cbn [snd]. lra.
Qed.

End IdealGeometry.

Section IdealLoop.
Import Ideal.
Local Open Scope R_scope.

Implicit Types (s : State R) (inp : Input R) (out : list NoteOn).

Lemma integrate_speed_bound inp s :
  norm2 (fst (snd (integrate inp s))) (snd (snd (integrate inp s))) <= MAX_SPEED.
Proof. unfold integrate; cbn [fst snd]. apply clamp_speed_bound. Qed.

Lemma physics_step_speed_bound inp s : hit_speed (physics_step inp s) <= MAX_SPEED.
Proof.
  unfold hit_speed.
  destruct (physics_step_ball inp s) as (_ & _ & -> & ->).
  eapply Rle_trans; [apply constrain_speed_bound | apply integrate_speed_bound].
Qed.

Lemma physics_step_position_bound inp s :
  norm2 (ball_x (physics_step inp s)) (ball_y (physics_step inp s)) <= max_dist.
Proof.
  destruct (physics_step_ball inp s) as (-> & -> & _).
  apply constrain_position_bound.
Qed.

(** ** The rod response *)

Lemma rod_dist_eq s i : rod_dist s i = norm2 (rod_dx s i) (rod_dy s i).
Proof. reflexivity. Qed.

Lemma rod_bounce_far i s :
  1 / 10 < rod_dist s i ->
  rod_bounce i s
  = set_vel (rod_dx s i / rod_dist s i * ROD_BOUNCE)
            (rod_dy s i / rod_dist s i * ROD_BOUNCE) s.
Proof.
  intros H. unfold rod_bounce; cbn [flt float_lit arith].
  apply Rltb_true in H. rewrite H. reflexivity.
Qed.

Lemma rod_bounce_near i s : rod_dist s i <= 1 / 10 -> rod_bounce i s = s.
Proof.
  intros H. unfold rod_bounce; cbn [flt float_lit arith].
  apply Rltb_false in H. rewrite H. reflexivity.
Qed.

Lemma rod_bounce_speed i s :
  1 / 10 < rod_dist s i -> hit_speed (rod_bounce i s) = ROD_BOUNCE.
Proof.
  intros H. rewrite rod_bounce_far by exact H.
  unfold hit_speed; cbn [ball_vx ball_vy set_vel].
  rewrite rod_dist_eq in *. apply norm2_rescale; rewrite ?ROD_BOUNCE_eq; lra.
Qed.

(** ** At rest in the centre *)

Lemma orbit_radius (a : R) :
  norm2 (0 - cos a * 55) (0 - sin a * 55) = 55.
Proof.
  rewrite norm2_eq.
  replace ((0 - cos a * 55) * (0 - cos a * 55) + (0 - sin a * 55) * (0 - sin a * 55))
    with (55 * 55 * (Rsqr (sin a) + Rsqr (cos a))) by (unfold Rsqr; ring).
  rewrite sin2_cos2, Rmult_1_r. apply sqrt_square. lra.
Qed.

Lemma boot_rod_dist imu :
  Forall (fun i => rod_dist (boot imu) i = 55) (seq 0 NUM_RODS).
Proof. repeat constructor; apply orbit_radius. Qed.

Lemma boot_rod_idle imu t i :
  (i < NUM_RODS)%nat -> rod_fires t (boot imu) i = false.
Proof.
  intros Hi. unfold rod_fires.
  assert (Hd : rod_dist (boot imu) i = 55).
  { pose proof (boot_rod_dist imu) as H. rewrite Forall_forall in H.
    apply H, elem_of_seq. lia. }
  rewrite Hd. cbn [flt arith].
  replace (Rltb 55 HIT_DIST) with false; [reflexivity|].
  symmetry. apply Rltb_false. rewrite HIT_DIST_eq. lra.
Qed.

Lemma rod_step_idle t s out i :
  rod_fires t s i = false -> rod_step t (s, out) i = (s, out).
Proof. intros H. unfold rod_step. rewrite H. reflexivity. Qed.

Lemma check_rods_boot imu t : check_rods t (boot imu) = (boot imu, []).
Proof.
  unfold check_rods. cbn [seq NUM_RODS fold_left].
  rewrite !rod_step_idle by (apply boot_rod_idle; unfold NUM_RODS; lia).
  reflexivity.
Qed.

Lemma integrate_boot imu t :
  integrate (tick imu t) (boot imu) = ((0, 0), (0, 0)).
Proof.
  unfold integrate.
  assert (Hv : apply_friction
                 (accelerate (read_tilt (tick imu t) (boot imu))
                    (ball_vx (boot imu), ball_vy (boot imu))) = (0, 0)).
  { unfold apply_friction, accelerate, read_tilt;
      cbn [fst snd accel tick cal_ax cal_ay boot setup drawFullScreen set_vel set_pos ball_vx ball_vy
           fadd fsub fmul float_of_int float_lit arith].
    unfold GRAVITY_SCALE, FRICTION, fzero;
      cbn [float_of_int float_lit arith].
    f_equal; field. }
  cbv zeta. rewrite Hv.
  rewrite clamp_speed_under
    by (cbn [fst snd]; rewrite norm2_zero, MAX_SPEED_eq; lra).
  cbn [fst snd ball_x ball_y boot setup drawFullScreen set_vel set_pos fadd arith].
  unfold fzero; cbn [float_of_int arith].
  f_equal. f_equal; ring.
Qed.

Lemma physics_step_boot imu t : physics_step (tick imu t) (boot imu) = boot imu.
Proof.
  unfold physics_step. rewrite integrate_boot.
  rewrite constrain_inside
    by (cbn [fst snd]; rewrite norm2_zero, max_dist_eq; lra).
  reflexivity.
Qed.

Lemma loop_boot imu t : loop (boot imu) (tick imu t) = (boot imu, []).
Proof.
  unfold loop.
  change (handle_buttons (tick imu t) (boot imu)) with (boot imu).
  rewrite physics_step_boot. cbn [now tick].
  rewrite check_rods_boot. reflexivity.
Qed.

Lemma run_boot imu ts : run (boot imu) (map (tick imu) ts) = (boot imu, []).
Proof.
  induction ts as [|t ts IH]; [reflexivity|].
  cbn [map run]. rewrite loop_boot, IH. reflexivity.
Qed.

End IdealLoop.

(** * Rounding errors of binary32

    [SpecFloat] defines the operations on integers; this part relates
    their results to the exact real values. *)

Section Rounding.
Import Binary32.
Local Open Scope Z_scope.


Lemma fexp_eq e : fexp prec emax e = Z.max (e - 24) (-149).
Proof. reflexivity. Qed.

(** digits *)
Lemma digits2_pos_bounds (m : positive) :
  2 ^ (Zpos (digits2_pos m) - 1) <= Zpos m < 2 ^ Zpos (digits2_pos m).
Proof.
  induction m as [m IH|m IH|]; cbn [digits2_pos].
  - rewrite Pos2Z.inj_succ.
    replace (Z.succ (Zpos (digits2_pos m)) - 1) with (Z.succ (Zpos (digits2_pos m) - 1)) by lia.
    rewrite !Z.pow_succ_r by lia. lia.
  - rewrite Pos2Z.inj_succ.
    replace (Z.succ (Zpos (digits2_pos m)) - 1) with (Z.succ (Zpos (digits2_pos m) - 1)) by lia.
    rewrite !Z.pow_succ_r by lia. lia.
  - simpl. lia.
Qed.

Lemma Zdigits2_nonneg m : 0 <= Zdigits2 m.
Proof. destruct m; simpl; lia. Qed.

Lemma Zdigits2_bounds m : 0 < m -> 2 ^ (Zdigits2 m - 1) <= m < 2 ^ Zdigits2 m.
Proof. destruct m; try lia. intros _. apply digits2_pos_bounds. Qed.

Lemma Zdigits2_pos m : 0 < m -> 0 < Zdigits2 m.
Proof. destruct m; simpl; lia. Qed.

(** digits are determined by the bracket *)
Lemma Zdigits2_unique m d : 0 < d -> 2 ^ (d - 1) <= m < 2 ^ d -> Zdigits2 m = d.
Proof.
  intros Hd Hm.
  assert (Hpos : 0 < m) by (pose proof (Z.pow_pos_nonneg 2 (d - 1)); lia).
  pose proof (Zdigits2_bounds m Hpos) as Hb.
  pose proof (Zdigits2_pos m Hpos) as Hp.
  destruct (Z.lt_trichotomy (Zdigits2 m) d) as [Hlt|[Heq|Hgt]]; [|exact Heq|].
  - exfalso. assert (2 ^ Zdigits2 m <= 2 ^ (d - 1)) by (apply Z.pow_le_mono_r; lia). lia.
  - exfalso. assert (2 ^ d <= 2 ^ (Zdigits2 m - 1)) by (apply Z.pow_le_mono_r; lia). lia.
Qed.

Lemma Zdigits2_div_pow2 m n :
  0 < m -> 0 <= n < Zdigits2 m -> Zdigits2 (m / 2 ^ n) = Zdigits2 m - n.
Proof.
  intros Hm Hn. pose proof (Zdigits2_bounds m Hm) as Hb.
  apply Zdigits2_unique; [lia|].
  assert (H2n : 0 < 2 ^ n) by (apply Z.pow_pos_nonneg; lia).
  split.
  - apply Z.div_le_lower_bound; [lia|].
    rewrite <- Z.pow_add_r by lia. replace (n + (Zdigits2 m - n - 1)) with (Zdigits2 m - 1) by lia. lia.
  - apply Z.div_lt_upper_bound; [lia|].
    rewrite <- Z.pow_add_r by lia. replace (n + (Zdigits2 m - n)) with (Zdigits2 m) by lia. lia.
Qed.

Lemma Zdigits2_div_pow2_zero m n :
  0 <= m -> Zdigits2 m <= n -> m / 2 ^ n = 0.
Proof.
  intros Hm Hn. destruct (Z.eq_dec m 0) as [->|Hne].
  - apply Z.div_0_l. pose proof (Zdigits2_nonneg 0). apply Z.pow_nonzero; simpl in *; lia.
  - pose proof (Zdigits2_bounds m ltac:(lia)) as Hb.
    apply Z.div_small. split; [lia|].
    assert (2 ^ Zdigits2 m <= 2 ^ n) by (apply Z.pow_le_mono_r; lia). lia.
Qed.

Lemma Zdigits2_succ m : 0 <= m -> Zdigits2 m <= Zdigits2 (m + 1) <= Zdigits2 m + 1.
Proof.
  intros Hm. destruct (Z.eq_dec m 0) as [->|Hne]; [simpl; lia|].
  pose proof (Zdigits2_bounds m ltac:(lia)) as Hb.
  pose proof (Zdigits2_bounds (m + 1) ltac:(lia)) as Hb1.
  pose proof (Zdigits2_pos m ltac:(lia)).
  pose proof (Zdigits2_pos (m + 1) ltac:(lia)).
  split.
  - destruct (Z_lt_le_dec (Zdigits2 (m + 1)) (Zdigits2 m)) as [Hlt|]; [|lia].
    exfalso. assert (2 ^ Zdigits2 (m + 1) <= 2 ^ (Zdigits2 m - 1)) by (apply Z.pow_le_mono_r; lia). lia.
  - destruct (Z_lt_le_dec (Zdigits2 m + 1) (Zdigits2 (m + 1))) as [Hlt|]; [|lia].
    exfalso. assert (2 ^ (Zdigits2 m + 1) <= 2 ^ (Zdigits2 (m + 1) - 1)) by (apply Z.pow_le_mono_r; lia).
    rewrite Z.pow_add_r in * by lia. lia.
Qed.

(** shr *)
Lemma shr_1_m mrs : 0 <= shr_m mrs -> shr_m (shr_1 mrs) = shr_m mrs / 2.
Proof.
  destruct mrs as [m r s]; cbn [shr_m shr_1]. intros Hm.
  destruct m as [|[p|p|]|p]; cbn [shr_m]; try lia.
  - reflexivity.
  - rewrite (Pos2Z.inj_xI p). apply Z.div_unique with (r := 1); lia.
  - rewrite (Pos2Z.inj_xO p). apply Z.div_unique with (r := 0); lia.
  - reflexivity.
Qed.

Lemma shr_1_nonneg mrs : 0 <= shr_m mrs -> 0 <= shr_m (shr_1 mrs).
Proof. intros H. rewrite shr_1_m by exact H. apply Z.div_pos; lia. Qed.

Lemma iter_pos_shr_m (p : positive) : forall mrs,
  0 <= shr_m mrs ->
  shr_m (SpecFloat.iter_pos shr_1 p mrs) = shr_m mrs / 2 ^ Zpos p /\ 0 <= shr_m (SpecFloat.iter_pos shr_1 p mrs).
Proof.
  induction p as [p IH|p IH|]; intros mrs Hm; cbn [SpecFloat.iter_pos].
  - pose proof (shr_1_nonneg mrs Hm) as H1.
    destruct (IH (shr_1 mrs) H1) as [E1 N1].
    destruct (IH _ N1) as [E2 N2]. split; [|exact N2].
    rewrite E2, E1, shr_1_m by exact Hm.
    rewrite !Z.div_div by (try apply Z.pow_pos_nonneg; lia).
    f_equal. rewrite (Pos2Z.inj_xI p).
    replace (2 * Zpos p + 1) with (1 + (Zpos p + Zpos p)) by lia.
    rewrite Z.pow_add_r, Z.pow_add_r by lia. rewrite Z.pow_1_r. lia.
  - destruct (IH mrs Hm) as [E1 N1].
    destruct (IH _ N1) as [E2 N2]. split; [|exact N2].
    rewrite E2, E1.
    rewrite !Z.div_div by (try apply Z.pow_pos_nonneg; lia).
    f_equal. rewrite (Pos2Z.inj_xO p).
    replace (2 * Zpos p) with (Zpos p + Zpos p) by lia.
    rewrite Z.pow_add_r by lia. lia.
  - split; [|apply shr_1_nonneg, Hm]. rewrite shr_1_m by exact Hm. reflexivity.
Qed.

Lemma shr_record_of_loc_m m l : shr_m (shr_record_of_loc m l) = m.
Proof. destruct l as [|[]]; reflexivity. Qed.

(** [shr_fexp]: the exponent becomes [max e (fexp (digits + e))] and the
    mantissa loses the bits in between. *)
Lemma shr_fexp_spec m e l :
  0 <= m ->
  let e' := Z.max e (fexp prec emax (Zdigits2 m + e)) in
  snd (shr_fexp prec emax m e l) = e' /\
  shr_m (fst (shr_fexp prec emax m e l)) = m / 2 ^ (e' - e).
Proof.
  intros Hm e'. unfold shr_fexp, shr.
  destruct (fexp prec emax (Zdigits2 m + e) - e) as [|p|p] eqn:En; cbn [fst snd].
  - assert (e' = e) by (unfold e'; lia). split; [lia|].
    rewrite shr_record_of_loc_m. replace (e' - e) with 0 by lia. rewrite Z.div_1_r. reflexivity.
  - assert (e' = e + Zpos p) by (unfold e'; lia). split; [lia|].
    destruct (iter_pos_shr_m p (shr_record_of_loc m l)) as [E _];
      [rewrite shr_record_of_loc_m; exact Hm|].
    rewrite E, shr_record_of_loc_m. f_equal. f_equal. lia.
  - assert (e' = e) by (unfold e'; lia). split; [lia|].
    rewrite shr_record_of_loc_m. replace (e' - e) with 0 by lia. rewrite Z.div_1_r. reflexivity.
Qed.

Lemma round_nearest_even_range m l : m <= round_nearest_even m l <= m + 1.
Proof.
  destruct l as [|[]]; cbn [round_nearest_even]; try lia.
  destruct (Z.even m); lia.
Qed.


Lemma round_aux_unfold sx mx ex lx :
  0 <= mx -> ex <= fexp prec emax (Zdigits2 mx + ex) ->
  exists m1 m2 m3 e1 e3,
    round_shape mx ex m1 m2 m3 e1 e3 /\
    binary_round_aux prec emax sx mx ex lx
    = match m3 with
      | Z0 => S754_zero sx
      | Zpos m => if e3 <=? emax - prec then S754_finite sx m e3 else S754_infinity sx
      | Zneg _ => S754_nan
      end.
Proof.
  intros Hm Hex. unfold binary_round_aux.
  destruct (shr_fexp_spec mx ex lx Hm) as [He1 Hm1]. cbv zeta in He1, Hm1.
  destruct (shr_fexp prec emax mx ex lx) as [mrs' e'] eqn:E1. cbn [fst snd] in He1, Hm1.
  set (m2 := round_nearest_even (shr_m mrs') (loc_of_shr_record mrs')).
  assert (Hm1n : 0 <= shr_m mrs').
  { rewrite Hm1. apply Z.div_pos; [lia|]. apply Z.pow_pos_nonneg; lia. }
  assert (Hm2 : shr_m mrs' <= m2 <= shr_m mrs' + 1) by apply round_nearest_even_range.
  destruct (shr_fexp_spec m2 e' loc_Exact ltac:(lia)) as [He3 Hm3]. cbv zeta in He3, Hm3.
  destruct (shr_fexp prec emax m2 e' loc_Exact) as [mrs'' e''] eqn:E2. cbn [fst snd] in He3, Hm3.
  exists (shr_m mrs'), m2, (shr_m mrs''), e', e''. split; [|reflexivity].
  assert (e' = fexp prec emax (Zdigits2 mx + ex)) by lia.
  constructor; try assumption; congruence.
Qed.

Lemma fexp_mono a b : a <= b -> fexp prec emax a <= fexp prec emax b.
Proof. rewrite !fexp_eq. lia. Qed.

Lemma fexp_ge_emin a : -149 <= fexp prec emax a.
Proof. rewrite fexp_eq. lia. Qed.

(** What the shape says about the result. *)
Lemma round_shape_facts mx ex m1 m2 m3 e1 e3 :
  0 <= mx -> ex <= fexp prec emax (Zdigits2 mx + ex) ->
  round_shape mx ex m1 m2 m3 e1 e3 ->
  ex <= e1 /\ e1 <= e3 /\ 0 <= m1 /\ 0 <= m3 /\
  (m3 = 0 -> m2 = 0 /\ e1 = -149) /\
  (0 < m3 -> fexp prec emax (Zdigits2 m3 + e3) = e3 /\ (e3 = -149 \/ 2 ^ 23 <= m3)).
Proof.
  intros Hmx Hex [He1 Hm1 Hm2 He3 Hm3].
  assert (Hk1 : 0 <= e1 - ex) by lia.
  assert (Hp1 : 0 < 2 ^ (e1 - ex)) by (apply Z.pow_pos_nonneg; lia).
  assert (Hm1n : 0 <= m1) by (rewrite Hm1; apply Z.div_pos; lia).
  assert (Hk3 : 0 <= e3 - e1) by lia.
  assert (Hp3 : 0 < 2 ^ (e3 - e1)) by (apply Z.pow_pos_nonneg; lia).
  assert (Hm3n : 0 <= m3) by (rewrite Hm3; apply Z.div_pos; lia).
  (* the exponent after the first shift fits the digits left *)
  assert (Hfit1 : 0 < m1 -> Zdigits2 m1 + e1 = Zdigits2 mx + ex).
  { intros Hpos.
    assert (Hmxpos : 0 < mx).
    { destruct (Z.eq_dec mx 0) as [->|]; [|lia]. rewrite Z.div_0_l in Hm1 by lia. lia. }
    destruct (Z_lt_le_dec (e1 - ex) (Zdigits2 mx)) as [Hlt|Hge].
    - rewrite Hm1, Zdigits2_div_pow2 by lia. lia.
    - rewrite (Zdigits2_div_pow2_zero mx (e1 - ex)) in Hm1 by lia. lia. }
  assert (Hzero1 : m1 = 0 -> e1 = -149).
  { intros H0. rewrite fexp_eq in He1, Hex.
    destruct (Z.eq_dec mx 0) as [->|Hne]; [simpl in *; lia|].
    assert (Hge : Zdigits2 mx <= e1 - ex).
    { destruct (Z_lt_le_dec (e1 - ex) (Zdigits2 mx)) as [Hlt|]; [|lia].
      exfalso. pose proof (Zdigits2_div_pow2 mx (e1 - ex) ltac:(lia) ltac:(lia)) as Hd.
      rewrite <- Hm1, H0 in Hd. simpl in Hd. lia. }
    lia. }
  (* canonical after the second shift *)
  assert (Hcan2 : fexp prec emax (Zdigits2 m2 + e1) <= e1 -> 0 < m2 ->
                  fexp prec emax (Zdigits2 m2 + e1) = e1).
  { intros Hle Hpos. apply Z.le_antisymm; [exact Hle|].
    destruct (Z.eq_dec m1 0) as [H0|Hne].
    - rewrite (Hzero1 H0). apply fexp_ge_emin.
    - rewrite He1 at 1. rewrite <- (Hfit1 ltac:(lia)). apply fexp_mono.
      assert (Zdigits2 m1 <= Zdigits2 m2); [|lia].
      destruct (Z.eq_dec m2 m1) as [->|]; [lia|].
      replace m2 with (m1 + 1) by lia. apply Zdigits2_succ. lia. }
  assert (Hzero3 : m3 = 0 -> m2 = 0).
  { intros H0.
    destruct (Z.eq_dec m2 0) as [|Hne]; [assumption|exfalso].
    destruct (Z_lt_le_dec (e3 - e1) (Zdigits2 m2)) as [Hlt|Hge].
    - pose proof (Zdigits2_div_pow2 m2 (e3 - e1) ltac:(lia) ltac:(lia)) as Hd.
      rewrite <- Hm3, H0 in Hd. simpl in Hd. lia.
    - pose proof (Zdigits2_pos m2 ltac:(lia)).
      assert (He3' : e3 = fexp prec emax (Zdigits2 m2 + e1)) by lia.
      rewrite fexp_eq in He3'. pose proof (fexp_ge_emin (Zdigits2 mx + ex)). lia. }
  split; [lia|]. split; [lia|]. split; [lia|]. split; [lia|]. split.
  - intros H0. split; [apply Hzero3, H0|]. apply Hzero1.
    pose proof (Hzero3 H0). lia.
  - intros Hpos.
    assert (Hcan : fexp prec emax (Zdigits2 m3 + e3) = e3).
    { assert (Hm2pos : 0 < m2).
      { destruct (Z.eq_dec m2 0) as [H0|]; [|lia]. rewrite H0, Z.div_0_l in Hm3 by lia. lia. }
      destruct (Z_le_gt_dec (fexp prec emax (Zdigits2 m2 + e1)) e1) as [Hle|Hgt].
      + assert (E31 : e3 = e1) by lia. rewrite E31 in Hm3 |- *.
        replace (e1 - e1) with 0 in Hm3 by lia. rewrite Z.pow_0_r, Z.div_1_r in Hm3. subst m3.
        apply Hcan2; assumption.
      + assert (He3' : e3 = fexp prec emax (Zdigits2 m2 + e1)) by lia.
        destruct (Z_lt_le_dec (e3 - e1) (Zdigits2 m2)) as [Hlt|Hge].
        * rewrite Hm3, Zdigits2_div_pow2 by lia.
          replace (Zdigits2 m2 - (e3 - e1) + e3) with (Zdigits2 m2 + e1) by lia. lia.
        * rewrite (Zdigits2_div_pow2_zero m2 (e3 - e1)) in Hm3 by lia. lia. }
    split; [exact Hcan|]. rewrite fexp_eq in Hcan.
    destruct (Z.eq_dec e3 (-149)) as [|Hne]; [left; assumption|right].
    assert (Hd : Zdigits2 m3 = 24) by lia.
    pose proof (Zdigits2_bounds m3 Hpos) as Hb. rewrite Hd in Hb. simpl in Hb. lia.
Qed.

(** ** Real values *)
Local Open Scope R_scope.


Lemma bpow_pos e : 0 < bpow e.
Proof. apply powerRZ_lt. lra. Qed.

Lemma bpow_add a b : bpow (a + b) = bpow a * bpow b.
Proof. apply powerRZ_add. lra. Qed.

Lemma bpow_IZR k : (0 <= k)%Z -> bpow k = IZR (2 ^ k).
Proof.
  intros Hk. unfold bpow. destruct k as [|p|p]; [reflexivity| |lia].
  change (2 ^ Z.pos p)%Z with (Z.pow_pos 2 p).
  rewrite Zpower_pos_powerRZ. reflexivity.
Qed.

Lemma bpow_le a b : (a <= b)%Z -> bpow a <= bpow b.
Proof.
  intros H. replace b with (a + (b - a))%Z by lia.
  rewrite bpow_add, (bpow_IZR (b - a)) by lia.
  assert (1 <= IZR (2 ^ (b - a))).
  { apply IZR_le. pose proof (Z.pow_pos_nonneg 2 (b - a)). lia. }
  pose proof (bpow_pos a). nra.
Qed.

Lemma bpow_lt a b : (a < b)%Z -> bpow a < bpow b.
Proof.
  intros H. replace b with (a + (b - a))%Z by lia.
  rewrite bpow_add, (bpow_IZR (b - a)) by lia.
  assert (2 <= IZR (2 ^ (b - a))).
  { apply IZR_le. replace (b - a)%Z with (1 + (b - a - 1))%Z by lia.
    rewrite Z.pow_add_r by lia. pose proof (Z.pow_pos_nonneg 2 (b - a - 1)). lia. }
  pose proof (bpow_pos a). nra.
Qed.

(** Dropping [k] low bits keeps the bracket. *)
Lemma bracket_shift m e k :
  (0 <= m)%Z -> (0 <= k)%Z ->
  IZR (m / 2 ^ k) * bpow (e + k) <= IZR m * bpow e /\
  (IZR m + 1) * bpow e <= (IZR (m / 2 ^ k) + 1) * bpow (e + k).
Proof.
  intros Hm Hk.
  assert (Hp : (0 < 2 ^ k)%Z) by (apply Z.pow_pos_nonneg; lia).
  rewrite bpow_add, (bpow_IZR k) by lia.
  pose proof (Z.mul_div_le m (2 ^ k) Hp) as H1.
  pose proof (Z.mul_succ_div_gt m (2 ^ k) Hp) as H2.
  apply IZR_le in H1. rewrite mult_IZR in H1.
  assert (H3 : (m + 1 <= 2 ^ k * Z.succ (m / 2 ^ k))%Z) by lia.
  apply IZR_le in H3. rewrite mult_IZR, succ_IZR, plus_IZR in H3.
  pose proof (bpow_pos e). split; nra.
Qed.

(** The real content of [binary_round_aux]. *)
Lemma round_aux_real sx mx ex lx (x : R) :
  (0 <= mx)%Z -> (ex <= fexp prec emax (Zdigits2 mx + ex))%Z ->
  IZR mx * bpow ex <= x < (IZR mx + 1) * bpow ex ->
  match binary_round_aux prec emax sx mx ex lx with
  | S754_nan => False
  | S754_zero s => s = sx /\ x < bpow (-149)
  | S754_infinity s => s = sx /\ bpow 127 <= x
  | S754_finite s m e =>
      s = sx /\ valid_binary prec emax (S754_finite s m e) = true /\
      Rabs (IZR (Zpos m) * bpow e - x) <= bpow e /\
      (e = (-149)%Z \/ (2 ^ 23 <= Zpos m)%Z)
  end.
Proof.
  intros Hmx Hex Hx.
  destruct (round_aux_unfold sx mx ex lx Hmx Hex) as (m1 & m2 & m3 & e1 & e3 & Hs & ->).
  destruct (round_shape_facts _ _ _ _ _ _ _ Hmx Hex Hs) as (H1 & H3 & Hm1 & Hm3 & Hz & Hp).
  destruct Hs as [He1 Em1 Hm2 He3 Em3].
  destruct (bracket_shift mx ex (e1 - ex) Hmx ltac:(lia)) as [Ba Bb].
  replace (ex + (e1 - ex))%Z with e1 in Ba, Bb by lia. rewrite <- Em1 in Ba, Bb.
  destruct (bracket_shift m2 e1 (e3 - e1) ltac:(lia) ltac:(lia)) as [Bc Bd].
  replace (e1 + (e3 - e1))%Z with e3 in Bc, Bd by lia. rewrite <- Em3 in Bc, Bd.
  assert (Hm2r : IZR m1 <= IZR m2 <= IZR m1 + 1).
  { split; [apply IZR_le; lia|]. rewrite <- plus_IZR. apply IZR_le; lia. }
  pose proof (bpow_pos e1) as P1. pose proof (bpow_pos e3) as P3.
  pose proof (bpow_le e1 e3 H3) as L13.
  assert (A1 : IZR m2 * bpow e1 <= IZR m1 * bpow e1 + bpow e1) by nra.
  assert (A2 : IZR m1 * bpow e1 <= IZR m2 * bpow e1) by nra.
  assert (Hlo : IZR m3 * bpow e3 - x <= bpow e3).
  { destruct Hx as [Hx1 Hx2]. clear - Hx1 Ba Bc A1 L13.
    generalize dependent (IZR m3 * bpow e3). generalize dependent (IZR m2 * bpow e1).
    generalize dependent (IZR m1 * bpow e1). generalize dependent (IZR mx * bpow ex).
    intros; lra. }
  assert (Hhi : x - IZR m3 * bpow e3 < bpow e3).
  { destruct Hx as [Hx1 Hx2].
    assert (B1 : (IZR mx + 1) * bpow ex <= IZR m1 * bpow e1 + bpow e1).
    { replace (IZR m1 * bpow e1 + bpow e1) with ((IZR m1 + 1) * bpow e1) by ring. exact Bb. }
    assert (B2 : IZR m2 * bpow e1 + bpow e1 <= IZR m3 * bpow e3 + bpow e3).
    { replace (IZR m2 * bpow e1 + bpow e1) with ((IZR m2 + 1) * bpow e1) by ring.
      replace (IZR m3 * bpow e3 + bpow e3) with ((IZR m3 + 1) * bpow e3) by ring. exact Bd. }
    clear - Hx2 B1 B2 A2.
    generalize dependent (IZR m3 * bpow e3). generalize dependent (IZR m2 * bpow e1).
    generalize dependent (IZR m1 * bpow e1). generalize dependent ((IZR mx + 1) * bpow ex).
    intros; lra. }
  destruct m3 as [|m|m]; [| |lia].
  - destruct (Hz eq_refl) as [Hm20 He1']. split; [reflexivity|].
    assert (Hm10 : m1 = 0%Z) by lia. rewrite Hm10, He1' in Bb.
    eapply Rlt_le_trans; [apply Hx|]. eapply Rle_trans; [apply Bb|]. right; ring.
  - destruct (Hp ltac:(lia)) as [Hcan Hnorm].
    destruct (e3 <=? emax - prec)%Z eqn:Hov.
    + split; [reflexivity|]. split.
      * cbn [valid_binary]. unfold bounded, canonical_mantissa.
        apply andb_true_intro. split; [|exact Hov].
        apply Z.eqb_eq. exact Hcan.
      * split; [|exact Hnorm]. apply Rabs_le. lra.
    + split; [reflexivity|]. apply Z.leb_gt in Hov. unfold emax, prec in Hov.
      destruct Hnorm as [->|Hn]; [lia|].
      assert (Hn' : IZR (2 ^ 23) <= IZR (Z.pos m)) by (apply IZR_le; exact Hn).
      assert (Hb : bpow 127 <= (IZR (2 ^ 23) - 1) * bpow 105).
      { replace 127%Z with (22 + 105)%Z by lia. rewrite bpow_add, (bpow_IZR 22) by lia.
        pose proof (bpow_pos 105). simpl (2 ^ 22)%Z. simpl (2 ^ 23)%Z. nra. }
      pose proof (bpow_le 105 e3 ltac:(lia)). nra.
Qed.

(** ** Results of operations: error and sign *)


Lemma Rsign_xorb a b : Rsign (xorb a b) = Rsign a * Rsign b.
Proof. destruct a, b; unfold Rsign; simpl; ring. Qed.

Lemma Rsign_sq s : Rsign s * Rsign s = 1.
Proof. destruct s; unfold Rsign; ring. Qed.

Lemma Rabs_Rsign s a : 0 <= a -> Rabs (Rsign s * a) = a.
Proof.
  intros Ha. destruct s; unfold Rsign.
  - replace (-1 * a) with (- a) by ring. rewrite Rabs_Ropp. apply Rabs_pos_eq, Ha.
  - rewrite Rmult_1_l. apply Rabs_pos_eq, Ha.
Qed.

Lemma ulp_bound m e :
  (e = (-149)%Z \/ (2 ^ 23 <= Zpos m)%Z) ->
  bpow e <= eps * (IZR (Zpos m) * bpow e) + eta.
Proof.
  unfold eps, eta. intros [->|Hn].
  - assert (0 <= bpow (-23) * (IZR (Z.pos m) * bpow (-149))).
    { apply Rmult_le_pos; [apply Rlt_le, bpow_pos|].
      apply Rmult_le_pos; [apply IZR_le; lia | apply Rlt_le, bpow_pos]. }
    lra.
  - assert (Hn' : IZR (2 ^ 23) <= IZR (Z.pos m)) by (apply IZR_le; exact Hn).
    assert (H1 : bpow (-23) * IZR (2 ^ 23) = 1).
    { rewrite <- (bpow_IZR 23) by lia. rewrite <- bpow_add. reflexivity. }
    pose proof (bpow_pos (-23)). pose proof (bpow_pos (-149)). pose proof (bpow_pos e).
    nra.
Qed.

(** Rounding a bracketed magnitude [x >= 0] with sign [sx]. *)
Lemma round_aux_approx sx mx ex lx (x : R) :
  (0 <= mx)%Z -> (ex <= fexp prec emax (Zdigits2 mx + ex))%Z ->
  IZR mx * bpow ex <= x < (IZR mx + 1) * bpow ex ->
  let r := binary_round_aux prec emax sx mx ex lx in
  approx r (Rsign sx * x) /\ sign_is r sx /\ valid r.
Proof.
  intros Hmx Hex Hx r.
  assert (Hx0 : 0 <= x).
  { pose proof (bpow_pos ex). assert (0 <= IZR mx) by (apply IZR_le; lia). nra. }
  pose proof (round_aux_real sx mx ex lx x Hmx Hex Hx) as H. fold r in H.
  destruct r as [s|s| |s m e]; try contradiction.
  - destruct H as [-> Hsmall]. split; [|split; reflexivity].
    cbn [approx to_R]. rewrite Rminus_0_l, Rabs_Ropp, Rabs_R0, Rabs_Rsign by exact Hx0.
    unfold eta. lra.
  - destruct H as [-> Hbig]. split; [|split; reflexivity].
    cbn [approx]. rewrite Rabs_Rsign by exact Hx0.
    pose proof (bpow_le 105 127 ltac:(lia)). lra.
  - destruct H as (-> & Hv & Herr & Hn). split; [|split; [reflexivity|exact Hv]].
    cbn [approx to_R].
    assert (Hpos : 0 <= IZR (Z.pos m) * bpow e).
    { pose proof (bpow_pos e). assert (0 < IZR (Z.pos m)) by (apply IZR_lt; lia). nra. }
    replace (Rsign sx * IZR (Z.pos m) * bpow e - Rsign sx * x)
      with (Rsign sx * (IZR (Z.pos m) * bpow e - x)) by ring.
    replace (Rsign sx * IZR (Z.pos m) * bpow e)
      with (Rsign sx * (IZR (Z.pos m) * bpow e)) by ring.
    rewrite Rabs_mult, (Rabs_Rsign sx _ Hpos).
    replace (Rabs (Rsign sx)) with 1
      by (destruct sx; unfold Rsign; [rewrite Rabs_left|rewrite Rabs_right]; lra).
    rewrite Rmult_1_l. eapply Rle_trans; [exact Herr|]. apply ulp_bound, Hn.
Qed.

(** An exact mantissa that is coarser than the format asks is kept. *)
Lemma round_aux_exact sx (m : positive) ex :
  (fexp prec emax (Zdigits2 (Zpos m) + ex) <= ex)%Z ->
  binary_round_aux prec emax sx (Zpos m) ex loc_Exact
  = if (ex <=? emax - prec)%Z then S754_finite sx m ex else S754_infinity sx.
Proof.
  intros H. unfold binary_round_aux, shr_fexp, shr.
  destruct (fexp prec emax (Zdigits2 (Z.pos m) + ex) - ex)%Z as [|p|p] eqn:E; [|lia|];
    cbn [shr_record_of_loc shr_m loc_of_shr_record round_nearest_even];
    rewrite E; cbn [shr_m]; reflexivity.
Qed.

Lemma round_exact_approx sx (m : positive) ex :
  let r := binary_round_aux prec emax sx (Zpos m) ex loc_Exact in
  approx r (Rsign sx * (IZR (Zpos m) * bpow ex)) /\ sign_is r sx.
Proof.
  intros r.
  destruct (Z_le_gt_dec ex (fexp prec emax (Zdigits2 (Zpos m) + ex))) as [Hle|Hgt].
  - destruct (round_aux_approx sx (Zpos m) ex loc_Exact (IZR (Zpos m) * bpow ex))
      as (Ha & Hs & _); [lia|exact Hle| |split; assumption].
    pose proof (bpow_pos ex). split; [lra|nra].
  - unfold r. rewrite round_aux_exact by lia.
    destruct (ex <=? emax - prec)%Z eqn:Hov.
    + split; [|reflexivity]. cbn [approx to_R].
      replace (Rsign sx * IZR (Z.pos m) * bpow ex - Rsign sx * (IZR (Z.pos m) * bpow ex))
        with 0 by ring.
      rewrite Rabs_R0. pose proof (Rabs_pos (Rsign sx * IZR (Z.pos m) * bpow ex)).
      unfold eps, eta. pose proof (bpow_pos (-23)). pose proof (bpow_pos (-149)). nra.
    + split; [|reflexivity]. cbn [approx].
      apply Z.leb_gt in Hov. unfold emax, prec in Hov.
      assert (Hpos : 0 <= IZR (Z.pos m) * bpow ex).
      { pose proof (bpow_pos ex). assert (0 < IZR (Z.pos m)) by (apply IZR_lt; lia). nra. }
      rewrite Rabs_Rsign by exact Hpos.
      pose proof (bpow_le 105 ex ltac:(lia)).
      assert (1 <= IZR (Z.pos m)) by (apply IZR_le; lia).
      pose proof (bpow_pos ex). nra.
Qed.

(** ** Multiplication *)

Lemma to_R_finite s m e : to_R (S754_finite s m e) = Rsign s * (IZR (Zpos m) * bpow e).
Proof. cbn [to_R]. ring. Qed.

Lemma mul_spec sx mx ex sy my ey :
  let x := S754_finite sx mx ex in
  let y := S754_finite sy my ey in
  approx (SFmul prec emax x y) (to_R x * to_R y) /\
  sign_is (SFmul prec emax x y) (xorb sx sy).
Proof.
  intros x y. cbn [SFmul x y].
  replace (to_R x * to_R y)
    with (Rsign (xorb sx sy) * (IZR (Zpos (mx * my)) * bpow (ex + ey))).
  - apply round_exact_approx.
  - unfold x, y. rewrite !to_R_finite, Rsign_xorb, bpow_add, Pos2Z.inj_mul, mult_IZR. ring.
Qed.

(** ** Addition of two positive numbers *)

Lemma iter_xO_value (d m : positive) :
  Zpos (Pos.iter xO m d) = (Zpos m * 2 ^ Zpos d)%Z.
Proof.
  induction d as [|d IH] using Pos.peano_ind.
  - simpl. lia.
  - rewrite Pos.iter_succ, Pos2Z.inj_xO, IH, Pos2Z.inj_succ, Z.pow_succ_r by lia. ring.
Qed.

Lemma shl_align_value m e e0 :
  let me' := shl_align m e e0 in
  IZR (Zpos (fst me')) * bpow (snd me') = IZR (Zpos m) * bpow e /\
  ((e0 <= e)%Z -> snd me' = e0) /\
  ((e0 <= e)%Z -> Zpos (fst me') = (Zpos m * 2 ^ (e - e0))%Z) /\
  ((e <= e0)%Z -> me' = (m, e)).
Proof.
  unfold shl_align. destruct (e0 - e)%Z as [|d|d] eqn:E; cbn [fst snd].
  - split; [reflexivity|]. split; [lia|]. split; [|reflexivity].
    intros _. replace (e - e0)%Z with 0%Z by lia. simpl. lia.
  - split; [reflexivity|]. split; [lia|]. split; [lia|reflexivity].
  - rewrite iter_xO_value. split.
    + rewrite mult_IZR, <- (bpow_IZR (Z.pos d)) by lia.
      replace (bpow e) with (bpow e0 * bpow (Z.pos d))
        by (rewrite <- bpow_add; f_equal; lia).
      ring.
    + split; [reflexivity|]. split; [|lia]. intros _. f_equal. f_equal. lia.
Qed.

Lemma binary_round_approx sx (m : positive) e :
  let r := binary_round prec emax sx m e in
  approx r (Rsign sx * (IZR (Zpos m) * bpow e)) /\ sign_is r sx.
Proof.
  intros r. unfold r, binary_round.
  pose proof (shl_align_value m e (fexp prec emax (Zpos (digits2_pos m) + e))) as (Hv & _).
  destruct (shl_align m e _) as [mz ez]. cbn [fst snd] in Hv.
  rewrite <- Hv. apply round_exact_approx.
Qed.

Lemma add_pos_spec ma ea mb eb :
  let a := S754_finite false ma ea in
  let b := S754_finite false mb eb in
  approx (SFadd prec emax a b) (to_R a + to_R b) /\
  sign_is (SFadd prec emax a b) false.
Proof.
  intros a b. cbn [SFadd a b cond_Zopp].
  set (ez := Z.min ea eb).
  destruct (shl_align_value ma ea ez) as (Va & Ea & _ & _).
  destruct (shl_align_value mb eb ez) as (Vb & Eb & _ & _).
  rewrite Ea in Va by (unfold ez; lia). rewrite Eb in Vb by (unfold ez; lia).
  set (ma' := fst (shl_align ma ea ez)) in *. set (mb' := fst (shl_align mb eb ez)) in *.
  change (Z.pos ma' + Z.pos mb')%Z with (Z.pos (ma' + mb')). cbn [binary_normalize].
  replace (to_R a + to_R b) with (Rsign false * (IZR (Zpos (ma' + mb')) * bpow ez)).
  - apply binary_round_approx.
  - unfold a, b. rewrite !to_R_finite, Pos2Z.inj_add, plus_IZR. unfold Rsign.
    rewrite !Rmult_1_l, Rmult_plus_distr_r, Va, Vb. reflexivity.
Qed.

(** ** Square root and division *)

Local Open Scope Z_scope.

Lemma Zdigits2_lower m k : 0 <= k -> 2 ^ k <= m -> k < Zdigits2 m.
Proof.
  intros Hk Hm.
  assert (Hpos : 0 < m) by (pose proof (Z.pow_pos_nonneg 2 k); lia).
  pose proof (Zdigits2_bounds m Hpos) as [_ Hb].
  destruct (Z_lt_le_dec k (Zdigits2 m)) as [|Hge]; [assumption|exfalso].
  pose proof (Zdigits2_nonneg m).
  assert (2 ^ Zdigits2 m <= 2 ^ k) by (apply Z.pow_le_mono_r; lia). lia.
Qed.

Lemma half_bounds e : 2 * (e / 2) <= e <= 2 * (e / 2) + 1.
Proof.
  pose proof (Z.mul_div_le e 2 ltac:(lia)).
  pose proof (Z.mul_succ_div_gt e 2 ltac:(lia)). lia.
Qed.

Lemma sqrt_core_int (m : positive) e :
  let '(q, e', _) := SFsqrt_core_binary prec emax (Zpos m) e in
  exists m', 0 <= e - 2 * e' /\ m' = Zpos m * 2 ^ (e - 2 * e') /\
             q * q <= m' < (q + 1) * (q + 1) /\ 0 <= q /\
             e' <= fexp prec emax (Zdigits2 q + e').
Proof.
  unfold SFsqrt_core_binary.
  set (d := Zdigits2 (Z.pos m)).
  rewrite !Z.div2_div.
  pose proof (half_bounds e) as Hhe. pose proof (half_bounds (d + e + 1)) as Hhd.
  set (e' := Z.min (fexp prec emax ((d + e + 1) / 2)) (e / 2)).
  set (s := e - 2 * e').
  assert (Hs : 0 <= s) by (unfold s, e'; lia).
  set (m' := match s with Z.pos _ => Z.shiftl (Z.pos m) s | 0 => Z.pos m | Z.neg _ => 0 end).
  assert (Hm' : m' = Z.pos m * 2 ^ s).
  { unfold m'. destruct s as [|p|p]; [simpl; lia| |lia]. apply Z.shiftl_mul_pow2. lia. }
  assert (Hm'pos : 0 < m').
  { rewrite Hm'. pose proof (Z.pow_pos_nonneg 2 s). nia. }
  pose proof (Z.sqrtrem_spec m' ltac:(lia)) as Hsq.
  destruct (Z.sqrtrem m') as [q r]. destruct Hsq as [Hq Hr].
  exists m'. split; [exact Hs|]. split; [exact Hm'|].
  assert (Hq0 : 0 <= q) by lia.
  split; [nia|]. split; [exact Hq0|].
  (* enough digits *)
  set (D := (d + e + 1) / 2).
  assert (HD : D - e' <= Zdigits2 q).
  { destruct (Z_le_gt_dec (D - e') 0) as [Hle|Hgt].
    - pose proof (Zdigits2_nonneg q). lia.
    - assert (Hk : 0 <= D - e' - 1) by lia.
      assert (H2k : 2 ^ (D - e' - 1) <= q).
      { destruct (Z_lt_le_dec q (2 ^ (D - e' - 1))) as [Hlt|]; [exfalso|assumption].
        assert (Hd : 2 ^ (d - 1) <= Z.pos m) by (apply (Zdigits2_bounds (Z.pos m)); lia).
        assert (Hdp : 0 < d) by (apply (Zdigits2_pos (Z.pos m)); lia).
        assert (Hlow : 2 ^ (d - 1 + s) <= m').
        { rewrite Hm', Z.pow_add_r by lia. pose proof (Z.pow_pos_nonneg 2 s). nia. }
        assert (Hpow : 2 ^ (D - e' - 1) * 2 ^ (D - e' - 1) <= 2 ^ (d - 1 + s)).
        { rewrite <- Z.pow_add_r by lia. apply Z.pow_le_mono_r; [lia|].
          unfold s, D. lia. }
        nia. }
      pose proof (Zdigits2_lower q (D - e' - 1) Hk H2k). lia. }
  assert (He' : e' <= fexp prec emax D) by (unfold e', D; lia).
  eapply Z.le_trans; [exact He'|]. apply fexp_mono. lia.
Qed.

Lemma div_core_int (m1 : positive) e1 (m2 : positive) e2 :
  let '(q, e', _) := SFdiv_core_binary prec emax (Zpos m1) e1 (Zpos m2) e2 in
  exists m', 0 <= e1 - e2 - e' /\ m' = Zpos m1 * 2 ^ (e1 - e2 - e') /\
             Zpos m2 * q <= m' < Zpos m2 * (q + 1) /\ 0 <= q /\
             e' <= fexp prec emax (Zdigits2 q + e').
Proof.
  unfold SFdiv_core_binary.
  set (d1 := Zdigits2 (Z.pos m1)). set (d2 := Zdigits2 (Z.pos m2)).
  set (D := d1 + e1 - (d2 + e2)).
  set (e' := Z.min (fexp prec emax D) (e1 - e2)).
  set (s := e1 - e2 - e').
  assert (Hs : 0 <= s) by (unfold s, e'; lia).
  set (m' := match s with Z.pos _ => Z.shiftl (Z.pos m1) s | 0 => Z.pos m1 | Z.neg _ => 0 end).
  assert (Hm' : m' = Z.pos m1 * 2 ^ s).
  { unfold m'. destruct s as [|p|p]; [simpl; lia| |lia]. apply Z.shiftl_mul_pow2. lia. }
  pose proof (Z_div_mod m' (Z.pos m2) ltac:(lia)) as Hdm.
  destruct (Z.div_eucl m' (Z.pos m2)) as [q r]. destruct Hdm as [Hq Hr].
  exists m'. split; [exact Hs|]. split; [exact Hm'|].
  assert (Hm'pos : 0 < m').
  { rewrite Hm'. pose proof (Z.pow_pos_nonneg 2 s). nia. }
  assert (Hq0 : 0 <= q) by nia.
  split; [nia|]. split; [exact Hq0|].
  assert (HD : D - e' <= Zdigits2 q).
  { destruct (Z_le_gt_dec (D - e') 0) as [Hle|Hgt].
    - pose proof (Zdigits2_nonneg q). lia.
    - assert (Hk : 0 <= D - e' - 1) by lia.
      assert (H2k : 2 ^ (D - e' - 1) <= q).
      { destruct (Z_lt_le_dec q (2 ^ (D - e' - 1))) as [Hlt|]; [exfalso|assumption].
        assert (Hd1 : 2 ^ (d1 - 1) <= Z.pos m1) by (apply (Zdigits2_bounds (Z.pos m1)); lia).
        assert (Hd2 : Z.pos m2 < 2 ^ d2) by (apply (Zdigits2_bounds (Z.pos m2)); lia).
        assert (Hd1p : 0 < d1) by (apply (Zdigits2_pos (Z.pos m1)); lia).
        assert (Hd2p : 0 < d2) by (apply (Zdigits2_pos (Z.pos m2)); lia).
        assert (Hlow : 2 ^ (d1 - 1 + s) <= m').
        { rewrite Hm', Z.pow_add_r by lia. pose proof (Z.pow_pos_nonneg 2 s). nia. }
        assert (Hpow : 2 ^ (D - e' - 1) * 2 ^ d2 = 2 ^ (d1 - 1 + s)).
        { rewrite <- Z.pow_add_r by lia. f_equal. unfold s, D. lia. }
        pose proof (Z.pow_pos_nonneg 2 (D - e' - 1) ltac:(lia) Hk).
        nia. }
      pose proof (Zdigits2_lower q (D - e' - 1) Hk H2k). lia. }
  assert (He' : e' <= fexp prec emax D) by (unfold e'; lia).
  eapply Z.le_trans; [exact He'|]. apply fexp_mono. lia.
Qed.

Local Open Scope R_scope.

Lemma sqrt_spec m e :
  let c := S754_finite false m e in
  approx (SFsqrt prec emax c) (sqrt (to_R c)) /\
  sign_is (SFsqrt prec emax c) false /\ valid (SFsqrt prec emax c).
Proof.
  intros c. cbn [SFsqrt c].
  pose proof (sqrt_core_int m e) as H.
  destruct (SFsqrt_core_binary prec emax (Z.pos m) e) as [[q e'] l].
  destruct H as (m' & Hs & Hm' & Hq & Hq0 & Hfit).
  assert (HC : to_R c = IZR m' * (bpow e' * bpow e')).
  { unfold c. rewrite to_R_finite. unfold Rsign. rewrite Rmult_1_l, Hm', mult_IZR.
    rewrite <- (bpow_IZR (e - 2 * e')) by lia. rewrite <- bpow_add, Rmult_assoc, <- bpow_add.
    f_equal. f_equal. lia. }
  assert (Hm'0 : 0 <= IZR m') by (apply IZR_le; nia).
  assert (Hsq : sqrt (to_R c) = sqrt (IZR m') * bpow e').
  { rewrite HC, sqrt_mult; [|exact Hm'0|pose proof (bpow_pos e'); nra].
    rewrite sqrt_square by (apply Rlt_le, bpow_pos). reflexivity. }
  assert (Hlo : IZR q <= sqrt (IZR m')).
  { rewrite <- (sqrt_square (IZR q)) by (apply IZR_le; lia).
    apply sqrt_le_1_alt. rewrite <- mult_IZR. apply IZR_le. lia. }
  assert (Hhi : sqrt (IZR m') < IZR q + 1).
  { rewrite <- (sqrt_square (IZR q + 1)) by (assert (0 <= IZR q) by (apply IZR_le; lia); lra).
    apply sqrt_lt_1_alt. split; [exact Hm'0|].
    rewrite <- plus_IZR, <- mult_IZR. apply IZR_lt. lia. }
  pose proof (round_aux_approx false q e' l (sqrt (to_R c)) Hq0 Hfit) as Hr.
  unfold Rsign in Hr. rewrite Rmult_1_l in Hr. apply Hr.
  rewrite Hsq. pose proof (bpow_pos e'). split; nra.
Qed.

Lemma Rsign_div a b (x y : R) :
  y <> 0 -> (Rsign a * x) / (Rsign b * y) = Rsign (xorb a b) * (x / y).
Proof. intros Hy. destruct a, b; unfold Rsign; simpl; field; exact Hy. Qed.

Lemma div_spec sx mx ex sy my ey :
  let x := S754_finite sx mx ex in
  let y := S754_finite sy my ey in
  approx (SFdiv prec emax x y) (to_R x / to_R y) /\
  sign_is (SFdiv prec emax x y) (xorb sx sy) /\ valid (SFdiv prec emax x y).
Proof.
  intros x y. cbn [SFdiv x y].
  pose proof (div_core_int mx ex my ey) as H.
  destruct (SFdiv_core_binary prec emax (Z.pos mx) ex (Z.pos my) ey) as [[q e'] l].
  destruct H as (m' & Hs & Hm' & Hq & Hq0 & Hfit).
  set (X := IZR (Z.pos mx) * bpow ex). set (Y := IZR (Z.pos my) * bpow ey).
  assert (HY : 0 < Y).
  { unfold Y. pose proof (bpow_pos ey). assert (0 < IZR (Z.pos my)) by (apply IZR_lt; lia). nra. }
  assert (Hmy : 0 < IZR (Z.pos my)) by (apply IZR_lt; lia).
  assert (HXY : X / Y = IZR m' / IZR (Z.pos my) * bpow e').
  { unfold X, Y. rewrite Hm', mult_IZR, <- (bpow_IZR (ex - ey - e')) by lia.
    replace (bpow ex) with (bpow (ex - ey - e') * bpow e' * bpow ey).
    - pose proof (bpow_pos ey). field. split; lra.
    - rewrite <- !bpow_add. f_equal. lia. }
  replace (to_R x / to_R y) with (Rsign (xorb sx sy) * (X / Y)).
  2:{ unfold x, y. rewrite !to_R_finite. fold X Y. symmetry. apply Rsign_div. lra. }
  apply round_aux_approx; [exact Hq0|exact Hfit|].
  rewrite HXY.
  assert (Hlo : IZR q <= IZR m' / IZR (Z.pos my)).
  { apply Rmult_le_reg_r with (r := IZR (Z.pos my)); [exact Hmy|].
    replace (IZR m' / IZR (Z.pos my) * IZR (Z.pos my)) with (IZR m') by (field; lra).
    rewrite <- mult_IZR. apply IZR_le. lia. }
  assert (Hhi : IZR m' / IZR (Z.pos my) < IZR q + 1).
  { apply Rmult_lt_reg_r with (r := IZR (Z.pos my)); [exact Hmy|].
    replace (IZR m' / IZR (Z.pos my) * IZR (Z.pos my)) with (IZR m') by (field; lra).
    rewrite <- plus_IZR, <- mult_IZR. apply IZR_lt. lia. }
  pose proof (bpow_pos e'). split; nra.
Qed.

(** ** Comparison of canonical positive numbers *)

Lemma canonical_digits m e :
  valid (S754_finite false m e) ->
  (e = -149 /\ Z.pos m < 2 ^ 24 \/ -149 < e /\ 2 ^ 23 <= Z.pos m < 2 ^ 24)%Z.
Proof.
  unfold valid; cbn [valid_binary]. unfold bounded, canonical_mantissa. intros H.
  apply andb_prop in H as [Hc _]. apply Z.eqb_eq in Hc. rewrite fexp_eq in Hc.
  pose proof (digits2_pos_bounds m) as Hb.
  set (d := Z.pos (digits2_pos m)) in *.
  destruct (Z.eq_dec e (-149)%Z) as [->|Hne].
  - left. split; [reflexivity|].
    assert (2 ^ d <= 2 ^ 24)%Z by (apply Z.pow_le_mono_r; lia). lia.
  - right. assert (Hd : d = 24%Z) by lia. rewrite Hd in Hb. simpl in Hb. lia.
Qed.

Lemma canonical_lt m1 e1 m2 e2 :
  valid (S754_finite false m1 e1) -> valid (S754_finite false m2 e2) ->
  (e1 < e2)%Z -> IZR (Z.pos m1) * bpow e1 < IZR (Z.pos m2) * bpow e2.
Proof.
  intros H1 H2 He.
  destruct (canonical_digits m1 e1 H1) as [[E1 B1]|[E1 B1]];
    destruct (canonical_digits m2 e2 H2) as [[E2 B2]|[E2 B2]]; try lia.
  - assert (IZR (Z.pos m1) < IZR (2 ^ 24)) by (apply IZR_lt; lia).
    assert (IZR (2 ^ 23) <= IZR (Z.pos m2)) by (apply IZR_le; lia).
    pose proof (bpow_le (e1 + 1) e2 ltac:(lia)) as Hb.
    rewrite bpow_add in Hb. replace (bpow 1) with 2 in Hb by (unfold bpow; simpl; ring).
    pose proof (bpow_pos e1). simpl (2 ^ 24)%Z in *. simpl (2 ^ 23)%Z in *. nra.
  - assert (IZR (Z.pos m1) < IZR (2 ^ 24)) by (apply IZR_lt; lia).
    assert (IZR (2 ^ 23) <= IZR (Z.pos m2)) by (apply IZR_le; lia).
    pose proof (bpow_le (e1 + 1) e2 ltac:(lia)) as Hb.
    rewrite bpow_add in Hb. replace (bpow 1) with 2 in Hb by (unfold bpow; simpl; ring).
    pose proof (bpow_pos e1). simpl (2 ^ 24)%Z in *. simpl (2 ^ 23)%Z in *. nra.
Qed.

Lemma SFltb_pos m1 e1 m2 e2 :
  valid (S754_finite false m1 e1) -> valid (S754_finite false m2 e2) ->
  SFltb (S754_finite false m1 e1) (S754_finite false m2 e2) = true <->
  IZR (Z.pos m1) * bpow e1 < IZR (Z.pos m2) * bpow e2.
Proof.
  intros H1 H2. unfold SFltb; cbn [SFcompare].
  destruct (Z.compare_spec e1 e2) as [->|Hlt|Hgt].
  - rewrite Pos.compare_cont_spec; cbn [Pos.switch_Eq].
    pose proof (bpow_pos e2) as Hp2.
    destruct (Pos.compare_spec m1 m2) as [->|Hm|Hm]; split; intros Hc; try discriminate; try reflexivity.
    + lra.
    + assert (IZR (Z.pos m1) < IZR (Z.pos m2)) by (apply IZR_lt; lia). nra.
    + assert (IZR (Z.pos m2) < IZR (Z.pos m1)) by (apply IZR_lt; lia). nra.
  - split; [intros _|reflexivity]. apply canonical_lt; assumption.
  - split; [discriminate|]. intros Hc.
    pose proof (canonical_lt m2 e2 m1 e1 H2 H1 ltac:(lia)). lra.
Qed.

End Rounding.

(** Error polynomials of the norm and of the rescaling. *)
Section Poly.
Local Open Scope R_scope.
Variables e t : R.
Hypothesis He : 0 < e <= / 1000000.
Hypothesis Ht : 0 < t <= e * e * e * e.

Lemma t_le_e2 : t <= e * e / 1000000.
Proof. destruct He, Ht. assert (e * e <= / 1000000) by nra. nra. Qed.

(** (D(1+e)+t)^2 (1+e)^2 + 4t <= (D(1+5e))^2 for D >= 1 *)
Lemma chain_upper (D : R) :
  1 <= D ->
  (D * (1 + e) + t) * (D * (1 + e) + t) * ((1 + e) * (1 + e)) + 4 * t
  <= (D * (1 + 5 * e)) * (D * (1 + 5 * e)).
Proof.
  intros HD. pose proof t_le_e2 as Ht2. destruct He as [He0 He1], Ht as [Ht0 _].
  assert (E2 : e * e <= e * / 1000000) by nra.
  assert (DE : 0 <= D * e) by nra.
  assert (DE2 : D * (e * e) <= D * e * / 1000000) by nra.
  assert (T1 : t <= D * (e * e)) by nra.
  assert (T2 : t * e <= t) by nra.
  assert (H1 : (D * (1 + e) + t) * (1 + e) <= D * (1 + 3 * e)).
  { replace ((D * (1 + e) + t) * (1 + e))
      with (D + 2 * (D * e) + D * (e * e) + t + t * e) by ring.
    replace (D * (1 + 3 * e)) with (D + 3 * (D * e)) by ring. lra. }
  assert (H0 : 0 <= (D * (1 + e) + t) * (1 + e)) by nra.
  assert (H2 : ((D * (1 + e) + t) * (1 + e)) * ((D * (1 + e) + t) * (1 + e))
               <= (D * (1 + 3 * e)) * (D * (1 + 3 * e))) by nra.
  assert (H3 : 4 * t <= D * D * e) by nra.
  nra.
Qed.

Lemma chain_upper_mono (D L : R) :
  0 <= D <= L ->
  (D * (1 + e) + t) * (D * (1 + e) + t) * ((1 + e) * (1 + e))
  <= (L * (1 + e) + t) * (L * (1 + e) + t) * ((1 + e) * (1 + e)).
Proof.
  intros [HD HL]. destruct He as [He0 He1], Ht as [Ht0 _].
  assert (0 <= D * (1 + e) + t <= L * (1 + e) + t) by nra.
  assert ((D * (1 + e) + t) * (D * (1 + e) + t) <= (L * (1 + e) + t) * (L * (1 + e) + t)) by nra.
  assert (0 <= (1 + e) * (1 + e)) by nra.
  nra.
Qed.

(** the rescaled components *)
Lemma rescaled_bound (L D aX aY x1 y1 : R) :
  1 <= L -> L <= D -> 0 <= aX -> 0 <= aY -> 0 <= x1 -> 0 <= y1 ->
  aX * aX + aY * aY <= (D * (1 + 5 * e)) * (D * (1 + 5 * e)) ->
  x1 * ((1 - e) * (1 - e)) * D <= L * (aX + 2 * t * D) ->
  y1 * ((1 - e) * (1 - e)) * D <= L * (aY + 2 * t * D) ->
  x1 * x1 + y1 * y1 <= (L * (1 + 8 * e)) * (L * (1 + 8 * e)).
Proof.
  intros HL HD HX HY Hx Hy HS H1 H2.
  pose proof t_le_e2 as Ht2. destruct He as [He0 He1], Ht as [Ht0 _].
  set (K := (1 - e) * (1 - e)) in *.
  assert (HK : 0 < K) by (unfold K; nra).
  assert (HaX : aX <= D * (1 + 5 * e)).
  { assert (0 <= D * (1 + 5 * e)) by nra. nra. }
  assert (HaY : aY <= D * (1 + 5 * e)).
  { assert (0 <= D * (1 + 5 * e)) by nra. nra. }
  (* divide by D *)
  set (u := aX / D). set (v := aY / D).
  assert (HD0 : 0 < D) by lra.
  assert (Hu : aX = u * D) by (unfold u; field; lra).
  assert (Hv : aY = v * D) by (unfold v; field; lra).
  assert (Hu0 : 0 <= u) by (unfold u; apply Rmult_le_pos; [lra|apply Rlt_le, Rinv_0_lt_compat; lra]).
  assert (Hv0 : 0 <= v) by (unfold v; apply Rmult_le_pos; [lra|apply Rlt_le, Rinv_0_lt_compat; lra]).
  assert (Hu1 : u <= 1 + 5 * e) by (apply Rmult_le_reg_r with D; lra).
  assert (Hv1 : v <= 1 + 5 * e) by (apply Rmult_le_reg_r with D; lra).
  assert (Huv : u * u + v * v <= (1 + 5 * e) * (1 + 5 * e)).
  { apply Rmult_le_reg_r with (D * D); [nra|]. rewrite Hu, Hv in HS. nra. }
  assert (G1 : x1 * K <= L * (u + 2 * t)).
  { apply Rmult_le_reg_r with D; [lra|]. rewrite Hu in H1. nra. }
  assert (G2 : y1 * K <= L * (v + 2 * t)).
  { apply Rmult_le_reg_r with D; [lra|]. rewrite Hv in H2. nra. }
  assert (Gs : (x1 * K) * (x1 * K) + (y1 * K) * (y1 * K)
               <= L * L * ((u + 2 * t) * (u + 2 * t) + (v + 2 * t) * (v + 2 * t))).
  { assert (0 <= x1 * K) by nra. assert (0 <= y1 * K) by nra.
    assert (0 <= L * (u + 2 * t)) by nra. assert (0 <= L * (v + 2 * t)) by nra.
    nra. }
  assert (Gp : (u + 2 * t) * (u + 2 * t) + (v + 2 * t) * (v + 2 * t)
               <= (1 + 5 * e) * (1 + 5 * e) + e * e).
  { assert (Huv3 : u + v <= 3) by lra.
    assert (Ht1 : t <= 1) by (clear - Ht2 He0 He1; nra).
    assert (P1 : t * (u + v) <= t * 3) by (apply Rmult_le_compat_l; lra).
    assert (P2 : t * t <= t * 1) by (apply Rmult_le_compat_l; lra).
    assert (P3 : 20 * t <= e * e) by (clear - Ht2 He0 He1; nra).
    replace ((u + 2 * t) * (u + 2 * t) + (v + 2 * t) * (v + 2 * t))
      with (u * u + v * v + 4 * (t * (u + v)) + 8 * (t * t)) by ring.
    clear - Huv P1 P2 P3 Ht0.
    generalize dependent (u * u + v * v). generalize dependent (t * (u + v)).
    generalize dependent (t * t). generalize dependent (e * e).
    generalize dependent ((1 + 5 * e) * (1 + 5 * e)). intros. lra. }
  assert (Gk : (1 + 5 * e) * (1 + 5 * e) + e * e <= ((1 + 8 * e) * K) * ((1 + 8 * e) * K)).
  { assert (E2 : e * e <= e * / 1000000) by (clear - He0 He1; nra).
    assert (E3 : 0 <= e * e * e) by (clear - He0; nra).
    assert (Q1 : (1 + 5 * e) + e * e <= (1 + 8 * e) * K).
    { unfold K. replace ((1 + 8 * e) * ((1 - e) * (1 - e)))
        with (1 + 6 * e - 15 * (e * e) + 8 * (e * e * e)) by ring.
      clear - E2 E3 He0. generalize dependent (e * e * e). generalize dependent (e * e).
      intros. lra. }
    assert (Q0 : 0 <= 1 + 5 * e + e * e) by (clear - He0; nra).
    assert (Q2 : (1 + 5 * e + e * e) * (1 + 5 * e + e * e)
                 <= ((1 + 8 * e) * K) * ((1 + 8 * e) * K)).
    { clear - Q0 Q1. generalize dependent ((1 + 8 * e) * K).
      generalize dependent (1 + 5 * e + e * e). intros; nra. }
    assert (Q3 : (1 + 5 * e) * (1 + 5 * e) + e * e
                 <= (1 + 5 * e + e * e) * (1 + 5 * e + e * e)).
    { clear - He0. nra. }
    lra. }
  assert (Gf : (x1 * x1 + y1 * y1) * (K * K) <= (L * (1 + 8 * e)) * (L * (1 + 8 * e)) * (K * K)).
  { assert (0 <= L * L) by nra. nra. }
  apply Rmult_le_reg_r with (K * K); [nra|exact Gf].
Qed.

End Poly.


(** * The rescaling shared by the speed clamp and the wall projection *)

Section Rescale.
Import Binary32.
Local Open Scope R_scope.


Lemma eps_pos : 0 < eps. Proof. apply bpow_pos. Qed.
Lemma eta_pos : 0 < eta. Proof. apply bpow_pos. Qed.

Lemma eps_val : eps = / 8388608.
Proof.
  unfold eps. apply Rmult_eq_reg_r with (r := 8388608); [|lra].
  rewrite Rinv_l by lra.
  change 8388608 with (IZR (2 ^ 23)). rewrite <- (bpow_IZR 23) by lia.
  rewrite <- bpow_add. reflexivity.
Qed.

Lemma eta_le : eta <= eps * eps * eps * eps.
Proof.
  unfold eta, eps. rewrite <- !bpow_add. apply bpow_le. lia.
Qed.

Lemma near_zero_l v : near (S754_zero false) v <-> Rabs v <= eta.
Proof.
  unfold near; cbn [to_R]. rewrite Rminus_0_l, Rabs_Ropp, Rabs_R0, Rmult_0_r, Rplus_0_l. tauto.
Qed.

Lemma nonneg_fin_to_R a : nonneg_fin a -> 0 <= to_R a.
Proof.
  intros [->|(m & e & ->)]; cbn [to_R]; [lra|].
  unfold Rsign. pose proof (bpow_pos e). assert (0 < IZR (Z.pos m)) by (apply IZR_lt; lia). nra.
Qed.

Lemma nonneg_fin_finite a : nonneg_fin a -> is_finite a = true.
Proof. intros [->|(m & e & ->)]; reflexivity. Qed.

(** squares *)
Lemma square_cases x :
  is_finite x = true ->
  fmul32 x x = S754_infinity false \/
  (nonneg_fin (fmul32 x x) /\ near (fmul32 x x) (to_R x * to_R x)).
Proof.
  destruct x as [s|s| |s m e]; try discriminate; intros _.
  - right. unfold fmul32; cbn [SFmul]. rewrite xorb_nilpotent.
    split; [left; reflexivity|]. apply near_zero_l. cbn [to_R].
    rewrite Rmult_0_l, Rabs_R0. apply Rlt_le, eta_pos.
  - destruct (mul_spec s m e s m e) as [Ha Hs]. cbv zeta in Ha, Hs.
    rewrite xorb_nilpotent in Hs. unfold fmul32.
    destruct (SFmul prec emax (S754_finite s m e) (S754_finite s m e)) as [s'|s'| |s' m' e'];
      cbn [sign_is] in Hs; try contradiction; subst s'.
    + right. split; [left; reflexivity|exact Ha].
    + left. reflexivity.
    + right. split; [right; eauto|exact Ha].
Qed.

(** sums of two non-negative numbers *)
Lemma add_cases a b :
  nonneg_fin a -> nonneg_fin b ->
  fadd32 a b = S754_infinity false \/
  (nonneg_fin (fadd32 a b) /\ near (fadd32 a b) (to_R a + to_R b)).
Proof.
  intros [->|(ma & ea & ->)] [->|(mb & eb & ->)]; unfold fadd32.
  - right. cbn [SFadd]. split; [left; reflexivity|]. apply near_zero_l.
    cbn [to_R]. rewrite Rplus_0_l, Rabs_R0. apply Rlt_le, eta_pos.
  - right. cbn [SFadd]. split; [right; eauto|].
    unfold near. replace (to_R (S754_zero false)) with 0 by reflexivity.
    rewrite Rplus_0_l, Rminus_diag, Rabs_R0.
    pose proof (Rabs_pos (to_R (S754_finite false mb eb))). pose proof eps_pos. pose proof eta_pos. nra.
  - right. cbn [SFadd]. split; [right; eauto|].
    unfold near. replace (to_R (S754_zero false)) with 0 by reflexivity.
    rewrite Rplus_0_r, Rminus_diag, Rabs_R0.
    pose proof (Rabs_pos (to_R (S754_finite false ma ea))). pose proof eps_pos. pose proof eta_pos. nra.
  - destruct (add_pos_spec ma ea mb eb) as [Ha Hs]. cbv zeta in Ha, Hs.
    destruct (SFadd prec emax (S754_finite false ma ea) (S754_finite false mb eb))
      as [s'|s'| |s' m' e']; cbn [sign_is] in Hs; try contradiction; subst s'.
    + right. split; [left; reflexivity|exact Ha].
    + left. reflexivity.
    + right. split; [right; eauto|exact Ha].
Qed.

Lemma valid_zero s : valid (S754_zero s).
Proof. reflexivity. Qed.

Lemma sqrt_cases c :
  nonneg_fin c ->
  fsqrt32 c = S754_infinity false \/
  (nonneg_fin (fsqrt32 c) /\ valid (fsqrt32 c) /\ near (fsqrt32 c) (sqrt (to_R c))).
Proof.
  intros [->|(m & e & ->)]; unfold fsqrt32.
  - right. cbn [SFsqrt]. split; [left; reflexivity|]. split; [apply valid_zero|].
    apply near_zero_l. cbn [to_R]. rewrite sqrt_0, Rabs_R0. apply Rlt_le, eta_pos.
  - destruct (sqrt_spec m e) as (Ha & Hs & Hv). cbv zeta in Ha, Hs, Hv.
    destruct (SFsqrt prec emax (S754_finite false m e)) as [s'|s'| |s' m' e'];
      cbn [sign_is] in Hs; try contradiction; subst s'.
    + right. split; [left; reflexivity|]. split; [exact Hv|exact Ha].
    + left. reflexivity.
    + right. split; [right; eauto|]. split; [exact Hv|exact Ha].
Qed.

Lemma Rabs_le_both (a b : R) : Rabs a <= b -> - b <= a <= b.
Proof.
  intros H. pose proof (Rle_abs a). pose proof (Rle_abs (- a)) as H'.
  rewrite Rabs_Ropp in H'. lra.
Qed.

Lemma near_nonneg r v : 0 <= to_R r -> near r v ->
  v <= to_R r * (1 + eps) + eta /\ to_R r * (1 - eps) - eta <= v.
Proof.
  unfold near. intros H0 H. rewrite (Rabs_pos_eq (to_R r)) in H by exact H0.
  apply Rabs_le_both in H. lra.
Qed.

(** The computed norm bounds the exact one from above. *)
Lemma norm_chain (X Y A B C D : R) :
  0 <= A -> 0 <= B -> 0 <= C -> 0 <= D ->
  X * X <= A * (1 + eps) + eta ->
  Y * Y <= B * (1 + eps) + eta ->
  A + B <= C * (1 + eps) + eta ->
  sqrt C <= D * (1 + eps) + eta ->
  X * X + Y * Y <= (D * (1 + eps) + eta) * (D * (1 + eps) + eta) * ((1 + eps) * (1 + eps)) + 4 * eta.
Proof.
  intros HA HB HC HD H1 H2 H3 H4.
  pose proof eps_pos as He. pose proof eta_pos as Ht.
  assert (He1 : eps <= 1) by (rewrite eps_val; lra).
  assert (HsC : C <= (D * (1 + eps) + eta) * (D * (1 + eps) + eta)).
  { rewrite <- (sqrt_sqrt C HC) at 1. pose proof (sqrt_pos C). nra. }
  set (T := D * (1 + eps) + eta) in *.
  assert (HT : 0 <= T) by (unfold T; nra).
  assert (H5 : X * X + Y * Y <= (A + B) * (1 + eps) + 2 * eta) by nra.
  assert (H6 : (A + B) * (1 + eps) <= (C * (1 + eps) + eta) * (1 + eps)) by nra.
  assert (H7 : C * ((1 + eps) * (1 + eps)) <= T * T * ((1 + eps) * (1 + eps))).
  { apply Rmult_le_compat_r; [nra|exact HsC]. }
  nra.
Qed.

Lemma norm32_cases x y :
  is_finite x = true -> is_finite y = true ->
  let d := norm32 x y in
  d = S754_infinity false \/
  (nonneg_fin d /\ valid d /\
   to_R x * to_R x + to_R y * to_R y
   <= (to_R d * (1 + eps) + eta) * (to_R d * (1 + eps) + eta) * ((1 + eps) * (1 + eps)) + 4 * eta).
Proof.
  intros Hx Hy d. unfold d, norm32.
  destruct (square_cases x Hx) as [Ea|[Na Ha]]; destruct (square_cases y Hy) as [Eb|[Nb Hb]].
  - left. rewrite Ea, Eb. reflexivity.
  - left. rewrite Ea. destruct Nb as [->|(m & e & ->)]; reflexivity.
  - left. rewrite Eb. destruct Na as [->|(m & e & ->)]; reflexivity.
  - destruct (add_cases _ _ Na Nb) as [Ec|[Nc Hc]].
    + left. rewrite Ec. reflexivity.
    + destruct (sqrt_cases _ Nc) as [Ed|(Nd & Vd & Hd)]; [left; exact Ed|right].
      split; [exact Nd|]. split; [exact Vd|].
      pose proof (nonneg_fin_to_R _ Na) as A0. pose proof (nonneg_fin_to_R _ Nb) as B0.
      pose proof (nonneg_fin_to_R _ Nc) as C0. pose proof (nonneg_fin_to_R _ Nd) as D0.
      apply (norm_chain _ _ _ _ _ _ A0 B0 C0 D0).
      * apply (near_nonneg _ _ A0 Ha).
      * apply (near_nonneg _ _ B0 Hb).
      * apply (near_nonneg _ _ C0 Hc).
      * apply (near_nonneg _ _ D0 Hd).
Qed.

Lemma eps_small : 0 < eps <= / 1000000.
Proof. rewrite eps_val. lra. Qed.

Lemma eta_small : 0 < eta <= eps * eps * eps * eps.
Proof. split; [apply eta_pos | apply eta_le]. Qed.

Lemma eta_le_1 : eta <= / 1000000.
Proof.
  pose proof eps_small as [H0 H1]. pose proof eta_small as [_ H2].
  assert (E2 : 0 <= eps * eps <= 1) by nra.
  assert (E3 : eps * eps * eps <= eps).
  { replace eps with (1 * eps) at 4 by ring. apply Rmult_le_compat_r; lra. }
  assert (E4 : eps * eps * eps * eps <= eps * eps).
  { apply Rmult_le_compat_r; lra. }
  nra.
Qed.

Lemma Rabs_sq (x : R) : Rabs x * Rabs x = x * x.
Proof. rewrite <- Rabs_mult. apply Rabs_pos_eq. nra. Qed.

Lemma bpow_105_big : 1024 <= bpow 105.
Proof.
  replace 1024 with (bpow 10); [apply bpow_le; lia|].
  rewrite bpow_IZR by lia. reflexivity.
Qed.

(** A finite value divided by a positive finite [d] that is at least as
    large as half of it, then multiplied by [L]. *)
Lemma scale_component (L x : spec_float) mL eL md ed :
  L = S754_finite false mL eL -> 1 <= to_R L <= 64 ->
  is_finite x = true ->
  let d := S754_finite false md ed in
  to_R L <= to_R d ->
  Rabs (to_R x) <= 2 * to_R d ->
  let x' := fmul32 (fdiv32 x d) L in
  is_finite x' = true /\
  Rabs (to_R x') * ((1 - eps) * (1 - eps)) * to_R d
  <= to_R L * (Rabs (to_R x) + 2 * eta * to_R d).
Proof.
  intros HL HLr Hx d HLd HXd x'.
  pose proof eps_small as [He0 He1]. pose proof eta_pos as Ht0.
  set (D := to_R d) in *. set (Lr := to_R L) in *. set (X := to_R x) in *.
  assert (HD : 1 <= D) by lra.
  assert (Hzero : 0 <= Lr * (Rabs X + 2 * eta * D)).
  { pose proof (Rabs_pos X). apply Rmult_le_pos; [lra|]. nra. }
  assert (Hzero_case : forall s, fmul32 (S754_zero s) L = S754_zero s).
  { intros s. rewrite HL. unfold fmul32; cbn [SFmul]. rewrite xorb_false_r. reflexivity. }
  destruct x as [sx|sx| |sx mx ex]; try discriminate.
  - (* x is zero *)
    unfold x', fdiv32, d; cbn [SFdiv]. rewrite Hzero_case. split; [reflexivity|].
    cbn [to_R]. rewrite Rabs_R0, !Rmult_0_l. exact Hzero.
  - destruct (div_spec sx mx ex false md ed) as (Ha & _ & _). cbv zeta in Ha.
    fold d in Ha. change (to_R (S754_finite sx mx ex)) with X in Ha. fold D in Ha.
    assert (Hq : Rabs (X / D) = Rabs X / D).
    { unfold Rdiv. rewrite Rabs_mult, (Rabs_pos_eq (/ D)); [reflexivity|].
      apply Rlt_le, Rinv_0_lt_compat. lra. }
    assert (Hq2 : Rabs X / D <= 2).
    { apply Rmult_le_reg_r with D; [lra|]. unfold Rdiv. rewrite Rmult_assoc, Rinv_l by lra. lra. }
    unfold x'. unfold fdiv32.
    destruct (SFdiv prec emax (S754_finite sx mx ex) d) as [sn|sn| |sn mn en] eqn:En;
      cbn [approx] in Ha; try contradiction.
    + rewrite Hzero_case. split; [reflexivity|]. cbn [to_R].
      rewrite Rabs_R0, !Rmult_0_l. exact Hzero.
    + exfalso. rewrite Hq in Ha. pose proof bpow_105_big. lra.
    + set (nx := S754_finite sn mn en) in *. set (NX := to_R nx) in *.
      assert (Hn : Rabs NX * (1 - eps) <= Rabs X / D + eta).
      { apply Rabs_le_both in Ha.
        assert (Rabs NX <= Rabs (NX - X / D) + Rabs (X / D)).
        { replace NX with ((NX - X / D) + X / D) at 1 by ring. apply Rabs_triang. }
        assert (Rabs (NX - X / D) <= eps * Rabs NX + eta) by (apply Rabs_le; exact Ha).
        rewrite Hq in *. lra. }
      assert (Hn4 : Rabs NX <= 5).
      { pose proof (Rabs_pos NX).
        assert (Rabs NX * eps <= Rabs NX * / 2) by (apply Rmult_le_compat_l; lra).
        pose proof eta_le_1.
        assert (E : Rabs NX * (1 - eps) = Rabs NX - Rabs NX * eps) by ring.
        rewrite E in Hn. clear E. set (q := Rabs NX * eps) in *.
        clearbody q. lra. }
      destruct (mul_spec sn mn en false mL eL) as [Hm _]. cbv zeta in Hm.
      rewrite <- HL in Hm. fold nx in Hm. change (to_R nx) with NX in Hm. fold Lr in Hm.
      unfold fmul32.
      destruct (SFmul prec emax nx L) as [sr|sr| |sr mr er] eqn:Er;
        cbn [approx] in Hm; try contradiction.
      * split; [reflexivity|]. cbn [to_R]. rewrite Rabs_R0, !Rmult_0_l. exact Hzero.
      * exfalso. rewrite Rabs_mult, (Rabs_pos_eq Lr) in Hm by lra.
        pose proof bpow_105_big. pose proof (Rabs_pos NX). nra.
      * split; [reflexivity|].
        set (X1 := to_R (S754_finite sr mr er)) in *.
        assert (Hx1 : Rabs X1 * (1 - eps) <= Rabs NX * Lr + eta).
        { apply Rabs_le_both in Hm.
          assert (Rabs X1 <= Rabs (X1 - NX * Lr) + Rabs (NX * Lr)).
          { replace X1 with ((X1 - NX * Lr) + NX * Lr) at 1 by ring. apply Rabs_triang. }
          assert (Rabs (X1 - NX * Lr) <= eps * Rabs X1 + eta) by (apply Rabs_le; exact Hm).
          rewrite Rabs_mult, (Rabs_pos_eq Lr) in * by lra. lra. }
        assert (HnD : Rabs NX * (1 - eps) * D <= Rabs X + eta * D).
        { replace (Rabs X + eta * D) with ((Rabs X / D + eta) * D) by (field; lra).
          apply Rmult_le_compat_r; lra. }
        pose proof (Rabs_pos X1). pose proof (Rabs_pos NX). pose proof (Rabs_pos X).
        assert (S1 : Rabs X1 * (1 - eps) * ((1 - eps) * D) <= (Rabs NX * Lr + eta) * ((1 - eps) * D)).
        { apply Rmult_le_compat_r; [nra|exact Hx1]. }
        assert (S2 : Lr * (Rabs NX * (1 - eps) * D) <= Lr * (Rabs X + eta * D)).
        { apply Rmult_le_compat_l; lra. }
        assert (S0 : 0 <= eta * D) by (apply Rmult_le_pos; lra).
        assert (S3 : eta * ((1 - eps) * D) <= Lr * (eta * D)).
        { replace (eta * ((1 - eps) * D)) with ((1 - eps) * (eta * D)) by ring.
          apply Rmult_le_compat_r; lra. }
        replace (Rabs X1 * ((1 - eps) * (1 - eps)) * D)
          with (Rabs X1 * (1 - eps) * ((1 - eps) * D)) by ring.
        replace ((Rabs NX * Lr + eta) * ((1 - eps) * D))
          with (Lr * (Rabs NX * (1 - eps) * D) + eta * ((1 - eps) * D)) in S1 by ring.
        replace (Lr * (Rabs X + 2 * eta * D))
          with (Lr * (Rabs X + eta * D) + Lr * (eta * D)) by ring.
        lra.
Qed.

Lemma scale_nonfinite (L x d : spec_float) mL eL :
  L = S754_finite false mL eL ->
  is_finite x = false -> is_finite (fmul32 (fdiv32 x d) L) = false.
Proof.
  intros -> Hx. destruct x as [sx|sx| |sx mx ex]; try discriminate;
    destruct d as [sd|sd| |sd md ed]; reflexivity.
Qed.

Lemma scale_by_infinity (L x : spec_float) mL eL :
  L = S754_finite false mL eL -> is_finite x = true ->
  let x' := fmul32 (fdiv32 x (S754_infinity false)) L in
  is_finite x' = true /\ to_R x' = 0.
Proof.
  intros -> Hx. destruct x as [sx|sx| |sx mx ex]; try discriminate; split; reflexivity.
Qed.

Lemma to_R_pos m e : to_R (S754_finite false m e) = IZR (Z.pos m) * bpow e.
Proof. cbn [to_R]. unfold Rsign. ring. Qed.

Lemma bound_weaken (Lr : R) :
  0 <= Lr ->
  (Lr * (1 + 5 * eps)) * (Lr * (1 + 5 * eps)) <= (Lr * (1 + 8 * eps)) * (Lr * (1 + 8 * eps)).
Proof.
  intros H. pose proof eps_pos.
  assert (0 <= Lr * (1 + 5 * eps)) by (apply Rmult_le_pos; lra).
  assert (Lr * (1 + 5 * eps) <= Lr * (1 + 8 * eps)) by (apply Rmult_le_compat_l; lra).
  apply Rmult_le_compat; lra.
Qed.

(** A vector no longer than [L], as far as the computed norm can tell. *)
Lemma short_bound (Lr D X Y : R) :
  1 <= Lr -> 0 <= D <= Lr ->
  X * X + Y * Y
  <= (D * (1 + eps) + eta) * (D * (1 + eps) + eta) * ((1 + eps) * (1 + eps)) + 4 * eta ->
  X * X + Y * Y <= (Lr * (1 + 8 * eps)) * (Lr * (1 + 8 * eps)).
Proof.
  intros HL HD H.
  pose proof (chain_upper_mono eps eta eps_small eta_small D Lr HD).
  pose proof (chain_upper eps eta eps_small eta_small Lr HL).
  pose proof (bound_weaken Lr). lra.
Qed.

Lemma Rabs_le_of_sq (X Y T : R) : 0 <= T -> X * X + Y * Y <= T * T -> Rabs X <= T.
Proof.
  intros HT H. pose proof (Rabs_pos X). rewrite <- (Rabs_sq X) in H.
  destruct (Rle_dec (Rabs X) T) as [|N]; [assumption|]. exfalso.
  assert (T < Rabs X) by lra. nra.
Qed.

Theorem rescale_finite (L : spec_float) mL eL (x y : spec_float) :
  L = S754_finite false mL eL -> valid L -> 1 <= to_R L <= 64 ->
  is_finite x = true -> is_finite y = true ->
  let p' := rescale L (x, y) in
  is_finite (fst p') = true /\ is_finite (snd p') = true /\
  to_R (fst p') * to_R (fst p') + to_R (snd p') * to_R (snd p')
  <= (to_R L * (1 + 8 * eps)) * (to_R L * (1 + 8 * eps)).
Proof.
  intros HL VL HLr Hx Hy. unfold rescale. cbn [fst snd].
  pose proof eps_small as [He0 He1].
  destruct (norm32_cases x y Hx Hy) as [Einf|(Nd & Vd & Hd)].
  - rewrite Einf.
    assert (Ec : SFltb L (S754_infinity false) = true) by (rewrite HL; reflexivity).
    rewrite Ec. cbn [fst snd].
    destruct (scale_by_infinity L x mL eL HL Hx) as [Fx Zx].
    destruct (scale_by_infinity L y mL eL HL Hy) as [Fy Zy].
    split; [exact Fx|]. split; [exact Fy|]. rewrite Zx, Zy.
    assert (0 <= to_R L * (1 + 8 * eps)) by (apply Rmult_le_pos; lra). nra.
  - destruct Nd as [Ez|(md & ed & Ed)].
    + rewrite Ez in *.
      assert (Ec : SFltb L (S754_zero false) = false) by (rewrite HL; reflexivity).
      rewrite Ec. cbn [fst snd].
      split; [exact Hx|]. split; [exact Hy|].
      apply (short_bound (to_R L) (to_R (S754_zero false))); [lra|cbn [to_R]; lra|exact Hd].
    + rewrite Ed in *.
      assert (Hlt := SFltb_pos mL eL md ed). rewrite <- HL in Hlt. specialize (Hlt VL Vd).
      rewrite <- !to_R_pos, <- HL in Hlt.
      destruct (SFltb L (S754_finite false md ed)) eqn:Ecmp; cbn [fst snd].
      * assert (HLD : to_R L < to_R (S754_finite false md ed)) by (apply Hlt; reflexivity).
        set (d := S754_finite false md ed) in *.
        assert (HD1 : 1 <= to_R d) by lra.
        pose proof (chain_upper eps eta eps_small eta_small (to_R d) HD1) as Hc.
        assert (Hsum : to_R x * to_R x + to_R y * to_R y
                       <= (to_R d * (1 + 5 * eps)) * (to_R d * (1 + 5 * eps))) by lra.
        assert (HT : 0 <= to_R d * (1 + 5 * eps)) by (apply Rmult_le_pos; lra).
        assert (HT2 : to_R d * (1 + 5 * eps) <= 2 * to_R d).
        { rewrite (Rmult_comm 2). apply Rmult_le_compat_l; lra. }
        assert (HX : Rabs (to_R x) <= 2 * to_R d).
        { pose proof (Rabs_le_of_sq (to_R x) (to_R y) _ HT Hsum). lra. }
        assert (HY : Rabs (to_R y) <= 2 * to_R d).
        { rewrite Rplus_comm in Hsum.
          pose proof (Rabs_le_of_sq (to_R y) (to_R x) _ HT Hsum). lra. }
        destruct (scale_component L x mL eL md ed HL HLr Hx (Rlt_le _ _ HLD) HX) as [Fx Bx].
        destruct (scale_component L y mL eL md ed HL HLr Hy (Rlt_le _ _ HLD) HY) as [Fy By].
        fold d in Fx, Bx, Fy, By.
        split; [exact Fx|]. split; [exact Fy|].
        rewrite <- (Rabs_sq (to_R (fmul32 (fdiv32 x d) L))).
        rewrite <- (Rabs_sq (to_R (fmul32 (fdiv32 y d) L))).
        rewrite <- (Rabs_sq (to_R x)), <- (Rabs_sq (to_R y)) in Hsum.
        apply (rescaled_bound eps eta eps_small eta_small (to_R L) (to_R d)
                 (Rabs (to_R x)) (Rabs (to_R y))); try apply Rabs_pos; try lra; assumption.
      * assert (HDL : to_R (S754_finite false md ed) <= to_R L).
        { destruct (Rle_dec (to_R (S754_finite false md ed)) (to_R L)) as [|N]; [assumption|].
          exfalso. assert (false = true); [|discriminate].
          apply Hlt. lra. }
        split; [exact Hx|]. split; [exact Hy|].
        apply (short_bound (to_R L) (to_R (S754_finite false md ed))); [lra| |exact Hd].
        split; [|exact HDL]. rewrite to_R_pos.
        apply Rmult_le_pos; [apply IZR_le; lia|apply Rlt_le, bpow_pos].
Qed.

(** A component that is not finite stays so. *)
Lemma rescale_nonfinite (L : spec_float) mL eL (x y : spec_float) :
  L = S754_finite false mL eL ->
  (is_finite x = false -> is_finite (fst (rescale L (x, y))) = false) /\
  (is_finite y = false -> is_finite (snd (rescale L (x, y))) = false).
Proof.
  intros HL. unfold rescale. cbn [fst snd].
  destruct (SFltb L (norm32 x y)); cbn [fst snd]; split; intros H; try exact H;
    apply (scale_nonfinite L _ _ mL eL HL H).
Qed.

Theorem rescale_bound (L : spec_float) mL eL (p : spec_float * spec_float) :
  L = S754_finite false mL eL -> valid L -> 1 <= to_R L <= 64 ->
  let p' := rescale L p in
  is_finite (fst p') = true -> is_finite (snd p') = true ->
  to_R (fst p') * to_R (fst p') + to_R (snd p') * to_R (snd p')
  <= (to_R L * (1 + 8 * eps)) * (to_R L * (1 + 8 * eps)).
Proof.
  intros HL VL HLr p' Fx Fy. destruct p as [x y].
  destruct (rescale_nonfinite L mL eL x y HL) as [Nx Ny].
  destruct (is_finite x) eqn:Ex; [|fold p' in Nx; rewrite Nx in Fx by reflexivity; discriminate].
  destruct (is_finite y) eqn:Ey; [|fold p' in Ny; rewrite Ny in Fy by reflexivity; discriminate].
  apply (rescale_finite L mL eL x y HL VL HLr Ex Ey).
Qed.

End Rescale.

(** * The clamp and the wall projection in binary32 *)

Section Tolerance.
Import Binary32.
Local Open Scope R_scope.

Lemma MAX_SPEED_binary32 : (@MAX_SPEED spec_float arith) = S754_finite false 10485760 (-19).
Proof. reflexivity. Qed.

Lemma max_dist_binary32 : (@max_dist spec_float arith) = S754_finite false 13369344 (-18).
Proof. reflexivity. Qed.

Lemma to_R_scaled (k : Z) (n : Z) (m : positive) :
  (0 <= n)%Z -> Z.pos m = (k * 2 ^ n)%Z ->
  to_R (S754_finite false m (- n)) = IZR k.
Proof.
  intros Hn Hm. rewrite to_R_pos, Hm, mult_IZR, <- (bpow_IZR n) by exact Hn.
  rewrite Rmult_assoc, <- bpow_add, Z.add_opp_diag_r.
  unfold bpow; simpl. ring.
Qed.

Lemma MAX_SPEED_value : to_R (@MAX_SPEED spec_float arith) = 20.
Proof. rewrite MAX_SPEED_binary32. apply (to_R_scaled 20 19); [lia|reflexivity]. Qed.

Lemma max_dist_value : to_R (@max_dist spec_float arith) = 51.
Proof. rewrite max_dist_binary32. apply (to_R_scaled 51 18); [lia|reflexivity]. Qed.

Lemma tolerance_value : 8 * eps = / 1048576.
Proof. rewrite eps_val. lra. Qed.

Lemma clamp_speed_rescale (v : float32 * float32) :
  clamp_speed v = rescale MAX_SPEED v.
Proof. reflexivity. Qed.

Lemma constrain_rescale (p v : float32 * float32) :
  fst (constrain_to_tube p v) = rescale max_dist p.
Proof.
  unfold constrain_to_tube, rescale. cbv zeta.
  match goal with
  | |- fst (if ?c then _ else _) = (if ?c' then _ else _) =>
      change c with c'; destruct c'
  end; reflexivity.
Qed.

Lemma magnitude_le (x y : float32) (T : R) :
  0 <= T -> to_R x * to_R x + to_R y * to_R y <= T * T -> magnitude x y <= T.
Proof.
  intros HT H. unfold magnitude. rewrite <- (sqrt_square T HT).
  apply sqrt_le_1_alt. exact H.
Qed.

Lemma magnitude_sq (x y : float32) :
  magnitude x y * magnitude x y = to_R x * to_R x + to_R y * to_R y.
Proof. unfold magnitude. apply sqrt_sqrt. nra. Qed.

(** The clamp maps finite velocities to finite velocities no longer than
    [20 * (1 + 2^-20)]. *)
Lemma clamp_speed_finite (v : float32 * float32) :
  is_finite (fst v) = true -> is_finite (snd v) = true ->
  let v' := clamp_speed v in
  is_finite (fst v') = true /\ is_finite (snd v') = true /\
  magnitude (fst v') (snd v') <= 20 * (1 + / 1048576).
Proof.
  intros Hx Hy. rewrite clamp_speed_rescale. destruct v as [x y]. cbn [fst snd] in Hx, Hy.
  destruct (rescale_finite MAX_SPEED 10485760 (-19) x y) as (Fx & Fy & B); try assumption.
  - apply MAX_SPEED_binary32.
  - reflexivity.
  - rewrite MAX_SPEED_value. lra.
  - split; [exact Fx|]. split; [exact Fy|].
    rewrite tolerance_value, MAX_SPEED_value in B. apply magnitude_le; [lra|exact B].
Qed.

(** A velocity with an infinite or NaN component keeps it; so whenever the
    result is finite, it is within the bound. *)
Lemma clamp_speed_tolerance (v : float32 * float32) :
  let v' := clamp_speed v in
  is_finite (fst v') = true -> is_finite (snd v') = true ->
  magnitude (fst v') (snd v') <= 20 * (1 + / 1048576).
Proof.
  rewrite clamp_speed_rescale. intros v' Fx Fy.
  apply magnitude_le; [lra|].
  rewrite <- tolerance_value, <- MAX_SPEED_value.
  apply (rescale_bound _ 10485760 (-19)); try assumption.
  - apply MAX_SPEED_binary32.
  - reflexivity.
  - rewrite MAX_SPEED_value. lra.
Qed.

Lemma wall_projection_tolerance (p v : float32 * float32) :
  let p' := fst (constrain_to_tube p v) in
  is_finite (fst p') = true -> is_finite (snd p') = true ->
  magnitude (fst p') (snd p') <= 51 * (1 + / 1048576).
Proof.
  rewrite constrain_rescale. intros p' Fx Fy.
  apply magnitude_le; [lra|].
  rewrite <- tolerance_value, <- max_dist_value.
  apply (rescale_bound _ 13369344 (-18)); try assumption.
  - apply max_dist_binary32.
  - reflexivity.
  - rewrite max_dist_value. lra.
Qed.

Lemma wall_projection_finite (p v : float32 * float32) :
  is_finite (fst p) = true -> is_finite (snd p) = true ->
  let p' := fst (constrain_to_tube p v) in
  is_finite (fst p') = true /\ is_finite (snd p') = true.
Proof.
  intros Hx Hy. rewrite constrain_rescale. destruct p as [x y]. cbn [fst snd] in Hx, Hy.
  destruct (rescale_finite max_dist 13369344 (-18) x y) as (Fx & Fy & _); try assumption.
  - apply max_dist_binary32.
  - reflexivity.
  - rewrite max_dist_value. lra.
  - split; assumption.
Qed.

(** The position with which a call of [loop()] ends. *)
Lemma loop_position_tolerance (s : State float32) (inp : Input float32) :
  let s' := fst (loop s inp) in
  is_finite (ball_x s') = true -> is_finite (ball_y s') = true ->
  magnitude (ball_x s') (ball_y s') <= 51 * (1 + / 1048576).
Proof.
  cbv zeta. destruct (loop_position inp s) as [-> ->].
  destruct (physics_step_ball inp (handle_buttons inp s)) as (-> & -> & _).
  apply wall_projection_tolerance.
Qed.

End Tolerance.

(** * The claims that hold in every arithmetic *)

Section GenericClaims.
Context {F : Type} `{FA : FloatArith F}.

Implicit Types (s : State F) (inp : Input F) (i : nat) (t : Z).

Lemma loop_press_next s (a : F * F) t :
  current_chime (fst (loop s (press_next a t))) = select_next (current_chime s).
Proof. rewrite loop_chime. reflexivity. Qed.

Lemma loop_press_prev s (a : F * F) t :
  current_chime (fst (loop s (press_prev a t))) = select_prev (current_chime s).
Proof. rewrite loop_chime. reflexivity. Qed.

Lemma select_next_four c :
  select_next (select_next (select_next (select_next c))) = c.
Proof. destruct c; reflexivity. Qed.

Lemma select_prev_four c :
  select_prev (select_prev (select_prev (select_prev c))) = c.
Proof. destruct c; reflexivity. Qed.

(** C5 -- Chime selection wraps circularly over the four variants: "next"
    moves the index to [(i+1) mod 4] and "previous" to [(i+3) mod 4], so
    four "next" in a row (and four "previous") give back the starting
    variant, whichever it is.  The same holds of [loop()] itself: four
    calls that each find BtnC pressed (or each BtnA) leave [current_chime]
    where it was. *)
Theorem chime_selection_round_trip :
  (forall c : ChimeType,
      select_next (select_next (select_next (select_next c))) = c /\
      select_prev (select_prev (select_prev (select_prev c))) = c /\
      chime_index (select_next c) = (chime_index c + 1) mod 4 /\
      chime_index (select_prev c) = (chime_index c + 3) mod 4 /\
      0 <= chime_index c < 4) /\
  (forall s (a1 a2 a3 a4 : F * F) (t1 t2 t3 t4 : Z),
      current_chime
        (fst (run s [press_next a1 t1; press_next a2 t2;
                     press_next a3 t3; press_next a4 t4]))
      = current_chime s /\
      current_chime
        (fst (run s [press_prev a1 t1; press_prev a2 t2;
                     press_prev a3 t3; press_prev a4 t4]))
      = current_chime s).
Proof.
  split.
  - intros c. split; [apply select_next_four|].
    split; [apply select_prev_four|].
    split; [apply select_next_index|].
    split; [apply select_prev_index|].
    destruct c; simpl; lia.
  - intros s a1 a2 a3 a4 t1 t2 t3 t4. split.
    + rewrite !run_fst_cons. cbn [run fst].
      rewrite !loop_press_next. apply select_next_four.
    + rewrite !run_fst_cons. cbn [run fst].
      rewrite !loop_press_prev. apply select_prev_four.
Qed.

(** ** Glow counters *)

Lemma setup_glow_ok (cosine sine : F -> F) (imu : F * F) :
  glow_ok (rod_glow (setup cosine sine imu)).
Proof. unfold glow_ok; simpl. repeat constructor; lia. Qed.

Lemma glow_step_zero (g : list Z) i : g !!! i = 0 -> glow_step g i = g.
Proof. intros H. unfold glow_step. rewrite H. reflexivity. Qed.

Lemma glow_step_positive (g : list Z) i :
  (i < length g)%nat -> 0 < g !!! i <= 15 ->
  glow_step g i !!! i = g !!! i - 1.
Proof.
  intros Hi Hg. unfold glow_step.
  destruct (0 <? g !!! i) eqn:E; [|apply Z.ltb_ge in E; lia].
  rewrite list_lookup_total_insert_eq by exact Hi.
  unfold uint8_dec. apply Z.mod_small. lia.
Qed.

Lemma phases_keep_glow s inp :
  rod_glow (physics_step inp (handle_buttons inp s)) = rod_glow s.
Proof.
  destruct (physics_step_tables inp (handle_buttons inp s)) as (_ & -> & _).
  apply handle_buttons_tables.
Qed.

(** C10 -- Every rod's glow counter stays in [0, 15] at every tick: it is 0
    after [setup()]; a strike sets it to exactly 15; [drawUpdate()] takes 1
    off a counter only when it is strictly positive (so the [uint8_t] never
    wraps below 0) and leaves a counter at 0 alone; the button handlers and
    the physics never write it.  The range holds after every call of
    [loop()] and also between the collision pass and the decay. *)
Theorem glow_counter_range :
  (forall (cosine sine : F -> F) (imu : F * F) (inps : list (Input F)),
      glow_ok (rod_glow (fst (run (setup cosine sine imu) inps)))) /\
  (forall s inp, glow_ok (rod_glow s) -> glow_ok (rod_glow (fst (loop s inp)))) /\
  (forall s t, glow_ok (rod_glow s) -> glow_ok (rod_glow (fst (check_rods t s)))) /\
  (forall s t out i,
      (i < length (rod_glow s))%nat -> rod_fires t s i = true ->
      rod_glow (fst (rod_step t (s, out) i)) !!! i = 15) /\
  (forall (g : list Z) i, g !!! i = 0 -> glow_step g i = g) /\
  (forall (g : list Z) i,
      (i < length g)%nat -> 0 < g !!! i <= 15 ->
      glow_step g i !!! i = g !!! i - 1) /\
  (forall s inp, rod_glow (physics_step inp (handle_buttons inp s)) = rod_glow s).
Proof.
  split; [intros; apply run_glow_ok, setup_glow_ok|].
  split; [intros s inp; apply loop_glow_ok|].
  split; [intros s t; apply check_rods_glow_ok|].
  split.
  { intros s t out i Hi Hf. rewrite rod_step_glow_eq by exact Hi.
    rewrite Hf. reflexivity. }
  split; [apply glow_step_zero|].
  split; [apply glow_step_positive | apply phases_keep_glow].
Qed.

(** ** Debounce *)

Lemma ulong_sub_range (a b : Z) : 0 <= ulong_sub a b < ULONG_MOD.
Proof. unfold ulong_sub, ULONG_MOD. apply Z.mod_pos_bound. lia. Qed.

Lemma ulong_sub_no_wrap (a b : Z) :
  0 <= b <= a -> a < ULONG_MOD -> ulong_sub a b = a - b.
Proof. intros H1 H2. unfold ulong_sub. apply Z.mod_small. unfold ULONG_MOD in *. lia. Qed.

Lemma rod_fires_debounce t s i :
  rod_fires t s i = true -> ROD_DEBOUNCE < ulong_sub t (rod_last_hit s !!! i).
Proof.
  unfold rod_fires. intros H. apply andb_true_iff in H as [_ H].
  apply Z.ltb_lt in H. exact H.
Qed.

Lemma loop_last_hit s inp i :
  (i < NUM_RODS)%nat -> (i < length (rod_last_hit s))%nat ->
  let e := physics_step inp (handle_buttons inp s) in
  rod_last_hit e !!! i = rod_last_hit s !!! i /\
  rod_last_hit (fst (loop s inp)) !!! i
  = if rod_fires (now inp) e i then now inp else rod_last_hit s !!! i.
Proof.
  intros Hi Hlen e.
  assert (He : rod_last_hit e = rod_last_hit s).
  { unfold e. destruct (physics_step_tables inp (handle_buttons inp s)) as (-> & _).
    apply handle_buttons_tables. }
  split; [rewrite He; reflexivity|].
  rewrite loop_fst, drawUpdate_last_hit. fold e.
  rewrite check_rods_last_hit by (rewrite ?He; assumption).
  rewrite He. reflexivity.
Qed.

Lemma loop_last_hit_length s inp :
  length (rod_last_hit (fst (loop s inp))) = length (rod_last_hit s).
Proof.
  rewrite loop_fst, drawUpdate_last_hit.
  destruct (fold_rods_frame (now inp) (seq 0 NUM_RODS)
              (physics_step inp (handle_buttons inp s)) [])
    as (_&_&_&_&_&_&_&Hl&_).
  unfold check_rods. rewrite Hl.
  destruct (physics_step_tables inp (handle_buttons inp s)) as (-> & _).
  destruct (handle_buttons_tables inp s) as (-> & _). reflexivity.
Qed.

(** C3, as the code has it -- For every rod: a strike fires only when the
    time since the rod's recorded last hit, taken modulo [2^32] as the
    [unsigned long] subtraction takes it, exceeds 80 ms; a trigger records
    the current [millis()] and nothing else writes the record; so of two
    successive collision passes at most 80 ms apart at most one strikes the
    rod.  The record grows (by more than 80) from one trigger to the next
    as long as [millis()] has not wrapped around in between. *)
Theorem rod_debounce s (inp1 inp2 : Input F) i :
  (i < NUM_RODS)%nat -> (i < length (rod_last_hit s))%nat ->
  let e1 := physics_step inp1 (handle_buttons inp1 s) in
  let s1 := fst (loop s inp1) in
  let e2 := physics_step inp2 (handle_buttons inp2 s1) in
  (rod_fires (now inp1) e1 i = true ->
     ROD_DEBOUNCE < ulong_sub (now inp1) (rod_last_hit s !!! i)) /\
  rod_last_hit s1 !!! i
    = (if rod_fires (now inp1) e1 i then now inp1 else rod_last_hit s !!! i) /\
  (ulong_sub (now inp2) (now inp1) <= ROD_DEBOUNCE ->
     rod_fires (now inp1) e1 i && rod_fires (now inp2) e2 i = false) /\
  (rod_fires (now inp1) e1 i = true ->
     0 <= rod_last_hit s !!! i <= now inp1 -> now inp1 < ULONG_MOD ->
     rod_last_hit s !!! i + ROD_DEBOUNCE < rod_last_hit s1 !!! i).
Proof.
  intros Hi Hlen e1 s1 e2.
  destruct (loop_last_hit s inp1 i Hi Hlen) as [He1 Hs1]. fold e1 s1 in He1, Hs1.
  assert (Hfire : rod_fires (now inp1) e1 i = true ->
                  ROD_DEBOUNCE < ulong_sub (now inp1) (rod_last_hit s !!! i)).
  { intros Hf. rewrite <- He1. apply rod_fires_debounce, Hf. }
  split; [exact Hfire|]. split; [exact Hs1|]. split.
  - intros Hclose.
    destruct (rod_fires (now inp1) e1 i) eqn:Hf1; [|reflexivity].
    destruct (rod_fires (now inp2) e2 i) eqn:Hf2; [|reflexivity].
    exfalso. apply rod_fires_debounce in Hf2.
    assert (Hlen1 : (i < length (rod_last_hit s1))%nat)
      by (unfold s1; rewrite loop_last_hit_length; exact Hlen).
    destruct (loop_last_hit s1 inp2 i Hi Hlen1) as [He2 _]. fold e2 in He2.
    rewrite He2, Hs1 in Hf2. lia.
  - intros Hf Hold Hnow. rewrite Hs1, Hf.
    specialize (Hfire Hf). rewrite ulong_sub_no_wrap in Hfire by assumption. lia.
Qed.

End GenericClaims.

Section RodOrder.
Context {F : Type} `{FA : FloatArith F}.

Implicit Types (s : State F) (inp : Input F) (i : nat) (t : Z).

Lemma map_length_eq {A B C : Type} (f : A -> C) (g : B -> C) (l : list A) (l' : list B) :
  map f l = map g l' -> length l = length l'.
Proof.
  intros H. apply (f_equal (@length C)) in H.
  rewrite !length_map in H. exact H.
Qed.

(** C4, as the code has it -- When several rods are within the hit
    threshold in the same tick, every qualifying rod fires, in index order
    (rod 0 first, rod 7 last) and with no other priority: the note-on
    events of a call of [loop()] are, in order, one event on channel 0 per
    qualifying rod, with that rod's pitch in the active chime.  Whether a
    rod qualifies is decided on the state that enters the collision pass
    (ball position, the rod's own timestamp), so it does not depend on the
    rods before it; and each rod's timestamp is written by its own strike
    only.  (The note velocity of a strike is not part of this: it is read
    from the ball velocity at the rod's turn, which an earlier strike's
    bounce has overwritten.) *)
Theorem rods_fire_in_index_order s inp :
  let e := physics_step inp (handle_buttons inp s) in
  let firing := List.filter (rod_fires (now inp) e) (seq 0 NUM_RODS) in
  map (fun ev => (channel ev, pitch ev)) (snd (loop s inp))
    = map (fun i => (0, chime_notes (current_chime e) !!! i)) firing /\
  length (snd (loop s inp)) = length firing /\
  (forall i, (i < NUM_RODS)%nat -> (i < length (rod_last_hit e))%nat ->
     rod_last_hit (fst (loop s inp)) !!! i
     = if rod_fires (now inp) e i then now inp else rod_last_hit e !!! i).
Proof.
  intros e firing.
  assert (Hev : map (fun ev => (channel ev, pitch ev)) (snd (loop s inp))
                = map (fun i => (0, chime_notes (current_chime e) !!! i)) firing).
  { rewrite loop_snd. apply check_rods_events. }
  split; [exact Hev|]. split.
  - eapply map_length_eq, Hev.
  - intros i Hi Hlen. rewrite loop_fst, drawUpdate_last_hit.
    apply check_rods_last_hit; assumption.
Qed.

End RodOrder.

(** * The claims about the geometry, in both arithmetics *)

Section GeometryClaims.
Import Ideal.
Local Open Scope R_scope.

Implicit Types (s : State R) (inp : Input R).

(** C1, up to rounding -- After every call of [loop()] the ball's distance
    from the centre is at most [max_dist = TUBE_R - BALL_R - 4 = 51] up to
    the rounding of the arithmetic.  With the step read in exact real
    arithmetic the bound is 51 itself: a position that the integration has
    carried beyond it is projected radially onto the circle of radius 51
    (it lands at distance exactly 51, on the ray it was on), any other
    position is kept, and neither the collision pass nor the redraw moves
    the ball.  In the sketch's binary32 arithmetic, from every state and
    for every input, a position that is finite (neither infinite nor NaN)
    after the call is at distance at most [51 * (1 + 2^-20)], and the wall
    test maps finite positions to finite positions. *)
Theorem boundary_invariant_up_to_rounding :
  (max_dist = 51 /\
   (forall s inp,
       norm2 (ball_x (fst (loop s inp))) (ball_y (fst (loop s inp))) <= max_dist) /\
   (forall p v : R * R,
       max_dist < norm2 (fst p) (snd p) ->
       let p' := fst (constrain_to_tube p v) in
       p' = (fst p / norm2 (fst p) (snd p) * max_dist,
             snd p / norm2 (fst p) (snd p) * max_dist) /\
       norm2 (fst p') (snd p') = max_dist) /\
   (forall p v : R * R,
       norm2 (fst p) (snd p) <= max_dist -> fst (constrain_to_tube p v) = p)) /\
  (Binary32.to_R max_dist = 51 /\
   (forall (s : State Binary32.float32) (inp : Input Binary32.float32),
       let s' := fst (loop s inp) in
       Binary32.is_finite (ball_x s') = true ->
       Binary32.is_finite (ball_y s') = true ->
       Binary32.magnitude (ball_x s') (ball_y s') <= 51 * (1 + / 1048576)) /\
   (forall p v : Binary32.float32 * Binary32.float32,
       Binary32.is_finite (fst p) = true -> Binary32.is_finite (snd p) = true ->
       let p' := fst (constrain_to_tube p v) in
       Binary32.is_finite (fst p') = true /\ Binary32.is_finite (snd p') = true)).
Proof.
  split.
  - split; [apply max_dist_eq|]. split; [|split].
    + intros s inp. destruct (loop_position inp s) as [-> ->].
      apply physics_step_position_bound.
    + intros p v Hout p'. unfold p'.
      rewrite constrain_outside by exact Hout. cbn [fst snd].
      split; [reflexivity|].
      apply norm2_rescale; rewrite max_dist_eq in *; lra.
    + intros p v Hin. rewrite constrain_inside by exact Hin. reflexivity.
  - split; [apply max_dist_value|].
    split; [apply loop_position_tolerance | apply wall_projection_finite].
Qed.

(** C6 -- After the speed clamp the velocity magnitude is at most
    [MAX_SPEED = 20] within floating-point tolerance.  In the sketch's
    binary32 arithmetic the clamp maps every finite velocity to a finite
    velocity of exact length at most [20 * (1 + 2^-20)], and a result that
    is finite is within that bound whatever the input was.  With the
    rounding errors set aside (real arithmetic) the bound is 20 itself: a
    vector longer than the cap is replaced by the vector of length exactly
    20 with the same direction (a positive multiple of it), any other
    vector is returned unchanged, and the velocity with which [loop()]'s
    physics ends is within the cap too. *)
Theorem speed_clamp_bound :
  (Binary32.to_R MAX_SPEED = 20 /\
   (forall v : Binary32.float32 * Binary32.float32,
       Binary32.is_finite (fst v) = true -> Binary32.is_finite (snd v) = true ->
       let v' := clamp_speed v in
       Binary32.is_finite (fst v') = true /\ Binary32.is_finite (snd v') = true /\
       Binary32.magnitude (fst v') (snd v') <= 20 * (1 + / 1048576)) /\
   (forall v : Binary32.float32 * Binary32.float32,
       let v' := clamp_speed v in
       Binary32.is_finite (fst v') = true -> Binary32.is_finite (snd v') = true ->
       Binary32.magnitude (fst v') (snd v') <= 20 * (1 + / 1048576))) /\
  (MAX_SPEED = 20 /\
   (forall v : R * R,
       norm2 (fst (clamp_speed v)) (snd (clamp_speed v)) <= MAX_SPEED) /\
   (forall v : R * R,
       MAX_SPEED < norm2 (fst v) (snd v) ->
       let k := MAX_SPEED / norm2 (fst v) (snd v) in
       0 < k /\
       clamp_speed v = (k * fst v, k * snd v) /\
       norm2 (fst (clamp_speed v)) (snd (clamp_speed v)) = MAX_SPEED) /\
   (forall v : R * R,
       norm2 (fst v) (snd v) <= MAX_SPEED -> clamp_speed v = v) /\
   (forall s inp, hit_speed (physics_step inp s) <= MAX_SPEED)).
Proof.
  split.
  { split; [apply MAX_SPEED_value|].
    split; [apply clamp_speed_finite | apply clamp_speed_tolerance]. }
  split; [apply MAX_SPEED_eq|]. split; [apply clamp_speed_bound|].
  split; [|split; [apply clamp_speed_under | intros; apply physics_step_speed_bound]].
  intros v Hover k.
  assert (Hd : 0 < norm2 (fst v) (snd v)) by (rewrite MAX_SPEED_eq in Hover; lra).
  split.
  - unfold k. rewrite MAX_SPEED_eq. apply Rdiv_lt_0_compat; lra.
  - rewrite clamp_speed_over by exact Hover. cbn [fst snd]. split.
    + unfold k. f_equal; field; lra.
    + apply norm2_rescale; rewrite ?MAX_SPEED_eq; lra.
Qed.

End GeometryClaims.

(** * Facts of the binary32 reading *)

Section Binary32Facts.
Import Binary32.

Implicit Types (s : State float32) (d : float32).

Lemma note_velocity_range {F : Type} `{FloatArith F} (s : State F) :
  0 <= note_velocity s <= 127.
Proof.
  unfold note_velocity.
  set (x := (float_of_int 30 + hit_speed s * float_of_int 5)%fl).
  assert (Hu : 0 <= to_uint8 x < 256).
  { unfold to_uint8. destruct (float_trunc x); [apply Z.mod_pos_bound|]; lia. }
  cbv zeta. destruct (127 <? to_uint8 x) eqn:E; [lia|].
  apply Z.ltb_ge in E. lia.
Qed.

Lemma note_velocity_at_rest s :
  hit_speed s = S754_zero false -> note_velocity s = 30.
Proof. intros H. unfold note_velocity. rewrite H. reflexivity. Qed.

(** A binary32 value above [0.1f] and below [24.0f] is a finite, strictly
    positive number. *)
Lemma guarded_denominator d :
  flt (float_lit 1 10) d = true -> flt d HIT_DIST = true ->
  exists m e, d = S754_finite false m e.
Proof.
  intros Hlo Hhi. destruct d as [sg|sg| |sg m e].
  - discriminate Hlo.
  - destruct sg; [discriminate Hlo | discriminate Hhi].
  - discriminate Hlo.
  - destruct sg; [discriminate Hlo | eauto].
Qed.

Lemma boot_quiet :
  run boot (ticks (of_int 0, of_int 0) 0 100) = (boot, []).
Proof. vm_compute. reflexivity. Qed.

End Binary32Facts.

(** * The claims about the rod response and the ball at rest *)

Section StrikeClaims.
Import Ideal.
Local Open Scope R_scope.

Implicit Types (s : State R) (inp : Input R).

(** C8 -- In the rod response the rod-to-ball vector is divided by its
    length [d] only under the guard [d > 0.1]: then [d] is not zero, the
    velocity becomes [(dx / d, dy / d) * ROD_BOUNCE], a vector of length
    exactly [ROD_BOUNCE = 2]; when the guard fails the overwrite is skipped
    (the strike itself, with its timestamp, glow and note-on, still takes
    place and the ball keeps its velocity).  In binary32 a denominator that
    passes the guard in a strike is a finite, strictly positive number. *)
Theorem rod_bounce_guard s i :
  let d := rod_dist s i in
  (1 / 10 < d ->
     d <> 0 /\
     rod_bounce i s
     = set_vel (rod_dx s i / d * ROD_BOUNCE) (rod_dy s i / d * ROD_BOUNCE) s /\
     hit_speed (rod_bounce i s) = ROD_BOUNCE) /\
  (d <= 1 / 10 -> rod_bounce i s = s) /\
  (forall t out,
      rod_fires t s i = true -> d <= 1 / 10 ->
      rod_step t (s, out) i = (mark_hit t i s, out ++ [note_on i (mark_hit t i s)]) /\
      ball_vx (mark_hit t i s) = ball_vx s /\
      ball_vy (mark_hit t i s) = ball_vy s) /\
  (forall (s32 : State Binary32.float32) t,
      rod_fires t s32 i = true ->
      (flt (float_lit 1 10) (rod_dist s32 i) = true ->
         exists m e, rod_dist s32 i = S754_finite false m e) /\
      (flt (float_lit 1 10) (rod_dist s32 i) = false ->
         rod_bounce i (mark_hit t i s32) = mark_hit t i s32)).
Proof.
  intros d. split; [|split; [|split]].
  - intros Hfar. split; [lra|]. split.
    + apply rod_bounce_far, Hfar.
    + apply rod_bounce_speed, Hfar.
  - apply rod_bounce_near.
  - intros t out Hf Hnear. split; [|split; reflexivity].
    unfold rod_step. rewrite Hf. cbv zeta.
    rewrite (rod_bounce_near i (mark_hit t i s)) by exact Hnear. reflexivity.
  - intros s32 t Hf. split.
    + intros Hg. apply guarded_denominator; [exact Hg|].
      unfold rod_fires in Hf. apply andb_true_iff in Hf. tauto.
    + intros Hg. unfold rod_bounce.
      change (rod_dist (mark_hit t i s32) i) with (rod_dist s32 i).
      rewrite Hg. reflexivity.
Qed.

(** C7 -- From the state [setup()] leaves (ball at rest in the centre) and
    with every IMU reading equal to the calibration offset, i.e. tilt
    (0, 0), and no button pressed, any number of calls of [loop()] (100 in
    particular) emits no note-on and leaves the state as it was, ball
    position and velocity (0, 0) included: every rod is at distance 55 (the
    orbit radius) from the centre, which is not below the hit threshold 24.
    In real arithmetic for every calibration and every clock; in binary32
    for the 100 ticks of the scenario. *)
Theorem rest_is_silent :
  (forall (imu : R * R) (ts : list Z),
      run (boot imu) (map (tick imu) ts) = (boot imu, []) /\
      ball_x (boot imu) = 0 /\ ball_y (boot imu) = 0 /\
      ball_vx (boot imu) = 0 /\ ball_vy (boot imu) = 0 /\
      Forall (fun i => rod_dist (boot imu) i = IZR ROD_ORBIT /\
                       flt (rod_dist (boot imu) i) HIT_DIST = false)
             (seq 0 NUM_RODS)) /\
  run Binary32.boot (Binary32.ticks (Binary32.of_int 0, Binary32.of_int 0) 0 100)
  = (Binary32.boot, []).
Proof.
  split; [|apply boot_quiet].
  intros imu ts. split; [apply run_boot|].
  repeat (split; [reflexivity|]).
  pose proof (boot_rod_dist imu) as Hd.
  rewrite Forall_forall in Hd |- *. intros i Hi.
  rewrite (Hd i Hi). split; [reflexivity|].
  cbn [flt arith]. apply Rltb_false. rewrite HIT_DIST_eq. lra.
Qed.

End StrikeClaims.

(** * Runs of the sketch in binary32 *)

Section Binary32Runs.
Import Binary32.

(** C1, counterexample -- Thirteen calls of [loop()] after [setup()], the
    device held tilted at the constant reading [(-0.5, 0.25)]: the thirteenth
    call projects the ball back from the wall, and the projected position
    (43.129753..., 27.218093...) lies outside the circle of radius 51, for
    the sketch's own test [dist_from_center > max_dist] and in exact
    arithmetic ([x^2 + y^2 > 51^2 = 2601]). *)
Lemma wall_projection_overshoots :
  let s := fst (run boot (ticks tilt_right_down 100 13)) in
  ball_x s = S754_finite false 11306206 (-18) /\
  ball_y s = S754_finite false 14270120 (-19) /\
  flt max_dist (norm2 (ball_x s) (ball_y s)) = true /\
  (2601 < exact (ball_x s) * exact (ball_x s) + exact (ball_y s) * exact (ball_y s))%Q.
Proof.
  cbv zeta. repeat split; vm_compute; reflexivity.
Qed.

(** C2, counterexample -- Five calls of [loop()] after [setup()] under the
    reading [(0, -1)]: the fifth call strikes rod 0 at speed 10.962239...;
    [base + speed * scale] is 84.81119..., below 127, and the note-on
    carries velocity 84. *)
Lemma strike_velocity_is_truncated :
  let s4 := fst (run boot (ticks tilt_up 100 4)) in
  let inp := tick tilt_up 180 in
  let e := physics_step inp (handle_buttons inp s4) in
  let operand := (float_of_int 30 + hit_speed e * float_of_int 5)%fl in
  snd (loop s4 inp) = [mkNoteOn 0 NOTE_G3 84] /\
  rod_fires 180 e 0 = true /\
  hit_speed e = S754_finite false 11494741 (-20) /\
  operand = S754_finite false 11116373 (-17) /\
  flt operand (of_int 127) = true /\
  flt (of_int 84) operand = true /\
  (84811 # 1000 < exact operand)%Q.
Proof.
  cbv zeta. repeat split; vm_compute; reflexivity.
Qed.

(** C3, counterexample -- Fifteen calls of [loop()] under the reading
    [(0, -1)], the first at [millis() = 2^32 - 200]: the ball comes to rest
    against rod 0, which triggers in the tenth call, at 4294967276, and
    next in the fifteenth call, by which time [millis()] has wrapped to 80.
    The two are successive triggers of rod 0 (calls 11 to 14 emit nothing)
    and the timestamp goes down from 4294967276 to 80. *)
Lemma timestamp_wraps_around :
  let inps := ticks tilt_up (2 ^ 32 - 200) 15 in
  let s10 := fst (run boot (firstn 10 inps)) in
  let s14 := fst (run boot (firstn 14 inps)) in
  let s15 := fst (run boot inps) in
  rod_last_hit s10 !!! 0%nat = 4294967276 /\
  snd (run s10 (firstn 4 (skipn 10 inps))) = [] /\
  rod_last_hit s14 !!! 0%nat = 4294967276 /\
  map now (skipn 14 inps) = [80] /\
  snd (run s14 (skipn 14 inps)) = [mkNoteOn 0 NOTE_G3 33] /\
  rod_last_hit s15 !!! 0%nat = 80 /\
  rod_last_hit s15 !!! 0%nat < rod_last_hit s14 !!! 0%nat.
Proof.
  cbv zeta. repeat split; vm_compute; reflexivity.
Qed.

(** C4, counterexample -- Five calls of [loop()] under the reading
    [(-0.375, -1)] bring the ball within the hit threshold of rods 0 and 1
    at once.  In the sixth call both fire: rod 0 with velocity 99 (the
    impact speed 13.84...), rod 1 with velocity 40, from the speed 2 that
    rod 0's bounce has just written.  Had rod 0 been struck 10 ms earlier,
    and so been debounced in this call, rod 1 would have fired alone, with
    velocity 99: the outcome of rod 1's strike depends on whether rod 0
    fired before it in the same call. *)
Lemma later_strike_depends_on_earlier :
  let s := fst (run boot (ticks tilt_up_right 100 5)) in
  let s' := set_last_hit (<[0%nat := 190]> (rod_last_hit s)) s in
  let inp := tick tilt_up_right 200 in
  snd (loop s inp) = [mkNoteOn 0 NOTE_G3 99; mkNoteOn 0 NOTE_C4 40] /\
  snd (loop s' inp) = [mkNoteOn 0 NOTE_C4 99].
Proof.
  cbv zeta. split; vm_compute; reflexivity.
Qed.

(** The hypotheses of [rod_debounce] hold of rod 0 in the run under the
    reading [(0, -1)]: the fifth call (at 180 ms) strikes it and records
    180, the sixth call (at 200 ms) cannot strike it again. *)
Lemma rod_debounce_witness :
  let s4 := fst (run boot (ticks tilt_up 100 4)) in
  let inp1 := tick tilt_up 180 in
  let inp2 := tick tilt_up 200 in
  (0 < NUM_RODS)%nat /\ (0 < length (rod_last_hit s4))%nat /\
  rod_last_hit (fst (loop s4 inp1)) !!! 0%nat = 180 /\
  rod_fires 180 (physics_step inp1 (handle_buttons inp1 s4)) 0
  && rod_fires 200
       (physics_step inp2 (handle_buttons inp2 (fst (loop s4 inp1)))) 0 = false.
Proof.
  cbv zeta.
  assert (H1 : (0 < NUM_RODS)%nat) by (unfold NUM_RODS; lia).
  assert (H2 : (0 < length (rod_last_hit (fst (run boot (ticks tilt_up 100 4)))))%nat)
    by (vm_compute; lia).
  destruct (rod_debounce (fst (run boot (ticks tilt_up 100 4)))
              (tick tilt_up 180) (tick tilt_up 200) 0 H1 H2) as (_ & Hrec & Hdeb & _).
  split; [exact H1|]. split; [exact H2|]. split.
  - rewrite Hrec. vm_compute. reflexivity.
  - apply Hdeb. vm_compute. discriminate.
Defined.

End Binary32Runs.

(** * Further properties that hold in every arithmetic *)

Section ButtonsAndTables.
Context {F : Type} `{FA : FloatArith F}.

Implicit Types (s : State F) (inp : Input F) (out : list NoteOn) (i j : nat) (t : Z).

(** ** The button handlers *)

Lemma handle_buttons_idle inp s : button_event inp = false -> handle_buttons inp s = s.
Proof.
  unfold button_event, handle_buttons.
  destruct (btnA_pressed inp), (btnB_released inp), (btnC_pressed inp);
    try discriminate; reflexivity.
Qed.

Lemma handle_buttons_cal inp s :
  (cal_ax (handle_buttons inp s), cal_ay (handle_buttons inp s))
  = if btnB_released inp then cal_sample inp else (cal_ax s, cal_ay s).
Proof.
  unfold handle_buttons.
  destruct (btnA_pressed inp), (btnB_released inp), (btnC_pressed inp);
    cbn; try reflexivity; destruct (cal_sample inp); reflexivity.
Qed.

Lemma handle_buttons_chime inp s :
  current_chime (handle_buttons inp s)
  = let c := if btnA_pressed inp
              then select_prev (current_chime s) else current_chime s in
    if btnC_pressed inp then select_next c else c.
Proof.
  unfold handle_buttons.
  destruct (btnA_pressed inp), (btnB_released inp), (btnC_pressed inp); reflexivity.
Qed.

(** X1 -- Every button event recentres the ball: each of the three
    handlers of [loop()] ends with [drawFullScreen()], which puts the ball
    back in the centre at rest, so after the button part of a call that
    found BtnA pressed, BtnB released or BtnC pressed the ball is at
    (0, 0) with velocity (0, 0), whatever it was doing; a call that finds no
    event leaves the whole state alone.  The calibration offset becomes
    the handler's IMU read on a BtnB release and is kept otherwise; BtnA
    and BtnC found pressed in the same call cancel out (previous, then
    next), and BtnB never changes the chime. *)
Theorem button_event_recentres_ball s inp :
  let s' := handle_buttons inp s in
  (button_event inp = true ->
     ball_x s' = fzero /\ ball_y s' = fzero /\
     ball_vx s' = fzero /\ ball_vy s' = fzero) /\
  (button_event inp = false -> s' = s) /\
  (cal_ax s', cal_ay s')
    = (if btnB_released inp then cal_sample inp else (cal_ax s, cal_ay s)) /\
  (btnA_pressed inp = btnC_pressed inp -> current_chime s' = current_chime s).
Proof.
  cbv zeta. split; [|split; [apply handle_buttons_idle|split; [apply handle_buttons_cal|]]].
  - unfold button_event, handle_buttons.
    destruct (btnA_pressed inp), (btnB_released inp), (btnC_pressed inp);
      try discriminate; intros _; repeat split.
  - intros Hac. rewrite handle_buttons_chime, Hac. cbv zeta.
    destruct (btnC_pressed inp); [apply select_next_prev | reflexivity].
Qed.

(** ** What a run never writes *)

Lemma glow_step_length (g : list Z) i : length (glow_step g i) = length g.
Proof. unfold glow_step. destruct (0 <? g !!! i); [apply length_insert | reflexivity]. Qed.

Lemma fold_glow_step_length l : forall g : list Z,
  length (fold_left glow_step l g) = length g.
Proof.
  induction l as [|a l IH]; intros g; cbn [fold_left]; [reflexivity|].
  rewrite IH. apply glow_step_length.
Qed.

Lemma physics_step_cal inp s :
  cal_ax (physics_step inp s) = cal_ax s /\ cal_ay (physics_step inp s) = cal_ay s.
Proof.
  unfold physics_step. destruct (integrate inp s) as [p v].
  destruct (constrain_to_tube p v) as [p' v']. split; reflexivity.
Qed.

Lemma loop_tables s inp :
  let s' := fst (loop s inp) in
  rod_fx s' = rod_fx s /\ rod_fy s' = rod_fy s /\
  length (rod_last_hit s') = length (rod_last_hit s) /\
  length (rod_glow s') = length (rod_glow s) /\
  cal_ax s' = cal_ax (handle_buttons inp s) /\
  cal_ay s' = cal_ay (handle_buttons inp s).
Proof.
  cbv zeta. rewrite loop_fst.
  set (e := physics_step inp (handle_buttons inp s)).
  destruct (fold_rods_frame (now inp) (seq 0 NUM_RODS) e [])
    as (_ & _ & Hfx & Hfy & _ & Hcx & Hcy & Hl & Hg).
  fold (check_rods (now inp) e) in Hfx, Hfy, Hcx, Hcy, Hl, Hg.
  destruct (physics_step_tables inp (handle_buttons inp s)) as (Pl & Pg & Pfx & Pfy & _).
  destruct (handle_buttons_tables inp s) as (Bl & Bg & Bfx & Bfy).
  destruct (physics_step_cal inp (handle_buttons inp s)) as [Pcx Pcy].
  fold e in Pl, Pg, Pfx, Pfy, Pcx, Pcy.
  rewrite drawUpdate_glow, fold_glow_step_length.
  change (rod_fx (drawUpdate ?x)) with (rod_fx x).
  change (rod_fy (drawUpdate ?x)) with (rod_fy x).
  change (rod_last_hit (drawUpdate ?x)) with (rod_last_hit x).
  change (cal_ax (drawUpdate ?x)) with (cal_ax x).
  change (cal_ay (drawUpdate ?x)) with (cal_ay x).
  repeat split; congruence.
Qed.

(** X2 -- What a run of [loop()] calls never writes: the rod table
    ([rod_fx], [rod_fy]) computed by [setup()] stays as it is and the two
    rod arrays keep their length; the calibration offset changes only in a
    call that finds BtnB released, and the chime only in a call that finds
    BtnA or BtnC pressed. *)
Theorem run_preserves_tables (inps : list (Input F)) : forall s,
  let s' := fst (run s inps) in
  rod_fx s' = rod_fx s /\ rod_fy s' = rod_fy s /\
  length (rod_last_hit s') = length (rod_last_hit s) /\
  length (rod_glow s') = length (rod_glow s) /\
  (Forall (fun inp => btnB_released inp = false) inps ->
     cal_ax s' = cal_ax s /\ cal_ay s' = cal_ay s) /\
  (Forall (fun inp => btnA_pressed inp = false /\ btnC_pressed inp = false) inps ->
     current_chime s' = current_chime s).
Proof.
  induction inps as [|inp inps IH]; intros s; cbv zeta.
  - cbn [run fst]. repeat split.
  - rewrite run_fst_cons.
    destruct (IH (fst (loop s inp))) as (Hfx & Hfy & Hl & Hg & Hcal & Hch).
    destruct (loop_tables s inp) as (Lfx & Lfy & Ll & Lg & Lcx & Lcy).
    split; [congruence|]. split; [congruence|]. split; [congruence|].
    split; [congruence|]. split.
    + intros HB. apply Forall_cons in HB as [HB1 HB].
      destruct (Hcal HB) as [-> ->]. rewrite Lcx, Lcy.
      pose proof (handle_buttons_cal inp s) as E. rewrite HB1 in E.
      injection E as -> ->. split; reflexivity.
    + intros HAC. apply Forall_cons in HAC as [[HA HC] HAC].
      rewrite (Hch HAC), loop_chime, handle_buttons_chime, HA, HC. reflexivity.
Qed.

End ButtonsAndTables.

Section IdlePass.
Context {F : Type} `{FA : FloatArith F}.

Implicit Types (s : State F) (inp : Input F) (out : list NoteOn) (i j : nat) (t : Z).

Lemma rod_step_skip t s out i :
  rod_fires t s i = false -> rod_step t (s, out) i = (s, out).
Proof. intros H. unfold rod_step. rewrite H. reflexivity. Qed.

(** A pass in which no rod qualifies changes nothing. *)
Lemma check_rods_idle t s :
  (forall i, (i < NUM_RODS)%nat -> rod_fires t s i = false) -> check_rods t s = (s, []).
Proof.
  intros H. unfold check_rods. cbn [seq NUM_RODS fold_left].
  rewrite !rod_step_skip by (apply H; unfold NUM_RODS; lia).
  reflexivity.
Qed.

Lemma run_rod_table (inps : list (Input F)) : forall s,
  rod_fx (fst (run s inps)) = rod_fx s /\ rod_fy (fst (run s inps)) = rod_fy s.
Proof.
  induction inps as [|inp inps IH]; intros s; [split; reflexivity|].
  rewrite run_fst_cons. destruct (IH (fst (loop s inp))) as [-> ->].
  destruct (loop_tables s inp) as (-> & -> & _). split; reflexivity.
Qed.

End IdlePass.

Section CollisionPass.
Context {F : Type} `{FA : FloatArith F}.

Implicit Types (s : State F) (inp : Input F) (out : list NoteOn) (i j : nat) (t : Z).

(** ** The collision pass as a whole *)

Lemma rod_geometry_ext s s' i :
  same_frame s s' ->
  rod_dx s' i = rod_dx s i /\ rod_dy s' i = rod_dy s i /\ rod_dist s' i = rod_dist s i.
Proof.
  intros (Hx & Hy & Hfx & Hfy & _).
  unfold rod_dist, rod_dx, rod_dy. rewrite Hx, Hy, Hfx, Hfy. repeat split.
Qed.

Lemma rod_bounces_ext t s s' i :
  same_frame s s' ->
  rod_last_hit s' !!! i = rod_last_hit s !!! i ->
  rod_bounces t s' i = rod_bounces t s i.
Proof.
  intros Hfr Hl. unfold rod_bounces.
  rewrite (rod_fires_ext t s s' i Hfr Hl).
  destruct (rod_geometry_ext s s' i Hfr) as (_ & _ & ->). reflexivity.
Qed.

(** The velocity that the body of the [for] loop leaves for rod [i]. *)
Lemma rod_step_velocity t s out i :
  let s' := fst (rod_step t (s, out) i) in
  (ball_vx s', ball_vy s')
  = if rod_bounces t s i
    then ((rod_dx s i / rod_dist s i * ROD_BOUNCE)%fl,
          (rod_dy s i / rod_dist s i * ROD_BOUNCE)%fl)
    else (ball_vx s, ball_vy s).
Proof.
  cbv zeta. unfold rod_bounces, rod_step.
  destruct (rod_fires t s i); cbn [andb fst]; [|reflexivity].
  unfold rod_bounce.
  change (rod_dist (mark_hit t i s) i) with (rod_dist s i).
  destruct (flt (float_lit 1 10) (rod_dist s i)); reflexivity.
Qed.

Lemma fold_rods_velocity t l : NoDup l -> forall s out,
  let s' := fst (fold_left (rod_step t) l (s, out)) in
  (ball_vx s', ball_vy s')
  = match last (List.filter (rod_bounces t s) l) with
    | Some j => ((rod_dx s j / rod_dist s j * ROD_BOUNCE)%fl,
                 (rod_dy s j / rod_dist s j * ROD_BOUNCE)%fl)
    | None => (ball_vx s, ball_vy s)
    end.
Proof.
  induction 1 as [|a l Ha Hl IH]; intros s out; cbv zeta; cbn [fold_left List.filter].
  - reflexivity.
  - destruct (rod_step t (s, out) a) as [s1 out1] eqn:E.
    assert (Hs1 : s1 = fst (rod_step t (s, out) a)) by (rewrite E; reflexivity).
    assert (Hfr : same_frame s s1) by (rewrite Hs1; apply rod_step_frame).
    specialize (IH s1 out1). cbv zeta in IH. rewrite IH.
    assert (Hflt : List.filter (rod_bounces t s1) l = List.filter (rod_bounces t s) l).
    { apply List.filter_ext_in. intros i Hi.
      apply rod_bounces_ext; [exact Hfr|].
      rewrite Hs1. apply rod_step_last_hit_ne.
      intros ->. apply Ha. apply list_elem_of_In. exact Hi. }
    rewrite Hflt.
    pose proof (rod_step_velocity t s out a) as Hv. cbv zeta in Hv. rewrite <- Hs1 in Hv.
    destruct (rod_bounces t s a); [rewrite last_cons|];
      destruct (last (List.filter (rod_bounces t s) l)) as [j|];
      try exact Hv;
      destruct (rod_geometry_ext s s1 j Hfr) as (-> & -> & ->); reflexivity.
Qed.

(** X3 -- The ball leaves the collision pass with the bounce of the last
    rod, in index order, that struck it with the guard [d > 0.1f] passed:
    velocity [(dx / d, dy / d) * ROD_BOUNCE] for that rod's [dx], [dy],
    [d], whatever the earlier rods did; when no rod bounces it the
    velocity is the one it entered the pass with.  (Positions, and hence
    every [dx], [dy], [d], are those of the ball on entry: the pass does
    not move it.) *)
Theorem last_bounce_sets_velocity t s :
  let s' := fst (check_rods t s) in
  (ball_vx s', ball_vy s')
  = match last (List.filter (rod_bounces t s) (seq 0 NUM_RODS)) with
    | Some j => ((rod_dx s j / rod_dist s j * ROD_BOUNCE)%fl,
                 (rod_dy s j / rod_dist s j * ROD_BOUNCE)%fl)
    | None => (ball_vx s, ball_vy s)
    end.
Proof. apply (fold_rods_velocity t (seq 0 NUM_RODS) (NoDup_seq 0 NUM_RODS) s []). Qed.

(** ** Glow counters through a call *)

Lemma glow_step_lookup_ne (g : list Z) i j : i <> j -> glow_step g j !!! i = g !!! i.
Proof.
  intros Hne. unfold glow_step. destruct (0 <? g !!! j); [|reflexivity].
  apply list_lookup_total_insert_ne. congruence.
Qed.

Lemma glow_step_lookup_eq (g : list Z) i :
  (i < length g)%nat ->
  glow_step g i !!! i = if 0 <? g !!! i then uint8_dec (g !!! i) else g !!! i.
Proof.
  intros Hi. unfold glow_step. destruct (0 <? g !!! i); [|reflexivity].
  apply list_lookup_total_insert_eq. exact Hi.
Qed.

Lemma fold_glow_step_lookup i l : NoDup l -> forall g : list Z,
  (i < length g)%nat ->
  fold_left glow_step l g !!! i
  = if bool_decide (i ∈ l) && (0 <? g !!! i) then uint8_dec (g !!! i) else g !!! i.
Proof.
  induction 1 as [|a l Ha Hl IH]; intros g Hi; cbn [fold_left].
  - reflexivity.
  - rewrite IH by (rewrite glow_step_length; exact Hi).
    destruct (decide (i = a)) as [->|Hne].
    + rewrite (bool_decide_eq_false_2 (a ∈ l)) by exact Ha.
      rewrite (bool_decide_eq_true_2 (a ∈ a :: l)) by apply list_elem_of_here.
      cbn [andb]. apply glow_step_lookup_eq. exact Hi.
    + rewrite glow_step_lookup_ne by exact Hne.
      assert (Hb : bool_decide (i ∈ a :: l) = bool_decide (i ∈ l)).
      { apply bool_decide_ext. rewrite elem_of_cons. tauto. }
      rewrite Hb. reflexivity.
Qed.

Lemma decay_value (g : Z) :
  0 <= g <= 255 -> (if 0 <? g then uint8_dec g else g) = Z.max 0 (g - 1).
Proof.
  intros Hg. unfold uint8_dec. destruct (0 <? g) eqn:E.
  - apply Z.ltb_lt in E. rewrite Z.mod_small by lia. lia.
  - apply Z.ltb_ge in E. lia.
Qed.

Lemma fold_rods_glow t i l : NoDup l -> forall s out,
  (i < length (rod_glow s))%nat ->
  rod_glow (fst (fold_left (rod_step t) l (s, out))) !!! i
  = if bool_decide (i ∈ l) && rod_fires t s i then 15 else rod_glow s !!! i.
Proof.
  induction 1 as [|a l Ha Hl IH]; intros s out Hi; cbn [fold_left].
  - reflexivity.
  - destruct (rod_step t (s, out) a) as [s1 out1] eqn:E.
    assert (Hs1 : s1 = fst (rod_step t (s, out) a)) by (rewrite E; reflexivity).
    assert (Hfr : same_frame s s1) by (rewrite Hs1; apply rod_step_frame).
    assert (Hlen : (i < length (rod_glow s1))%nat).
    { destruct Hfr as (_&_&_&_&_&_&_&_&Hlen). rewrite Hlen. exact Hi. }
    rewrite IH by exact Hlen.
    destruct (decide (i = a)) as [->|Hne].
    + rewrite (bool_decide_eq_false_2 (a ∈ l)) by exact Ha.
      rewrite (bool_decide_eq_true_2 (a ∈ a :: l)) by apply list_elem_of_here.
      simpl. rewrite Hs1. apply rod_step_glow_eq. exact Hi.
    + rewrite (rod_fires_ext t s s1 i Hfr)
        by (rewrite Hs1; apply rod_step_last_hit_ne; exact Hne).
      rewrite Hs1, rod_step_glow_ne by exact Hne.
      assert (Hb : bool_decide (i ∈ a :: l) = bool_decide (i ∈ l)).
      { apply bool_decide_ext. rewrite elem_of_cons. tauto. }
      rewrite Hb. reflexivity.
Qed.

Lemma loop_glow s inp i :
  (i < NUM_RODS)%nat -> (i < length (rod_glow s))%nat -> 0 <= rod_glow s !!! i <= 255 ->
  rod_glow (fst (loop s inp)) !!! i
  = if rod_fires (now inp) (physics_step inp (handle_buttons inp s)) i
    then 14 else Z.max 0 (rod_glow s !!! i - 1).
Proof.
  intros Hi Hlen Hg. set (e := physics_step inp (handle_buttons inp s)).
  assert (He : rod_glow e = rod_glow s).
  { unfold e. destruct (physics_step_tables inp (handle_buttons inp s)) as (_ & -> & _).
    apply handle_buttons_tables. }
  assert (Hin : i ∈ seq 0 NUM_RODS) by (apply elem_of_seq; lia).
  rewrite loop_fst, drawUpdate_glow. fold e.
  assert (Hc : rod_glow (fst (check_rods (now inp) e)) !!! i
               = if rod_fires (now inp) e i then 15 else rod_glow s !!! i).
  { unfold check_rods. rewrite fold_rods_glow by (apply NoDup_seq || (rewrite He; exact Hlen)).
    rewrite bool_decide_eq_true_2 by exact Hin. rewrite He. reflexivity. }
  rewrite fold_glow_step_lookup; [|apply NoDup_seq|].
  - rewrite bool_decide_eq_true_2 by exact Hin. cbn [andb]. rewrite Hc.
    destruct (rod_fires (now inp) e i); [reflexivity|]. apply decay_value, Hg.
  - destruct (fold_rods_frame (now inp) (seq 0 NUM_RODS) e []) as (_&_&_&_&_&_&_&_&Hl).
    unfold check_rods. rewrite Hl, He. exact Hlen.
Qed.

Lemma silent_call_idle s inp i :
  (i < NUM_RODS)%nat -> snd (loop s inp) = [] ->
  rod_fires (now inp) (physics_step inp (handle_buttons inp s)) i = false.
Proof.
  intros Hi Hout.
  pose proof (check_rods_events (now inp) (physics_step inp (handle_buttons inp s))) as Hev.
  rewrite <- loop_snd, Hout in Hev. cbn [map] in Hev.
  set (e := physics_step inp (handle_buttons inp s)) in *.
  symmetry in Hev. apply map_eq_nil in Hev.
  destruct (rod_fires (now inp) e i) eqn:Hf; [|reflexivity].
  assert (Hin : In i (List.filter (rod_fires (now inp) e) (seq 0 NUM_RODS))).
  { apply filter_In. split; [apply in_seq; lia | exact Hf]. }
  rewrite Hev in Hin. destruct Hin.
Qed.

Lemma run_snd_cons s inp inps :
  snd (run s (inp :: inps)) = snd (loop s inp) ++ snd (run (fst (loop s inp)) inps).
Proof.
  cbn [run]. destruct (loop s inp) as [s1 o1]. cbn [fst snd].
  destruct (run s1 inps) as [s2 o2]. reflexivity.
Qed.

(** X4 -- How long a rod glows.  In one call of [loop()] the glow counter
    of a rod ends at 14 when the rod is struck (the strike sets 15 and the
    [drawUpdate()] of the same call already takes 1 off), and otherwise at
    one less than before, 0 staying 0.  So through any number of calls in
    which no note is played every counter falls by the number of calls,
    stopping at 0: a struck rod is dark again 14 silent calls after the
    call of its strike. *)
Theorem glow_countdown s i :
  (i < NUM_RODS)%nat -> length (rod_glow s) = NUM_RODS ->
  0 <= rod_glow s !!! i <= 255 ->
  (forall inp,
      rod_glow (fst (loop s inp)) !!! i
      = if rod_fires (now inp) (physics_step inp (handle_buttons inp s)) i
        then 14 else Z.max 0 (rod_glow s !!! i - 1)) /\
  (forall inps,
      snd (run s inps) = [] ->
      rod_glow (fst (run s inps)) !!! i
      = Z.max 0 (rod_glow s !!! i - Z.of_nat (length inps))).
Proof.
  intros Hi Hlen Hg. split.
  - intros inp. apply loop_glow; [exact Hi | rewrite Hlen; exact Hi | exact Hg].
  - intros inps. revert s Hlen Hg.
    induction inps as [|inp inps IH]; intros s Hlen Hg Hout.
    + cbn [run fst length]. lia.
    + rewrite run_snd_cons in Hout. apply app_eq_nil in Hout as [Ho1 Ho2].
      rewrite run_fst_cons.
      assert (H1 : rod_glow (fst (loop s inp)) !!! i = Z.max 0 (rod_glow s !!! i - 1)).
      { rewrite loop_glow by (rewrite ?Hlen; assumption).
        rewrite (silent_call_idle s inp i Hi Ho1). reflexivity. }
      rewrite IH; [| |rewrite H1; lia|exact Ho2].
      * rewrite H1. cbn [length]. lia.
      * destruct (loop_tables s inp) as (_ & _ & _ & -> & _). exact Hlen.
Qed.

(** ** The notes of a call *)

Lemma chime_notes_length (c : ChimeType) : length (chime_notes c) = NUM_RODS.
Proof. destruct c; reflexivity. Qed.

(** X5 -- Every note-on of a call of [loop()] goes to channel 0 and
    carries one of the eight notes of the chime that is selected once the
    buttons of that call have been handled (a switch takes effect in the
    call that finds the button pressed); the index into [chime_notes]
    stays inside the table, and a call plays at most eight notes. *)
Theorem events_within_active_chime s inp :
  let c := current_chime (handle_buttons inp s) in
  Forall (fun ev => channel ev = 0 /\ pitch ev ∈ chime_notes c) (snd (loop s inp)) /\
  (length (snd (loop s inp)) <= NUM_RODS)%nat.
Proof.
  cbv zeta.
  pose proof (check_rods_events (now inp) (physics_step inp (handle_buttons inp s))) as Hev.
  rewrite <- loop_snd in Hev.
  set (e := physics_step inp (handle_buttons inp s)) in *.
  assert (Hc : current_chime e = current_chime (handle_buttons inp s))
    by apply physics_step_tables.
  rewrite Hc in Hev.
  set (c := current_chime (handle_buttons inp s)) in *.
  set (firing := List.filter (rod_fires (now inp) e) (seq 0 NUM_RODS)) in *.
  split.
  - assert (HP : Forall (fun cp : Z * Note => cp.1 = 0 /\ cp.2 ∈ chime_notes c)
                   (map (fun ev => (channel ev, pitch ev)) (snd (loop s inp)))).
    { rewrite Hev. apply Forall_forall. intros cp Hin.
      apply list_elem_of_In, in_map_iff in Hin as (i & <- & Hi).
      apply filter_In in Hi as [Hi _]. apply in_seq in Hi.
      split; [reflexivity|]. cbn [snd].
      apply list_elem_of_lookup_total_2. rewrite chime_notes_length. lia. }
    apply Forall_fmap in HP. exact HP.
  - apply (f_equal (@length _)) in Hev. rewrite !length_map in Hev. rewrite Hev.
    unfold firing. etransitivity; [apply filter_length_le|]. rewrite length_seq. lia.
Qed.

End CollisionPass.

(** * Lengths of plane vectors *)

Section PlaneVectors.
Import Ideal.
Local Open Scope R_scope.

Implicit Types (s : State R) (inp : Input R).

Lemma norm2_scale a b k : 0 <= k -> norm2 (a * k) (b * k) = k * norm2 a b.
Proof.
  intros Hk. rewrite !norm2_eq.
  replace (a * k * (a * k) + b * k * (b * k)) with (k * k * (a * a + b * b)) by ring.
  rewrite sqrt_mult by (try apply sum_sq_nonneg; nra).
  rewrite sqrt_square by exact Hk. reflexivity.
Qed.

Lemma cauchy_schwarz a b c d : a * c + b * d <= norm2 a b * norm2 c d.
Proof.
  pose proof (norm2_nonneg a b) as HA. pose proof (norm2_nonneg c d) as HC.
  pose proof (norm2_sq a b) as EA. pose proof (norm2_sq c d) as EC.
  set (A := norm2 a b) in *. set (C := norm2 c d) in *.
  destruct (Rle_dec (a * c + b * d) (A * C)) as [H|H]; [exact H|exfalso].
  assert (Hlt : A * C < a * c + b * d) by lra.
  assert (H0 : 0 <= A * C) by (apply Rmult_le_pos; assumption).
  assert (Hsq : (A * C) * (A * C) < (a * c + b * d) * (a * c + b * d)).
  { apply Rmult_le_0_lt_compat; assumption. }
  assert (Hcs : (a * c + b * d) * (a * c + b * d) <= (a * a + b * b) * (c * c + d * d)).
  { pose proof (Rle_0_sqr (a * d - b * c)) as Hs. unfold Rsqr in Hs.
    replace ((a * a + b * b) * (c * c + d * d))
      with ((a * c + b * d) * (a * c + b * d) + (a * d - b * c) * (a * d - b * c)) by ring.
    lra. }
  replace ((A * C) * (A * C)) with ((A * A) * (C * C)) in Hsq by ring.
  rewrite EA, EC in Hsq. lra.
Qed.

Lemma norm2_triangle a b c d : norm2 (a + c) (b + d) <= norm2 a b + norm2 c d.
Proof.
  pose proof (norm2_nonneg a b) as HA. pose proof (norm2_nonneg c d) as HC.
  pose proof (norm2_sq a b) as EA. pose proof (norm2_sq c d) as EC.
  pose proof (cauchy_schwarz a b c d) as CS.
  rewrite (norm2_eq (a + c)).
  set (A := norm2 a b) in *. set (C := norm2 c d) in *.
  rewrite <- (sqrt_square (A + C)) by lra.
  apply sqrt_le_1_alt. nra.
Qed.

End PlaneVectors.

Section Recalibration.
Import Binary32.

Implicit Types (s : State float32) (inp : Input float32) (a : float32 * float32).

Lemma SFsub_diag (x : float32) :
  is_finite x = true -> SFsub prec emax x x = S754_zero false.
Proof.
  destruct x as [sx|sx| |sx mx ex]; try discriminate; intros _; cbn [SFsub].
  - destruct sx; reflexivity.
  - rewrite Z.sub_diag. reflexivity.
Qed.

Lemma rest_physics a s inp :
  is_finite (fst a) = true -> is_finite (snd a) = true ->
  accel inp = a -> at_rest a s -> physics_step inp s = s.
Proof.
  intros Fx Fy Ha (Hx & Hy & Hvx & Hvy & Hcx & Hcy).
  destruct s as [c cx cy bx by_ vx vy lh gl fx fy]. cbn in Hx, Hy, Hvx, Hvy, Hcx, Hcy.
  subst bx by_ vx vy cx cy.
  unfold physics_step, integrate, read_tilt. rewrite Ha.
  cbn [cal_ax cal_ay fsub arith]. rewrite !SFsub_diag by assumption.
  reflexivity.
Qed.

Lemma centre_is_out_of_reach :
  forallb (fun i => negb (flt (rod_dist boot i) HIT_DIST)) (seq 0 NUM_RODS) = true.
Proof. vm_compute. reflexivity. Qed.

Lemma rest_idle a s t i :
  rod_fx s = rod_fx boot -> rod_fy s = rod_fy boot -> at_rest a s ->
  (i < NUM_RODS)%nat -> rod_fires t s i = false.
Proof.
  intros Hfx Hfy (Hx & Hy & _) Hi.
  assert (Hd : rod_dist s i = rod_dist boot i).
  { unfold rod_dist, rod_dx, rod_dy. rewrite Hx, Hy, Hfx, Hfy. reflexivity. }
  unfold rod_fires. rewrite Hd.
  pose proof centre_is_out_of_reach as H. rewrite forallb_forall in H.
  specialize (H i). rewrite in_seq in H.
  destruct (flt (rod_dist boot i) HIT_DIST); [|reflexivity].
  discriminate H. lia.
Qed.

Lemma drawUpdate_at_rest a s : at_rest a s -> at_rest a (drawUpdate s).
Proof. intros H. exact H. Qed.

(** A call that enters the physics at rest, with the IMU reading the
    calibration offset, plays nothing and stays at rest. *)
Lemma rest_loop a s inp :
  is_finite (fst a) = true -> is_finite (snd a) = true ->
  rod_fx s = rod_fx boot -> rod_fy s = rod_fy boot ->
  accel inp = a -> at_rest a (handle_buttons inp s) ->
  snd (loop s inp) = [] /\ at_rest a (fst (loop s inp)).
Proof.
  intros Fx Fy Hfx Hfy Ha Hrest.
  destruct (handle_buttons_tables inp s) as (_ & _ & Bfx & Bfy).
  rewrite loop_snd, loop_fst.
  rewrite (rest_physics a _ inp Fx Fy Ha Hrest).
  rewrite check_rods_idle.
  - split; [reflexivity | apply drawUpdate_at_rest, Hrest].
  - intros i Hi. apply (rest_idle a); try assumption; congruence.
Qed.

Lemma rest_run a (ts : list Z) : forall s,
  is_finite (fst a) = true -> is_finite (snd a) = true ->
  rod_fx s = rod_fx boot -> rod_fy s = rod_fy boot -> at_rest a s ->
  snd (run s (map (tick a) ts)) = [] /\ at_rest a (fst (run s (map (tick a) ts))).
Proof.
  induction ts as [|t ts IH]; intros s Fx Fy Hfx Hfy Hrest; [split; [reflexivity|exact Hrest]|].
  cbn [map]. rewrite run_snd_cons, run_fst_cons.
  destruct (rest_loop a s (tick a t) Fx Fy Hfx Hfy eq_refl Hrest) as [Ho Hr].
  destruct (loop_tables s (tick a t)) as (Lfx & Lfy & _).
  destruct (IH (fst (loop s (tick a t))) Fx Fy) as [Ho2 Hr2];
    [congruence | congruence | exact Hr |].
  rewrite Ho, Ho2. split; [reflexivity | exact Hr2].
Qed.

(** X9 -- Recalibration makes the current pose the rest pose (binary32).
    After any history of calls since [setup()], a call that finds BtnB
    released while the IMU reads a finite [a] puts the ball in the centre
    at rest with [a] as calibration offset, and as long as the IMU keeps
    reading [a] and no button event comes, the ball stays there and no
    note is played: the tilt [a - a] is exactly zero, and the centre is
    out of reach of every rod.  This holds whatever the state was before,
    a ball position or velocity spoilt by infinite or NaN readings
    included. *)
Theorem recalibration_rests (imu a : float32 * float32)
    (inps : list (Input float32)) (t0 : Z) (ts : list Z) :
  is_finite (fst a) = true -> is_finite (snd a) = true ->
  let s := fst (run (setup cosf sinf imu) inps) in
  let r := run s (press_calibrate a t0 :: map (tick a) ts) in
  snd r = [] /\ at_rest a (fst r).
Proof.
  intros Fx Fy s r.
  destruct (run_rod_table inps (setup cosf sinf imu)) as [Hfx Hfy]. fold s in Hfx, Hfy.
  change (rod_fx (setup cosf sinf imu)) with (rod_fx boot) in Hfx.
  change (rod_fy (setup cosf sinf imu)) with (rod_fy boot) in Hfy.
  assert (Hb : at_rest a (handle_buttons (press_calibrate a t0) s)).
  { destruct a as [a1 a2]. repeat split. }
  destruct (rest_loop a s (press_calibrate a t0) Fx Fy Hfx Hfy eq_refl Hb) as [Ho Hr].
  destruct (loop_tables s (press_calibrate a t0)) as (Lfx & Lfy & _).
  destruct (rest_run a ts (fst (loop s (press_calibrate a t0))) Fx Fy) as [Ho2 Hr2];
    [congruence | congruence | exact Hr |].
  unfold r. rewrite run_snd_cons, run_fst_cons, Ho, Ho2.
  split; [reflexivity | exact Hr2].
Qed.

End Recalibration.

(** * The ball on the screen, in binary32 *)

Section ScreenPosition.
Import Binary32.
Local Open Scope R_scope.

Implicit Types (s : State float32) (inp : Input float32) (x : float32).

Lemma bpow_opp_l (k : Z) : (0 <= k)%Z -> bpow (- k) * IZR (2 ^ k) = 1.
Proof.
  intros Hk. rewrite <- (bpow_IZR k Hk), <- bpow_add.
  replace (- k + k)%Z with 0%Z by lia. reflexivity.
Qed.

(** The integer part of a finite number is no larger in magnitude. *)
Lemma trunc_spec x :
  is_finite x = true ->
  exists z : Z, trunc x = Some z /\ IZR z * IZR z <= to_R x * to_R x.
Proof.
  destruct x as [sx|sx| |sx m e]; try discriminate; intros _.
  - exists 0%Z. split; [reflexivity|]. cbn [to_R]. lra.
  - cbn [trunc].
    set (mag := match e with
                | Z.neg p => Z.shiftr (Z.pos m) (Z.pos p)
                | _ => Z.shiftl (Z.pos m) e
                end).
    set (M := IZR (Z.pos m) * bpow e).
    assert (Hm : 0 < IZR (Z.pos m)) by (apply IZR_lt; lia).
    assert (Hmag : 0 <= IZR mag <= M).
    { unfold mag, M. destruct e as [|p|p].
      - rewrite Z.shiftl_0_r. change (bpow 0) with 1. lra.
      - rewrite Z.shiftl_mul_pow2 by lia. rewrite mult_IZR, <- bpow_IZR by lia.
        pose proof (bpow_pos (Z.pos p)). split; [nra|lra].
      - rewrite Z.shiftr_div_pow2 by lia.
        pose proof (bpow_opp_l (Z.pos p) ltac:(lia)) as Hb.
        change (- Z.pos p)%Z with (Z.neg p) in Hb.
        assert (Hp : (0 < 2 ^ Z.pos p)%Z) by (apply Z.pow_pos_nonneg; lia).
        pose proof (Z.mul_div_le (Z.pos m) (2 ^ Z.pos p) Hp) as Hle.
        assert (Hq : (0 <= Z.pos m / 2 ^ Z.pos p)%Z) by (apply Z.div_pos; lia).
        apply IZR_le in Hle, Hq. rewrite mult_IZR in Hle.
        apply IZR_lt in Hp.
        set (q := IZR (Z.pos m / 2 ^ Z.pos p)) in *.
        set (P := IZR (2 ^ Z.pos p)) in *.
        set (B := bpow (Z.neg p)) in *.
        assert (HB : 0 < B) by apply bpow_pos.
        split; [exact Hq|].
        replace q with (B * (P * q)) by (rewrite <- Rmult_assoc, Hb; ring).
        rewrite Rmult_comm. apply Rmult_le_compat_r; lra. }
    exists (if sx then (- mag)%Z else mag). split; [reflexivity|].
    rewrite to_R_finite. fold M.
    replace (Rsign sx * M * (Rsign sx * M)) with (Rsign sx * Rsign sx * (M * M)) by ring.
    rewrite Rsign_sq, Rmult_1_l.
    assert (Hz : IZR (if sx then (- mag)%Z else mag) * IZR (if sx then (- mag)%Z else mag)
                 = IZR mag * IZR mag).
    { destruct sx; [rewrite opp_IZR; ring | reflexivity]. }
    rewrite Hz. apply Rmult_le_compat; lra.
Qed.

Lemma int16_wrap_small (z : Z) : (-32768 <= z <= 32767)%Z -> int16_wrap z = z.
Proof. intros H. unfold int16_wrap. rewrite Z.mod_small; lia. Qed.

(** X11 -- The ball is always drawn inside the tube (binary32).  After
    every call of [loop()] that leaves a finite ball position, both casts
    [(int16_t)ball_x] and [(int16_t)ball_y] of [drawUpdate()] are defined,
    and the screen position [(CX + (int16_t)ball_x, CY + (int16_t)ball_y)]
    lies within [max_dist = 51] pixels of the tube centre [(CX, CY)],
    between [CX - 51] and [CX + 51] horizontally and between [CY - 51] and
    [CY + 51] vertically: the one-ulp overshoot of the wall projection
    disappears in the truncation. *)
Theorem ball_drawn_inside_tube s inp :
  let s' := fst (loop s inp) in
  is_finite (ball_x s') = true -> is_finite (ball_y s') = true ->
  exists sx sy : Z,
    ball_screen s' = Some (sx, sy) /\
    ((sx - CX) * (sx - CX) + (sy - CY) * (sy - CY)
       <= (TUBE_R - BALL_R - 4) * (TUBE_R - BALL_R - 4))%Z /\
    (CX - 51 <= sx <= CX + 51)%Z /\ (CY - 51 <= sy <= CY + 51)%Z.
Proof.
  intros s' Fx Fy.
  pose proof (loop_position_tolerance s inp) as Hm. cbv zeta in Hm. fold s' in Hm.
  specialize (Hm Fx Fy).
  destruct (trunc_spec _ Fx) as (zx & Ex & Hx).
  destruct (trunc_spec _ Fy) as (zy & Ey & Hy).
  pose proof (magnitude_sq (ball_x s') (ball_y s')) as Hsq.
  assert (Hm0 : 0 <= magnitude (ball_x s') (ball_y s')) by apply sqrt_pos.
  set (mg := magnitude (ball_x s') (ball_y s')) in *.
  assert (Hlt : IZR (zx * zx + zy * zy) < IZR 2602).
  { rewrite plus_IZR, !mult_IZR.
    assert (mg * mg <= 51 * (1 + / 1048576) * (51 * (1 + / 1048576)))
      by (apply Rmult_le_compat; lra).
    lra. }
  apply lt_IZR in Hlt.
  assert (Bx : (-51 <= zx <= 51)%Z) by nia.
  assert (By : (-51 <= zy <= 51)%Z) by nia.
  exists (CX + zx)%Z, (CY + zy)%Z. split; [|split; [|split]].
  - unfold ball_screen, to_int16. cbn [float_trunc arith]. rewrite Ex, Ey.
    replace ((-32768 <=? zx)%Z && (zx <=? 32767)%Z) with true
      by (symmetry; apply andb_true_iff; split; apply Z.leb_le; lia).
    replace ((-32768 <=? zy)%Z && (zy <=? 32767)%Z) with true
      by (symmetry; apply andb_true_iff; split; apply Z.leb_le; lia).
    rewrite !int16_wrap_small by (unfold CX, CY; lia). reflexivity.
  - unfold TUBE_R, BALL_R. replace (CX + zx - CX)%Z with zx by lia.
    replace (CY + zy - CY)%Z with zy by lia. lia.
  - lia.
  - lia.
Qed.

End ScreenPosition.

(** * Sums and differences in binary32 *)

Section SignedSums.
Import Binary32.
Local Open Scope R_scope.

Implicit Types (x y : float32).

Lemma approx_exact x : is_finite x = true -> approx x (to_R x).
Proof.
  destruct x as [s|s| |s m e]; try discriminate; intros _; cbn [approx];
    rewrite Rminus_diag, Rabs_R0;
    (apply Rplus_le_le_0_compat;
     [apply Rmult_le_pos; [left; apply eps_pos | apply Rabs_pos] | left; apply eta_pos]).
Qed.

Lemma normalize_approx (z : Z) (e : Z) :
  approx (binary_normalize prec emax z e false) (IZR z * bpow e).
Proof.
  destruct z as [|m|m]; cbn [binary_normalize].
  - rewrite Rmult_0_l. apply (approx_exact (S754_zero false)). reflexivity.
  - destruct (binary_round_approx false m e) as [H _]. cbv zeta in H.
    unfold Rsign in H. rewrite Rmult_1_l in H. exact H.
  - destruct (binary_round_approx true m e) as [H _]. cbv zeta in H.
    unfold Rsign in H.
    replace (IZR (Z.neg m) * bpow e) with (-1 * (IZR (Z.pos m) * bpow e)); [exact H|].
    change (Z.neg m) with (- Z.pos m)%Z. rewrite opp_IZR. ring.
Qed.

Lemma cond_Zopp_IZR (s : bool) (z : Z) : IZR (cond_Zopp s z) = Rsign s * IZR z.
Proof. destruct s; unfold cond_Zopp, Rsign; [rewrite opp_IZR|]; ring. Qed.

Lemma aligned_value (s : bool) (m : positive) (e ez : Z) :
  (ez <= e)%Z ->
  IZR (cond_Zopp s (Z.pos (fst (shl_align m e ez)))) * bpow ez
  = to_R (S754_finite s m e).
Proof.
  intros Hle. destruct (shl_align_value m e ez) as (V & E & _ & _).
  rewrite E in V by exact Hle.
  rewrite cond_Zopp_IZR, to_R_finite, Rmult_assoc, V. reflexivity.
Qed.

Lemma add_spec x y :
  is_finite x = true -> is_finite y = true ->
  approx (SFadd prec emax x y) (to_R x + to_R y).
Proof.
  destruct x as [sx|sx| |sx mx ex]; try discriminate;
    destruct y as [sy|sy| |sy my ey]; try discriminate; intros _ _.
  - cbn [to_R]. rewrite Rplus_0_l.
    destruct sx, sy; apply (approx_exact (S754_zero _)); reflexivity.
  - cbn [SFadd]. replace (to_R (S754_zero sx) + to_R (S754_finite sy my ey))
      with (to_R (S754_finite sy my ey)) by (cbn [to_R]; ring).
    apply approx_exact. reflexivity.
  - cbn [SFadd]. replace (to_R (S754_finite sx mx ex) + to_R (S754_zero sy))
      with (to_R (S754_finite sx mx ex)) by (cbn [to_R]; ring).
    apply approx_exact. reflexivity.
  - cbn [SFadd]. set (ez := Z.min ex ey).
    rewrite <- (aligned_value sx mx ex ez), <- (aligned_value sy my ey ez)
      by (unfold ez; lia).
    rewrite <- Rmult_plus_distr_r, <- plus_IZR. apply normalize_approx.
Qed.

Lemma sub_spec x y :
  is_finite x = true -> is_finite y = true ->
  approx (SFsub prec emax x y) (to_R x - to_R y).
Proof.
  destruct x as [sx|sx| |sx mx ex]; try discriminate;
    destruct y as [sy|sy| |sy my ey]; try discriminate; intros _ _.
  - cbn [to_R]. rewrite Rminus_diag.
    destruct sx, sy; apply (approx_exact (S754_zero _)); reflexivity.
  - cbn [SFsub]. replace (to_R (S754_zero sx) - to_R (S754_finite sy my ey))
      with (to_R (S754_finite (negb sy) my ey)).
    + apply approx_exact. reflexivity.
    + cbn [to_R]. destruct sy; unfold Rsign; cbn [negb]; ring.
  - cbn [SFsub]. replace (to_R (S754_finite sx mx ex) - to_R (S754_zero sy))
      with (to_R (S754_finite sx mx ex)) by (cbn [to_R]; ring).
    apply approx_exact. reflexivity.
  - cbn [SFsub]. set (ez := Z.min ex ey).
    rewrite <- (aligned_value sx mx ex ez), <- (aligned_value sy my ey ez)
      by (unfold ez; lia).
    rewrite <- Rmult_minus_distr_r, <- minus_IZR. apply normalize_approx.
Qed.

(** A finite difference has finite operands. *)
Lemma sub_finite x y :
  is_finite (SFsub prec emax x y) = true -> is_finite x = true /\ is_finite y = true.
Proof.
  destruct x as [sx|sx| |sx mx ex], y as [sy|sy| |sy my ey];
    cbn [SFsub is_finite]; try (intros; split; reflexivity); try discriminate.
  destruct sx, sy; discriminate.
Qed.

(** What a finite result says about the exact value. *)
Lemma approx_finite (r : float32) (v : R) :
  approx r v -> is_finite r = true ->
  Rabs (to_R r - v) <= eps * Rabs (to_R r) + eta.
Proof. destruct r; cbn [approx is_finite]; try discriminate; intros H _; exact H. Qed.

End SignedSums.

(** * How many rods one call can strike, in binary32 *)

Section Polyphony.
Import Binary32.
Local Open Scope R_scope.

Implicit Types (s : State float32) (inp : Input float32) (x y : float32).

Lemma SFltb_infinity_l (L : float32) : SFltb (S754_infinity false) L = false.
Proof. destruct L as [sl|sl| |sl ml el]; try reflexivity. destruct sl; reflexivity. Qed.

(** The norm of a vector with an infinite or NaN component is below
    nothing. *)
Lemma norm32_nonfinite x y (L : float32) :
  is_finite x = false \/ is_finite y = false -> SFltb (norm32 x y) L = false.
Proof.
  intros [H|H]; unfold norm32.
  - destruct x as [sx|sx| |sx mx ex]; try discriminate; unfold fmul32 at 1; cbn [SFmul].
    + rewrite xorb_nilpotent. destruct (fmul32 y y) as [s|s| |s m e];
        try reflexivity; try apply SFltb_infinity_l.
      destruct s; [reflexivity | apply SFltb_infinity_l].
    + reflexivity.
  - destruct y as [sy|sy| |sy my ey]; try discriminate; unfold fmul32 at 2; cbn [SFmul].
    + rewrite xorb_nilpotent. destruct (fmul32 x x) as [s|s| |s m e];
        try reflexivity; try apply SFltb_infinity_l.
      destruct s; [reflexivity | apply SFltb_infinity_l].
    + destruct (fmul32 x x); reflexivity.
Qed.

Lemma HIT_DIST_binary32 : @HIT_DIST spec_float arith = S754_finite false 12582912 (-19).
Proof. reflexivity. Qed.

Lemma HIT_DIST_value : to_R (@HIT_DIST spec_float arith) = 24.
Proof. rewrite HIT_DIST_binary32. apply (to_R_scaled 24 19); [lia|reflexivity]. Qed.

(** A computed distance below [HIT_DIST] is a number below 24. *)
Lemma below_hit_dist (d : float32) :
  nonneg_fin d -> valid d -> SFltb d HIT_DIST = true -> 0 <= to_R d < 24.
Proof.
  intros Hn Hv Hlt. split; [apply nonneg_fin_to_R, Hn|].
  rewrite <- HIT_DIST_value.
  destruct Hn as [->|(m & e & ->)].
  - rewrite HIT_DIST_value. cbn [to_R]. lra.
  - rewrite HIT_DIST_binary32 in *. rewrite !to_R_pos.
    apply (SFltb_pos m e 12582912 (-19)); [exact Hv | reflexivity | exact Hlt].
Qed.

Lemma shifted_square (a b c d : R) :
  0 <= c -> Rabs a <= c -> Rabs (a - b) <= d -> b * b <= a * a + 2 * c * d + d * d.
Proof.
  intros Hc Ha Hd.
  pose proof (Rabs_pos (a - b)) as H0.
  apply Rabs_le_both in Ha. apply Rabs_le_both in Hd.
  replace b with (a - (a - b)) by ring.
  set (u := a - b) in *.
  assert (- (a * u) <= c * d).
  { destruct (Rle_dec 0 a), (Rle_dec 0 u); nra. }
  assert (u * u <= d * d) by nra.
  nra.
Qed.

(** A ball that the collision test finds within [HIT_DIST] of the point
    [(rx, ry)] is a finite point, less than 25 away from it. *)
Lemma near_of_hit (bx by_ rx ry : float32) :
  SFltb (norm32 (SFsub prec emax bx rx) (SFsub prec emax by_ ry)) HIT_DIST = true ->
  (is_finite bx = true /\ is_finite by_ = true) /\
  (to_R bx - to_R rx) * (to_R bx - to_R rx) + (to_R by_ - to_R ry) * (to_R by_ - to_R ry)
  <= 25 * 25.
Proof.
  intros Hlt.
  set (dx := SFsub prec emax bx rx) in *. set (dy := SFsub prec emax by_ ry) in *.
  destruct (is_finite dx) eqn:Fdx;
    [|rewrite norm32_nonfinite in Hlt by (left; exact Fdx); discriminate].
  destruct (is_finite dy) eqn:Fdy;
    [|rewrite norm32_nonfinite in Hlt by (right; exact Fdy); discriminate].
  destruct (sub_finite bx rx Fdx) as [Fbx Frx].
  destruct (sub_finite by_ ry Fdy) as [Fby Fry].
  split; [split; assumption|].
  destruct (norm32_cases dx dy Fdx Fdy) as [Einf|(Nd & Vd & Hd)].
  { cbv zeta in Einf. rewrite Einf, SFltb_infinity_l in Hlt. discriminate. }
  cbv zeta in Nd, Vd, Hd.
  destruct (below_hit_dist _ Nd Vd Hlt) as [Hd0 Hd24].
  assert (Hs : to_R dx * to_R dx + to_R dy * to_R dy
               <= (24 * (1 + 8 * eps)) * (24 * (1 + 8 * eps))).
  { apply (short_bound 24 (to_R (norm32 dx dy))); [lra | lra | exact Hd]. }
  pose proof eps_small as [He0 He1]. pose proof eta_pos as Ht0. pose proof eta_le_1 as Ht1.
  set (T := 24 * (1 + 8 * eps)) in *.
  assert (HT : 24 <= T <= 24001 / 1000) by (unfold T; lra).
  assert (Hax : Rabs (to_R dx) <= T).
  { apply (Rabs_le_of_sq _ (to_R dy)); [lra | exact Hs]. }
  assert (Hay : Rabs (to_R dy) <= T).
  { apply (Rabs_le_of_sq _ (to_R dx)); [lra | rewrite Rplus_comm; exact Hs]. }
  pose proof (approx_finite _ _ (sub_spec bx rx Fbx Frx) Fdx) as Ex.
  pose proof (approx_finite _ _ (sub_spec by_ ry Fby Fry) Fdy) as Ey.
  fold dx in Ex. fold dy in Ey.
  set (X := to_R bx - to_R rx) in *. set (Y := to_R by_ - to_R ry) in *.
  assert (Hex : Rabs (to_R dx - X) <= / 1000).
  { eapply Rle_trans; [exact Ex|].
    assert (eps * Rabs (to_R dx) <= / 1000000 * T)
      by (apply Rmult_le_compat; [lra | apply Rabs_pos | lra | exact Hax]).
    lra. }
  assert (Hey : Rabs (to_R dy - Y) <= / 1000).
  { eapply Rle_trans; [exact Ey|].
    assert (eps * Rabs (to_R dy) <= / 1000000 * T)
      by (apply Rmult_le_compat; [lra | apply Rabs_pos | lra | exact Hay]).
    lra. }
  pose proof (shifted_square (to_R dx) X T (/ 1000) ltac:(lra) Hax Hex) as Sx.
  pose proof (shifted_square (to_R dy) Y T (/ 1000) ltac:(lra) Hay Hey) as Sy.
  assert (HT2 : T * T <= 577) by nra.
  nra.
Qed.

(** ** The rod table *)

Lemma to_R_scaled64 x : fine64 x = true -> to_R x = IZR (scaled64 x) * bpow (-64).
Proof.
  destruct x as [sx|sx| |sx m e]; try discriminate; intros H; cbn [scaled64 to_R].
  - ring.
  - apply Z.leb_le in H.
    rewrite !mult_IZR, <- bpow_IZR by lia.
    replace (bpow e) with (bpow (e + 64) * bpow (-64))
      by (rewrite <- bpow_add; f_equal; lia).
    destruct sx; unfold Rsign; simpl IZR; ring.
Qed.

Lemma table_fine (i : nat) :
  fine64 (rod_x i) = true /\ fine64 (rod_y i) = true.
Proof. do 8 (destruct i as [|i]; [split; reflexivity|]). split; reflexivity. Qed.

Lemma table_far :
  forallb (fun i =>
    forallb (fun j => (i =? j)%nat || neighbours i j || far_apart i j) (seq 0 NUM_RODS))
    (seq 0 NUM_RODS) = true.
Proof. vm_compute. reflexivity. Qed.

Lemma unit_64 : bpow (-64) * bpow (-64) * IZR (2 ^ 128) = 1.
Proof.
  rewrite <- bpow_IZR, <- !bpow_add by lia. reflexivity.
Qed.

Lemma far_apart_spec (i j : nat) :
  far_apart i j = true ->
  25 * 25 * 4 <
  (to_R (rod_x i) - to_R (rod_x j)) * (to_R (rod_x i) - to_R (rod_x j))
  + (to_R (rod_y i) - to_R (rod_y j)) * (to_R (rod_y i) - to_R (rod_y j)).
Proof.
  unfold far_apart. cbv zeta. intros H. apply Z.ltb_lt, IZR_lt in H.
  destruct (table_fine i) as [Fxi Fyi]. destruct (table_fine j) as [Fxj Fyj].
  rewrite (to_R_scaled64 _ Fxi), (to_R_scaled64 _ Fyi),
    (to_R_scaled64 _ Fxj), (to_R_scaled64 _ Fyj).
  set (a := scaled64 (rod_x i)) in *. set (b := scaled64 (rod_x j)) in *.
  set (c := scaled64 (rod_y i)) in *. set (d := scaled64 (rod_y j)) in *.
  rewrite plus_IZR, !mult_IZR, !minus_IZR in H.
  pose proof unit_64 as U. pose proof (bpow_pos (-64)) as Hb.
  set (beta := bpow (-64)) in *. set (P := IZR (2 ^ 128)) in *.
  replace ((IZR a * beta - IZR b * beta) * (IZR a * beta - IZR b * beta)
           + (IZR c * beta - IZR d * beta) * (IZR c * beta - IZR d * beta))
    with (beta * beta * ((IZR a - IZR b) * (IZR a - IZR b)
                         + (IZR c - IZR d) * (IZR c - IZR d))) by ring.
  replace (25 * 25 * 4) with (beta * beta * (2500 * P)) by (rewrite <- Rmult_assoc, (Rmult_comm _ 2500), Rmult_assoc, U; ring).
  apply Rmult_lt_compat_l; [nra | exact H].
Qed.

Lemma spread (c a b : R) :
  (a - b) * (a - b) <= 2 * ((c - a) * (c - a)) + 2 * ((c - b) * (c - b)).
Proof.
  pose proof (Rle_0_sqr ((c - a) + (c - b))) as H. unfold Rsqr in H.
  replace ((a - b) * (a - b))
    with (2 * ((c - a) * (c - a)) + 2 * ((c - b) * (c - b))
          - ((c - a) + (c - b)) * ((c - a) + (c - b))) by ring.
  lra.
Qed.

(** Two rods that are far apart are never struck in the same pass. *)
Lemma far_rods_exclude s t (i j : nat) :
  rod_fx s = rod_fx boot -> rod_fy s = rod_fy boot -> far_apart i j = true ->
  rod_fires t s i = true -> rod_fires t s j = true -> False.
Proof.
  intros Hfx Hfy Hfar Hi Hj. apply far_apart_spec in Hfar.
  unfold rod_fires in Hi, Hj.
  apply andb_true_iff in Hi as [Hi _]. apply andb_true_iff in Hj as [Hj _].
  unfold rod_dist, rod_dx, rod_dy in Hi, Hj. rewrite Hfx, Hfy in Hi, Hj.
  fold (rod_x i) (rod_y i) in Hi. fold (rod_x j) (rod_y j) in Hj.
  apply near_of_hit in Hi as [_ Hi]. apply near_of_hit in Hj as [_ Hj].
  set (X := to_R (ball_x s)) in *. set (Y := to_R (ball_y s)) in *.
  set (xi := to_R (rod_x i)) in *. set (yi := to_R (rod_y i)) in *.
  set (xj := to_R (rod_x j)) in *. set (yj := to_R (rod_y j)) in *.
  pose proof (spread X xi xj) as Px. pose proof (spread Y yi yj) as Py.
  clearbody X Y xi yi xj yj.
  set (A := (X - xi) * (X - xi)) in *. set (B := (Y - yi) * (Y - yi)) in *.
  set (C := (X - xj) * (X - xj)) in *. set (D := (Y - yj) * (Y - yj)) in *.
  set (E := (xi - xj) * (xi - xj)) in *. set (G := (yi - yj) * (yi - yj)) in *.
  clearbody A B C D E G. lra.
Qed.

(** ** Counting *)

Lemma two_of_eight (f : nat -> bool) :
  only_neighbours (map f (seq 0 NUM_RODS)) = true ->
  (length (List.filter f (seq 0 NUM_RODS)) <= 2)%nat.
Proof.
  cbn [seq map List.filter NUM_RODS].
  destruct (f 0%nat), (f 1%nat), (f 2%nat), (f 3%nat),
    (f 4%nat), (f 5%nat), (f 6%nat), (f 7%nat);
    vm_compute; intros H; first [discriminate H | lia].
Qed.

Lemma flags_lookup (f : nat -> bool) (i : nat) :
  (i < NUM_RODS)%nat -> map f (seq 0 NUM_RODS) !!! i = f i.
Proof.
  intros Hi. do 8 (destruct i as [|i]; [reflexivity|]). unfold NUM_RODS in Hi. lia.
Qed.

Lemma strikes_only_neighbours s t :
  rod_fx s = rod_fx boot -> rod_fy s = rod_fy boot ->
  forall i j, (i < NUM_RODS)%nat -> (j < NUM_RODS)%nat ->
    rod_fires t s i = true -> rod_fires t s j = true ->
    ((i =? j)%nat || neighbours i j = true).
Proof.
  intros Hfx Hfy i j Hi Hj Fi Fj.
  pose proof table_far as T. rewrite forallb_forall in T.
  specialize (T i ltac:(apply in_seq; lia)). rewrite forallb_forall in T.
  specialize (T j ltac:(apply in_seq; lia)).
  destruct ((i =? j)%nat || neighbours i j); [reflexivity|].
  cbn [orb] in T. exfalso. exact (far_rods_exclude s t i j Hfx Hfy T Fi Fj).
Qed.

Lemma reached_table (imu : float32 * float32) (inps : list (Input float32)) inp :
  let s := fst (run (setup cosf sinf imu) inps) in
  let e := physics_step inp (handle_buttons inp s) in
  rod_fx e = rod_fx boot /\ rod_fy e = rod_fy boot.
Proof.
  intros s e.
  destruct (run_rod_table inps (setup cosf sinf imu)) as [Rfx Rfy]. fold s in Rfx, Rfy.
  destruct (handle_buttons_tables inp s) as (_ & _ & Bfx & Bfy).
  destruct (physics_step_tables inp (handle_buttons inp s)) as (_ & _ & Pfx & Pfy & _).
  fold e in Pfx, Pfy.
  split; [rewrite Pfx, Bfx, Rfx | rewrite Pfy, Bfy, Rfy]; reflexivity.
Qed.

Lemma strikes_at_most_two (e : State float32) (t : Z) :
  rod_fx e = rod_fx boot -> rod_fy e = rod_fy boot ->
  (length (List.filter (rod_fires t e) (seq 0 NUM_RODS)) <= 2)%nat.
Proof.
  intros Hfx Hfy.
  pose proof (strikes_only_neighbours e t Hfx Hfy) as Hn.
  apply two_of_eight. unfold only_neighbours.
  apply forallb_forall. intros i Hi. apply forallb_forall. intros j Hj.
  apply in_seq in Hi, Hj.
  rewrite !flags_lookup by lia.
  destruct (rod_fires t e i) eqn:Fi; [|apply orb_true_r].
  destruct (rod_fires t e j) eqn:Fj; [|apply orb_true_r].
  rewrite (Hn i j) by (assumption || lia). reflexivity.
Qed.

Lemma strike_needs_finite_ball (e : State float32) (t : Z) (i : nat) :
  rod_fires t e i = true ->
  is_finite (ball_x e) = true /\ is_finite (ball_y e) = true.
Proof.
  intros Fi. unfold rod_fires in Fi. apply andb_true_iff in Fi as [Fi _].
  unfold rod_dist, rod_dx, rod_dy in Fi. apply near_of_hit in Fi as [Fi _]. exact Fi.
Qed.

Lemma loop_events_length (s : State float32) inp :
  length (snd (loop s inp))
  = length (List.filter (rod_fires (now inp) (physics_step inp (handle_buttons inp s)))
              (seq 0 NUM_RODS)).
Proof.
  pose proof (check_rods_events (now inp) (physics_step inp (handle_buttons inp s))) as Hev.
  apply map_length_eq in Hev. rewrite loop_snd. exact Hev.
Qed.

(** X12 -- One call of [loop()] strikes at most two rods, and only
    neighbours (binary32).  At every point of a run that started with
    [setup()], whatever the state and the input of the call: a rod that
    passes the distance test has the ball less than 25 away from it, and
    two rods of the table that are not neighbours on the circle are more
    than 50 apart; so the rods struck in one collision pass are one rod,
    or two neighbouring ones, and the call plays at most two notes.  (A
    ball whose position is infinite or NaN passes no distance test.) *)
Theorem at_most_two_rods_strike (imu : float32 * float32)
    (inps : list (Input float32)) inp :
  let s := fst (run (setup cosf sinf imu) inps) in
  let e := physics_step inp (handle_buttons inp s) in
  (length (snd (loop s inp)) <= 2)%nat /\
  (forall i j, (i < NUM_RODS)%nat -> (j < NUM_RODS)%nat -> i <> j ->
     rod_fires (now inp) e i = true -> rod_fires (now inp) e j = true ->
     neighbours i j = true) /\
  (forall i, rod_fires (now inp) e i = true ->
     is_finite (ball_x e) = true /\ is_finite (ball_y e) = true).
Proof.
  cbv zeta.
  destruct (reached_table imu inps inp) as [Hfx Hfy]. cbv zeta in Hfx, Hfy.
  split; [|split].
  - rewrite loop_events_length. apply strikes_at_most_two; assumption.
  - intros i j Hi Hj Hne Fi Fj.
    pose proof (strikes_only_neighbours _ _ Hfx Hfy i j Hi Hj Fi Fj) as Hn.
    apply orb_true_iff in Hn as [Hn|Hn]; [|exact Hn].
    apply Nat.eqb_eq in Hn. contradiction.
  - intros i. apply strike_needs_finite_ball.
Qed.

End Polyphony.

(** * Values that stay in range, in binary32 *)

Section InRange.
Import Binary32.
Local Open Scope R_scope.

Implicit Types (x y r : float32) (v B : R).

(** A result that stands for a value of moderate size is finite and
    close to it. *)
Lemma approx_err r v B :
  approx r v -> Rabs v <= B -> B <= 100000 ->
  is_finite r = true /\ Rabs (to_R r - v) <= (B + 1) / 500000 /\ Rabs (to_R r) <= B + 1.
Proof.
  intros Ha Hv HB.
  pose proof eps_small as [He0 He1]. pose proof eta_pos as Ht0. pose proof eta_le_1 as Ht1.
  pose proof (Rabs_pos v) as Hv0.
  assert (Hfin : is_finite r = true).
  { destruct r as [s|s| |s m e]; cbn [approx] in Ha; try reflexivity; [|contradiction].
    pose proof bpow_105_big. exfalso.
    assert (bpow 10 <= bpow 105) by (apply bpow_le; lia).
    assert (E17 : bpow 17 <= bpow 105) by (apply bpow_le; lia).
    rewrite (bpow_IZR 17) in E17 by lia. simpl IZR in E17. lra. }
  split; [exact Hfin|].
  pose proof (approx_finite r v Ha Hfin) as He.
  set (R0 := Rabs (to_R r)) in *.
  assert (HR0 : 0 <= R0) by apply Rabs_pos.
  assert (Htri : R0 <= Rabs (to_R r - v) + Rabs v).
  { unfold R0. replace (to_R r) with ((to_R r - v) + v) at 1 by ring. apply Rabs_triang. }
  set (d := Rabs (to_R r - v)) in *.
  assert (Hd0 : 0 <= d) by apply Rabs_pos.
  assert (HeR : eps * R0 <= / 1000000 * R0) by (apply Rmult_le_compat_r; lra).
  assert (HR : R0 <= B + 1).
  { assert (R0 * (1 - / 1000000) <= B + / 1000000) by lra.
    assert (B + / 1000000 <= (B + 1) * (1 - / 1000000)) by lra.
    assert (R0 * (1 - / 1000000) <= (B + 1) * (1 - / 1000000)) by lra.
    apply Rmult_le_reg_r with (1 - / 1000000); lra. }
  split; [|exact HR].
  assert (/ 1000000 * R0 <= / 1000000 * (B + 1)) by (apply Rmult_le_compat_l; lra).
  lra.
Qed.

Lemma mul_fin x y :
  is_finite x = true -> is_finite y = true ->
  approx (SFmul prec emax x y) (to_R x * to_R y).
Proof.
  destruct x as [sx|sx| |sx mx ex]; try discriminate;
    destruct y as [sy|sy| |sy my ey]; try discriminate; intros _ _.
  - cbn [SFmul to_R]. rewrite Rmult_0_l. apply (approx_exact (S754_zero _)). reflexivity.
  - cbn [SFmul]. replace (to_R (S754_zero sx) * to_R (S754_finite sy my ey)) with 0
      by (cbn [to_R]; ring).
    apply (approx_exact (S754_zero _)). reflexivity.
  - cbn [SFmul]. replace (to_R (S754_finite sx mx ex) * to_R (S754_zero sy)) with 0
      by (cbn [to_R]; ring).
    apply (approx_exact (S754_zero _)). reflexivity.
  - apply mul_spec.
Qed.

Lemma div_fin x (sd : bool) (md : positive) (ed : Z) :
  is_finite x = true ->
  approx (SFdiv prec emax x (S754_finite sd md ed)) (to_R x / to_R (S754_finite sd md ed)).
Proof.
  destruct x as [sx|sx| |sx mx ex]; try discriminate; intros _.
  - cbn [SFdiv]. replace (to_R (S754_zero sx) / to_R (S754_finite sd md ed)) with 0
      by (cbn [to_R]; unfold Rdiv; ring).
    apply (approx_exact (S754_zero _)). reflexivity.
  - apply div_spec.
Qed.

(** The four operations on values in range. *)
Lemma add_in_range x y (Bx By : R) :
  is_finite x = true -> is_finite y = true ->
  Rabs (to_R x) <= Bx -> Rabs (to_R y) <= By -> Bx + By <= 100000 ->
  is_finite (SFadd prec emax x y) = true /\
  Rabs (to_R (SFadd prec emax x y) - (to_R x + to_R y)) <= (Bx + By + 1) / 500000 /\
  Rabs (to_R (SFadd prec emax x y)) <= Bx + By + 1.
Proof.
  intros Fx Fy Hx Hy HB. apply approx_err; [apply add_spec; assumption | | exact HB].
  eapply Rle_trans; [apply Rabs_triang|]. lra.
Qed.

Lemma sub_in_range x y (Bx By : R) :
  is_finite x = true -> is_finite y = true ->
  Rabs (to_R x) <= Bx -> Rabs (to_R y) <= By -> Bx + By <= 100000 ->
  is_finite (SFsub prec emax x y) = true /\
  Rabs (to_R (SFsub prec emax x y) - (to_R x - to_R y)) <= (Bx + By + 1) / 500000 /\
  Rabs (to_R (SFsub prec emax x y)) <= Bx + By + 1.
Proof.
  intros Fx Fy Hx Hy HB. apply approx_err; [apply sub_spec; assumption | | exact HB].
  unfold Rminus. eapply Rle_trans; [apply Rabs_triang|]. rewrite Rabs_Ropp. lra.
Qed.

Lemma mul_in_range x y (Bx By : R) :
  is_finite x = true -> is_finite y = true ->
  Rabs (to_R x) <= Bx -> Rabs (to_R y) <= By -> Bx * By <= 100000 ->
  is_finite (SFmul prec emax x y) = true /\
  Rabs (to_R (SFmul prec emax x y) - to_R x * to_R y) <= (Bx * By + 1) / 500000 /\
  Rabs (to_R (SFmul prec emax x y)) <= Bx * By + 1.
Proof.
  intros Fx Fy Hx Hy HB. apply approx_err; [apply mul_fin; assumption | | exact HB].
  rewrite Rabs_mult. apply Rmult_le_compat; try apply Rabs_pos; assumption.
Qed.

End InRange.

(** * The constants of the sketch as real numbers *)

Section Literals.
Import Binary32.
Local Open Scope R_scope.

(** The value of a positive number with a negative exponent, as a
    fraction. *)
Lemma to_R_fraction (m : positive) (k : Z) :
  (0 <= k)%Z -> to_R (S754_finite false m (- k)) * IZR (2 ^ k) = IZR (Z.pos m).
Proof.
  intros Hk. rewrite to_R_pos, Rmult_assoc, bpow_opp_l by exact Hk. ring.
Qed.

Lemma GRAVITY_SCALE_value : to_R (@GRAVITY_SCALE spec_float arith) = 120.
Proof.
  change (@GRAVITY_SCALE spec_float arith) with (S754_finite false 15728640 (-17)).
  apply (to_R_scaled 120 17); [lia | reflexivity].
Qed.

Lemma two_value : to_R (of_int 2) = 2.
Proof.
  change (of_int 2) with (S754_finite false 8388608 (-22)).
  apply (to_R_scaled 2 22); [lia | reflexivity].
Qed.

Lemma half_value : to_R (lit 5 10) = / 2.
Proof.
  change (lit 5 10) with (S754_finite false 8388608 (-24)).
  pose proof (to_R_fraction 8388608 24 ltac:(lia)) as H.
  change (Z.opp 24) with (Z.neg 24) in H. change (2 ^ 24)%Z with 16777216%Z in H. lra.
Qed.

Lemma step_value : 0 <= to_R (lit 2 100) <= 21 / 1000.
Proof.
  change (lit 2 100) with (S754_finite false 10737418 (-29)).
  pose proof (to_R_fraction 10737418 29 ltac:(lia)) as H.
  change (Z.opp 29) with (Z.neg 29) in H. change (2 ^ 29)%Z with 536870912%Z in H. lra.
Qed.

Lemma FRICTION_value : 0 <= to_R (@FRICTION spec_float arith) <= 98 / 100.
Proof.
  change (@FRICTION spec_float arith) with (S754_finite false 16273900 (-24)).
  pose proof (to_R_fraction 16273900 24 ltac:(lia)) as H.
  change (Z.opp 24) with (Z.neg 24) in H. change (2 ^ 24)%Z with 16777216%Z in H. lra.
Qed.

End Literals.

(** * The physics on values in range, in binary32 *)

Section SafePhysics.
Import Binary32.
Local Open Scope R_scope.

Implicit Types (s : State float32) (inp : Input float32) (x y : float32).

Lemma coordinate_le_magnitude x y : Rabs (to_R x) <= magnitude x y.
Proof.
  pose proof (magnitude_sq x y) as H.
  assert (H0 : 0 <= magnitude x y) by apply sqrt_pos.
  apply (Rabs_le_of_sq (to_R x) (to_R y)); [exact H0 | rewrite H; lra].
Qed.

Lemma magnitude_comm x y : magnitude x y = magnitude y x.
Proof. unfold magnitude. f_equal. ring. Qed.

(** One component of the velocity update, up to the clamp: the tilt, its
    scaling by [GRAVITY_SCALE * 0.02f], and friction.  [op] is the
    subtraction of [ball_vx -= ...] or the addition of [ball_vy += ...]. *)
Lemma kick_in_range (a c v : float32) (op : float32 -> float32 -> float32) :
  (op = SFsub prec emax \/ op = SFadd prec emax) ->
  is_finite a = true -> is_finite c = true -> is_finite v = true ->
  Rabs (to_R a) <= 64 -> Rabs (to_R c) <= 64 -> Rabs (to_R v) <= 4096 ->
  is_finite
    (SFmul prec emax
       (op v (SFmul prec emax (SFmul prec emax (SFsub prec emax a c) GRAVITY_SCALE) (lit 2 100)))
       FRICTION) = true.
Proof.
  intros Hop Fa Fc Fv Ha Hc Hv.
  destruct (sub_in_range a c 64 64 Fa Fc Ha Hc ltac:(lra)) as (Ft & _ & Bt).
  set (t := SFsub prec emax a c) in *.
  assert (FG : is_finite (@GRAVITY_SCALE spec_float arith) = true) by reflexivity.
  assert (BG : Rabs (to_R (@GRAVITY_SCALE spec_float arith)) <= 120)
    by (rewrite GRAVITY_SCALE_value, Rabs_pos_eq; lra).
  destruct (mul_in_range t GRAVITY_SCALE (64 + 64 + 1) 120 Ft FG Bt BG ltac:(lra))
    as (F1 & _ & B1).
  set (g1 := SFmul prec emax t GRAVITY_SCALE) in *.
  assert (FS : is_finite (lit 2 100) = true) by reflexivity.
  assert (BS : Rabs (to_R (lit 2 100)) <= 21 / 1000)
    by (pose proof step_value; rewrite Rabs_pos_eq; lra).
  destruct (mul_in_range g1 (lit 2 100) ((64 + 64 + 1) * 120 + 1) (21 / 1000)
              F1 FS B1 BS ltac:(lra)) as (F2 & _ & B2).
  set (g2 := SFmul prec emax g1 (lit 2 100)) in *.
  assert (F3B3 : is_finite (op v g2) = true /\ Rabs (to_R (op v g2)) <= 4500).
  { destruct Hop as [-> | ->].
    - destruct (sub_in_range v g2 4096 (((64 + 64 + 1) * 120 + 1) * (21 / 1000) + 1)
                  Fv F2 Hv B2 ltac:(lra)) as (F3 & _ & B3). split; [exact F3 | lra].
    - destruct (add_in_range v g2 4096 (((64 + 64 + 1) * 120 + 1) * (21 / 1000) + 1)
                  Fv F2 Hv B2 ltac:(lra)) as (F3 & _ & B3). split; [exact F3 | lra]. }
  destruct F3B3 as [F3 B3].
  assert (FF : is_finite (@FRICTION spec_float arith) = true) by reflexivity.
  assert (BF : Rabs (to_R (@FRICTION spec_float arith)) <= 98 / 100)
    by (pose proof FRICTION_value; rewrite Rabs_pos_eq; lra).
  destruct (mul_in_range (op v g2) FRICTION 4500 (98 / 100) F3 FF B3 BF ltac:(lra))
    as (F4 & _ & _).
  exact F4.
Qed.

Lemma integrate_unfold inp s :
  integrate inp s
  = ((SFadd prec emax (ball_x s) (fst (clamp_speed (kicked inp s))),
      SFadd prec emax (ball_y s) (snd (clamp_speed (kicked inp s)))),
     clamp_speed (kicked inp s)).
Proof. reflexivity. Qed.

Lemma integrate_safe inp s :
  in_range 64 (fst (accel inp)) -> in_range 64 (snd (accel inp)) ->
  in_range 64 (cal_ax s) -> in_range 64 (cal_ay s) ->
  in_range 64 (ball_x s) -> in_range 64 (ball_y s) ->
  in_range 4096 (ball_vx s) -> in_range 4096 (ball_vy s) ->
  let p := fst (integrate inp s) in
  let v := snd (integrate inp s) in
  (is_finite (fst v) = true /\ is_finite (snd v) = true /\
   magnitude (fst v) (snd v) <= 20 * (1 + / 1048576)) /\
  in_range 86 (fst p) /\ in_range 86 (snd p).
Proof.
  intros [Fax Bax] [Fay Bay] [Fcx Bcx] [Fcy Bcy] [Fbx Bbx] [Fby Bby] [Fvx Bvx] [Fvy Bvy].
  rewrite integrate_unfold. cbn [fst snd].
  assert (Fkx : is_finite (fst (kicked inp s)) = true).
  { apply (kick_in_range _ _ _ (SFsub prec emax)); auto. }
  assert (Fky : is_finite (snd (kicked inp s)) = true).
  { apply (kick_in_range _ _ _ (SFadd prec emax)); auto. }
  destruct (clamp_speed_finite (kicked inp s) Fkx Fky) as (Fx & Fy & Hm).
  set (w := clamp_speed (kicked inp s)) in *.
  split; [split; [exact Fx | split; [exact Fy | exact Hm]]|].
  pose proof (coordinate_le_magnitude (fst w) (snd w)) as Cx.
  pose proof (coordinate_le_magnitude (snd w) (fst w)) as Cy.
  rewrite (magnitude_comm (snd w)) in Cy.
  assert (Hm21 : magnitude (fst w) (snd w) <= 21) by lra.
  destruct (add_in_range (ball_x s) (fst w) 64 21 Fbx Fx Bbx ltac:(lra) ltac:(lra))
    as (Fpx & _ & Bpx).
  destruct (add_in_range (ball_y s) (snd w) 64 21 Fby Fy Bby ltac:(lra) ltac:(lra))
    as (Fpy & _ & Bpy).
  split; (split; [assumption | lra]).
Qed.

(** ** The norm of a vector in range *)

Lemma nonneg_fin_not_infinity (a : float32) : is_finite a = true -> a <> S754_infinity false.
Proof. intros H ->. discriminate H. Qed.

Lemma sqrt_le_succ (c : R) : 0 <= c -> sqrt c <= c + 1.
Proof.
  intros Hc. pose proof (sqrt_pos c) as H0. pose proof (sqrt_sqrt c Hc) as H2.
  destruct (Rle_dec (sqrt c) 1) as [H|H]; [lra|].
  assert (1 < sqrt c) by lra. nra.
Qed.

Lemma norm32_finite x y (B : R) :
  in_range B x -> in_range B y -> 0 <= B -> B <= 200 ->
  is_finite (norm32 x y) = true.
Proof.
  intros [Fx Bx] [Fy By] HB0 HB.
  assert (HBB : B * B <= 40000) by nra.
  destruct (mul_in_range x x B B Fx Fx Bx Bx ltac:(lra)) as (Fa & _ & Ba).
  destruct (mul_in_range y y B B Fy Fy By By ltac:(lra)) as (Fb & _ & Bb).
  destruct (square_cases x Fx) as [Ea|[Na _]];
    [exfalso; revert Ea; apply nonneg_fin_not_infinity, Fa|].
  destruct (square_cases y Fy) as [Eb|[Nb _]];
    [exfalso; revert Eb; apply nonneg_fin_not_infinity, Fb|].
  fold (fmul32 x x) in Fa, Ba. fold (fmul32 y y) in Fb, Bb.
  set (a := fmul32 x x) in *. set (b := fmul32 y y) in *.
  destruct (add_in_range a b (B * B + 1) (B * B + 1) Fa Fb Ba Bb ltac:(lra))
    as (Fc & _ & Bc).
  destruct (add_cases a b Na Nb) as [Ec|[Nc _]];
    [exfalso; revert Ec; apply nonneg_fin_not_infinity, Fc|].
  fold (fadd32 a b) in Fc, Bc. set (c := fadd32 a b) in *.
  unfold norm32. fold a b c.
  destruct Nc as [Ec|(m & e & Ec)]; rewrite Ec; [reflexivity|].
  destruct (sqrt_spec m e) as (Hs & _ & _). cbv zeta in Hs.
  rewrite Ec in Bc.
  assert (HC0 : 0 <= to_R (S754_finite false m e)).
  { apply nonneg_fin_to_R. right. eauto. }
  rewrite Rabs_pos_eq in Bc by exact HC0.
  apply (approx_err _ _ (B * B + 1 + (B * B + 1) + 1 + 1) Hs); [|lra].
  rewrite Rabs_pos_eq by apply sqrt_pos.
  pose proof (sqrt_le_succ _ HC0). lra.
Qed.

(** ** The wall *)

Lemma max_dist_valid : valid (@max_dist spec_float arith).
Proof. reflexivity. Qed.

(** A computed distance beyond [max_dist] is a positive number above 51. *)
Lemma beyond_max_dist (d : float32) :
  nonneg_fin d -> valid d -> SFltb max_dist d = true ->
  exists m e, d = S754_finite false m e /\ 51 < to_R d.
Proof.
  intros [->|(m & e & ->)] Hv Hlt.
  - discriminate Hlt.
  - exists m, e. split; [reflexivity|].
    rewrite <- max_dist_value. rewrite max_dist_binary32 in *. rewrite !to_R_pos.
    apply (SFltb_pos 13369344 (-18) m e); [reflexivity | exact Hv | exact Hlt].
Qed.

(** One component of the reflected velocity, [(v - 2 * dot * n) * 0.5f]. *)
Lemma reflected_in_range (v n dot : float32) :
  in_range 21 v -> in_range 3 n -> in_range 129 dot ->
  in_range 4096
    (SFmul prec emax
       (SFsub prec emax v (SFmul prec emax (SFmul prec emax (of_int 2) dot) n))
       (lit 5 10)).
Proof.
  intros [Fv Bv] [Fn Bn] [Fd Bd].
  assert (F2 : is_finite (of_int 2) = true) by reflexivity.
  assert (B2 : Rabs (to_R (of_int 2)) <= 2) by (rewrite two_value, Rabs_pos_eq; lra).
  destruct (mul_in_range (of_int 2) dot 2 129 F2 Fd B2 Bd ltac:(lra)) as (Ft & _ & Bt).
  set (t := SFmul prec emax (of_int 2) dot) in *.
  destruct (mul_in_range t n (2 * 129 + 1) 3 Ft Fn Bt Bn ltac:(lra)) as (Fu & _ & Bu).
  set (u := SFmul prec emax t n) in *.
  destruct (sub_in_range v u 21 ((2 * 129 + 1) * 3 + 1) Fv Fu Bv Bu ltac:(lra))
    as (Fw & _ & Bw).
  set (w := SFsub prec emax v u) in *.
  assert (Fh : is_finite (lit 5 10) = true) by reflexivity.
  assert (Bh : Rabs (to_R (lit 5 10)) <= / 2) by (rewrite half_value, Rabs_pos_eq; lra).
  destruct (mul_in_range w (lit 5 10) (21 + ((2 * 129 + 1) * 3 + 1) + 1) (/ 2)
              Fw Fh Bw Bh ltac:(lra)) as (Fr & _ & Br).
  split; [exact Fr | lra].
Qed.

(** The unit normal [p / dist] and the scalar product with it. *)
Lemma normal_in_range (p d : float32) :
  in_range 86 p -> (exists m e, d = S754_finite false m e /\ 51 < to_R d) ->
  in_range 3 (SFdiv prec emax p d).
Proof.
  intros [Fp Bp] (m & e & -> & Hd).
  pose proof (div_fin p false m e Fp) as Ha.
  set (D := to_R (S754_finite false m e)) in *.
  assert (Hq : Rabs (to_R p / D) <= 2).
  { unfold Rdiv. rewrite Rabs_mult, (Rabs_pos_eq (/ D))
      by (apply Rlt_le, Rinv_0_lt_compat; lra).
    apply Rmult_le_reg_r with D; [lra|].
    rewrite Rmult_assoc, Rinv_l by lra. lra. }
  destruct (approx_err _ _ 2 Ha Hq ltac:(lra)) as (F & _ & B).
  split; [exact F | lra].
Qed.

Lemma dot_in_range (vx vy nx ny : float32) :
  in_range 21 vx -> in_range 21 vy -> in_range 3 nx -> in_range 3 ny ->
  in_range 129 (SFadd prec emax (SFmul prec emax vx nx) (SFmul prec emax vy ny)).
Proof.
  intros [Fvx Bvx] [Fvy Bvy] [Fnx Bnx] [Fny Bny].
  destruct (mul_in_range vx nx 21 3 Fvx Fnx Bvx Bnx ltac:(lra)) as (Fa & _ & Ba).
  destruct (mul_in_range vy ny 21 3 Fvy Fny Bvy Bny ltac:(lra)) as (Fb & _ & Bb).
  destruct (add_in_range _ _ (21 * 3 + 1) (21 * 3 + 1) Fa Fb Ba Bb ltac:(lra))
    as (F & _ & B).
  split; [exact F | lra].
Qed.

End SafePhysics.

(** * The wall bounce on values in range *)

Section SafeWall.
Import Binary32.
Local Open Scope R_scope.

Implicit Types (s : State float32) (inp : Input float32) (x y : float32).

Lemma in_range_weaken (B B' : R) x : in_range B x -> B <= B' -> in_range B' x.
Proof. intros [F H] HB. split; [exact F | lra]. Qed.

Lemma constrain_velocity (p v : float32 * float32) :
  snd (constrain_to_tube p v)
  = let d := norm32 (fst p) (snd p) in
    if SFltb max_dist d
    then
      let nx := SFdiv prec emax (fst p) d in
      let ny := SFdiv prec emax (snd p) d in
      let dot := SFadd prec emax (SFmul prec emax (fst v) nx) (SFmul prec emax (snd v) ny) in
      (SFmul prec emax
         (SFsub prec emax (fst v) (SFmul prec emax (SFmul prec emax (of_int 2) dot) nx))
         (lit 5 10),
       SFmul prec emax
         (SFsub prec emax (snd v) (SFmul prec emax (SFmul prec emax (of_int 2) dot) ny))
         (lit 5 10))
    else v.
Proof.
  unfold constrain_to_tube. cbv zeta.
  match goal with
  | |- snd (if ?c then _ else _) = (if ?c' then _ else _) =>
      change c with c'; destruct c'
  end; reflexivity.
Qed.

Lemma wall_velocity_safe (p v : float32 * float32) :
  in_range 86 (fst p) -> in_range 86 (snd p) ->
  in_range 21 (fst v) -> in_range 21 (snd v) ->
  let v' := snd (constrain_to_tube p v) in
  in_range 4096 (fst v') /\ in_range 4096 (snd v').
Proof.
  intros Hpx Hpy Hvx Hvy. rewrite constrain_velocity. cbv zeta.
  destruct (SFltb max_dist (norm32 (fst p) (snd p))) eqn:Hlt.
  - pose proof (norm32_finite _ _ 86 Hpx Hpy ltac:(lra) ltac:(lra)) as Fd.
    destruct (norm32_cases (fst p) (snd p) (proj1 Hpx) (proj1 Hpy)) as [E|(Nd & Vd & _)].
    { rewrite E in Fd. discriminate Fd. }
    pose proof (beyond_max_dist _ Nd Vd Hlt) as Hd.
    set (d := norm32 (fst p) (snd p)) in *.
    pose proof (normal_in_range _ d Hpx Hd) as Hnx.
    pose proof (normal_in_range _ d Hpy Hd) as Hny.
    pose proof (dot_in_range _ _ _ _ Hvx Hvy Hnx Hny) as Hdot.
    cbn [fst snd]. split; apply reflected_in_range; assumption.
  - split; eapply in_range_weaken; try eassumption; lra.
Qed.

Lemma wall_position_safe (p v : float32 * float32) :
  is_finite (fst p) = true -> is_finite (snd p) = true ->
  let p' := fst (constrain_to_tube p v) in
  in_range 52 (fst p') /\ in_range 52 (snd p').
Proof.
  intros Fx Fy p'.
  destruct (wall_projection_finite p v Fx Fy) as [Fx' Fy'].
  pose proof (wall_projection_tolerance p v Fx' Fy') as Hm.
  fold p' in Fx', Fy', Hm.
  pose proof (coordinate_le_magnitude (fst p') (snd p')) as Cx.
  pose proof (coordinate_le_magnitude (snd p') (fst p')) as Cy.
  rewrite (magnitude_comm (snd p')) in Cy.
  split; (split; [assumption | lra]).
Qed.

(** ** The rods *)

Lemma tenth_valid : valid (lit 1 10).
Proof. reflexivity. Qed.

Lemma tenth_value : / 10 <= to_R (lit 1 10).
Proof.
  pose proof (to_R_fraction 13421773 27 ltac:(lia)) as H.
  change (Z.opp 27) with (Z.neg 27) in H.
  change (2 ^ 27)%Z with 134217728%Z in H.
  change (lit 1 10) with (S754_finite false 13421773 (-27)).
  lra.
Qed.

End SafeWall.

(** * Runs under bounded IMU reads, in binary32 *)

Section SafeRuns.
Import Binary32.
Local Open Scope R_scope.

Implicit Types (s : State float32) (inp : Input float32) (x y : float32).

Lemma safe_position s :
  safe s -> in_range 52 (ball_x s) /\ in_range 52 (ball_y s).
Proof.
  intros (_ & _ & Fx & Fy & Hm & _).
  pose proof (coordinate_le_magnitude (ball_x s) (ball_y s)) as Cx.
  pose proof (coordinate_le_magnitude (ball_y s) (ball_x s)) as Cy.
  rewrite (magnitude_comm (ball_y s)) in Cy.
  split; (split; [assumption | lra]).
Qed.

(** ** The bounce off a rod *)

Lemma bounce_component (q d : float32) :
  in_range 129 q -> nonneg_fin d -> valid d -> SFltb (lit 1 10) d = true ->
  in_range 4096 (SFmul prec emax (SFdiv prec emax q d) ROD_BOUNCE).
Proof.
  intros [Fq Bq] [->|(m & e & ->)] Vd Hlt; [discriminate Hlt|].
  assert (Hd : / 10 < to_R (S754_finite false m e)).
  { pose proof tenth_value as Ht. rewrite to_R_pos.
    change (lit 1 10) with (S754_finite false 13421773 (-27)) in *.
    rewrite to_R_pos in Ht.
    pose proof (proj1 (SFltb_pos 13421773 (-27) m e ltac:(reflexivity) Vd) Hlt). lra. }
  pose proof (div_fin q false m e Fq) as Ha.
  set (D := to_R (S754_finite false m e)) in *.
  assert (HD : 0 < D) by lra.
  assert (Hq : Rabs (to_R q / D) <= 1290).
  { unfold Rdiv. rewrite Rabs_mult, (Rabs_pos_eq (/ D))
      by (apply Rlt_le, Rinv_0_lt_compat; lra).
    apply Rmult_le_reg_r with D; [lra|].
    rewrite Rmult_assoc, Rinv_l by lra.
    pose proof (Rabs_pos (to_R q)). nra. }
  destruct (approx_err _ _ 1290 Ha Hq ltac:(lra)) as (F & _ & B).
  assert (F2 : is_finite (@ROD_BOUNCE spec_float arith) = true) by reflexivity.
  assert (B2 : Rabs (to_R (@ROD_BOUNCE spec_float arith)) <= 2).
  { change (@ROD_BOUNCE spec_float arith) with (of_int 2).
    rewrite two_value, Rabs_pos_eq; lra. }
  destruct (mul_in_range _ _ (1290 + 1) 2 F F2 B B2 ltac:(lra)) as (Fr & _ & Br).
  split; [exact Fr | lra].
Qed.

Lemma rod_bounce_safe (i : nat) s : (i < NUM_RODS)%nat -> safe s -> safe (rod_bounce i s).
Proof.
  intros Hi Hs. pose proof (safe_position s Hs) as [[Fx Bx] [Fy By]].
  destruct Hs as (Hcx & Hcy & _ & _ & Hm & Hvx & Hvy & Ht).
  destruct (Ht i Hi) as [[Frx Brx] [Fry Bry]].
  unfold rod_bounce. cbv zeta.
  destruct (flt (float_lit 1 10) (rod_dist s i)) eqn:G;
    [|repeat (split; try assumption)].
  destruct (sub_in_range (ball_x s) (rod_fx s !!! i) 52 64 Fx Frx Bx Brx ltac:(lra))
    as (Fdx & _ & Bdx).
  destruct (sub_in_range (ball_y s) (rod_fy s !!! i) 52 64 Fy Fry By Bry ltac:(lra))
    as (Fdy & _ & Bdy).
  assert (Hdx : in_range 129 (rod_dx s i)).
  { split; [exact Fdx|]. eapply Rle_trans; [exact Bdx | lra]. }
  assert (Hdy : in_range 129 (rod_dy s i)).
  { split; [exact Fdy|]. eapply Rle_trans; [exact Bdy | lra]. }
  pose proof (norm32_finite _ _ 129 Hdx Hdy ltac:(lra) ltac:(lra)) as Fd.
  destruct (norm32_cases _ _ (proj1 Hdx) (proj1 Hdy)) as [E|(Nd & Vd & _)];
    [rewrite E in Fd; discriminate Fd|].
  change (rod_dist s i) with (norm32 (rod_dx s i) (rod_dy s i)) in *.
  change (SFltb (lit 1 10) (norm32 (rod_dx s i) (rod_dy s i)) = true) in G.
  pose proof (bounce_component _ _ Hdx Nd Vd G) as Rx.
  pose proof (bounce_component _ _ Hdy Nd Vd G) as Ry.
  repeat (split; try assumption).
Qed.

Lemma rod_step_safe (t : Z) (i : nat) s out :
  (i < NUM_RODS)%nat -> safe s -> safe (fst (rod_step t (s, out) i)).
Proof.
  intros Hi Hs. unfold rod_step. destruct (rod_fires t s i); [|exact Hs].
  cbn [fst]. apply rod_bounce_safe; [exact Hi|]. exact Hs.
Qed.

Lemma fold_rods_safe (t : Z) (l : list nat) : forall s out,
  Forall (fun i => (i < NUM_RODS)%nat) l -> safe s ->
  safe (fst (fold_left (rod_step t) l (s, out))).
Proof.
  induction l as [|a l IH]; intros s out Hl Hs; cbn [fold_left]; [exact Hs|].
  inversion Hl as [|? ? Ha Hl']; subst.
  pose proof (rod_step_safe t a s out Ha Hs) as H1.
  destruct (rod_step t (s, out) a) as [s1 out1]. apply IH; assumption.
Qed.

Lemma check_rods_safe (t : Z) s : safe s -> safe (fst (check_rods t s)).
Proof.
  apply fold_rods_safe. apply Forall_forall. intros i Hi.
  apply elem_of_seq in Hi. lia.
Qed.

(** ** The physics *)

Lemma physics_step_safe inp s : input_ok inp -> safe s -> safe (physics_step inp s).
Proof.
  intros (Hax & Hay & _) Hs. pose proof (safe_position s Hs) as [Hx Hy].
  destruct Hs as (Hcx & Hcy & _ & _ & _ & Hvx & Hvy & Ht).
  destruct (integrate_safe inp s Hax Hay Hcx Hcy
              (in_range_weaken _ 64 _ Hx ltac:(lra)) (in_range_weaken _ 64 _ Hy ltac:(lra))
              Hvx Hvy) as ((Fvx & Fvy & Hm) & Hpx & Hpy).
  destruct (physics_step_ball inp s) as (Ex & Ey & Evx & Evy).
  destruct (physics_step_cal inp s) as [Ecx Ecy].
  destruct (physics_step_tables inp s) as (_ & _ & Efx & Efy & _).
  set (p := fst (integrate inp s)) in *. set (v := snd (integrate inp s)) in *.
  cbv zeta in Ex, Ey, Evx, Evy.
  destruct (wall_projection_finite p v (proj1 Hpx) (proj1 Hpy)) as [Fx' Fy'].
  pose proof (wall_projection_tolerance p v Fx' Fy') as Hm'.
  pose proof (coordinate_le_magnitude (fst v) (snd v)) as Cx.
  pose proof (coordinate_le_magnitude (snd v) (fst v)) as Cy.
  rewrite (magnitude_comm (snd v)) in Cy.
  destruct (wall_velocity_safe p v Hpx Hpy) as [Rx Ry];
    [split; [exact Fvx | lra] | split; [exact Fvy | lra] |].
  unfold safe. rewrite Ex, Ey, Evx, Evy, Ecx, Ecy, Efx, Efy.
  repeat (split; try assumption).
Qed.

(** ** The rest of a call *)

Lemma zero_in_range (B : R) : 0 <= B -> in_range B (of_int 0).
Proof. intros HB. split; [reflexivity|]. cbn. rewrite Rabs_R0. exact HB. Qed.

Lemma magnitude_zero : magnitude (of_int 0) (of_int 0) = 0.
Proof.
  unfold magnitude. change (to_R (of_int 0)) with 0.
  replace (0 * 0 + 0 * 0) with 0 by ring. apply sqrt_0.
Qed.

Lemma drawFullScreen_safe s :
  in_range 64 (cal_ax s) -> in_range 64 (cal_ay s) ->
  (forall i, (i < NUM_RODS)%nat ->
     in_range 64 (rod_fx s !!! i) /\ in_range 64 (rod_fy s !!! i)) ->
  safe (drawFullScreen s).
Proof.
  intros Hcx Hcy Ht. unfold safe. cbn.
  repeat (split; try assumption); try (apply zero_in_range; lra).
  change (magnitude (of_int 0) (of_int 0) <= 51 * (1 + / 1048576)).
  rewrite magnitude_zero. lra.
Qed.

Lemma handle_buttons_safe inp s : input_ok inp -> safe s -> safe (handle_buttons inp s).
Proof.
  intros (_ & _ & Hb) Hs.
  pose proof Hs as (Hcx & Hcy & _ & _ & _ & _ & _ & Ht).
  unfold handle_buttons.
  destruct (btnA_pressed inp), (btnB_released inp), (btnC_pressed inp);
    try exact Hs; try destruct (Hb eq_refl) as [Hsx Hsy];
    apply drawFullScreen_safe; assumption.
Qed.

Lemma drawUpdate_safe s : safe s -> safe (drawUpdate s).
Proof. intros Hs. exact Hs. Qed.

Lemma loop_safe inp s : input_ok inp -> safe s -> safe (fst (loop s inp)).
Proof.
  intros Hi Hs. rewrite loop_fst. apply drawUpdate_safe, check_rods_safe.
  apply physics_step_safe; [exact Hi|]. apply handle_buttons_safe; assumption.
Qed.

Lemma run_safe (inps : list (Input float32)) : forall s,
  Forall input_ok inps -> safe s -> safe (fst (run s inps)).
Proof.
  induction inps as [|inp inps IH]; intros s Hi Hs; [exact Hs|].
  inversion Hi as [|? ? H1 H2]; subst.
  rewrite run_fst_cons. apply IH; [exact H2|]. apply loop_safe; assumption.
Qed.

(** ** The rod table of [setup()] *)

Lemma small64_in_range (x : spec_float) :
  fine64 x = true -> (Z.abs (scaled64 x) <=? 64 * 2 ^ 64)%Z = true -> in_range 64 x.
Proof.
  intros Hf Hb. split; [destruct x; try discriminate; reflexivity|].
  rewrite (to_R_scaled64 x Hf). apply Z.leb_le in Hb.
  rewrite Rabs_mult, (Rabs_pos_eq (bpow (-64))) by (apply Rlt_le, bpow_pos).
  rewrite <- abs_IZR. apply IZR_le in Hb. rewrite mult_IZR in Hb.
  pose proof (bpow_opp_l 64 ltac:(lia)) as H1.
  pose proof (bpow_pos (-64)) as H0.
  set (P := IZR (2 ^ 64)) in *. set (b := bpow (-64)) in *.
  change (bpow (- (64))) with b in H1.
  set (A := IZR (Z.abs (scaled64 x))) in *. clearbody A b P.
  replace 64 with (64 * (b * P)) by (rewrite H1; ring).
  replace (64 * (b * P)) with (64 * P * b) by ring.
  apply Rmult_le_compat_r; lra.
Qed.

Lemma table_in_range (i : nat) :
  (i < NUM_RODS)%nat -> in_range 64 (rod_x i) /\ in_range 64 (rod_y i).
Proof.
  intros Hi. destruct (table_fine i) as [Hx Hy].
  split; apply small64_in_range; try assumption;
    do 8 (destruct i as [|i]; [reflexivity|]); exfalso; unfold NUM_RODS in Hi; lia.
Qed.

Lemma setup_safe (imu : float32 * float32) :
  in_range 64 (fst imu) -> in_range 64 (snd imu) -> safe (setup cosf sinf imu).
Proof.
  intros Hx Hy. unfold setup. apply drawFullScreen_safe; cbn [cal_ax cal_ay]; try assumption.
  intros i Hi. apply (table_in_range i Hi).
Qed.

(** ** The ball on the screen *)

Lemma screen_of_position s :
  is_finite (ball_x s) = true -> is_finite (ball_y s) = true ->
  magnitude (ball_x s) (ball_y s) <= 51 * (1 + / 1048576) ->
  exists sx sy : Z,
    ball_screen s = Some (sx, sy) /\
    ((sx - CX) * (sx - CX) + (sy - CY) * (sy - CY)
       <= (TUBE_R - BALL_R - 4) * (TUBE_R - BALL_R - 4))%Z /\
    (CX - 51 <= sx <= CX + 51)%Z /\ (CY - 51 <= sy <= CY + 51)%Z.
Proof.
  intros Fx Fy Hm.
  destruct (trunc_spec _ Fx) as (zx & Ex & Hx).
  destruct (trunc_spec _ Fy) as (zy & Ey & Hy).
  pose proof (magnitude_sq (ball_x s) (ball_y s)) as Hsq.
  assert (Hm0 : 0 <= magnitude (ball_x s) (ball_y s)) by apply sqrt_pos.
  set (mg := magnitude (ball_x s) (ball_y s)) in *.
  assert (Hlt : IZR (zx * zx + zy * zy) < IZR 2602).
  { rewrite plus_IZR, !mult_IZR.
    assert (mg * mg <= 51 * (1 + / 1048576) * (51 * (1 + / 1048576)))
      by (apply Rmult_le_compat; lra).
    lra. }
  apply lt_IZR in Hlt.
  assert (Bx : (-51 <= zx <= 51)%Z) by nia.
  assert (By : (-51 <= zy <= 51)%Z) by nia.
  exists (CX + zx)%Z, (CY + zy)%Z. split; [|split; [|split]].
  - unfold ball_screen, to_int16. cbn [float_trunc arith]. rewrite Ex, Ey.
    replace ((-32768 <=? zx)%Z && (zx <=? 32767)%Z) with true
      by (symmetry; apply andb_true_iff; split; apply Z.leb_le; lia).
    replace ((-32768 <=? zy)%Z && (zy <=? 32767)%Z) with true
      by (symmetry; apply andb_true_iff; split; apply Z.leb_le; lia).
    rewrite !int16_wrap_small by (unfold CX, CY; lia). reflexivity.
  - unfold TUBE_R, BALL_R. replace (CX + zx - CX)%Z with zx by lia.
    replace (CY + zy - CY)%Z with zy by lia. lia.
  - lia.
  - lia.
Qed.

Lemma half_in_range : in_range 64 (lit 5 10).
Proof. split; [reflexivity|]. rewrite half_value, Rabs_pos_eq; lra. Qed.

Lemma tilted_input_ok (t : Z) : input_ok (tick (lit 5 10, of_int 0) t).
Proof.
  split; [apply half_in_range|]. split; [apply zero_in_range; lra|].
  intros H. discriminate H.
Qed.

(** X13 -- The arithmetic never overflows (binary32).  When [setup()] and
    every call of [loop()] read finite accelerations of magnitude at most
    64 g on both axes, then at every point of the run, whatever the
    buttons do, the ball's position and velocity are numbers (neither
    infinite nor NaN) and the ball lies within [51 * (1 + 2^-20)] of the
    centre. *)
Theorem arithmetic_stays_finite (imu : float32 * float32) (inps : list (Input float32)) :
  in_range 64 (fst imu) -> in_range 64 (snd imu) -> Forall input_ok inps ->
  let s := fst (run (setup cosf sinf imu) inps) in
  is_finite (ball_x s) = true /\ is_finite (ball_y s) = true /\
  is_finite (ball_vx s) = true /\ is_finite (ball_vy s) = true /\
  magnitude (ball_x s) (ball_y s) <= 51 * (1 + / 1048576).
Proof.
  intros Hx Hy Hi s.
  pose proof (run_safe inps _ Hi (setup_safe imu Hx Hy)) as Hs. fold s in Hs.
  destruct Hs as (_ & _ & Fx & Fy & Hm & [Fvx _] & [Fvy _] & _).
  repeat (split; try assumption).
Qed.

Lemma arithmetic_stays_finite_witness :
  let s := fst (run (setup cosf sinf (of_int 0, of_int 0))
                  (map (tick (lit 5 10, of_int 0)) [0; 20; 40]%Z)) in
  is_finite (ball_x s) = true /\ is_finite (ball_y s) = true /\
  is_finite (ball_vx s) = true /\ is_finite (ball_vy s) = true /\
  magnitude (ball_x s) (ball_y s) <= 51 * (1 + / 1048576).
Proof.
  apply (arithmetic_stays_finite (of_int 0, of_int 0)
           (map (tick (lit 5 10, of_int 0)) [0; 20; 40]%Z)).
  - apply zero_in_range; lra.
  - apply zero_in_range; lra.
  - cbn [map]. repeat (constructor; [apply tilted_input_ok|]). constructor.
Defined.

(** X14 -- The ball is drawn inside the tube throughout (binary32).  Under
    the same readings the casts [(int16_t)ball_x] and [(int16_t)ball_y]
    of [drawUpdate()] are defined at every point of the run, and the
    screen position of the ball lies within 51 pixels of the tube centre
    [(CX, CY)]. *)
Theorem ball_always_on_screen (imu : float32 * float32) (inps : list (Input float32)) :
  in_range 64 (fst imu) -> in_range 64 (snd imu) -> Forall input_ok inps ->
  exists sx sy : Z,
    ball_screen (fst (run (setup cosf sinf imu) inps)) = Some (sx, sy) /\
    ((sx - CX) * (sx - CX) + (sy - CY) * (sy - CY)
       <= (TUBE_R - BALL_R - 4) * (TUBE_R - BALL_R - 4))%Z /\
    (CX - 51 <= sx <= CX + 51)%Z /\ (CY - 51 <= sy <= CY + 51)%Z.
Proof.
  intros Hx Hy Hi.
  pose proof (run_safe inps _ Hi (setup_safe imu Hx Hy)) as Hs.
  destruct Hs as (_ & _ & Fx & Fy & Hm & _).
  apply screen_of_position; assumption.
Qed.

Lemma ball_always_on_screen_witness :
  exists sx sy : Z,
    ball_screen (fst (run (setup cosf sinf (of_int 0, of_int 0))
                        (map (tick (lit 5 10, of_int 0)) [0; 20; 40]%Z)))
    = Some (sx, sy) /\
    ((sx - CX) * (sx - CX) + (sy - CY) * (sy - CY)
       <= (TUBE_R - BALL_R - 4) * (TUBE_R - BALL_R - 4))%Z /\
    (CX - 51 <= sx <= CX + 51)%Z /\ (CY - 51 <= sy <= CY + 51)%Z.
Proof.
  apply (ball_always_on_screen (of_int 0, of_int 0)
           (map (tick (lit 5 10, of_int 0)) [0; 20; 40]%Z)).
  - apply zero_in_range; lra.
  - apply zero_in_range; lra.
  - cbn [map]. repeat (constructor; [apply tilted_input_ok|]). constructor.
Defined.

End SafeRuns.

(** * Rounding never crosses a representable number *)

Section Monotone.
Import Binary32.

Lemma bpow_lt_inv a b : (bpow a < bpow b)%R -> a < b.
Proof.
  intros H. destruct (Z_lt_le_dec a b) as [|Hge]; [assumption|exfalso].
  pose proof (bpow_le b a Hge). lra.
Qed.

Lemma digits_bracket (m : Z) :
  0 < m -> (bpow (Zdigits2 m - 1) <= IZR m < bpow (Zdigits2 m))%R.
Proof.
  intros Hm. pose proof (Zdigits2_bounds m Hm) as [Hlo Hhi].
  pose proof (Zdigits2_pos m Hm) as Hd.
  rewrite !bpow_IZR by lia. split; [apply IZR_le, Hlo | apply IZR_lt, Hhi].
Qed.

(** A larger value has no fewer digits above the binary point. *)
Lemma digits_mono (k c m e : Z) :
  0 < k -> 0 < m -> (IZR k * bpow c <= IZR m * bpow e)%R ->
  Zdigits2 k + c <= Zdigits2 m + e.
Proof.
  intros Hk Hm H.
  destruct (digits_bracket k Hk) as [Klo _]. destruct (digits_bracket m Hm) as [_ Mhi].
  pose proof (bpow_pos c) as Pc. pose proof (bpow_pos e) as Pe.
  assert (Hlt : (bpow (Zdigits2 k - 1 + c) < bpow (Zdigits2 m + e))%R).
  { rewrite !bpow_add.
    apply Rle_lt_trans with (IZR k * bpow c)%R; [apply Rmult_le_compat_r; lra|].
    apply Rle_lt_trans with (IZR m * bpow e)%R; [exact H|].
    apply Rmult_lt_compat_r; lra. }
  apply bpow_lt_inv in Hlt. lia.
Qed.

(** Integers compare as their values at a common exponent. *)
Lemma scaled_le (k c m e : Z) :
  e <= c -> (IZR k * bpow c <= IZR m * bpow e)%R -> k * 2 ^ (c - e) <= m.
Proof.
  intros Hec H. apply le_IZR. rewrite mult_IZR, <- bpow_IZR by lia.
  replace (bpow c) with (bpow (c - e) * bpow e)%R in H
    by (rewrite <- bpow_add; f_equal; lia).
  pose proof (bpow_pos e) as Pe.
  apply Rmult_le_reg_r with (bpow e); [exact Pe|]. lra.
Qed.

(** The rounding of a value at least [k * 2^c], a number of the format,
    is at least [k * 2^c]. *)
Lemma round_aux_lower sx mx ex lx (k : positive) (c : Z) :
  0 <= mx -> ex <= fexp prec emax (Zdigits2 mx + ex) ->
  valid (S754_finite false k c) ->
  (IZR (Zpos k) * bpow c <= IZR mx * bpow ex)%R ->
  match binary_round_aux prec emax sx mx ex lx with
  | S754_finite _ m e => (IZR (Zpos k) * bpow c <= IZR (Zpos m) * bpow e)%R
  | S754_zero _ => False
  | _ => True
  end.
Proof.
  intros Hmx Hex Hv H.
  assert (Hmxpos : 0 < mx).
  { destruct (Z.eq_dec mx 0) as [->|]; [exfalso|lia].
    pose proof (bpow_pos c). assert (0 < IZR (Z.pos k))%R by (apply IZR_lt; lia).
    rewrite Rmult_0_l in H. nra. }
  destruct (round_aux_unfold sx mx ex lx Hmx Hex) as (m1 & m2 & m3 & e1 & e3 & Hs & ->).
  destruct (round_shape_facts _ _ _ _ _ _ _ Hmx Hex Hs) as (H1 & H3 & Hm1 & Hm3 & Hz & Hp).
  destruct Hs as [He1 Em1 Hm2 He3 Em3].
  assert (Hcan : fexp prec emax (Zdigits2 (Z.pos k) + c) = c).
  { unfold valid in Hv; cbn [valid_binary] in Hv. unfold bounded, canonical_mantissa in Hv.
    apply andb_prop in Hv as [Hc _]. apply Z.eqb_eq in Hc. exact Hc. }
  destruct (canonical_digits k c Hv) as [[Ec Hk]|[Ec Hk]].
  all: assert (Hce1 : c <= e1)
    by (rewrite He1, <- Hcan; apply fexp_mono, digits_mono; [lia|lia|exact H]).
  all: assert (Hm1lo : e1 = c -> Z.pos k <= m1)
    by (intros E; rewrite Em1, E; apply Z.div_le_lower_bound;
        [apply Z.pow_pos_nonneg; lia
        | rewrite Z.mul_comm; apply scaled_le; [lia|exact H]]).
  all: destruct m3 as [|m|m]; [| |lia].
  all: try (destruct (Hz eq_refl) as [Hm20 He1'];
            assert (Ec1 : e1 = c) by lia; specialize (Hm1lo Ec1); lia).
  - (* subnormal threshold, finite result *)
    destruct (e3 <=? emax - prec); [|exact I].
    destruct (Hp ltac:(lia)) as [_ Hn].
    destruct (Z.eq_dec e3 c) as [E3|N3].
    + assert (E1 : e1 = c) by lia. specialize (Hm1lo E1).
      rewrite E3, E1, Z.sub_diag, Z.pow_0_r, Z.div_1_r in Em3.
      rewrite E3. pose proof (bpow_pos c). apply Rmult_le_compat_r; [lra|].
      apply IZR_le. lia.
    + destruct Hn as [->|Hn]; [lia|].
      assert (Hb : (bpow (c + 1) <= bpow e3)%R) by (apply bpow_le; lia).
      rewrite bpow_add, (bpow_IZR 1) in Hb by lia. change (IZR (2 ^ 1)) with 2%R in Hb.
      apply IZR_le in Hn. apply IZR_lt in Hk.
      change (IZR (2 ^ 23)) with 8388608%R in Hn. change (IZR (2 ^ 24)) with 16777216%R in Hk.
      pose proof (bpow_pos c). pose proof (bpow_pos e3).
      assert (0 < IZR (Z.pos k))%R by (apply IZR_lt; lia).
      nra.
  - destruct (e3 <=? emax - prec); [|exact I].
    destruct (Hp ltac:(lia)) as [_ Hn].
    destruct (Z.eq_dec e3 c) as [E3|N3].
    + assert (E1 : e1 = c) by lia. specialize (Hm1lo E1).
      rewrite E3, E1, Z.sub_diag, Z.pow_0_r, Z.div_1_r in Em3.
      rewrite E3. pose proof (bpow_pos c). apply Rmult_le_compat_r; [lra|].
      apply IZR_le. lia.
    + destruct Hn as [->|Hn]; [lia|].
      assert (Hb : (bpow (c + 1) <= bpow e3)%R) by (apply bpow_le; lia).
      rewrite bpow_add, (bpow_IZR 1) in Hb by lia. change (IZR (2 ^ 1)) with 2%R in Hb.
      destruct Hk as [_ Hk].
      apply IZR_le in Hn. apply IZR_lt in Hk.
      change (IZR (2 ^ 23)) with 8388608%R in Hn. change (IZR (2 ^ 24)) with 16777216%R in Hk.
      pose proof (bpow_pos c). pose proof (bpow_pos e3).
      assert (0 < IZR (Z.pos k))%R by (apply IZR_lt; lia).
      nra.
Qed.

Lemma round_exact_lower sx (m : positive) ex (k : positive) (c : Z) :
  valid (S754_finite false k c) ->
  (IZR (Zpos k) * bpow c <= IZR (Zpos m) * bpow ex)%R ->
  match binary_round_aux prec emax sx (Zpos m) ex loc_Exact with
  | S754_finite _ m' e' => (IZR (Zpos k) * bpow c <= IZR (Zpos m') * bpow e')%R
  | S754_zero _ => False
  | _ => True
  end.
Proof.
  intros Hv H.
  destruct (Z_le_gt_dec ex (fexp prec emax (Zdigits2 (Zpos m) + ex))) as [Hle|Hgt].
  - apply round_aux_lower; [lia | exact Hle | exact Hv | exact H].
  - rewrite round_aux_exact by lia. destruct (ex <=? emax - prec); [exact H | exact I].
Qed.

Lemma binary_round_lower sx (m : positive) e (k : positive) (c : Z) :
  valid (S754_finite false k c) ->
  (IZR (Zpos k) * bpow c <= IZR (Zpos m) * bpow e)%R ->
  match binary_round prec emax sx m e with
  | S754_finite _ m' e' => (IZR (Zpos k) * bpow c <= IZR (Zpos m') * bpow e')%R
  | S754_zero _ => False
  | _ => True
  end.
Proof.
  intros Hv H. unfold binary_round.
  pose proof (shl_align_value m e (fexp prec emax (Zpos (digits2_pos m) + e))) as (Hs & _).
  destruct (shl_align m e _) as [mz ez]. cbn [fst snd] in Hs.
  rewrite <- Hs in H. apply round_exact_lower; assumption.
Qed.

(** Adding a positive number to a number of the format gives no less. *)
Lemma add_pos_lower (ka : positive) (ca : Z) (mb : positive) (eb : Z) :
  valid (S754_finite false ka ca) ->
  match SFadd prec emax (S754_finite false ka ca) (S754_finite false mb eb) with
  | S754_finite _ m e => (IZR (Zpos ka) * bpow ca <= IZR (Zpos m) * bpow e)%R
  | S754_zero _ => False
  | _ => True
  end.
Proof.
  intros Hv. cbn [SFadd cond_Zopp].
  set (ez := Z.min ca eb).
  destruct (shl_align_value ka ca ez) as (Va & Ea & _ & _).
  destruct (shl_align_value mb eb ez) as (Vb & Eb & _ & _).
  rewrite Ea in Va by (unfold ez; lia). rewrite Eb in Vb by (unfold ez; lia).
  set (ma' := fst (shl_align ka ca ez)) in *. set (mb' := fst (shl_align mb eb ez)) in *.
  change (Z.pos ma' + Z.pos mb')%Z with (Z.pos (ma' + mb')). cbn [binary_normalize].
  apply binary_round_lower; [exact Hv|].
  rewrite Pos2Z.inj_add, plus_IZR, Rmult_plus_distr_r, Va.
  pose proof (bpow_pos ez). assert (0 < IZR (Z.pos mb'))%R by (apply IZR_lt; lia).
  nra.
Qed.

End Monotone.

(** * The speed of a strike, in binary32 *)

Section RealBounds.
Local Open Scope R_scope.

Lemma abs_le_of_sq (x T : R) : 0 <= T -> x * x <= T * T -> Rabs x <= T.
Proof.
  intros HT H. apply Rabs_le. split.
  - destruct (Rle_dec (- T) x) as [|N]; [assumption|exfalso]. assert (x < - T) by lra. nra.
  - destruct (Rle_dec x T) as [|N]; [assumption|exfalso]. assert (T < x) by lra. nra.
Qed.

Lemma sq_of_abs_le (x T : R) : Rabs x <= T -> x * x <= T * T.
Proof.
  intros H. pose proof (Rabs_pos x) as H0. apply Rabs_le_both in H. nra.
Qed.

(** The quotients of a vector by its computed length. *)
Lemma quotients_real (X Y D e t : R) :
  0 < e <= / 1000000 -> 0 < t <= / 1000000000000 -> / 10 <= D ->
  X * X + Y * Y <= (D * (1 + e) + t) * (D * (1 + e) + t) * ((1 + e) * (1 + e)) + 4 * t ->
  X / D * (X / D) + Y / D * (Y / D) <= 1 + / 100000.
Proof.
  intros [He0 He1] [Ht0 Ht1] HD H.
  assert (HD0 : 0 < D) by lra.
  set (A := D * (1 + e) + t) in *.
  assert (HA : 0 <= A <= D * (1 + 11 / 10000000)).
  { unfold A. split; [nra|].
    assert (e * D <= / 1000000 * D) by (apply Rmult_le_compat_r; lra). lra. }
  assert (HAA : A * A <= D * (1 + 11 / 10000000) * (D * (1 + 11 / 10000000)))
    by (apply Rmult_le_compat; lra).
  assert (HE : 0 <= (1 + e) * (1 + e) <= (1 + / 1000000) * (1 + / 1000000)).
  { split; [nra|]. apply Rmult_le_compat; lra. }
  assert (HP : A * A * ((1 + e) * (1 + e))
               <= D * (1 + 11 / 10000000) * (D * (1 + 11 / 10000000))
                  * ((1 + / 1000000) * (1 + / 1000000))).
  { apply Rmult_le_compat; try lra. nra. }
  assert (HDD : / 100 <= D * D) by nra.
  set (DD := D * D) in *.
  assert (HXY : X * X + Y * Y <= DD * (1 + / 100000)).
  { replace (D * (1 + 11 / 10000000) * (D * (1 + 11 / 10000000))
             * ((1 + / 1000000) * (1 + / 1000000)))
      with (DD * ((1 + 11 / 10000000) * (1 + 11 / 10000000)
                  * ((1 + / 1000000) * (1 + / 1000000)))) in HP by (unfold DD; ring).
    clearbody DD A. lra. }
  apply Rmult_le_reg_r with DD; [lra|].
  replace ((X / D * (X / D) + Y / D * (Y / D)) * DD) with (X * X + Y * Y);
    [lra | unfold DD; field; lra].
Qed.

Lemma quotient_small (qx qy : R) :
  qx * qx + qy * qy <= 1 + / 100000 -> Rabs qx <= 2.
Proof.
  intros H. apply abs_le_of_sq; [lra|].
  pose proof (Rle_0_sqr qy) as Hy. unfold Rsqr in Hy. lra.
Qed.

Lemma unit_normal_real (qx qy NX NY : R) :
  qx * qx + qy * qy <= 1 + / 100000 ->
  Rabs (NX - qx) <= 3 / 500000 -> Rabs (NY - qy) <= 3 / 500000 ->
  NX * NX + NY * NY <= 1 + / 10000.
Proof.
  intros Hq Ex Ey.
  assert (Hqx : Rabs qx <= 1 + / 100000).
  { apply abs_le_of_sq; [lra|]. pose proof (Rle_0_sqr qy) as Hy. unfold Rsqr in Hy. lra. }
  assert (Hqy : Rabs qy <= 1 + / 100000).
  { apply abs_le_of_sq; [lra|]. pose proof (Rle_0_sqr qx) as Hx. unfold Rsqr in Hx. lra. }
  apply Rabs_le_both in Ex, Ey, Hqx, Hqy.
  set (ex := NX - qx) in *. set (ey := NY - qy) in *.
  replace NX with (qx + ex) by (unfold ex; ring).
  replace NY with (qy + ey) by (unfold ey; ring).
  clearbody ex ey.
  assert (qx * ex <= (1 + / 100000) * (3 / 500000)).
  { destruct (Rle_dec 0 qx), (Rle_dec 0 ex); nra. }
  assert (qy * ey <= (1 + / 100000) * (3 / 500000)).
  { destruct (Rle_dec 0 qy), (Rle_dec 0 ey); nra. }
  assert (ex * ex <= 3 / 500000 * (3 / 500000)) by nra.
  assert (ey * ey <= 3 / 500000 * (3 / 500000)) by nra.
  nra.
Qed.

(** The scalar product with a vector that is nearly a unit vector. *)
Lemma dot_real (VX VY NX NY : R) :
  VX * VX + VY * VY <= 401 -> NX * NX + NY * NY <= 1 + / 10000 ->
  Rabs (VX * NX + VY * NY) <= 2003 / 100.
Proof.
  intros HV HN. apply abs_le_of_sq; [lra|].
  assert (HC : (VX * NX + VY * NY) * (VX * NX + VY * NY)
               <= (VX * VX + VY * VY) * (NX * NX + NY * NY)).
  { pose proof (Rle_0_sqr (VX * NY - VY * NX)) as Hc. unfold Rsqr in Hc.
    replace ((VX * VX + VY * VY) * (NX * NX + NY * NY))
      with ((VX * NX + VY * NY) * (VX * NX + VY * NY)
            + (VX * NY - VY * NX) * (VX * NY - VY * NX)) by ring.
    lra. }
  assert (0 <= VX * VX + VY * VY).
  { pose proof (Rle_0_sqr VX). pose proof (Rle_0_sqr VY). unfold Rsqr in *. lra. }
  assert (0 <= NX * NX + NY * NY).
  { pose proof (Rle_0_sqr NX). pose proof (Rle_0_sqr NY). unfold Rsqr in *. lra. }
  assert ((VX * VX + VY * VY) * (NX * NX + NY * NY) <= 401 * (1 + / 10000))
    by (apply Rmult_le_compat; lra).
  lra.
Qed.

End RealBounds.

Section StrikeSpeed.
Import Binary32.
Local Open Scope R_scope.

Implicit Types (s : State float32) (inp : Input float32) (x y : float32).

Lemma in_range_of_error (r : float32) (v d B T : R) :
  is_finite r = true -> Rabs (to_R r - v) <= d -> Rabs v <= B -> B + d <= T ->
  in_range T r.
Proof.
  intros F E Hv HT. split; [exact F|].
  replace (to_R r) with ((to_R r - v) + v) by ring.
  eapply Rle_trans; [apply Rabs_triang|]. lra.
Qed.

Lemma mul_le x y (Bx By T : R) :
  in_range Bx x -> in_range By y -> Bx * By <= 100000 ->
  Bx * By + (Bx * By + 1) / 500000 <= T ->
  in_range T (SFmul prec emax x y).
Proof.
  intros [Fx Hx] [Fy Hy] HB HT.
  destruct (mul_in_range x y Bx By Fx Fy Hx Hy HB) as (F & E & _).
  apply (in_range_of_error _ _ _ (Bx * By) _ F E); [|exact HT].
  rewrite Rabs_mult. apply Rmult_le_compat; try apply Rabs_pos; assumption.
Qed.

Lemma add_le x y (Bx By V T : R) :
  in_range Bx x -> in_range By y -> Bx + By <= 100000 ->
  Rabs (to_R x + to_R y) <= V -> V + (Bx + By + 1) / 500000 <= T ->
  in_range T (SFadd prec emax x y).
Proof.
  intros [Fx Hx] [Fy Hy] HB HV HT.
  destruct (add_in_range x y Bx By Fx Fy Hx Hy HB) as (F & E & _).
  apply (in_range_of_error _ _ _ V _ F E HV HT).
Qed.

Lemma sub_le x y (Bx By T : R) :
  in_range Bx x -> in_range By y -> Bx + By <= 100000 ->
  Bx + By + (Bx + By + 1) / 500000 <= T ->
  in_range T (SFsub prec emax x y).
Proof.
  intros [Fx Hx] [Fy Hy] HB HT.
  destruct (sub_in_range x y Bx By Fx Fy Hx Hy HB) as (F & E & _).
  apply (in_range_of_error _ _ _ (Bx + By) _ F E); [|exact HT].
  unfold Rminus. eapply Rle_trans; [apply Rabs_triang|]. rewrite Rabs_Ropp. lra.
Qed.

Lemma eta_tiny : 0 < eta <= / 1000000000000.
Proof.
  pose proof eta_small as [H0 H1]. pose proof eps_small as [E0 E1].
  split; [exact H0|].
  assert (E2 : eps * eps <= / 1000000 * / 1000000) by (apply Rmult_le_compat; lra).
  assert (E20 : 0 <= eps * eps) by nra.
  assert (E4 : eps * eps * (eps * eps) <= / 1000000 * / 1000000 * (/ 1000000 * / 1000000))
    by (apply Rmult_le_compat; lra).
  replace (eps * eps * eps * eps) with (eps * eps * (eps * eps)) in H1 by ring.
  lra.
Qed.

(** The direction [(x / d, y / d)] of a vector of computed length
    [d >= 0.1] is a unit vector up to one part in 10^4. *)
Lemma unit_normal_tight (px py d : float32) :
  is_finite px = true -> is_finite py = true ->
  nonneg_fin d -> / 10 <= to_R d ->
  to_R px * to_R px + to_R py * to_R py
  <= (to_R d * (1 + eps) + eta) * (to_R d * (1 + eps) + eta) * ((1 + eps) * (1 + eps))
     + 4 * eta ->
  let nx := SFdiv prec emax px d in
  let ny := SFdiv prec emax py d in
  is_finite nx = true /\ is_finite ny = true /\
  to_R nx * to_R nx + to_R ny * to_R ny <= 1 + / 10000.
Proof.
  intros Fx Fy [->|(m & e & ->)] HD H nx ny.
  { cbn [to_R] in HD. lra. }
  set (D := to_R (S754_finite false m e)) in *.
  pose proof (quotients_real _ _ D eps eta eps_small eta_tiny HD H) as Hq.
  pose proof (div_fin px false m e Fx) as Ax. pose proof (div_fin py false m e Fy) as Ay.
  fold D in Ax, Ay. fold nx in Ax. fold ny in Ay.
  destruct (approx_err nx _ 2 Ax (quotient_small _ _ Hq) ltac:(lra)) as (Fnx & Ex & _).
  rewrite Rplus_comm in Hq.
  destruct (approx_err ny _ 2 Ay (quotient_small _ _ Hq) ltac:(lra)) as (Fny & Ey & _).
  rewrite Rplus_comm in Hq.
  split; [exact Fnx|]. split; [exact Fny|].
  apply (unit_normal_real (to_R px / D) (to_R py / D)); [exact Hq | |];
    (eapply Rle_trans; [eassumption|lra]).
Qed.

(** One component of [(v - 2 * dot * n) * 0.5f]. *)
Lemma reflected_tight (v n dot : float32) :
  in_range (2003 / 100) v -> in_range (1 + / 10000) n -> in_range (2004 / 100) dot ->
  in_range 31
    (SFmul prec emax
       (SFsub prec emax v (SFmul prec emax (SFmul prec emax (of_int 2) dot) n))
       (lit 5 10)).
Proof.
  intros Hv Hn Hd.
  assert (H2 : in_range 2 (of_int 2)).
  { split; [reflexivity|]. rewrite two_value, Rabs_pos_eq; lra. }
  assert (Hh : in_range (/ 2) (lit 5 10)).
  { split; [reflexivity|]. rewrite half_value, Rabs_pos_eq; lra. }
  pose proof (mul_le _ _ 2 (2004 / 100) (4009 / 100) H2 Hd ltac:(lra) ltac:(lra)) as Ht.
  pose proof (mul_le _ _ (4009 / 100) (1 + / 10000) (401 / 10) Ht Hn ltac:(lra) ltac:(lra))
    as Hu.
  pose proof (sub_le _ _ (2003 / 100) (401 / 10) (6014 / 100) Hv Hu ltac:(lra) ltac:(lra))
    as Hw.
  apply (mul_le _ _ (6014 / 100) (/ 2)); [exact Hw | exact Hh | lra | lra].
Qed.

(** The scalar product [vx * nx + vy * ny]. *)
Lemma dot_tight (vx vy nx ny : float32) :
  is_finite vx = true -> is_finite vy = true ->
  is_finite nx = true -> is_finite ny = true ->
  to_R vx * to_R vx + to_R vy * to_R vy <= 401 ->
  to_R nx * to_R nx + to_R ny * to_R ny <= 1 + / 10000 ->
  in_range (2003 / 100) vx /\ in_range (2003 / 100) vy /\
  in_range (1 + / 10000) nx /\ in_range (1 + / 10000) ny /\
  in_range (2004 / 100)
    (SFadd prec emax (SFmul prec emax vx nx) (SFmul prec emax vy ny)).
Proof.
  intros Fvx Fvy Fnx Fny HV HN.
  pose proof (Rle_0_sqr (to_R vx)) as Sx. pose proof (Rle_0_sqr (to_R vy)) as Sy.
  pose proof (Rle_0_sqr (to_R nx)) as Tx. pose proof (Rle_0_sqr (to_R ny)) as Ty.
  unfold Rsqr in *.
  assert (Hvx : in_range (2003 / 100) vx) by (split; [exact Fvx | apply abs_le_of_sq; lra]).
  assert (Hvy : in_range (2003 / 100) vy) by (split; [exact Fvy | apply abs_le_of_sq; lra]).
  assert (Hnx : in_range (1 + / 10000) nx) by (split; [exact Fnx | apply abs_le_of_sq; lra]).
  assert (Hny : in_range (1 + / 10000) ny) by (split; [exact Fny | apply abs_le_of_sq; lra]).
  repeat (split; [assumption|]).
  destruct Hvx as [_ Bvx], Hvy as [_ Bvy], Hnx as [_ Bnx], Hny as [_ Bny].
  destruct (mul_in_range vx nx _ _ Fvx Fnx Bvx Bnx ltac:(lra)) as (Fa & Ea & Ba).
  destruct (mul_in_range vy ny _ _ Fvy Fny Bvy Bny ltac:(lra)) as (Fb & Eb & Bb).
  pose proof (dot_real _ _ _ _ HV HN) as Hdot.
  set (a := SFmul prec emax vx nx) in *. set (b := SFmul prec emax vy ny) in *.
  apply (add_le a b _ _ (2003 / 100 + 1 / 10000) _ (conj Fa Ba) (conj Fb Bb)); [lra| |lra].
  replace (to_R a + to_R b)
    with ((to_R a - to_R vx * to_R nx) + (to_R b - to_R vy * to_R ny)
          + (to_R vx * to_R nx + to_R vy * to_R ny)) by ring.
  eapply Rle_trans; [apply Rabs_triang|].
  eapply Rle_trans; [apply Rplus_le_compat_r, Rabs_triang|]. lra.
Qed.

End StrikeSpeed.

(** * The velocity that reaches the rods *)

Section StrikeCast.
Import Binary32.
Local Open Scope R_scope.

Implicit Types (s : State float32) (inp : Input float32) (x y : float32).

(** ** The velocity after the wall *)

Lemma magnitude_components (x y : float32) (T : R) :
  is_finite x = true -> is_finite y = true -> magnitude x y <= T ->
  in_range T x /\ in_range T y.
Proof.
  intros Fx Fy Hm.
  pose proof (coordinate_le_magnitude x y) as Cx.
  pose proof (coordinate_le_magnitude y x) as Cy.
  rewrite (magnitude_comm y) in Cy.
  split; (split; [assumption | lra]).
Qed.

Lemma wall_velocity_tight (p v : float32 * float32) :
  in_range 86 (fst p) -> in_range 86 (snd p) ->
  is_finite (fst v) = true -> is_finite (snd v) = true ->
  magnitude (fst v) (snd v) <= 20 * (1 + / 1048576) ->
  let v' := snd (constrain_to_tube p v) in
  in_range 31 (fst v') /\ in_range 31 (snd v').
Proof.
  intros Hpx Hpy Fvx Fvy Hm. rewrite constrain_velocity. cbv zeta.
  destruct (SFltb max_dist (norm32 (fst p) (snd p))) eqn:Hlt.
  - pose proof (norm32_finite _ _ 86 Hpx Hpy ltac:(lra) ltac:(lra)) as Fd.
    destruct (norm32_cases (fst p) (snd p) (proj1 Hpx) (proj1 Hpy)) as [E|(Nd & Vd & Hd)].
    { rewrite E in Fd. discriminate Fd. }
    destruct (beyond_max_dist _ Nd Vd Hlt) as (m & e & Ed & HD).
    set (d := norm32 (fst p) (snd p)) in *.
    destruct (unit_normal_tight (fst p) (snd p) d (proj1 Hpx) (proj1 Hpy) Nd ltac:(lra) Hd)
      as (Fnx & Fny & HN).
    assert (HV : to_R (fst v) * to_R (fst v) + to_R (snd v) * to_R (snd v) <= 401).
    { rewrite <- magnitude_sq. pose proof (sqrt_pos (to_R (fst v) * to_R (fst v)
                                                     + to_R (snd v) * to_R (snd v))) as H0.
      fold (magnitude (fst v) (snd v)) in H0.
      set (mg := magnitude (fst v) (snd v)) in *. clearbody mg.
      assert (mg * mg <= 20 * (1 + / 1048576) * (20 * (1 + / 1048576)))
        by (apply Rmult_le_compat; lra).
      lra. }
    destruct (dot_tight _ _ _ _ Fvx Fvy Fnx Fny HV HN) as (Hvx & Hvy & Hnx & Hny & Hdot).
    cbn [fst snd]. split; apply reflected_tight; assumption.
  - destruct (magnitude_components _ _ _ Fvx Fvy Hm) as [Hx Hy].
    split; eapply in_range_weaken; try eassumption; lra.
Qed.

Lemma physics_step_calm inp s : input_ok inp -> safe s -> calm (physics_step inp s).
Proof.
  intros Hi Hs. split; [apply physics_step_safe; assumption|].
  destruct Hi as (Hax & Hay & _). pose proof (safe_position s Hs) as [Hx Hy].
  destruct Hs as (Hcx & Hcy & _ & _ & _ & Hvx & Hvy & Ht).
  destruct (integrate_safe inp s Hax Hay Hcx Hcy
              (in_range_weaken _ 64 _ Hx ltac:(lra)) (in_range_weaken _ 64 _ Hy ltac:(lra))
              Hvx Hvy) as ((Fvx & Fvy & Hm) & Hpx & Hpy).
  destruct (physics_step_ball inp s) as (_ & _ & Evx & Evy).
  cbv zeta in Evx, Evy. rewrite Evx, Evy.
  apply wall_velocity_tight; assumption.
Qed.

(** ** The velocity after a bounce off a rod *)

Lemma bounce_tight (qx qy d : float32) :
  is_finite qx = true -> is_finite qy = true ->
  nonneg_fin d -> valid d -> SFltb (lit 1 10) d = true ->
  to_R qx * to_R qx + to_R qy * to_R qy
  <= (to_R d * (1 + eps) + eta) * (to_R d * (1 + eps) + eta) * ((1 + eps) * (1 + eps))
     + 4 * eta ->
  in_range 31 (SFmul prec emax (SFdiv prec emax qx d) ROD_BOUNCE) /\
  in_range 31 (SFmul prec emax (SFdiv prec emax qy d) ROD_BOUNCE).
Proof.
  intros Fx Fy Nd Vd Hlt Hd.
  assert (HD : / 10 <= to_R d).
  { destruct Nd as [->|(m & e & ->)]; [discriminate Hlt|].
    pose proof tenth_value as Ht. rewrite to_R_pos.
    change (lit 1 10) with (S754_finite false 13421773 (-27)) in *.
    rewrite to_R_pos in Ht.
    pose proof (proj1 (SFltb_pos 13421773 (-27) m e ltac:(reflexivity) Vd) Hlt). lra. }
  destruct (unit_normal_tight qx qy d Fx Fy Nd HD Hd) as (Fnx & Fny & HN).
  pose proof (Rle_0_sqr (to_R (SFdiv prec emax qx d))) as Tx.
  pose proof (Rle_0_sqr (to_R (SFdiv prec emax qy d))) as Ty.
  unfold Rsqr in *.
  assert (H2 : in_range 2 (@ROD_BOUNCE spec_float arith)).
  { split; [reflexivity|]. change (@ROD_BOUNCE spec_float arith) with (of_int 2).
    rewrite two_value, Rabs_pos_eq; lra. }
  split; apply (mul_le _ _ (1 + / 10000) 2); try exact H2; try lra;
    (split; [assumption | apply abs_le_of_sq; lra]).
Qed.

Lemma rod_bounce_calm (i : nat) s : (i < NUM_RODS)%nat -> calm s -> calm (rod_bounce i s).
Proof.
  intros Hi [Hs [Hvx Hvy]]. split; [apply rod_bounce_safe; assumption|].
  pose proof (safe_position s Hs) as [[Fx Bx] [Fy By]].
  destruct Hs as (_ & _ & _ & _ & _ & _ & _ & Ht).
  destruct (Ht i Hi) as [[Frx Brx] [Fry Bry]].
  unfold rod_bounce. cbv zeta.
  destruct (flt (float_lit 1 10) (rod_dist s i)) eqn:G; [|split; assumption].
  destruct (sub_in_range (ball_x s) (rod_fx s !!! i) 52 64 Fx Frx Bx Brx ltac:(lra))
    as (Fdx & _ & Bdx).
  destruct (sub_in_range (ball_y s) (rod_fy s !!! i) 52 64 Fy Fry By Bry ltac:(lra))
    as (Fdy & _ & Bdy).
  assert (Hdx : in_range 129 (rod_dx s i)).
  { split; [exact Fdx|]. eapply Rle_trans; [exact Bdx | lra]. }
  assert (Hdy : in_range 129 (rod_dy s i)).
  { split; [exact Fdy|]. eapply Rle_trans; [exact Bdy | lra]. }
  pose proof (norm32_finite _ _ 129 Hdx Hdy ltac:(lra) ltac:(lra)) as Fd.
  destruct (norm32_cases _ _ (proj1 Hdx) (proj1 Hdy)) as [E|(Nd & Vd & Hd)];
    [rewrite E in Fd; discriminate Fd|].
  change (rod_dist s i) with (norm32 (rod_dx s i) (rod_dy s i)) in *.
  change (SFltb (lit 1 10) (norm32 (rod_dx s i) (rod_dy s i)) = true) in G.
  exact (bounce_tight _ _ _ (proj1 Hdx) (proj1 Hdy) Nd Vd G Hd).
Qed.

Lemma rod_step_calm (t : Z) (i : nat) s out :
  (i < NUM_RODS)%nat -> calm s -> calm (fst (rod_step t (s, out) i)).
Proof.
  intros Hi Hs. unfold rod_step. destruct (rod_fires t s i); [|exact Hs].
  cbn [fst]. apply rod_bounce_calm; [exact Hi|]. exact Hs.
Qed.

Lemma fold_rods_calm (t : Z) (l : list nat) : forall s out,
  Forall (fun i => (i < NUM_RODS)%nat) l -> calm s ->
  calm (fst (fold_left (rod_step t) l (s, out))).
Proof.
  induction l as [|a l IH]; intros s out Hl Hs; cbn [fold_left]; [exact Hs|].
  inversion Hl as [|? ? Ha Hl']; subst.
  pose proof (rod_step_calm t a s out Ha Hs) as H1.
  destruct (rod_step t (s, out) a) as [s1 out1]. apply IH; assumption.
Qed.

End StrikeCast.

(** * The velocity of a note, in binary32 *)

Section StrikeVelocity.
Import Binary32.
Local Open Scope R_scope.

Implicit Types (s : State float32) (inp : Input float32) (x y : float32).

(** ** The speed *)

Lemma sqrt_le_of_sq (c T : R) : 0 <= T -> c <= T * T -> sqrt c <= T.
Proof.
  intros HT H. rewrite <- (sqrt_square T HT). apply sqrt_le_1_alt. exact H.
Qed.

Lemma speed_le (vx vy : float32) :
  in_range 31 vx -> in_range 31 vy ->
  nonneg_fin (norm32 vx vy) /\ to_R (norm32 vx vy) <= 44.
Proof.
  intros Hx Hy.
  pose proof (mul_le vx vx 31 31 (96101 / 100) Hx Hx ltac:(lra) ltac:(lra)) as Ha.
  pose proof (mul_le vy vy 31 31 (96101 / 100) Hy Hy ltac:(lra) ltac:(lra)) as Hb.
  destruct (square_cases vx (proj1 Hx)) as [Ea|[Na _]];
    [exfalso; revert Ea; apply nonneg_fin_not_infinity, Ha|].
  destruct (square_cases vy (proj1 Hy)) as [Eb|[Nb _]];
    [exfalso; revert Eb; apply nonneg_fin_not_infinity, Hb|].
  fold (fmul32 vx vx) in Ha. fold (fmul32 vy vy) in Hb.
  set (a := fmul32 vx vx) in *. set (b := fmul32 vy vy) in *.
  assert (Hc : in_range (192203 / 100) (SFadd prec emax a b)).
  { apply (add_le a b _ _ (192202 / 100) _ Ha Hb); [lra| |lra].
    destruct Ha as [_ Ba], Hb as [_ Bb].
    eapply Rle_trans; [apply Rabs_triang|]. lra. }
  destruct (add_cases a b Na Nb) as [Ec|[Nc _]];
    [exfalso; revert Ec; apply nonneg_fin_not_infinity, Hc|].
  fold (fadd32 a b) in Hc. set (c := fadd32 a b) in *.
  unfold norm32. fold a b c. destruct Hc as [_ Bc].
  destruct Nc as [Ec|(m & e & Ec)]; rewrite Ec in *.
  { split; [left; reflexivity|]. cbn. lra. }
  destruct (sqrt_spec m e) as (Hs & Hsg & _). cbv zeta in Hs, Hsg.
  assert (HC0 : 0 <= to_R (S754_finite false m e)).
  { apply nonneg_fin_to_R. right. eauto. }
  rewrite Rabs_pos_eq in Bc by exact HC0.
  assert (Hsq : sqrt (to_R (S754_finite false m e)) <= 4385 / 100)
    by (apply sqrt_le_of_sq; lra).
  pose proof (sqrt_pos (to_R (S754_finite false m e))) as Hs0.
  destruct (approx_err _ _ 44 Hs ltac:(rewrite Rabs_pos_eq; lra) ltac:(lra)) as (Fd & Ed & _).
  unfold fsqrt32.
  set (d := SFsqrt prec emax (S754_finite false m e)) in *.
  split.
  - destruct d as [sd|sd| |sd md ed]; try discriminate Fd; cbn [sign_is] in Hsg; subst sd;
      [left; reflexivity | right; eauto].
  - apply Rabs_le_both in Ed. lra.
Qed.

(** ** The cast *)

(** The integer part of a positive number. *)
Lemma trunc_floor (m : positive) (e : Z) :
  exists z : Z, trunc (S754_finite false m e) = Some z /\
    IZR z <= to_R (S754_finite false m e) < IZR z + 1.
Proof.
  cbn [trunc]. rewrite to_R_pos.
  assert (Hm : 0 < IZR (Z.pos m)) by (apply IZR_lt; lia).
  destruct e as [|p|p].
  - exists (Z.pos m). rewrite Z.shiftl_0_r. split; [reflexivity|].
    change (bpow 0) with 1. lra.
  - exists (Z.shiftl (Z.pos m) (Z.pos p)). split; [reflexivity|].
    rewrite Z.shiftl_mul_pow2 by lia. rewrite mult_IZR, <- bpow_IZR by lia. lra.
  - exists (Z.shiftr (Z.pos m) (Z.pos p)). split; [reflexivity|].
    rewrite Z.shiftr_div_pow2 by lia.
    pose proof (bpow_opp_l (Z.pos p) ltac:(lia)) as Hb.
    change (- Z.pos p)%Z with (Z.neg p) in Hb.
    assert (Hp : (0 < 2 ^ Z.pos p)%Z) by (apply Z.pow_pos_nonneg; lia).
    pose proof (Z.mul_div_le (Z.pos m) (2 ^ Z.pos p) Hp) as Hle.
    pose proof (Z.mul_succ_div_gt (Z.pos m) (2 ^ Z.pos p) Hp) as Hgt.
    apply IZR_le in Hle. rewrite mult_IZR in Hle.
    apply IZR_lt in Hgt. rewrite mult_IZR, succ_IZR in Hgt.
    apply IZR_lt in Hp.
    set (q := IZR (Z.pos m / 2 ^ Z.pos p)) in *.
    set (P := IZR (2 ^ Z.pos p)) in *.
    set (B := bpow (Z.neg p)) in *.
    assert (HB : 0 < B) by apply bpow_pos.
    set (M := IZR (Z.pos m)) in *. clearbody q P B M.
    split.
    + replace q with (B * (P * q)) by (rewrite <- Rmult_assoc, Hb; ring).
      replace (M * B) with (B * M) by ring. apply Rmult_le_compat_l; lra.
    + replace (q + 1) with (B * (P * (q + 1))) by (rewrite <- Rmult_assoc, Hb; ring).
      replace (M * B) with (B * M) by ring. apply Rmult_lt_compat_l; lra.
Qed.

Lemma thirty_binary32 : of_int 30 = S754_finite false 15728640 (-19).
Proof. reflexivity. Qed.

Lemma thirty_value : to_R (of_int 30) = 30.
Proof. rewrite thirty_binary32. apply (to_R_scaled 30 19); [lia|reflexivity]. Qed.

Lemma five_value : to_R (of_int 5) = 5.
Proof.
  change (of_int 5) with (S754_finite false 10485760 (-21)).
  apply (to_R_scaled 5 21); [lia|reflexivity].
Qed.

(** [30 + speed * 5] for a speed of at most 44: a number whose integer
    part lies between 30 and 250. *)
Lemma cast_operand (hs : float32) :
  nonneg_fin hs -> to_R hs <= 44 ->
  exists z : Z,
    trunc (SFadd prec emax (of_int 30) (SFmul prec emax hs (of_int 5))) = Some z /\
    (30 <= z <= 250)%Z.
Proof.
  intros Nh Hh.
  assert (Hrest : trunc (SFadd prec emax (of_int 30) (S754_zero false)) = Some 30%Z)
    by reflexivity.
  destruct Nh as [->|(m & e & ->)].
  { exists 30%Z. split; [exact Hrest | lia]. }
  set (h := S754_finite false m e) in *.
  assert (H0 : 0 <= to_R h) by (apply nonneg_fin_to_R; right; unfold h; eauto).
  assert (Hh' : in_range 44 h) by (split; [reflexivity | rewrite Rabs_pos_eq; lra]).
  assert (H5 : in_range 5 (of_int 5)).
  { split; [reflexivity|]. rewrite five_value, Rabs_pos_eq; lra. }
  pose proof (mul_le h (of_int 5) 44 5 (22001 / 100) Hh' H5 ltac:(lra) ltac:(lra)) as [Fy By].
  destruct (mul_spec false m e false 10485760 (-21)) as [_ Hsg]. cbv zeta in Hsg.
  change (S754_finite false 10485760 (-21)) with (of_int 5) in Hsg. fold h in Hsg.
  set (y := SFmul prec emax h (of_int 5)) in *.
  destruct y as [sy|sy| |sy my ey] eqn:Ey; try discriminate Fy;
    cbn [sign_is xorb] in Hsg; subst sy.
  { exists 30%Z. split; [exact Hrest | lia]. }
  assert (H30 : in_range 30 (of_int 30)).
  { split; [reflexivity|]. rewrite thirty_value, Rabs_pos_eq; lra. }
  assert (Hy0 : 0 <= to_R (S754_finite false my ey))
    by (apply nonneg_fin_to_R; right; eauto).
  assert (Hr : in_range (25002 / 100) (SFadd prec emax (of_int 30) (S754_finite false my ey))).
  { apply (add_le _ _ 30 (22001 / 100) (25001 / 100) _ H30 (conj Fy By)); [lra| |lra].
    rewrite thirty_value. rewrite Rabs_pos_eq in By by exact Hy0.
    rewrite Rabs_pos_eq; lra. }
  pose proof (add_pos_lower 15728640 (-19) my ey ltac:(reflexivity)) as Hlow.
  destruct (add_pos_spec 15728640 (-19) my ey) as [_ Hsr]. cbv zeta in Hsr.
  rewrite <- thirty_binary32 in Hlow, Hsr.
  destruct Hr as [Fr Br].
  destruct (SFadd prec emax (of_int 30) (S754_finite false my ey)) as [sr|sr| |sr mr er];
    try discriminate Fr; [contradiction|].
  cbn [sign_is] in Hsr. subst sr.
  destruct (trunc_floor mr er) as (z & Ez & Hz1 & Hz2).
  exists z. split; [exact Ez|].
  rewrite to_R_pos in *. 
  assert (H30v : IZR (Z.pos 15728640) * bpow (-19) = 30).
  { rewrite <- to_R_pos, <- thirty_binary32. apply thirty_value. }
  rewrite H30v in Hlow.
  assert (Hr0 : 0 <= IZR (Z.pos mr) * bpow er) by lra.
  rewrite Rabs_pos_eq in Br by exact Hr0.
  split.
  - assert (H : (30 - 1 < z)%Z); [|lia]. apply lt_IZR. rewrite minus_IZR. lra.
  - assert (H : (z < 250 + 1)%Z); [|lia]. apply lt_IZR. rewrite plus_IZR. lra.
Qed.

(** ** The velocity of a note *)

Lemma note_velocity_calm s :
  calm s ->
  exists z : Z,
    float_trunc (float_of_int 30 + hit_speed s * float_of_int 5)%fl = Some z /\
    (30 <= z <= 250)%Z /\ note_velocity s = Z.min 127 z.
Proof.
  intros (_ & Hvx & Hvy).
  destruct (speed_le _ _ Hvx Hvy) as [Nh Hh].
  destruct (cast_operand _ Nh Hh) as (z & Ez & Hz).
  exists z. split; [exact Ez|]. split; [exact Hz|].
  unfold note_velocity, to_uint8. cbv zeta.
  change (float_trunc (float_of_int 30 + hit_speed s * float_of_int 5)%fl)
    with (trunc (SFadd prec emax (of_int 30)
                   (SFmul prec emax (norm32 (ball_vx s) (ball_vy s)) (of_int 5)))).
  rewrite Ez. rewrite Z.mod_small by lia.
  destruct (127 <? z)%Z eqn:E; [apply Z.ltb_lt in E | apply Z.ltb_ge in E]; lia.
Qed.

Lemma rod_step_velocities_calm (t : Z) (i : nat) s out :
  calm s -> Forall velocity_in_range out ->
  Forall velocity_in_range (snd (rod_step t (s, out) i)).
Proof.
  intros Hs Hout. rewrite rod_step_out.
  apply Forall_app; split; [exact Hout|].
  destruct (rod_fires t s i); [|constructor].
  constructor; [|constructor].
  unfold velocity_in_range, note_on; cbn [velocity].
  change (note_velocity (mark_hit t i s)) with (note_velocity s).
  destruct (note_velocity_calm s Hs) as (z & _ & Hz & ->). lia.
Qed.

Lemma fold_rods_velocities_calm (t : Z) (l : list nat) : forall s out,
  Forall (fun i => (i < NUM_RODS)%nat) l -> calm s ->
  Forall velocity_in_range out ->
  Forall velocity_in_range (snd (fold_left (rod_step t) l (s, out))).
Proof.
  induction l as [|a l IH]; intros s out Hl Hs Hout; cbn [fold_left]; [exact Hout|].
  inversion Hl as [|? ? Ha Hl']; subst.
  pose proof (rod_step_calm t a s out Ha Hs) as H1.
  pose proof (rod_step_velocities_calm t a s out Hs Hout) as H2.
  destruct (rod_step t (s, out) a) as [s1 out1]. apply IH; assumption.
Qed.

Lemma rods_below (k : nat) :
  (k <= NUM_RODS)%nat -> Forall (fun i => (i < NUM_RODS)%nat) (seq 0 k).
Proof.
  intros Hk. apply Forall_forall. intros i Hi. apply elem_of_seq in Hi. lia.
Qed.

Lemma loop_velocities_safe inp s :
  input_ok inp -> safe s -> Forall velocity_in_range (snd (loop s inp)).
Proof.
  intros Hi Hs. rewrite loop_snd.
  apply fold_rods_velocities_calm; [apply rods_below; lia | | constructor].
  apply physics_step_calm; [exact Hi|]. apply handle_buttons_safe; assumption.
Qed.

Lemma run_velocities_safe (inps : list (Input float32)) : forall s,
  Forall input_ok inps -> safe s -> Forall velocity_in_range (snd (run s inps)).
Proof.
  induction inps as [|inp inps IH]; intros s Hi Hs; [constructor|].
  inversion Hi as [|? ? H1 H2]; subst.
  rewrite run_snd_cons. apply Forall_app. split.
  - apply loop_velocities_safe; assumption.
  - apply IH; [exact H2|]. apply loop_safe; assumption.
Qed.

Lemma ticks_input_ok (t0 : Z) (n : nat) :
  Forall input_ok (ticks (lit 5 10, of_int 0) t0 n).
Proof.
  unfold ticks. apply List.Forall_map, Forall_forall. intros k _. apply tilted_input_ok.
Qed.

(** X15 -- Every note is sent with a velocity between 30 and 127
    (binary32).  When [setup()] and every call of [loop()] read finite
    accelerations of magnitude at most 64, every note-on of the run
    carries a velocity of at least 30, the base constant, and at most 127.
    In the state in which the collision pass of a call examines rod [k]
    (after the rods before it), the operand [30 + hit_speed * 5] of the
    [(uint8_t)] cast is a number whose integer part lies between 30 and
    250: the cast is in range, nothing is reduced modulo 256, and the
    velocity of a strike is the smaller of 127 and that integer part. *)
Theorem strike_velocity_in_range (imu : float32 * float32) (inps : list (Input float32)) :
  in_range 64 (fst imu) -> in_range 64 (snd imu) -> Forall input_ok inps ->
  Forall velocity_in_range (snd (run (setup cosf sinf imu) inps)) /\
  (forall inp (k : nat),
     input_ok inp -> (k <= NUM_RODS)%nat ->
     let s := fst (run (setup cosf sinf imu) inps) in
     let sk := fst (fold_left (rod_step (now inp)) (seq 0 k)
                      (physics_step inp (handle_buttons inp s), [])) in
     exists z : Z,
       float_trunc (float_of_int 30 + hit_speed sk * float_of_int 5)%fl = Some z /\
       (30 <= z <= 250)%Z /\ note_velocity sk = Z.min 127 z).
Proof.
  intros Hx Hy Hi.
  pose proof (run_safe inps _ Hi (setup_safe imu Hx Hy)) as Hs.
  split; [apply run_velocities_safe; [exact Hi | apply setup_safe; assumption]|].
  intros inp k Hinp Hk s sk. apply note_velocity_calm.
  apply fold_rods_calm; [apply rods_below, Hk|].
  apply physics_step_calm; [exact Hinp|]. apply handle_buttons_safe; assumption.
Qed.

Lemma strike_velocity_in_range_witness :
  Forall velocity_in_range
    (snd (run (setup cosf sinf (of_int 0, of_int 0)) (ticks (lit 5 10, of_int 0) 0 60))) /\
  (forall inp (k : nat),
     input_ok inp -> (k <= NUM_RODS)%nat ->
     let s := fst (run (setup cosf sinf (of_int 0, of_int 0))
                     (ticks (lit 5 10, of_int 0) 0 60)) in
     let sk := fst (fold_left (rod_step (now inp)) (seq 0 k)
                      (physics_step inp (handle_buttons inp s), [])) in
     exists z : Z,
       float_trunc (float_of_int 30 + hit_speed sk * float_of_int 5)%fl = Some z /\
       (30 <= z <= 250)%Z /\ note_velocity sk = Z.min 127 z).
Proof.
  apply (strike_velocity_in_range (of_int 0, of_int 0) (ticks (lit 5 10, of_int 0) 0 60)).
  - apply zero_in_range; lra.
  - apply zero_in_range; lra.
  - apply ticks_input_ok.
Defined.

End StrikeVelocity.

(** * The silent core, in binary32 *)

Section SilentCore32.
Import Binary32.
Local Open Scope R_scope.

Implicit Types (s : State float32) (inp : Input float32).

(** Every rod of the table lies at least 54.9 from the centre. *)
Lemma table_orbit_check :
  forallb (fun i =>
    (3015 * 2 ^ 128 <=? scaled64 (rod_x i) * scaled64 (rod_x i)
                        + scaled64 (rod_y i) * scaled64 (rod_y i))%Z)
    (seq 0 NUM_RODS) = true.
Proof. vm_compute. reflexivity. Qed.

Lemma table_orbit (i : nat) :
  (i < NUM_RODS)%nat ->
  3015 <= to_R (rod_x i) * to_R (rod_x i) + to_R (rod_y i) * to_R (rod_y i).
Proof.
  intros Hi. pose proof table_orbit_check as T. rewrite forallb_forall in T.
  specialize (T i ltac:(apply in_seq; lia)). apply Z.leb_le, IZR_le in T.
  destruct (table_fine i) as [Fx Fy].
  rewrite (to_R_scaled64 _ Fx), (to_R_scaled64 _ Fy).
  set (a := scaled64 (rod_x i)) in *. set (c := scaled64 (rod_y i)) in *.
  rewrite plus_IZR, !mult_IZR in T.
  pose proof unit_64 as U. pose proof (bpow_pos (-64)) as Hb.
  set (beta := bpow (-64)) in *. set (P := IZR (2 ^ 128)) in *.
  replace (IZR a * beta * (IZR a * beta) + IZR c * beta * (IZR c * beta))
    with (beta * beta * (IZR a * IZR a + IZR c * IZR c)) by ring.
  replace 3015 with (beta * beta * (3015 * P))
    by (rewrite <- Rmult_assoc, (Rmult_comm _ 3015), Rmult_assoc, U; ring).
  apply Rmult_le_compat_l; [nra | exact T].
Qed.

(** A point within 25 of a point that is 54.9 from the origin is more than
    29 from the origin. *)
Lemma reach_real (X Y rx ry : R) :
  3015 <= rx * rx + ry * ry ->
  (X - rx) * (X - rx) + (Y - ry) * (Y - ry) <= 25 * 25 ->
  29 < sqrt (X * X + Y * Y).
Proof.
  intros Hr Hd.
  pose proof (norm2_triangle X Y (rx - X) (ry - Y)) as T. rewrite !norm2_eq in T.
  replace (X + (rx - X)) with rx in T by ring.
  replace (Y + (ry - Y)) with ry in T by ring.
  assert (H1 : 549 / 10 <= sqrt (rx * rx + ry * ry)).
  { rewrite <- (sqrt_square (549 / 10)) by lra. apply sqrt_le_1_alt. lra. }
  assert (H2 : sqrt ((rx - X) * (rx - X) + (ry - Y) * (ry - Y)) <= 25).
  { rewrite <- (sqrt_square 25) by lra. apply sqrt_le_1_alt.
    replace ((rx - X) * (rx - X) + (ry - Y) * (ry - Y))
      with ((X - rx) * (X - rx) + (Y - ry) * (Y - ry)) by ring.
    exact Hd. }
  lra.
Qed.

Lemma core_idle_binary32 s (t : Z) (i : nat) :
  rod_fx s = rod_fx boot -> rod_fy s = rod_fy boot ->
  magnitude (ball_x s) (ball_y s) <= 29 ->
  (i < NUM_RODS)%nat -> rod_fires t s i = false.
Proof.
  intros Hfx Hfy Hc Hi.
  destruct (rod_fires t s i) eqn:Hf; [exfalso|reflexivity].
  unfold rod_fires in Hf. apply andb_true_iff in Hf as [Hf _].
  unfold rod_dist, rod_dx, rod_dy in Hf. rewrite Hfx, Hfy in Hf.
  fold (rod_x i) (rod_y i) in Hf.
  apply near_of_hit in Hf as [_ Hf].
  pose proof (reach_real _ _ _ _ (table_orbit i Hi) Hf) as H.
  unfold magnitude in Hc. lra.
Qed.

(** X16 -- The core of the tube is silent (binary32).  At every point of
    a run that started with [setup()], a call of [loop()] whose physics
    leaves the ball within 29 of the centre strikes no rod: it plays no
    note and its collision pass leaves the velocity alone.  Every rod of
    the computed table lies more than 54.9 from the centre, and a rod
    that passes the distance test has the ball less than 25 away.  (A
    position that is infinite or NaN counts as the centre here; it strikes
    no rod either.) *)
Theorem silent_core_binary32 (imu : float32 * float32) (inps : list (Input float32)) inp :
  let s := fst (run (setup cosf sinf imu) inps) in
  let e := physics_step inp (handle_buttons inp s) in
  magnitude (ball_x e) (ball_y e) <= 29 ->
  snd (loop s inp) = [] /\
  ball_vx (fst (loop s inp)) = ball_vx e /\
  ball_vy (fst (loop s inp)) = ball_vy e /\
  (forall i, (i < NUM_RODS)%nat -> rod_fires (now inp) e i = false).
Proof.
  intros s e Hc.
  destruct (reached_table imu inps inp) as [Hfx Hfy]. fold s e in Hfx, Hfy.
  assert (Hidle : check_rods (now inp) e = (e, [])).
  { apply check_rods_idle. intros i Hi. apply (core_idle_binary32 e _ i Hfx Hfy Hc Hi). }
  rewrite loop_snd, loop_fst. fold s e. rewrite Hidle. cbn [fst snd].
  split; [reflexivity|]. split; [reflexivity|]. split; [reflexivity|].
  intros i Hi. apply (core_idle_binary32 e _ i Hfx Hfy Hc Hi).
Qed.

Lemma silent_core_binary32_witness :
  let inp := tick (of_int 0, of_int 0) 20 in
  let e := physics_step inp (handle_buttons inp (setup cosf sinf (of_int 0, of_int 0))) in
  magnitude (ball_x e) (ball_y e) <= 29 /\
  snd (loop (setup cosf sinf (of_int 0, of_int 0)) inp) = [].
Proof.
  cbv zeta.
  assert (H : magnitude
                (ball_x (physics_step (tick (of_int 0, of_int 0) 20)
                           (handle_buttons (tick (of_int 0, of_int 0) 20)
                              (setup cosf sinf (of_int 0, of_int 0)))))
                (ball_y (physics_step (tick (of_int 0, of_int 0) 20)
                           (handle_buttons (tick (of_int 0, of_int 0) 20)
                              (setup cosf sinf (of_int 0, of_int 0)))))
              <= 29).
  { change (magnitude (of_int 0) (of_int 0) <= 29). rewrite magnitude_zero. lra. }
  split; [exact H|].
  exact (proj1 (silent_core_binary32 (of_int 0, of_int 0) [] (tick (of_int 0, of_int 0) 20) H)).
Defined.

End SilentCore32.

(** * The computed speed and the exact one *)

Section Closeness.
Import Binary32.
Local Open Scope R_scope.

Implicit Types (x y : float32).

(** Square roots of two numbers that are close in ratio are close. *)
Lemma sqrt_close (q S k t : R) :
  0 <= q -> 0 <= S -> 0 <= k <= / 2 -> 0 <= t ->
  Rabs (q * q - S * S) <= k * (q * q) + t * t ->
  Rabs (q - S) <= k * q + t.
Proof.
  intros Hq HS [Hk0 Hk1] Ht H. apply Rabs_le_both in H. destruct H as [H1 H2].
  assert (Hqq : 0 <= q * q) by (apply Rmult_le_pos; assumption).
  assert (Hkq : 0 <= k * q) by (apply Rmult_le_pos; assumption).
  assert (Hkqq : 0 <= k * (q * q)) by (apply Rmult_le_pos; assumption).
  apply Rabs_le. split.
  - destruct (Rle_dec S (q + k * q + t)) as [|N]; [lra|exfalso].
    assert (Hlt : q + k * q + t < S) by lra.
    assert (Hsq : (q + k * q + t) * (q + k * q + t) < S * S)
      by (apply Rmult_le_0_lt_compat; lra).
    assert (Hex : q * q + k * (q * q) + t * t <= (q + k * q + t) * (q + k * q + t)).
    { replace ((q + k * q + t) * (q + k * q + t))
        with (q * q + k * (q * q) + t * t
              + (k * (q * q) + k * q * (k * q) + 2 * (q * t) + 2 * (k * q * t))) by ring.
      assert (0 <= k * q * (k * q)) by (apply Rmult_le_pos; assumption).
      assert (0 <= q * t) by (apply Rmult_le_pos; assumption).
      assert (0 <= k * q * t) by (apply Rmult_le_pos; assumption).
      lra. }
    lra.
  - destruct (Rle_dec (q - k * q) (S + t)) as [|N]; [lra|exfalso].
    assert (Hlt : S + t < q - k * q) by lra.
    assert (Hsq : (S + t) * (S + t) < (q - k * q) * (q - k * q))
      by (apply Rmult_le_0_lt_compat; lra).
    assert (Hst : 0 <= S * t) by (apply Rmult_le_pos; assumption).
    assert (Hex : (q - k * q) * (q - k * q) <= q * q - k * (q * q)).
    { replace ((q - k * q) * (q - k * q))
        with (q * q - k * (q * q) - (k * (q * q) - k * k * (q * q))) by ring.
      assert (k * k * (q * q) <= k * (q * q)).
      { replace (k * k * (q * q)) with (k * (k * (q * q))) by ring.
        replace (k * (q * q)) with (1 * (k * (q * q))) at 2 by ring.
        apply Rmult_le_compat_r; lra. }
      lra. }
    replace ((S + t) * (S + t)) with (S * S + t * t + 2 * (S * t)) in Hsq by ring.
    lra.
Qed.

Lemma eta_minute : 0 < eta <= / 1000000000000000000000000.
Proof.
  pose proof eta_pos as H0. pose proof eta_le as H1. rewrite eps_val in H1.
  split; [exact H0|]. lra.
Qed.

(** The error of [a + b] computed from squares. *)
Lemma sum_of_squares_real (A B C XX YY e t : R) :
  0 <= e <= / 1000000 -> 0 <= t ->
  0 <= A -> 0 <= B -> 0 <= C ->
  Rabs (A - XX) <= e * A + t -> Rabs (B - YY) <= e * B + t ->
  Rabs (C - (A + B)) <= e * C + t ->
  Rabs (C - (XX + YY)) <= 3 * e * C + 4 * t.
Proof.
  intros [He0 He1] Ht HA HB HC H1 H2 H3.
  apply Rabs_le_both in H1, H2, H3.
  assert (Hw : 0 <= e * C) by (apply Rmult_le_pos; assumption).
  assert (Huv : e * A + e * B <= e * C + e * C + t).
  { rewrite <- Rmult_plus_distr_l.
    apply Rle_trans with (e * (C + e * C + t)); [apply Rmult_le_compat_l; lra|].
    rewrite !Rmult_plus_distr_l.
    assert (e * (e * C) <= 1 * (e * C)) by (apply Rmult_le_compat_r; lra).
    assert (e * t <= 1 * t) by (apply Rmult_le_compat_r; lra).
    lra. }
  replace (3 * e * C) with (3 * (e * C)) by ring.
  apply Rabs_le. lra.
Qed.

(** The computed length of a vector is its exact length up to five units
    in the last place. *)
Lemma norm32_close x y (B : R) :
  in_range B x -> in_range B y -> 0 <= B -> B <= 200 ->
  nonneg_fin (norm32 x y) /\ valid (norm32 x y) /\
  Rabs (to_R (norm32 x y) - magnitude x y)
  <= 5 * eps * to_R (norm32 x y) + / 1000000000.
Proof.
  intros Hx Hy HB0 HB.
  pose proof (norm32_finite x y B Hx Hy HB0 HB) as Fd.
  pose proof eps_small as [He0 He1]. pose proof eta_minute as [Ht0 Ht1].
  unfold norm32 in *.
  destruct (square_cases x (proj1 Hx)) as [Ea|[Na Ha]].
  { rewrite Ea in Fd. destruct (fmul32 y y) as [s|[]| |[] m e]; discriminate Fd. }
  destruct (square_cases y (proj1 Hy)) as [Eb|[Nb Hb]].
  { rewrite Eb in Fd. destruct (fmul32 x x) as [s|[]| |[] m e]; discriminate Fd. }
  destruct (add_cases _ _ Na Nb) as [Ec|[Nc Hc]].
  { rewrite Ec in Fd. discriminate Fd. }
  destruct (sqrt_cases _ Nc) as [Ed|(Nd & Vd & Hd)].
  { rewrite Ed in Fd. discriminate Fd. }
  split; [exact Nd|]. split; [exact Vd|].
  pose proof (nonneg_fin_to_R _ Na) as A0. pose proof (nonneg_fin_to_R _ Nb) as B0.
  pose proof (nonneg_fin_to_R _ Nc) as C0. pose proof (nonneg_fin_to_R _ Nd) as D0.
  unfold near in Ha, Hb, Hc, Hd.
  rewrite (Rabs_pos_eq _ A0) in Ha. rewrite (Rabs_pos_eq _ B0) in Hb.
  rewrite (Rabs_pos_eq _ C0) in Hc. rewrite (Rabs_pos_eq _ D0) in Hd.
  set (A := to_R (fmul32 x x)) in *. set (Bv := to_R (fmul32 y y)) in *.
  set (C := to_R (fadd32 (fmul32 x x) (fmul32 y y))) in *.
  set (D := to_R (fsqrt32 (fadd32 (fmul32 x x) (fmul32 y y)))) in *.
  pose proof (sum_of_squares_real A Bv C _ _ eps eta ltac:(lra) ltac:(lra) A0 B0 C0 Ha Hb Hc)
    as HCT.
  pose proof (sqrt_pos C) as Q0. pose proof (sqrt_sqrt C C0) as QQ.
  pose proof (sqrt_pos (to_R x * to_R x + to_R y * to_R y)) as S0.
  pose proof (magnitude_sq x y) as SS. fold (magnitude x y) in S0.
  set (q := sqrt C) in *. set (S := magnitude x y) in *.
  assert (Hqs : Rabs (q - S) <= 3 * eps * q + / 2000000000).
  { apply sqrt_close; try lra. rewrite QQ, SS.
    eapply Rle_trans; [exact HCT|]. rewrite <- QQ. 
    replace (3 * eps * (q * q)) with (3 * eps * (q * q)) by ring. lra. }
  clearbody q S A Bv C D.
  apply Rabs_le_both in Hd, Hqs.
  assert (Heq : eps * q <= eps * D + eps * (eps * D) + eps * eta).
  { rewrite <- !Rmult_plus_distr_l. apply Rmult_le_compat_l; lra. }
  assert (HeD : 0 <= eps * D) by (apply Rmult_le_pos; lra).
  assert (HeeD : eps * (eps * D) <= / 1000000 * (eps * D))
    by (apply Rmult_le_compat_r; lra).
  assert (Hee : eps * eta <= 1 * eta) by (apply Rmult_le_compat_r; lra).
  replace (5 * eps * D) with (5 * (eps * D)) by ring.
  replace (3 * eps * q) with (3 * (eps * q)) in Hqs by ring.
  apply Rabs_le. lra.
Qed.

End Closeness.

(** * The wall bounce and the rod bounce in binary32 *)

Section ReflectionReals.
Local Open Scope R_scope.

Lemma quotients_close (X Y D S e : R) :
  0 < e <= / 8000000 -> / 10 <= D -> 0 <= S -> S * S = X * X + Y * Y ->
  Rabs (D - S) <= 5 * e * D + / 1000000000 ->
  Rabs (X / D * (X / D) + Y / D * (Y / D) - 1) <= / 100000.
Proof.
  intros [He0 He1] HD HS HSS H.
  assert (HD0 : 0 < D) by lra.
  replace (X / D * (X / D) + Y / D * (Y / D)) with (S / D * (S / D))
    by (unfold Rdiv; replace (S * / D * (S * / D)) with (S * S * (/ D * / D)) by ring;
        rewrite HSS; ring).
  set (r := S / D).
  assert (Hr : S = r * D) by (unfold r; field; lra).
  rewrite Hr in H. apply Rabs_le_both in H.
  assert (HeD : 5 * e * D <= 5 / 8000000 * D).
  { replace (5 * e * D) with (5 * e * D) by ring.
    apply Rmult_le_compat_r; lra. }
  assert (H1 : D * (1 - r) <= D * (7 / 10000000)) by lra.
  assert (H2 : D * (r - 1) <= D * (7 / 10000000)) by lra.
  apply Rmult_le_reg_l in H1; [|exact HD0]. apply Rmult_le_reg_l in H2; [|exact HD0].
  clearbody r. apply Rabs_le.
  assert (Ha : (1 - 7 / 10000000) * (1 - 7 / 10000000) <= r * r)
    by (apply Rmult_le_compat; lra).
  assert (Hb : r * r <= (1 + 7 / 10000000) * (1 + 7 / 10000000))
    by (apply Rmult_le_compat; lra).
  lra.
Qed.

Lemma unit_normal_both (qx qy NX NY : R) :
  Rabs (qx * qx + qy * qy - 1) <= / 100000 ->
  Rabs (NX - qx) <= 3 / 500000 -> Rabs (NY - qy) <= 3 / 500000 ->
  Rabs (NX * NX + NY * NY - 1) <= / 10000.
Proof.
  intros Hq Ex Ey. apply Rabs_le_both in Hq.
  pose proof (unit_normal_real qx qy NX NY ltac:(lra) Ex Ey) as Hup.
  assert (Hqx : Rabs qx <= 1 + / 100000).
  { apply abs_le_of_sq; [lra|]. pose proof (Rle_0_sqr qy) as Hy. unfold Rsqr in Hy. lra. }
  assert (Hqy : Rabs qy <= 1 + / 100000).
  { apply abs_le_of_sq; [lra|]. pose proof (Rle_0_sqr qx) as Hx. unfold Rsqr in Hx. lra. }
  apply Rabs_le_both in Ex, Ey, Hqx, Hqy.
  apply Rabs_le. split; [|lra].
  set (ex := NX - qx) in *. set (ey := NY - qy) in *.
  replace NX with (qx + ex) by (unfold ex; ring).
  replace NY with (qy + ey) by (unfold ey; ring).
  clearbody ex ey.
  assert (- ((1 + / 100000) * (3 / 500000)) <= qx * ex).
  { destruct (Rle_dec 0 qx), (Rle_dec 0 ex); nra. }
  assert (- ((1 + / 100000) * (3 / 500000)) <= qy * ey).
  { destruct (Rle_dec 0 qy), (Rle_dec 0 ey); nra. }
  pose proof (Rle_0_sqr ex) as Sx. pose proof (Rle_0_sqr ey) as Sy. unfold Rsqr in *.
  replace ((qx + ex) * (qx + ex) + (qy + ey) * (qy + ey))
    with (qx * qx + qy * qy + 2 * (qx * ex) + 2 * (qy * ey) + ex * ex + ey * ey) by ring.
  lra.
Qed.

(** Mirroring about a vector that is nearly a unit vector nearly keeps the
    length. *)
Lemma reflect_real (VX VY NX NY : R) :
  Rabs (NX * NX + NY * NY - 1) <= / 10000 ->
  let dot := VX * NX + VY * NY in
  Rabs ((VX - 2 * dot * NX) * (VX - 2 * dot * NX)
        + (VY - 2 * dot * NY) * (VY - 2 * dot * NY) - (VX * VX + VY * VY))
  <= 5 / 10000 * (VX * VX + VY * VY).
Proof.
  intros HN dot. apply Rabs_le_both in HN.
  set (nn := NX * NX + NY * NY) in *. set (vv := VX * VX + VY * VY).
  replace ((VX - 2 * dot * NX) * (VX - 2 * dot * NX)
           + (VY - 2 * dot * NY) * (VY - 2 * dot * NY) - vv)
    with (4 * (dot * dot) * (nn - 1)) by (unfold nn, vv, dot; ring).
  assert (Hdd : 0 <= dot * dot) by (pose proof (Rle_0_sqr dot) as H; exact H).
  assert (Hcs : dot * dot <= vv * nn).
  { pose proof (Rle_0_sqr (VX * NY - VY * NX)) as Hc. unfold Rsqr in Hc.
    replace (vv * nn) with (dot * dot + (VX * NY - VY * NX) * (VX * NY - VY * NX))
      by (unfold vv, nn, dot; ring).
    lra. }
  assert (Hvv : 0 <= vv).
  { unfold vv. pose proof (Rle_0_sqr VX). pose proof (Rle_0_sqr VY). unfold Rsqr in *. lra. }
  assert (Hvn : vv * nn <= vv * (1 + / 10000)) by (apply Rmult_le_compat_l; lra).
  clearbody dot nn vv.
  set (dd := dot * dot) in *. clearbody dd.
  apply Rabs_le. split.
  - assert (4 * dd * (nn - 1) >= 4 * dd * (- / 10000)).
    { apply Rle_ge, Rmult_le_compat_l; lra. }
    lra.
  - assert (4 * dd * (nn - 1) <= 4 * dd * (/ 10000)) by (apply Rmult_le_compat_l; lra).
    lra.
Qed.

(** The length of a vector moved by at most [d] on each axis. *)
Lemma norm2_perturb (a b c d delta : R) :
  Rabs c <= delta -> Rabs d <= delta ->
  Rabs (norm2 (a + c) (b + d) - norm2 a b) <= 2 * delta.
Proof.
  intros Hc Hd.
  assert (H0 : 0 <= delta) by (pose proof (Rabs_pos c); lra).
  assert (Hcd : norm2 c d <= 2 * delta).
  { rewrite norm2_eq. rewrite <- (sqrt_square (2 * delta)) by lra. apply sqrt_le_1_alt.
    apply Rabs_le_both in Hc, Hd.
    assert (c * c <= delta * delta) by nra. assert (d * d <= delta * delta) by nra.
    assert (0 <= delta * delta) by nra. lra. }
  pose proof (norm2_triangle a b c d) as T1.
  pose proof (norm2_triangle (a + c) (b + d) (- c) (- d)) as T2.
  replace (a + c + - c) with a in T2 by ring. replace (b + d + - d) with b in T2 by ring.
  assert (Hneg : norm2 (- c) (- d) = norm2 c d) by (rewrite !norm2_eq; f_equal; ring).
  rewrite Hneg in T2. apply Rabs_le. lra.
Qed.

End ReflectionReals.

Section Bounces.
Import Binary32.
Local Open Scope R_scope.

Implicit Types (x y : float32).

Lemma magnitude_norm2 x y : magnitude x y = norm2 (to_R x) (to_R y).
Proof. reflexivity. Qed.

(** The direction [(x / d, y / d)] of a vector of computed length
    [d >= 0.1]: a unit vector up to one part in 10^4. *)
Lemma unit_normal_close (px py : float32) (B : R) :
  in_range B px -> in_range B py -> 0 <= B -> B <= 200 ->
  / 10 <= to_R (norm32 px py) ->
  let nx := SFdiv prec emax px (norm32 px py) in
  let ny := SFdiv prec emax py (norm32 px py) in
  is_finite nx = true /\ is_finite ny = true /\
  Rabs (to_R nx * to_R nx + to_R ny * to_R ny - 1) <= / 10000.
Proof.
  intros Hx Hy HB0 HB HD nx ny.
  destruct (norm32_close px py B Hx Hy HB0 HB) as (Nd & _ & Hc).
  set (d := norm32 px py) in *.
  destruct Nd as [Ed|(m & e & Ed)]; [rewrite Ed in HD; cbn [to_R] in HD; lra|].
  pose proof (sqrt_pos (to_R px * to_R px + to_R py * to_R py)) as S0.
  fold (magnitude px py) in S0.
  pose proof (quotients_close (to_R px) (to_R py) (to_R d) (magnitude px py) eps
                ltac:(rewrite eps_val; lra) HD S0 (magnitude_sq px py) Hc) as Hq.
  assert (Hq1 : to_R px / to_R d * (to_R px / to_R d)
                + to_R py / to_R d * (to_R py / to_R d) <= 1 + / 100000)
    by (apply Rabs_le_both in Hq; lra).
  pose proof (div_fin px false m e (proj1 Hx)) as Ax.
  pose proof (div_fin py false m e (proj1 Hy)) as Ay.
  rewrite <- Ed in Ax, Ay. fold nx in Ax. fold ny in Ay.
  destruct (approx_err nx _ 2 Ax (quotient_small _ _ Hq1) ltac:(lra)) as (Fnx & Ex & _).
  rewrite Rplus_comm in Hq1.
  destruct (approx_err ny _ 2 Ay (quotient_small _ _ Hq1) ltac:(lra)) as (Fny & Ey & _).
  split; [exact Fnx|]. split; [exact Fny|].
  apply (unit_normal_both (to_R px / to_R d) (to_R py / to_R d)); [exact Hq | |];
    (eapply Rle_trans; [eassumption|lra]).
Qed.

(** The scalar product [vx * nx + vy * ny] and its error. *)
Lemma dot_close (vx vy nx ny : float32) :
  is_finite vx = true -> is_finite vy = true ->
  is_finite nx = true -> is_finite ny = true ->
  to_R vx * to_R vx + to_R vy * to_R vy <= 401 ->
  to_R nx * to_R nx + to_R ny * to_R ny <= 1 + / 10000 ->
  let dot := SFadd prec emax (SFmul prec emax vx nx) (SFmul prec emax vy ny) in
  is_finite dot = true /\
  Rabs (to_R dot - (to_R vx * to_R nx + to_R vy * to_R ny)) <= 2 / 10000 /\
  Rabs (to_R vx * to_R nx + to_R vy * to_R ny) <= 2003 / 100.
Proof.
  intros Fvx Fvy Fnx Fny HV HN dot.
  pose proof (Rle_0_sqr (to_R vx)) as Sx. pose proof (Rle_0_sqr (to_R vy)) as Sy.
  pose proof (Rle_0_sqr (to_R nx)) as Tx. pose proof (Rle_0_sqr (to_R ny)) as Ty.
  unfold Rsqr in *.
  assert (Bvx : Rabs (to_R vx) <= 2003 / 100) by (apply abs_le_of_sq; lra).
  assert (Bvy : Rabs (to_R vy) <= 2003 / 100) by (apply abs_le_of_sq; lra).
  assert (Bnx : Rabs (to_R nx) <= 1 + / 10000) by (apply abs_le_of_sq; lra).
  assert (Bny : Rabs (to_R ny) <= 1 + / 10000) by (apply abs_le_of_sq; lra).
  destruct (mul_in_range vx nx _ _ Fvx Fnx Bvx Bnx ltac:(lra)) as (Fa & Ea & Ba).
  destruct (mul_in_range vy ny _ _ Fvy Fny Bvy Bny ltac:(lra)) as (Fb & Eb & Bb).
  pose proof (dot_real _ _ _ _ HV HN) as Hdot.
  unfold dot.
  set (a := SFmul prec emax vx nx) in *. set (b := SFmul prec emax vy ny) in *.
  destruct (add_in_range a b _ _ Fa Fb Ba Bb ltac:(lra)) as (Fc & Ec & _).
  split; [exact Fc|]. split; [|exact Hdot].
  replace (to_R (SFadd prec emax a b) - (to_R vx * to_R nx + to_R vy * to_R ny))
    with ((to_R (SFadd prec emax a b) - (to_R a + to_R b))
          + ((to_R a - to_R vx * to_R nx) + (to_R b - to_R vy * to_R ny))) by ring.
  eapply Rle_trans; [apply Rabs_triang|].
  eapply Rle_trans; [apply Rplus_le_compat_l, Rabs_triang|]. lra.
Qed.

(** One component of [(v - 2 * dot * n) * 0.5f] and its error. *)
Lemma reflected_close (v n dot : float32) (Dt : R) :
  in_range (2003 / 100) v -> in_range (1 + / 10000) n ->
  is_finite dot = true -> Rabs (to_R dot - Dt) <= 2 / 10000 -> Rabs Dt <= 2003 / 100 ->
  let r := SFmul prec emax
             (SFsub prec emax v (SFmul prec emax (SFmul prec emax (of_int 2) dot) n))
             (lit 5 10) in
  is_finite r = true /\
  Rabs (to_R r - (to_R v - 2 * Dt * to_R n) * / 2) <= 5 / 10000.
Proof.
  intros [Fv Bv] [Fn Bn] Fd Ed HDt r.
  assert (Bd : Rabs (to_R dot) <= 2004 / 100).
  { replace (to_R dot) with ((to_R dot - Dt) + Dt) by ring.
    eapply Rle_trans; [apply Rabs_triang|]. lra. }
  assert (F2 : is_finite (of_int 2) = true) by reflexivity.
  assert (B2 : Rabs (to_R (of_int 2)) <= 2) by (rewrite two_value, Rabs_pos_eq; lra).
  assert (Fh : is_finite (lit 5 10) = true) by reflexivity.
  assert (Bh : Rabs (to_R (lit 5 10)) <= / 2) by (rewrite half_value, Rabs_pos_eq; lra).
  destruct (mul_in_range (of_int 2) dot 2 (2004 / 100) F2 Fd B2 Bd ltac:(lra))
    as (Ft & Et & _).
  rewrite two_value in Et.
  set (t := SFmul prec emax (of_int 2) dot) in *.
  assert (Bt : Rabs (to_R t) <= 4009 / 100).
  { replace (to_R t) with ((to_R t - 2 * to_R dot) + 2 * to_R dot) by ring.
    eapply Rle_trans; [apply Rabs_triang|]. rewrite Rabs_mult, (Rabs_pos_eq 2) by lra. lra. }
  destruct (mul_in_range t n (4009 / 100) (1 + / 10000) Ft Fn Bt Bn ltac:(lra))
    as (Fu & Eu & _).
  set (u := SFmul prec emax t n) in *.
  assert (Btn : Rabs (to_R t * to_R n) <= 4009 / 100 * (1 + / 10000)).
  { rewrite Rabs_mult. apply Rmult_le_compat; try apply Rabs_pos; assumption. }
  assert (Bu : Rabs (to_R u) <= 401 / 10).
  { replace (to_R u) with ((to_R u - to_R t * to_R n) + to_R t * to_R n) by ring.
    eapply Rle_trans; [apply Rabs_triang|]. lra. }
  destruct (sub_in_range v u (2003 / 100) (401 / 10) Fv Fu Bv Bu ltac:(lra))
    as (Fw & Ew & _).
  set (w := SFsub prec emax v u) in *.
  assert (Bw : Rabs (to_R w) <= 6014 / 100).
  { replace (to_R w) with ((to_R w - (to_R v - to_R u)) + (to_R v - to_R u)) by ring.
    eapply Rle_trans; [apply Rabs_triang|].
    assert (Rabs (to_R v - to_R u) <= 2003 / 100 + 401 / 10).
    { unfold Rminus. eapply Rle_trans; [apply Rabs_triang|]. rewrite Rabs_Ropp. lra. }
    lra. }
  destruct (mul_in_range w (lit 5 10) (6014 / 100) (/ 2) Fw Fh Bw Bh ltac:(lra))
    as (Fr & Er & _).
  rewrite half_value in Er.
  split; [exact Fr|]. fold r in Er.
  (* the four rounding errors and the error of the scalar product *)
  assert (E1 : Rabs ((to_R t - 2 * to_R dot) * to_R n) <= 9 / 100000).
  { rewrite Rabs_mult.
    apply Rle_trans with ((2 * (2004 / 100) + 1) / 500000 * (1 + / 10000));
      [apply Rmult_le_compat; try apply Rabs_pos; assumption | lra]. }
  assert (E2 : Rabs (2 * (to_R dot - Dt) * to_R n) <= 41 / 100000).
  { rewrite Rabs_mult, Rabs_mult, (Rabs_pos_eq 2) by lra.
    apply Rle_trans with (2 * (2 / 10000) * (1 + / 10000));
      [apply Rmult_le_compat; try apply Rabs_pos; try assumption; try lra | lra].
    pose proof (Rabs_pos (to_R dot - Dt)). lra. }
  apply Rabs_le_both in Er, Ew, Eu, E1, E2.
  apply Rabs_le. lra.
Qed.

(** The wall bounce halves the speed, up to 1/100. *)
Lemma wall_velocity_close (p v : float32 * float32) :
  in_range 86 (fst p) -> in_range 86 (snd p) ->
  is_finite (fst v) = true -> is_finite (snd v) = true ->
  magnitude (fst v) (snd v) <= 20 * (1 + / 1048576) ->
  SFltb max_dist (norm32 (fst p) (snd p)) = true ->
  let v' := snd (constrain_to_tube p v) in
  is_finite (fst v') = true /\ is_finite (snd v') = true /\
  Rabs (magnitude (fst v') (snd v') - magnitude (fst v) (snd v) / 2) <= / 100.
Proof.
  intros Hpx Hpy Fvx Fvy Hm Hlt. rewrite constrain_velocity. cbv zeta. rewrite Hlt.
  cbn [fst snd].
  pose proof (norm32_finite _ _ 86 Hpx Hpy ltac:(lra) ltac:(lra)) as Fd.
  destruct (norm32_cases (fst p) (snd p) (proj1 Hpx) (proj1 Hpy)) as [E|(Nd & Vd & _)].
  { rewrite E in Fd. discriminate Fd. }
  destruct (beyond_max_dist _ Nd Vd Hlt) as (m & e & _ & HD).
  destruct (unit_normal_close (fst p) (snd p) 86 Hpx Hpy ltac:(lra) ltac:(lra) ltac:(lra))
    as (Fnx & Fny & HN).
  set (d := norm32 (fst p) (snd p)) in *.
  set (nx := SFdiv prec emax (fst p) d) in *. set (ny := SFdiv prec emax (snd p) d) in *.
  pose proof (sqrt_pos (to_R (fst v) * to_R (fst v) + to_R (snd v) * to_R (snd v))) as Q0.
  fold (magnitude (fst v) (snd v)) in Q0.
  pose proof (magnitude_sq (fst v) (snd v)) as QQ.
  set (q := magnitude (fst v) (snd v)) in *.
  assert (HV : to_R (fst v) * to_R (fst v) + to_R (snd v) * to_R (snd v) <= 401).
  { rewrite <- QQ.
    assert (q * q <= 20 * (1 + / 1048576) * (20 * (1 + / 1048576)))
      by (apply Rmult_le_compat; lra).
    lra. }
  assert (HN1 : to_R nx * to_R nx + to_R ny * to_R ny <= 1 + / 10000)
    by (apply Rabs_le_both in HN; lra).
  destruct (dot_close _ _ _ _ Fvx Fvy Fnx Fny HV HN1) as (Fdot & Edot & BDt).
  destruct (dot_tight _ _ _ _ Fvx Fvy Fnx Fny HV HN1) as (Hvx & Hvy & Hnx & Hny & _).
  set (dot := SFadd prec emax (SFmul prec emax (fst v) nx) (SFmul prec emax (snd v) ny)) in *.
  set (Dt := to_R (fst v) * to_R nx + to_R (snd v) * to_R ny) in *.
  destruct (reflected_close (fst v) nx dot Dt Hvx Hnx Fdot Edot BDt) as (Frx & Erx).
  destruct (reflected_close (snd v) ny dot Dt Hvy Hny Fdot Edot BDt) as (Fry & Ery).
  split; [exact Frx|]. split; [exact Fry|].
  pose proof (reflect_real (to_R (fst v)) (to_R (snd v)) (to_R nx) (to_R ny) HN) as HR.
  cbv zeta in HR. fold Dt in HR.
  set (wx := to_R (fst v) - 2 * Dt * to_R nx) in *.
  set (wy := to_R (snd v) - 2 * Dt * to_R ny) in *.
  pose proof (norm2_nonneg wx wy) as S0. pose proof (norm2_sq wx wy) as SS.
  assert (Hqs : Rabs (q - norm2 wx wy) <= 5 / 10000 * q + 0).
  { apply sqrt_close; try lra. rewrite SS, QQ.
    rewrite Rabs_minus_sym. eapply Rle_trans; [exact HR|]. lra. }
  rewrite magnitude_norm2.
  set (rx := to_R (SFmul prec emax
                     (SFsub prec emax (fst v)
                        (SFmul prec emax (SFmul prec emax (of_int 2) dot) nx)) (lit 5 10))) in *.
  set (ry := to_R (SFmul prec emax
                     (SFsub prec emax (snd v)
                        (SFmul prec emax (SFmul prec emax (of_int 2) dot) ny)) (lit 5 10))) in *.
  pose proof (norm2_perturb (wx * / 2) (wy * / 2) (rx - wx * / 2) (ry - wy * / 2)
                (5 / 10000) Erx Ery) as HP.
  replace (wx * / 2 + (rx - wx * / 2)) with rx in HP by ring.
  replace (wy * / 2 + (ry - wy * / 2)) with ry in HP by ring.
  rewrite norm2_scale in HP by lra.
  apply Rabs_le_both in HP, Hqs. apply Rabs_le. lra.
Qed.

(** The bounce off a rod leaves the ball at speed [ROD_BOUNCE = 2], up to
    1/1000. *)
Lemma bounce_close (qx qy : float32) :
  in_range 129 qx -> in_range 129 qy ->
  SFltb (lit 1 10) (norm32 qx qy) = true ->
  let bx := SFmul prec emax (SFdiv prec emax qx (norm32 qx qy)) ROD_BOUNCE in
  let by_ := SFmul prec emax (SFdiv prec emax qy (norm32 qx qy)) ROD_BOUNCE in
  is_finite bx = true /\ is_finite by_ = true /\
  Rabs (magnitude bx by_ - 2) <= / 1000.
Proof.
  intros Hx Hy Hlt bx by_.
  destruct (norm32_close qx qy 129 Hx Hy ltac:(lra) ltac:(lra)) as (Nd & Vd & _).
  assert (HD : / 10 <= to_R (norm32 qx qy)).
  { destruct Nd as [Ed|(m & e & Ed)]; rewrite Ed in *; [discriminate Hlt|].
    pose proof tenth_value as Ht. rewrite to_R_pos.
    change (lit 1 10) with (S754_finite false 13421773 (-27)) in *.
    rewrite to_R_pos in Ht.
    pose proof (proj1 (SFltb_pos 13421773 (-27) m e ltac:(reflexivity) Vd) Hlt). lra. }
  destruct (unit_normal_close qx qy 129 Hx Hy ltac:(lra) ltac:(lra) HD) as (Fnx & Fny & HN).
  set (nx := SFdiv prec emax qx (norm32 qx qy)) in *.
  set (ny := SFdiv prec emax qy (norm32 qx qy)) in *.
  pose proof (Rle_0_sqr (to_R nx)) as Tx. pose proof (Rle_0_sqr (to_R ny)) as Ty.
  unfold Rsqr in *.
  assert (HN1 : to_R nx * to_R nx + to_R ny * to_R ny <= 1 + / 10000)
    by (apply Rabs_le_both in HN; lra).
  assert (Bnx : Rabs (to_R nx) <= 1 + / 10000) by (apply abs_le_of_sq; lra).
  assert (Bny : Rabs (to_R ny) <= 1 + / 10000) by (apply abs_le_of_sq; lra).
  assert (F2 : is_finite (@ROD_BOUNCE spec_float arith) = true) by reflexivity.
  assert (V2 : to_R (@ROD_BOUNCE spec_float arith) = 2).
  { change (@ROD_BOUNCE spec_float arith) with (of_int 2). apply two_value. }
  assert (B2 : Rabs (to_R (@ROD_BOUNCE spec_float arith)) <= 2)
    by (rewrite V2, Rabs_pos_eq; lra).
  destruct (mul_in_range nx (@ROD_BOUNCE spec_float arith) _ _ Fnx F2 Bnx B2 ltac:(lra))
    as (Fbx & Ebx & _).
  destruct (mul_in_range ny (@ROD_BOUNCE spec_float arith) _ _ Fny F2 Bny B2 ltac:(lra))
    as (Fby & Eby & _).
  rewrite V2 in Ebx, Eby. fold bx in Fbx, Ebx. fold by_ in Fby, Eby.
  split; [exact Fbx|]. split; [exact Fby|].
  pose proof (norm2_nonneg (to_R nx) (to_R ny)) as S0.
  pose proof (norm2_sq (to_R nx) (to_R ny)) as SS.
  assert (Hs : Rabs (1 - norm2 (to_R nx) (to_R ny)) <= / 10000 * 1 + 0).
  { apply sqrt_close; try lra. rewrite SS.
    rewrite Rabs_minus_sym. eapply Rle_trans; [|exact (Rle_refl _)].
    replace (to_R nx * to_R nx + to_R ny * to_R ny - 1 * 1)
      with (to_R nx * to_R nx + to_R ny * to_R ny - 1) by ring.
    eapply Rle_trans; [exact HN|]. lra. }
  rewrite magnitude_norm2.
  assert (E1 : Rabs (to_R bx - to_R nx * 2) <= 1 / 100000) by lra.
  assert (E2 : Rabs (to_R by_ - to_R ny * 2) <= 1 / 100000) by lra.
  pose proof (norm2_perturb (to_R nx * 2) (to_R ny * 2) _ _ _ E1 E2) as HP.
  replace (to_R nx * 2 + (to_R bx - to_R nx * 2)) with (to_R bx) in HP by ring.
  replace (to_R ny * 2 + (to_R by_ - to_R ny * 2)) with (to_R by_) in HP by ring.
  rewrite norm2_scale in HP by lra.
  apply Rabs_le_both in HP, Hs. apply Rabs_le. lra.
Qed.

End Bounces.

(** * Strikes in binary32, whatever the IMU reads *)

Section AnyReads.
Import Binary32.
Local Open Scope R_scope.

Implicit Types (s : State float32) (inp : Input float32) (x y : float32).

Lemma add_finite x y :
  is_finite (SFadd prec emax x y) = true -> is_finite x = true /\ is_finite y = true.
Proof.
  destruct x as [sx|sx| |sx mx ex], y as [sy|sy| |sy my ey];
    cbn [SFadd is_finite]; try (intros; split; reflexivity); try discriminate.
  destruct sx, sy; discriminate.
Qed.

(** ** The cast operand *)

Lemma cast_operand_close (hs : float32) (S : R) :
  nonneg_fin hs -> 0 <= S <= 20 * (1 + / 1048576) ->
  Rabs (to_R hs - S) <= 5 * eps * to_R hs + / 1000000000 ->
  let x := SFadd prec emax (of_int 30) (SFmul prec emax hs (of_int 5)) in
  exists z : Z,
    trunc x = Some z /\ (30 <= z <= 130)%Z /\
    IZR z <= to_R x < IZR z + 1 /\
    Rabs (to_R x - (30 + S * 5)) <= / 1000.
Proof.
  intros Nh HS Hc x. rewrite eps_val in Hc.
  pose proof (nonneg_fin_to_R hs Nh) as H0.
  apply Rabs_le_both in Hc.
  assert (Hh : to_R hs <= 2001 / 100) by lra.
  assert (Hrest : forall x', x' = of_int 30 -> 5 * S <= / 1000 ->
            exists z : Z, trunc x' = Some z /\ (30 <= z <= 130)%Z /\
              IZR z <= to_R x' < IZR z + 1 /\ Rabs (to_R x' - (30 + S * 5)) <= / 1000).
  { intros x' -> H5. exists 30%Z. split; [reflexivity|]. split; [lia|].
    rewrite thirty_value. split; [lra|]. apply Rabs_le. lra. }
  destruct Nh as [Eh|(m & e & Eh)].
  { apply Hrest; [unfold x; rewrite Eh; reflexivity|].
    rewrite Eh in Hc. cbn [to_R] in Hc. lra. }
  assert (Fh : is_finite hs = true) by (rewrite Eh; reflexivity).
  assert (Bh : Rabs (to_R hs) <= 2001 / 100) by (rewrite Rabs_pos_eq; lra).
  assert (F5 : is_finite (of_int 5) = true) by reflexivity.
  assert (B5 : Rabs (to_R (of_int 5)) <= 5) by (rewrite five_value, Rabs_pos_eq; lra).
  destruct (mul_in_range hs (of_int 5) _ _ Fh F5 Bh B5 ltac:(lra)) as (Fy & Ey & _).
  rewrite five_value in Ey. apply Rabs_le_both in Ey.
  destruct (mul_spec false m e false 10485760 (-21)) as [_ Hsg]. cbv zeta in Hsg.
  change (S754_finite false 10485760 (-21)) with (of_int 5) in Hsg. rewrite <- Eh in Hsg.
  unfold x. clear x.
  destruct (SFmul prec emax hs (of_int 5)) as [sy|sy| |sy my ey] eqn:Ey';
    try discriminate Fy; cbn [sign_is xorb] in Hsg; subst sy.
  { apply Hrest; [reflexivity|]. cbn [to_R] in Ey. lra. }
  set (y := S754_finite false my ey) in *.
  assert (Hy0 : 0 <= to_R y) by (apply nonneg_fin_to_R; right; unfold y; eauto).
  assert (F30 : is_finite (of_int 30) = true) by reflexivity.
  assert (B30 : Rabs (to_R (of_int 30)) <= 30) by (rewrite thirty_value, Rabs_pos_eq; lra).
  assert (By : Rabs (to_R y) <= 10006 / 100) by (rewrite Rabs_pos_eq; lra).
  destruct (add_in_range (of_int 30) y _ _ F30 Fy B30 By ltac:(lra)) as (Fr & Er & _).
  rewrite thirty_value in Er. apply Rabs_le_both in Er.
  pose proof (add_pos_lower 15728640 (-19) my ey ltac:(reflexivity)) as Hlow.
  destruct (add_pos_spec 15728640 (-19) my ey) as [_ Hsr]. cbv zeta in Hsr.
  rewrite <- thirty_binary32 in Hlow, Hsr. fold y in Hlow, Hsr.
  destruct (SFadd prec emax (of_int 30) y) as [sr|sr| |sr mr er];
    try discriminate Fr; [contradiction|].
  cbn [sign_is] in Hsr. subst sr.
  destruct (trunc_floor mr er) as (z & Ez & Hz1 & Hz2).
  exists z. split; [exact Ez|].
  rewrite to_R_pos in *.
  assert (H30v : IZR (Z.pos 15728640) * bpow (-19) = 30).
  { rewrite <- to_R_pos, <- thirty_binary32. apply thirty_value. }
  rewrite H30v in Hlow.
  set (Rv := IZR (Z.pos mr) * bpow er) in *.
  split; [|split; [split; assumption|apply Rabs_le; lra]].
  split.
  - assert (H : (30 - 1 < z)%Z); [|lia]. apply lt_IZR. rewrite minus_IZR. lra.
  - assert (H : (z < 130 + 1)%Z); [|lia]. apply lt_IZR. rewrite plus_IZR. lra.
Qed.

(** The velocity of a note in a state that is [ready]. *)
Lemma note_velocity_ready s :
  ready s ->
  exists z : Z,
    float_trunc (float_of_int 30 + hit_speed s * float_of_int 5)%fl = Some z /\
    (30 <= z <= 130)%Z /\
    IZR z <= to_R (float_of_int 30 + hit_speed s * float_of_int 5)%fl < IZR z + 1 /\
    Rabs (to_R (float_of_int 30 + hit_speed s * float_of_int 5)%fl
          - (30 + magnitude (ball_vx s) (ball_vy s) * 5)) <= / 1000 /\
    note_velocity s = Z.min 127 z.
Proof.
  intros (_ & _ & _ & _ & _ & Fvx & Fvy & Hm).
  assert (Hm21 : magnitude (ball_vx s) (ball_vy s) <= 21) by lra.
  destruct (magnitude_components _ _ _ Fvx Fvy Hm21) as [Hx Hy].
  destruct (norm32_close _ _ 21 Hx Hy ltac:(lra) ltac:(lra)) as (Nh & _ & Hc).
  pose proof (sqrt_pos (to_R (ball_vx s) * to_R (ball_vx s)
                        + to_R (ball_vy s) * to_R (ball_vy s))) as S0.
  fold (magnitude (ball_vx s) (ball_vy s)) in S0.
  destruct (cast_operand_close _ _ Nh (conj S0 Hm) Hc) as (z & Ez & Hz & Hfl & Hcl).
  exists z.
  change (float_of_int 30 + hit_speed s * float_of_int 5)%fl
    with (SFadd prec emax (of_int 30)
            (SFmul prec emax (norm32 (ball_vx s) (ball_vy s)) (of_int 5))).
  change (float_trunc (SFadd prec emax (of_int 30)
            (SFmul prec emax (norm32 (ball_vx s) (ball_vy s)) (of_int 5))))
    with (trunc (SFadd prec emax (of_int 30)
            (SFmul prec emax (norm32 (ball_vx s) (ball_vy s)) (of_int 5)))).
  split; [exact Ez|]. split; [exact Hz|]. split; [exact Hfl|]. split; [exact Hcl|].
  unfold note_velocity, to_uint8. cbv zeta.
  change (float_trunc (float_of_int 30 + hit_speed s * float_of_int 5)%fl)
    with (trunc (SFadd prec emax (of_int 30)
                   (SFmul prec emax (norm32 (ball_vx s) (ball_vy s)) (of_int 5)))).
  rewrite Ez. rewrite Z.mod_small by lia.
  destruct (127 <? z)%Z eqn:E; [apply Z.ltb_lt in E | apply Z.ltb_ge in E]; lia.
Qed.

(** ** The physics *)

(** What reaches the wall test in a call that ends with the ball at a
    position made of numbers: a position of at most 86 on each axis and a
    velocity within the clamp's bound. *)
Lemma wall_inputs inp s :
  placed s ->
  is_finite (ball_x (physics_step inp s)) = true ->
  is_finite (ball_y (physics_step inp s)) = true ->
  let p := fst (integrate inp s) in
  let v := snd (integrate inp s) in
  in_range 86 (fst p) /\ in_range 86 (snd p) /\
  is_finite (fst v) = true /\ is_finite (snd v) = true /\
  magnitude (fst v) (snd v) <= 20 * (1 + / 1048576).
Proof.
  intros (Tx & Ty & Hp) Fx' Fy' p v.
  destruct (physics_step_ball inp s) as (Ex & Ey & _).
  cbv zeta in Ex, Ey. fold p v in Ex, Ey.
  rewrite Ex in Fx'. rewrite Ey in Fy'.
  assert (Fp : is_finite (fst p) = true /\ is_finite (snd p) = true).
  { rewrite constrain_rescale in Fx', Fy'.
    destruct (rescale_nonfinite max_dist 13369344 (-18) (fst p) (snd p) max_dist_binary32)
      as [Nx Ny].
    rewrite <- surjective_pairing in Nx, Ny.
    split.
    - destruct (is_finite (fst p)) eqn:E; [reflexivity|exfalso].
      exact (eq_true_false_abs _ Fx' (Nx eq_refl)).
    - destruct (is_finite (snd p)) eqn:E; [reflexivity|exfalso].
      exact (eq_true_false_abs _ Fy' (Ny eq_refl)). }
  destruct Fp as [Fpx Fpy].
  assert (Ep : p = (SFadd prec emax (ball_x s) (fst v), SFadd prec emax (ball_y s) (snd v)))
    by (unfold p, v; rewrite integrate_unfold; reflexivity).
  assert (Ev : v = clamp_speed (kicked inp s))
    by (unfold v; rewrite integrate_unfold; reflexivity).
  rewrite Ep in Fpx, Fpy. cbn [fst snd] in Fpx, Fpy.
  destruct (add_finite _ _ Fpx) as [Fbx Fvx]. destruct (add_finite _ _ Fpy) as [Fby Fvy].
  assert (Hmv : magnitude (fst v) (snd v) <= 20 * (1 + / 1048576)).
  { rewrite Ev in Fvx, Fvy |- *. apply clamp_speed_tolerance; assumption. }
  destruct (magnitude_components _ _ 21 Fvx Fvy ltac:(lra)) as [[_ Bvx] [_ Bvy]].
  specialize (Hp Fbx Fby).
  destruct (magnitude_components _ _ 52 Fbx Fby ltac:(lra)) as [[_ Bbx] [_ Bby]].
  split.
  { rewrite Ep. cbn [fst].
    destruct (add_in_range _ _ 52 21 Fbx Fvx Bbx Bvx ltac:(lra)) as (F & _ & B).
    split; [exact F | lra]. }
  split.
  { rewrite Ep. cbn [snd].
    destruct (add_in_range _ _ 52 21 Fby Fvy Bby Bvy ltac:(lra)) as (F & _ & B).
    split; [exact F | lra]. }
  split; [exact Fvx|]. split; [exact Fvy | exact Hmv].
Qed.

Lemma physics_step_ready inp s :
  placed s ->
  is_finite (ball_x (physics_step inp s)) = true ->
  is_finite (ball_y (physics_step inp s)) = true ->
  ready (physics_step inp s).
Proof.
  intros Hs Fx' Fy'.
  destruct (wall_inputs inp s Hs Fx' Fy') as (Hpx & Hpy & Fvx & Fvy & Hmv).
  destruct Hs as (Tx & Ty & _).
  destruct (physics_step_ball inp s) as (Ex & Ey & Evx & Evy).
  destruct (physics_step_tables inp s) as (_ & _ & Efx & Efy & _).
  cbv zeta in Ex, Ey, Evx, Evy, Hpx, Hpy, Fvx, Fvy, Hmv.
  set (p := fst (integrate inp s)) in *. set (v := snd (integrate inp s)) in *.
  rewrite Ex in Fx'. rewrite Ey in Fy'.
  pose proof (wall_projection_tolerance p v Fx' Fy') as Hm'.
  assert (Hv' : is_finite (fst (snd (constrain_to_tube p v))) = true /\
                is_finite (snd (snd (constrain_to_tube p v))) = true /\
                magnitude (fst (snd (constrain_to_tube p v)))
                          (snd (snd (constrain_to_tube p v))) <= 20 * (1 + / 1048576)).
  { destruct (SFltb max_dist (norm32 (fst p) (snd p))) eqn:Hlt.
    - destruct (wall_velocity_close p v Hpx Hpy Fvx Fvy Hmv Hlt) as (F1 & F2 & Hh).
      split; [exact F1|]. split; [exact F2|].
      pose proof (sqrt_pos (to_R (fst v) * to_R (fst v) + to_R (snd v) * to_R (snd v))) as S0.
      fold (magnitude (fst v) (snd v)) in S0.
      apply Rabs_le_both in Hh. lra.
    - rewrite constrain_velocity. cbv zeta. rewrite Hlt.
      split; [exact Fvx|]. split; [exact Fvy | exact Hmv]. }
  destruct Hv' as (F1 & F2 & Hh).
  unfold ready. rewrite Ex, Ey, Evx, Evy, Efx, Efy.
  repeat (split; try assumption).
Qed.

(** ** The rods *)

Lemma rod_bounce_ready (i : nat) s : (i < NUM_RODS)%nat -> ready s -> ready (rod_bounce i s).
Proof.
  intros Hi Hs. pose proof Hs as (Tx & Ty & Fx & Fy & Hm & Fvx & Fvy & Hv).
  unfold rod_bounce. cbv zeta.
  destruct (flt (float_lit 1 10) (rod_dist s i)) eqn:G; [|exact Hs].
  assert (Hm52 : magnitude (ball_x s) (ball_y s) <= 52)
    by (eapply Rle_trans; [exact Hm | lra]).
  destruct (magnitude_components _ _ 52 Fx Fy Hm52) as [[_ Bx] [_ By]].
  destruct (table_in_range i Hi) as [[Frx Brx] [Fry Bry]].
  unfold rod_x in Frx, Brx. unfold rod_y in Fry, Bry.
  rewrite <- Tx in Frx, Brx. rewrite <- Ty in Fry, Bry.
  destruct (sub_in_range (ball_x s) (rod_fx s !!! i) 52 64 Fx Frx Bx Brx ltac:(lra))
    as (Fdx & _ & Bdx).
  destruct (sub_in_range (ball_y s) (rod_fy s !!! i) 52 64 Fy Fry By Bry ltac:(lra))
    as (Fdy & _ & Bdy).
  assert (Hdx : in_range 129 (rod_dx s i)).
  { split; [exact Fdx|]. eapply Rle_trans; [exact Bdx | lra]. }
  assert (Hdy : in_range 129 (rod_dy s i)).
  { split; [exact Fdy|]. eapply Rle_trans; [exact Bdy | lra]. }
  change (SFltb (lit 1 10) (norm32 (rod_dx s i) (rod_dy s i)) = true) in G.
  destruct (bounce_close _ _ Hdx Hdy G) as (F1 & F2 & Hb).
  apply Rabs_le_both in Hb.
  assert (H2 : magnitude
                 (SFmul prec emax
                    (SFdiv prec emax (rod_dx s i) (norm32 (rod_dx s i) (rod_dy s i)))
                    ROD_BOUNCE)
                 (SFmul prec emax
                    (SFdiv prec emax (rod_dy s i) (norm32 (rod_dx s i) (rod_dy s i)))
                    ROD_BOUNCE)
               <= 20 * (1 + / 1048576)) by lra.
  unfold ready. cbn [set_vel rod_fx rod_fy ball_x ball_y ball_vx ball_vy].
  split; [exact Tx|]. split; [exact Ty|]. split; [exact Fx|]. split; [exact Fy|].
  split; [exact Hm|]. split; [exact F1|]. split; [exact F2|]. exact H2.
Qed.

Lemma rod_step_ready (t : Z) (i : nat) s out :
  (i < NUM_RODS)%nat -> ready s -> ready (fst (rod_step t (s, out) i)).
Proof.
  intros Hi Hs. unfold rod_step. destruct (rod_fires t s i); [|exact Hs].
  cbn [fst]. apply rod_bounce_ready; [exact Hi|]. exact Hs.
Qed.

Lemma fold_rods_ready (t : Z) (l : list nat) : forall s out,
  Forall (fun i => (i < NUM_RODS)%nat) l -> ready s ->
  ready (fst (fold_left (rod_step t) l (s, out))).
Proof.
  induction l as [|a l IH]; intros s out Hl Hs; cbn [fold_left]; [exact Hs|].
  inversion Hl as [|? ? Ha Hl']; subst.
  pose proof (rod_step_ready t a s out Ha Hs) as H1.
  destruct (rod_step t (s, out) a) as [s1 out1]. apply IH; assumption.
Qed.

Lemma rod_step_velocities_ready (t : Z) (i : nat) s out :
  ready s -> Forall velocity_in_range out ->
  Forall velocity_in_range (snd (rod_step t (s, out) i)).
Proof.
  intros Hs Hout. rewrite rod_step_out.
  apply Forall_app; split; [exact Hout|].
  destruct (rod_fires t s i); [|constructor].
  constructor; [|constructor].
  unfold velocity_in_range, note_on; cbn [velocity].
  change (note_velocity (mark_hit t i s)) with (note_velocity s).
  destruct (note_velocity_ready s Hs) as (z & _ & Hz & _ & _ & ->). lia.
Qed.

Lemma fold_rods_velocities_ready (t : Z) (l : list nat) : forall s out,
  Forall (fun i => (i < NUM_RODS)%nat) l -> ready s ->
  Forall velocity_in_range out ->
  Forall velocity_in_range (snd (fold_left (rod_step t) l (s, out))).
Proof.
  induction l as [|a l IH]; intros s out Hl Hs Hout; cbn [fold_left]; [exact Hout|].
  inversion Hl as [|? ? Ha Hl']; subst.
  pose proof (rod_step_ready t a s out Ha Hs) as H1.
  pose proof (rod_step_velocities_ready t a s out Hs Hout) as H2.
  destruct (rod_step t (s, out) a) as [s1 out1]. apply IH; assumption.
Qed.

(** ** Calls and runs *)

Lemma handle_buttons_placed inp s : placed s -> placed (handle_buttons inp s).
Proof.
  intros Hs. pose proof Hs as (Tx & Ty & Hp).
  assert (Hz : forall s', rod_fx s' = rod_fx boot -> rod_fy s' = rod_fy boot ->
                 placed (drawFullScreen s')).
  { intros s' Hx Hy. split; [exact Hx|]. split; [exact Hy|]. intros _ _.
    change (magnitude (of_int 0) (of_int 0) <= 51 * (1 + / 1048576)).
    rewrite magnitude_zero. lra. }
  unfold handle_buttons.
  destruct (btnA_pressed inp), (btnB_released inp), (btnC_pressed inp);
    try exact Hs; apply Hz; assumption.
Qed.

Lemma loop_placed inp s : placed s -> placed (fst (loop s inp)).
Proof.
  intros (Tx & Ty & _). destruct (loop_tables s inp) as (Ex & Ey & _).
  split; [rewrite Ex; exact Tx|]. split; [rewrite Ey; exact Ty|].
  apply loop_position_tolerance.
Qed.

Lemma setup_placed (imu : float32 * float32) : placed (setup cosf sinf imu).
Proof.
  split; [reflexivity|]. split; [reflexivity|]. intros _ _.
  change (magnitude (of_int 0) (of_int 0) <= 51 * (1 + / 1048576)).
  rewrite magnitude_zero. lra.
Qed.

Lemma run_placed (inps : list (Input float32)) : forall s,
  placed s -> placed (fst (run s inps)).
Proof.
  induction inps as [|inp inps IH]; intros s Hs; [exact Hs|].
  rewrite run_fst_cons. apply IH, loop_placed, Hs.
Qed.

(** A rod can fire only when the position is a pair of numbers; the state
    is then [ready]. *)
Lemma strike_ready inp s (k i : nat) :
  placed s -> (k <= NUM_RODS)%nat ->
  let e := physics_step inp (handle_buttons inp s) in
  let sk := fst (fold_left (rod_step (now inp)) (seq 0 k) (e, [])) in
  rod_fires (now inp) sk i = true -> ready sk.
Proof.
  intros Hs Hk e sk Hf.
  destruct (strike_needs_finite_ball sk (now inp) i Hf) as [Fx Fy].
  destruct (fold_rods_frame (now inp) (seq 0 k) e []) as (Ex & Ey & _).
  fold sk in Ex, Ey. rewrite Ex in Fx. rewrite Ey in Fy.
  apply fold_rods_ready.
  - apply Forall_forall. intros j Hj. apply elem_of_seq in Hj. lia.
  - apply physics_step_ready; [apply handle_buttons_placed, Hs | exact Fx | exact Fy].
Qed.

Lemma loop_velocities_placed inp s :
  placed s -> Forall velocity_in_range (snd (loop s inp)).
Proof.
  intros Hs. rewrite loop_snd.
  set (e := physics_step inp (handle_buttons inp s)).
  destruct (is_finite (ball_x e) && is_finite (ball_y e)) eqn:Hfin.
  - apply andb_true_iff in Hfin as [Fx Fy].
    apply fold_rods_velocities_ready; [| |constructor].
    + apply Forall_forall. intros j Hj. apply elem_of_seq in Hj. lia.
    + apply physics_step_ready; [apply handle_buttons_placed, Hs | exact Fx | exact Fy].
  - rewrite check_rods_idle; [constructor|].
    intros i _. destruct (rod_fires (now inp) e i) eqn:Hf; [exfalso|reflexivity].
    destruct (strike_needs_finite_ball e (now inp) i Hf) as [Fx Fy].
    rewrite Fx, Fy in Hfin. discriminate Hfin.
Qed.

Lemma run_velocities_placed (inps : list (Input float32)) : forall s,
  placed s -> Forall velocity_in_range (snd (run s inps)).
Proof.
  induction inps as [|inp inps IH]; intros s Hs; [constructor|].
  rewrite run_snd_cons. apply Forall_app. split.
  - apply loop_velocities_placed, Hs.
  - apply IH, loop_placed, Hs.
Qed.

End AnyReads.

(** * The velocity of a note and the wall bounce: the claims in binary32 *)

Section StrikeFormula.
Import Binary32.
Local Open Scope R_scope.

Implicit Types (s : State float32) (inp : Input float32).

(** The collision pass, cut at rod [i]. *)
Lemma check_rods_cut (t : Z) s (i : nat) :
  (i < NUM_RODS)%nat ->
  check_rods t s
  = fold_left (rod_step t) (seq (S i) (NUM_RODS - S i))
      (rod_step t (fold_left (rod_step t) (seq 0 i) (s, [])) i).
Proof.
  intros Hi. unfold check_rods.
  replace NUM_RODS with (i + S (NUM_RODS - S i))%nat at 1 by lia.
  rewrite List.seq_app, List.fold_left_app. cbn [seq fold_left Nat.add]. reflexivity.
Qed.

Lemma fold_rods_extends (t : Z) (l : list nat) : forall p : State float32 * list NoteOn,
  exists later, snd (fold_left (rod_step t) l p) = snd p ++ later.
Proof.
  induction l as [|a l IH]; intros p; cbn [fold_left].
  - exists []. symmetry; apply app_nil_r.
  - destruct (IH (rod_step t p a)) as [l1 E1]. destruct p as [s out].
    rewrite rod_step_out in E1. rewrite <- app_assoc in E1. eexists. exact E1.
Qed.

Lemma strike_at s inp (i : nat) :
  placed s -> (i < NUM_RODS)%nat ->
  let e := physics_step inp (handle_buttons inp s) in
  let pre := fold_left (rod_step (now inp)) (seq 0 i) (e, []) in
  let sk := fst pre in
  let x := (float_of_int 30 + hit_speed sk * float_of_int 5)%fl in
  rod_fires (now inp) sk i = true ->
  ready sk /\
  exists z : Z,
    snd (rod_step (now inp) pre i)
    = snd pre ++ [mkNoteOn 0 (chime_notes (current_chime sk) !!! i) (Z.min 127 z)] /\
    float_trunc x = Some z /\
    IZR z <= to_R x < IZR z + 1 /\
    Rabs (to_R x - (30 + magnitude (ball_vx sk) (ball_vy sk) * 5)) <= / 1000 /\
    (30 <= z <= 130)%Z /\
    note_velocity sk = Z.min 127 z /\
    (hit_speed sk = MAX_SPEED -> z = 130%Z).
Proof.
  intros Hs Hi e pre sk x Hf.
  assert (Hr : ready sk) by (apply (strike_ready inp s i i Hs ltac:(lia) Hf)).
  split; [exact Hr|].
  destruct (note_velocity_ready sk Hr) as (z & Ez & Hz & Hfl & Hcl & Hv).
  exists z. split.
  { rewrite (surjective_pairing pre) at 1. fold sk.
    rewrite rod_step_out, Hf.
    change (note_on i (mark_hit (now inp) i sk))
      with (mkNoteOn 0 (chime_notes (current_chime sk) !!! i) (note_velocity sk)).
    rewrite Hv. reflexivity. }
  split; [exact Ez|]. split; [exact Hfl|]. split; [exact Hcl|]. split; [exact Hz|].
  split; [exact Hv|].
  intros H20. unfold x in Ez. rewrite H20 in Ez. vm_compute in Ez.
  injection Ez as Ez. lia.
Qed.

(** C2, as the code has it (binary32) -- The velocity of a strike's
    note-on is the integer part of the operand [30 + hit_speed * 5] as the
    sketch computes it in [float], capped at 127: [min(127, z)] with
    [z <= operand < z + 1].  This holds of every strike of every run that
    started with [setup()], whatever the IMU reads and the buttons do: when
    rod [i] fires in the state [sk] in which the collision pass examines
    it, the call's events hold, after those of the rods before [i], a
    note-on that carries [min(127, z)], the operand is within
    1/1000 of [30 + 5 * speed] for the exact length [speed] of the ball's
    velocity, and [z] lies between 30 and 130, so nothing is reduced
    modulo 256 and the velocity lies in [0, 127].  A strike at
    [hit_speed = MAX_SPEED] has [z = 130] and is sent with 127. *)
Theorem strike_velocity_formula (imu : float32 * float32) (inps : list (Input float32))
    (inp : Input float32) (i : nat) :
  (i < NUM_RODS)%nat ->
  let s := fst (run (setup cosf sinf imu) inps) in
  let e := physics_step inp (handle_buttons inp s) in
  let pre := fold_left (rod_step (now inp)) (seq 0 i) (e, []) in
  let sk := fst pre in
  let x := (float_of_int 30 + hit_speed sk * float_of_int 5)%fl in
  rod_fires (now inp) sk i = true ->
  exists (z : Z) (later : list NoteOn),
    snd (loop s inp)
    = snd pre ++ mkNoteOn 0 (chime_notes (current_chime sk) !!! i) (Z.min 127 z) :: later /\
    float_trunc x = Some z /\
    IZR z <= to_R x < IZR z + 1 /\
    Rabs (to_R x - (30 + magnitude (ball_vx sk) (ball_vy sk) * 5)) <= / 1000 /\
    (30 <= z <= 130)%Z /\
    (hit_speed sk = MAX_SPEED -> z = 130%Z /\ Z.min 127 z = 127%Z) /\
    note_velocity sk = Z.min 127 z /\
    (0 <= note_velocity sk <= 127)%Z.
Proof.
  intros Hi s e pre sk x Hf.
  destruct (strike_at s inp i (run_placed inps _ (setup_placed imu)) Hi Hf)
    as (_ & z & Hev & Ez & Hfl & Hcl & Hz & Hn & H20).
  destruct (fold_rods_extends (now inp) (seq (S i) (NUM_RODS - S i))
              (rod_step (now inp) pre i)) as [later Hl].
  exists z, later. split.
  { rewrite loop_snd. fold e. rewrite (check_rods_cut (now inp) e i Hi). fold pre.
    rewrite Hl.
    etransitivity; [exact (f_equal (fun l => l ++ later) Hev)|].
    rewrite <- app_assoc. reflexivity. }
  split; [exact Ez|]. split; [exact Hfl|].
  split; [exact Hcl|]. split; [exact Hz|].
  split; [intros H; specialize (H20 H); split; [exact H20 | lia]|].
  split; [exact Hn | apply note_velocity_range].
Qed.

(** The hypotheses of [strike_velocity_formula] hold of the fifth call
    under the reading [(0, -1)]: it strikes rod 0, and the call's only
    event is that note-on, with velocity 84. *)
Lemma strike_velocity_formula_witness :
  let s := fst (run (setup cosf sinf (of_int 0, of_int 0)) (ticks tilt_up 100 4)) in
  let inp := tick tilt_up 180 in
  let e := physics_step inp (handle_buttons inp s) in
  let pre := fold_left (rod_step (now inp)) (seq 0 0) (e, []) in
  let sk := fst pre in
  let x := (float_of_int 30 + hit_speed sk * float_of_int 5)%fl in
  rod_fires (now inp) sk 0 = true /\
  snd (loop s inp) = [mkNoteOn 0 NOTE_G3 84] /\
  exists (z : Z) (later : list NoteOn),
    snd (loop s inp)
    = snd pre ++ mkNoteOn 0 (chime_notes (current_chime sk) !!! 0%nat) (Z.min 127 z) :: later /\
    float_trunc x = Some z /\
    IZR z <= to_R x < IZR z + 1 /\
    Rabs (to_R x - (30 + magnitude (ball_vx sk) (ball_vy sk) * 5)) <= / 1000 /\
    (30 <= z <= 130)%Z /\
    (hit_speed sk = MAX_SPEED -> z = 130%Z /\ Z.min 127 z = 127%Z) /\
    note_velocity sk = Z.min 127 z /\
    (0 <= note_velocity sk <= 127)%Z.
Proof.
  cbv zeta.
  assert (Hf : rod_fires (now (tick tilt_up 180))
                 (fst (fold_left (rod_step (now (tick tilt_up 180))) (seq 0 0)
                         (physics_step (tick tilt_up 180)
                            (handle_buttons (tick tilt_up 180)
                               (fst (run (setup cosf sinf (of_int 0, of_int 0))
                                       (ticks tilt_up 100 4)))), []))) 0 = true)
    by (vm_compute; reflexivity).
  split; [exact Hf|]. split; [vm_compute; reflexivity|].
  exact (strike_velocity_formula (of_int 0, of_int 0) (ticks tilt_up 100 4)
           (tick tilt_up 180) 0 ltac:(unfold NUM_RODS; lia) Hf).
Defined.

(** C9, corrected (binary32) -- Every note-on of every run that started
    with [setup()] carries a velocity of at least 30, the base constant,
    and at most 127, whatever the IMU reads and the buttons do; a strike at
    speed zero is sent with exactly 30.  At a strike the ball's speed is at
    most [20 * (1 + 2^-20)] (the clamp's bound; the wall bounce about
    halves the speed and a rod bounce leaves 2), the operand
    [30 + hit_speed * 5] of the [(uint8_t)] cast has an integer part
    between 30 and 130, and the cast reduces nothing modulo 256. *)
Theorem strike_velocity_at_least_base (imu : float32 * float32)
    (inps : list (Input float32)) :
  Forall velocity_in_range (snd (run (setup cosf sinf imu) inps)) /\
  (forall (inp : Input float32) (i : nat),
     (i < NUM_RODS)%nat ->
     let s := fst (run (setup cosf sinf imu) inps) in
     let e := physics_step inp (handle_buttons inp s) in
     let sk := fst (fold_left (rod_step (now inp)) (seq 0 i) (e, [])) in
     rod_fires (now inp) sk i = true ->
     is_finite (ball_vx sk) = true /\ is_finite (ball_vy sk) = true /\
     magnitude (ball_vx sk) (ball_vy sk) <= 20 * (1 + / 1048576) /\
     exists z : Z,
       float_trunc (float_of_int 30 + hit_speed sk * float_of_int 5)%fl = Some z /\
       (30 <= z <= 130)%Z /\ note_velocity sk = Z.min 127 z) /\
  (forall s32 : State float32,
     hit_speed s32 = S754_zero false -> note_velocity s32 = 30%Z).
Proof.
  pose proof (run_placed inps _ (setup_placed imu)) as Hp.
  split; [apply run_velocities_placed, setup_placed|].
  split; [|apply note_velocity_at_rest].
  intros inp i Hi s e sk Hf.
  destruct (strike_at s inp i Hp Hi Hf)
    as ((_ & _ & _ & _ & _ & Fvx & Fvy & Hv) & z & _ & Ez & _ & _ & Hz & Hn & _).
  split; [exact Fvx|]. split; [exact Fvy|]. split; [exact Hv|].
  exists z. split; [exact Ez|]. split; [exact Hz | exact Hn].
Qed.

(** C9, counterexample -- Three calls of [loop()] after [setup()] under
    the reading [(-4, -0.625)], the clock at 1000, 1020, 1040: the third
    call strikes rod 2 with the ball at the clamped speed, which the
    sketch computes as 20.0000019..., above [MAX_SPEED = 20] by the
    sketch's own comparison and as a real number; the note is sent with
    127. *)
Lemma strike_above_speed_cap :
  let a := (of_int (-4), lit (-5) 8) in
  let s := fst (run (setup cosf sinf (of_int 0, of_int 0)) (ticks a 1000 2)) in
  let inp := tick a 1040 in
  let e := physics_step inp (handle_buttons inp s) in
  rod_fires (now inp) e 2 = true /\
  hit_speed e = S754_finite false 10485761 (-19) /\
  flt MAX_SPEED (hit_speed e) = true /\
  20 < to_R (hit_speed e) /\
  map velocity (snd (loop s inp)) = [127%Z].
Proof.
  cbv zeta.
  assert (Hh : hit_speed
                 (physics_step (tick (of_int (-4), lit (-5) 8) 1040)
                    (handle_buttons (tick (of_int (-4), lit (-5) 8) 1040)
                       (fst (run (setup cosf sinf (of_int 0, of_int 0))
                               (ticks (of_int (-4), lit (-5) 8) 1000 2)))))
               = S754_finite false 10485761 (-19)) by (vm_compute; reflexivity).
  split; [vm_compute; reflexivity|]. split; [exact Hh|].
  split; [rewrite Hh; reflexivity|]. split; [|vm_compute; reflexivity].
  rewrite Hh, <- MAX_SPEED_value, MAX_SPEED_binary32, !to_R_pos.
  apply (SFltb_pos 10485760 (-19) 10485761 (-19)); reflexivity.
Qed.

(** ** The wall bounce *)




End StrikeFormula.

(** * Tilt, friction and the speed, in binary32 *)

Section SpeedGain.
Import Binary32.
Local Open Scope R_scope.

Implicit Types (s : State float32) (inp : Input float32) (x y : float32).

Lemma FRICTION_close : Rabs (to_R (@FRICTION spec_float arith) - 97 / 100) <= / 10000000.
Proof.
  change (@FRICTION spec_float arith) with (S754_finite false 16273900 (-24)).
  pose proof (to_R_fraction 16273900 24 ltac:(lia)) as H.
  change (Z.opp 24) with (Z.neg 24) in H. change (2 ^ 24)%Z with 16777216%Z in H.
  apply Rabs_le. lra.
Qed.

Lemma step_close : Rabs (to_R (lit 2 100) - 2 / 100) <= / 1000000000.
Proof.
  change (lit 2 100) with (S754_finite false 10737418 (-29)).
  pose proof (to_R_fraction 10737418 29 ltac:(lia)) as H.
  change (Z.opp 29) with (Z.neg 29) in H. change (2 ^ 29)%Z with 536870912%Z in H.
  apply Rabs_le. lra.
Qed.

Lemma Rabs_prod_le (a b A B : R) : Rabs a <= A -> Rabs b <= B -> Rabs (a * b) <= A * B.
Proof.
  intros Ha Hb. rewrite Rabs_mult.
  apply Rmult_le_compat; try apply Rabs_pos; assumption.
Qed.

(** The kick of one call, [tilt * GRAVITY_SCALE * 0.02f], is [2.4 * tilt]
    up to rounding. *)
Lemma kick_value (t : float32) :
  in_range 129 t ->
  let k := SFmul prec emax (SFmul prec emax t GRAVITY_SCALE) (lit 2 100) in
  in_range 327 k /\ Rabs (to_R k - 24 / 10 * to_R t) <= 14 / 10000.
Proof.
  intros [Ft Bt].
  assert (FG : is_finite (@GRAVITY_SCALE spec_float arith) = true) by reflexivity.
  assert (BG : Rabs (to_R (@GRAVITY_SCALE spec_float arith)) <= 120)
    by (rewrite GRAVITY_SCALE_value, Rabs_pos_eq; lra).
  destruct (mul_in_range t GRAVITY_SCALE 129 120 Ft FG Bt BG ltac:(lra)) as (F1 & E1' & B1).
  set (g1 := SFmul prec emax t GRAVITY_SCALE) in *.
  assert (E1 : Rabs (to_R g1 - to_R t * 120) <= (129 * 120 + 1) / 500000).
  { replace (to_R t * 120) with (to_R t * to_R (@GRAVITY_SCALE spec_float arith))
      by (rewrite GRAVITY_SCALE_value; reflexivity).
    exact E1'. }
  clear E1'.
  assert (FS : is_finite (lit 2 100) = true) by reflexivity.
  assert (BS : Rabs (to_R (lit 2 100)) <= 21 / 1000)
    by (pose proof step_value; rewrite Rabs_pos_eq; lra).
  destruct (mul_in_range g1 (lit 2 100) (129 * 120 + 1) (21 / 1000) F1 FS B1 BS ltac:(lra))
    as (F2 & E2 & B2).
  cbv zeta. fold g1. set (k := SFmul prec emax g1 (lit 2 100)) in *.
  split; [split; [exact F2 | lra]|].
  pose proof step_close as Hs.
  pose proof (Rabs_prod_le _ _ _ _ E1 BS) as P1.
  assert (Bt' : Rabs (120 * to_R t) <= 120 * 129).
  { rewrite Rabs_mult, (Rabs_pos_eq 120) by lra. lra. }
  pose proof (Rabs_prod_le _ _ _ _ Bt' Hs) as P2.
  set (K := to_R k) in *. set (G := to_R g1) in *. set (S := to_R (lit 2 100)) in *.
  set (T := to_R t) in *. clearbody K G S T.
  replace (K - 24 / 10 * T)
    with ((K - G * S) + (G - T * 120) * S + 120 * T * (S - 2 / 100)) by field.
  apply Rabs_le_both in E2, P1, P2. apply Rabs_le. lra.
Qed.

(** One component of the velocity that reaches the clamp:
    [(v -+ k) * FRICTION]. *)
Lemma kicked_component (v k : float32) (op : float32 -> float32 -> float32) (sg : R) :
  (op = SFsub prec emax /\ sg = -1) \/ (op = SFadd prec emax /\ sg = 1) ->
  in_range 31 v -> in_range 327 k ->
  let u := SFmul prec emax (op v k) (@FRICTION spec_float arith) in
  in_range 353 u /\ Rabs (to_R u - 97 / 100 * (to_R v + sg * to_R k)) <= 15 / 10000.
Proof.
  intros Hop [Fv Bv] [Fk Bk].
  assert (Hw : is_finite (op v k) = true /\
               Rabs (to_R (op v k) - (to_R v + sg * to_R k)) <= (31 + 327 + 1) / 500000 /\
               Rabs (to_R (op v k)) <= 31 + 327 + 1).
  { destruct Hop as [[-> ->] | [-> ->]].
    - destruct (sub_in_range v k 31 327 Fv Fk Bv Bk ltac:(lra)) as (F & E & B).
      split; [exact F|]. split; [|exact B].
      replace (to_R v + -1 * to_R k) with (to_R v - to_R k) by ring. exact E.
    - destruct (add_in_range v k 31 327 Fv Fk Bv Bk ltac:(lra)) as (F & E & B).
      split; [exact F|]. split; [|exact B].
      replace (to_R v + 1 * to_R k) with (to_R v + to_R k) by ring. exact E. }
  destruct Hw as (Fw & Ew & Bw).
  set (w := op v k) in *.
  assert (FF : is_finite (@FRICTION spec_float arith) = true) by reflexivity.
  assert (BF : Rabs (to_R (@FRICTION spec_float arith)) <= 98 / 100)
    by (pose proof FRICTION_value; rewrite Rabs_pos_eq; lra).
  destruct (mul_in_range w (@FRICTION spec_float arith) (31 + 327 + 1) (98 / 100)
              Fw FF Bw BF ltac:(lra)) as (Fu & Eu & Bu).
  cbv zeta. set (u := SFmul prec emax w (@FRICTION spec_float arith)) in *.
  split; [split; [exact Fu | lra]|].
  pose proof (Rabs_prod_le _ _ _ _ Bw FRICTION_close) as P1.
  set (U := to_R u) in *. set (W := to_R w) in *.
  set (Fr := to_R (@FRICTION spec_float arith)) in *.
  set (X := to_R v + sg * to_R k) in *. clearbody U W Fr X.
  replace (U - 97 / 100 * X)
    with ((U - W * Fr) + W * (Fr - 97 / 100) + 97 / 100 * (W - X)) by ring.
  apply Rabs_le_both in Eu, P1, Ew. apply Rabs_le. lra.
Qed.

Lemma kick_sub (u v k t : R) :
  Rabs (u - 97 / 100 * (v + -1 * k)) <= 15 / 10000 ->
  Rabs (k - 24 / 10 * t) <= 14 / 10000 ->
  Rabs (u - 97 / 100 * (v - 24 / 10 * t)) <= 3 / 1000.
Proof. intros H1 H2. apply Rabs_le_both in H1, H2. apply Rabs_le. lra. Qed.

Lemma kick_add (u v k t : R) :
  Rabs (u - 97 / 100 * (v + 1 * k)) <= 15 / 10000 ->
  Rabs (k - 24 / 10 * t) <= 14 / 10000 ->
  Rabs (u - 97 / 100 * (v + 24 / 10 * t)) <= 3 / 1000.
Proof. intros H1 H2. apply Rabs_le_both in H1, H2. apply Rabs_le. lra. Qed.

(** The velocity that reaches the clamp, against the update in exact
    arithmetic: [0.97 * (v -+ 2.4 * tilt)]. *)
Lemma kicked_close inp s :
  in_range 64 (fst (accel inp)) -> in_range 64 (snd (accel inp)) ->
  in_range 64 (cal_ax s) -> in_range 64 (cal_ay s) ->
  in_range 31 (ball_vx s) -> in_range 31 (ball_vy s) ->
  let T := read_tilt inp s in
  let u := kicked inp s in
  in_range 353 (fst u) /\ in_range 353 (snd u) /\
  Rabs (to_R (fst u) - 97 / 100 * (to_R (ball_vx s) - 24 / 10 * to_R (fst T))) <= 3 / 1000 /\
  Rabs (to_R (snd u) - 97 / 100 * (to_R (ball_vy s) + 24 / 10 * to_R (snd T))) <= 3 / 1000.
Proof.
  intros [Fax Bax] [Fay Bay] [Fcx Bcx] [Fcy Bcy] Hvx Hvy. cbv zeta.
  change (fst (read_tilt inp s)) with (SFsub prec emax (fst (accel inp)) (cal_ax s)).
  change (snd (read_tilt inp s)) with (SFsub prec emax (snd (accel inp)) (cal_ay s)).
  destruct (sub_in_range _ _ 64 64 Fax Fcx Bax Bcx ltac:(lra)) as (Ftx & _ & Btx).
  destruct (sub_in_range _ _ 64 64 Fay Fcy Bay Bcy ltac:(lra)) as (Fty & _ & Bty).
  set (tx := SFsub prec emax (fst (accel inp)) (cal_ax s)) in *.
  set (ty := SFsub prec emax (snd (accel inp)) (cal_ay s)) in *.
  assert (Htx : in_range 129 tx) by (split; [exact Ftx | lra]).
  assert (Hty : in_range 129 ty) by (split; [exact Fty | lra]).
  destruct (kick_value tx Htx) as [Hkx Ekx]. destruct (kick_value ty Hty) as [Hky Eky].
  cbv zeta in Hkx, Ekx, Hky, Eky.
  destruct (kicked_component (ball_vx s) _ (SFsub prec emax) (-1)
              ltac:(left; split; reflexivity) Hvx Hkx) as [Hux Eux].
  destruct (kicked_component (ball_vy s) _ (SFadd prec emax) 1
              ltac:(right; split; reflexivity) Hvy Hky) as [Huy Euy].
  cbv zeta in Hux, Eux, Huy, Euy.
  split; [exact Hux|]. split; [exact Huy|].
  split; [exact (kick_sub _ _ _ _ Eux Ekx) | exact (kick_add _ _ _ _ Euy Eky)].
Qed.

(** The speed that reaches the clamp. *)
Lemma kicked_speed (ux uy vx vy tx ty : R) :
  Rabs (ux - 97 / 100 * (vx - 24 / 10 * tx)) <= 3 / 1000 ->
  Rabs (uy - 97 / 100 * (vy + 24 / 10 * ty)) <= 3 / 1000 ->
  norm2 ux uy <= 97 / 100 * (norm2 vx vy + 24 / 10 * norm2 tx ty) + 6 / 1000.
Proof.
  intros Hx Hy.
  set (A := 97 / 100 * (vx - 24 / 10 * tx)) in *.
  set (B := 97 / 100 * (vy + 24 / 10 * ty)) in *.
  pose proof (norm2_perturb A B (ux - A) (uy - B) (3 / 1000) Hx Hy) as Hp.
  replace (A + (ux - A)) with ux in Hp by ring.
  replace (B + (uy - B)) with uy in Hp by ring.
  apply Rabs_le_both in Hp.
  assert (HAB : norm2 A B = 97 / 100 * norm2 (vx - 24 / 10 * tx) (vy + 24 / 10 * ty)).
  { unfold A, B.
    replace (97 / 100 * (vx - 24 / 10 * tx)) with ((vx - 24 / 10 * tx) * (97 / 100)) by ring.
    replace (97 / 100 * (vy + 24 / 10 * ty)) with ((vy + 24 / 10 * ty) * (97 / 100)) by ring.
    apply norm2_scale. lra. }
  pose proof (norm2_triangle vx vy (- (24 / 10 * tx)) (24 / 10 * ty)) as Ht.
  assert (Hk : norm2 (- (24 / 10 * tx)) (24 / 10 * ty) = 24 / 10 * norm2 tx ty).
  { rewrite <- (norm2_scale tx ty (24 / 10)) by lra. rewrite !norm2_eq. f_equal. ring. }
  rewrite Hk in Ht. unfold Rminus in HAB. rewrite HAB in Hp. lra.
Qed.

(** A computed speed above [MAX_SPEED] is a number above 20. *)
Lemma beyond_max_speed (d : float32) :
  nonneg_fin d -> valid d -> SFltb MAX_SPEED d = true -> 20 < to_R d.
Proof.
  intros [->|(m & e & ->)] Hv Hlt.
  - discriminate Hlt.
  - rewrite <- MAX_SPEED_value. rewrite MAX_SPEED_binary32 in *. rewrite !to_R_pos.
    apply (SFltb_pos 10485760 (-19) m e); [reflexivity | exact Hv | exact Hlt].
Qed.

(** The clamp does not speed the ball up. *)
Lemma clamp_not_faster (u : float32 * float32) :
  in_range 353 (fst u) -> in_range 353 (snd u) ->
  let c := clamp_speed u in
  magnitude (fst c) (snd c) <= magnitude (fst u) (snd u) + / 10000.
Proof.
  intros Hx Hy c.
  destruct (clamp_speed_finite u (proj1 Hx) (proj1 Hy)) as (_ & _ & Hm). fold c in Hm.
  assert (Hc : c = u \/ SFltb MAX_SPEED (norm32 (fst u) (snd u)) = true).
  { unfold c, clamp_speed. cbv zeta.
    destruct (flt MAX_SPEED (norm2 (fst u) (snd u))) eqn:E;
      [right; exact E | left; reflexivity]. }
  destruct Hc as [-> | E]; [lra|].
  destruct (Rle_dec (Rabs (to_R (fst u))) 200) as [Ax|Ax].
  - destruct (Rle_dec (Rabs (to_R (snd u))) 200) as [Ay|Ay].
    + destruct (norm32_close (fst u) (snd u) 200 (conj (proj1 Hx) Ax) (conj (proj1 Hy) Ay)
                  ltac:(lra) ltac:(lra)) as (Nd & Vd & Hcl).
      pose proof (beyond_max_speed _ Nd Vd E) as H20.
      rewrite eps_val in Hcl. apply Rabs_le_both in Hcl. lra.
    + pose proof (coordinate_le_magnitude (snd u) (fst u)) as C.
      rewrite magnitude_comm in C. lra.
  - pose proof (coordinate_le_magnitude (fst u) (snd u)) as C. lra.
Qed.

(** The wall does not speed the ball up, up to a hundredth. *)
Lemma wall_not_faster (p v : float32 * float32) :
  in_range 86 (fst p) -> in_range 86 (snd p) ->
  is_finite (fst v) = true -> is_finite (snd v) = true ->
  magnitude (fst v) (snd v) <= 20 * (1 + / 1048576) ->
  let v' := snd (constrain_to_tube p v) in
  magnitude (fst v') (snd v') <= magnitude (fst v) (snd v) + / 100.
Proof.
  intros Hpx Hpy Fx Fy Hm v'.
  assert (Hc : v' = v \/ SFltb max_dist (norm32 (fst p) (snd p)) = true).
  { unfold v', constrain_to_tube. cbv zeta.
    destruct (flt max_dist (norm2 (fst p) (snd p))) eqn:E;
      [right; exact E | left; reflexivity]. }
  destruct Hc as [-> | E]; [lra|].
  destruct (wall_velocity_close p v Hpx Hpy Fx Fy Hm E) as (_ & _ & Hh).
  fold v' in Hh. apply Rabs_le_both in Hh.
  assert (0 <= magnitude (fst v) (snd v)) by apply sqrt_pos.
  lra.
Qed.

Lemma physics_speed_gain inp s :
  input_ok inp -> calm s ->
  let T := read_tilt inp s in
  let e := physics_step inp s in
  magnitude (ball_vx e) (ball_vy e)
  <= 97 / 100 * (magnitude (ball_vx s) (ball_vy s)
                 + 24 / 10 * magnitude (fst T) (snd T)) + / 50.
Proof.
  intros (Hax & Hay & _) (Hs & Hvx & Hvy) T e.
  pose proof (safe_position s Hs) as [Hx Hy].
  destruct Hs as (Hcx & Hcy & _ & _ & _ & Hvx' & Hvy' & _).
  destruct (integrate_safe inp s Hax Hay Hcx Hcy
              (in_range_weaken _ 64 _ Hx ltac:(lra)) (in_range_weaken _ 64 _ Hy ltac:(lra))
              Hvx' Hvy') as ((Fvx & Fvy & Hm) & Hpx & Hpy).
  destruct (physics_step_ball inp s) as (_ & _ & Evx & Evy).
  cbv zeta in Evx, Evy. fold e in Evx, Evy. rewrite Evx, Evy.
  pose proof (wall_not_faster _ _ Hpx Hpy Fvx Fvy Hm) as Hw. cbv zeta in Hw.
  destruct (kicked_close inp s Hax Hay Hcx Hcy Hvx Hvy) as (Hux & Huy & Eux & Euy).
  cbv zeta in Hux, Huy, Eux, Euy. fold T in Eux, Euy.
  pose proof (clamp_not_faster (kicked inp s) Hux Huy) as Hc. cbv zeta in Hc.
  pose proof (kicked_speed _ _ _ _ _ _ Eux Euy) as Hk.
  rewrite <- !magnitude_norm2 in Hk.
  rewrite integrate_unfold in Hw. cbn [fst snd] in Hw.
  rewrite integrate_unfold. cbn [fst snd].
  lra.
Qed.

(** ** The velocity at the start of a call *)

Lemma handle_buttons_calm inp s : input_ok inp -> calm s -> calm (handle_buttons inp s).
Proof.
  intros Hi (Hs & Hvx & Hvy). split; [apply handle_buttons_safe; assumption|].
  unfold handle_buttons.
  destruct (btnA_pressed inp), (btnB_released inp), (btnC_pressed inp);
    (split; [try exact Hvx | try exact Hvy]); apply zero_in_range; lra.
Qed.

Lemma drawUpdate_calm s : calm s -> calm (drawUpdate s).
Proof. intros Hs. exact Hs. Qed.

Lemma loop_calm inp s : input_ok inp -> safe s -> calm (fst (loop s inp)).
Proof.
  intros Hi Hs. rewrite loop_fst. apply drawUpdate_calm. unfold check_rods.
  apply fold_rods_calm; [apply rods_below, le_n|].
  apply physics_step_calm; [exact Hi|]. apply handle_buttons_safe; assumption.
Qed.

Lemma run_calm (inps : list (Input float32)) : forall s,
  Forall input_ok inps -> calm s -> calm (fst (run s inps)).
Proof.
  induction inps as [|inp inps IH]; intros s Hi Hs; [exact Hs|].
  inversion Hi as [|? ? H1 H2]; subst.
  rewrite run_fst_cons. apply IH; [exact H2|]. apply loop_calm; [exact H1 | exact (proj1 Hs)].
Qed.

Lemma setup_calm (imu : float32 * float32) :
  in_range 64 (fst imu) -> in_range 64 (snd imu) -> calm (setup cosf sinf imu).
Proof.
  intros Hx Hy. split; [apply setup_safe; assumption|].
  split; apply zero_in_range; lra.
Qed.

(** X8 -- One call of [loop()] cannot speed the ball up by more than the
    tilt allows (binary32).  When [setup()] and every call of [loop()]
    read finite accelerations of magnitude at most 64 on both axes, then
    in every call of the run the speed that the physics (steps 1 to 4)
    leaves is at most [0.97 * (speed before + 2.4 * |tilt|) + 0.02], where
    [tilt] is the IMU read minus the calibration offset as the sketch
    computes it, [2.4 = GRAVITY_SCALE * 0.02], [0.97 = FRICTION] and 0.02
    covers the rounding errors of the update, the clamp and the wall
    bounce.  With the device in the calibrated pose (the read equal to the
    offset) the speed is at most [0.97 * speed before + 0.02]. *)
Theorem tilt_limits_speed_gain (imu : float32 * float32) (inps : list (Input float32))
    (inp : Input float32) :
  in_range 64 (fst imu) -> in_range 64 (snd imu) ->
  Forall input_ok inps -> input_ok inp ->
  let s := handle_buttons inp (fst (run (setup cosf sinf imu) inps)) in
  let T := read_tilt inp s in
  let e := physics_step inp s in
  magnitude (ball_vx e) (ball_vy e)
  <= 97 / 100 * (magnitude (ball_vx s) (ball_vy s)
                 + 24 / 10 * magnitude (fst T) (snd T)) + / 50 /\
  (accel inp = (cal_ax s, cal_ay s) ->
   magnitude (ball_vx e) (ball_vy e) <= 97 / 100 * magnitude (ball_vx s) (ball_vy s) + / 50).
Proof.
  intros Hx Hy Hi Hinp s T e.
  assert (Hs : calm s).
  { apply handle_buttons_calm; [exact Hinp|]. apply run_calm; [exact Hi|].
    apply setup_calm; assumption. }
  pose proof (physics_speed_gain inp s Hinp Hs) as H. cbv zeta in H. fold T e in H.
  split; [exact H|].
  intros Ha.
  destruct Hs as ((Hcx & Hcy & _) & _).
  assert (HT : magnitude (fst T) (snd T) = 0).
  { unfold T, read_tilt. rewrite Ha. cbn [fst snd].
    change (magnitude (SFsub prec emax (cal_ax s) (cal_ax s))
                      (SFsub prec emax (cal_ay s) (cal_ay s)) = 0).
    rewrite (SFsub_diag _ (proj1 Hcx)), (SFsub_diag _ (proj1 Hcy)).
    apply magnitude_zero. }
  rewrite HT in H. lra.
Qed.

(** The hypotheses of [tilt_limits_speed_gain] hold of the fourth call
    under the reading [(0.5, 0)]. *)
Lemma tilt_limits_speed_gain_witness :
  let s := handle_buttons (tick (lit 5 10, of_int 0) 60)
             (fst (run (setup cosf sinf (of_int 0, of_int 0))
                     (map (tick (lit 5 10, of_int 0)) [0; 20; 40]%Z))) in
  let T := read_tilt (tick (lit 5 10, of_int 0) 60) s in
  let e := physics_step (tick (lit 5 10, of_int 0) 60) s in
  magnitude (ball_vx e) (ball_vy e)
  <= 97 / 100 * (magnitude (ball_vx s) (ball_vy s)
                 + 24 / 10 * magnitude (fst T) (snd T)) + / 50.
Proof.
  apply (tilt_limits_speed_gain (of_int 0, of_int 0)
           (map (tick (lit 5 10, of_int 0)) [0; 20; 40]%Z) (tick (lit 5 10, of_int 0) 60)).
  - apply zero_in_range; lra.
  - apply zero_in_range; lra.
  - cbn [map]. repeat (constructor; [apply tilted_input_ok|]). constructor.
  - apply tilted_input_ok.
Defined.

End SpeedGain.

(** * The wall bounce as a reflection, in binary32 *)

Section Mirror.
Import Binary32.
Local Open Scope R_scope.

Implicit Types (s : State float32) (inp : Input float32).





End Mirror.

(** * Instances of the properties above *)

Section Binary32Instances.
Import Binary32.

(** The hypotheses of [glow_countdown] hold of rod 0 in the run under the
    reading [(0, -1)]: the fifth call strikes it and leaves its counter at
    14. *)
Lemma glow_countdown_witness :
  let s4 := fst (run boot (ticks tilt_up 100 4)) in
  (0 < NUM_RODS)%nat /\ length (rod_glow s4) = NUM_RODS /\
  0 <= rod_glow s4 !!! 0%nat <= 255 /\
  rod_glow (fst (loop s4 (tick tilt_up 180))) !!! 0%nat = 14.
Proof.
  cbv zeta.
  assert (H1 : (0 < NUM_RODS)%nat) by (unfold NUM_RODS; lia).
  assert (H2 : length (rod_glow (fst (run boot (ticks tilt_up 100 4)))) = NUM_RODS)
    by (vm_compute; reflexivity).
  assert (H3 : 0 <= rod_glow (fst (run boot (ticks tilt_up 100 4))) !!! 0%nat <= 255)
    by (vm_compute; split; discriminate).
  destruct (glow_countdown (fst (run boot (ticks tilt_up 100 4))) 0 H1 H2 H3) as [Hstep _].
  split; [exact H1|]. split; [exact H2|]. split; [exact H3|].
  rewrite Hstep. vm_compute. reflexivity.
Defined.

(** The hypotheses of [recalibration_rests] hold of the reading [(0, -1)]:
    recalibrating on it after the five calls that ended in a strike gives
    silence for the next three calls. *)
Lemma recalibration_rests_witness :
  is_finite (fst tilt_up) = true /\ is_finite (snd tilt_up) = true /\
  snd (run (fst (run (setup cosf sinf (of_int 0, of_int 0)) (ticks tilt_up 100 5)))
         (press_calibrate tilt_up 200 :: map (tick tilt_up) [220; 240; 260])) = [].
Proof.
  assert (H1 : is_finite (fst tilt_up) = true) by reflexivity.
  assert (H2 : is_finite (snd tilt_up) = true) by reflexivity.
  split; [exact H1|]. split; [exact H2|].
  exact (proj1 (recalibration_rests (of_int 0, of_int 0) tilt_up
                  (ticks tilt_up 100 5) 200 [220; 240; 260] H1 H2)).
Defined.

(** The hypotheses of [ball_drawn_inside_tube] hold of the thirteenth call
    under the reading [(-0.5, 0.25)], the one that ends just beyond
    [max_dist]: the ball is drawn at [(203, 142)], 51 pixels or less from
    [(160, 115)]. *)
Lemma ball_drawn_inside_tube_witness :
  let s12 := fst (run boot (ticks tilt_right_down 0 12)) in
  let s13 := fst (loop s12 (tick tilt_right_down 240)) in
  is_finite (ball_x s13) = true /\ is_finite (ball_y s13) = true /\
  ball_screen s13 = Some (203, 142) /\
  (203 - CX) * (203 - CX) + (142 - CY) * (142 - CY)
    <= (TUBE_R - BALL_R - 4) * (TUBE_R - BALL_R - 4).
Proof.
  cbv zeta.
  assert (H1 : is_finite (ball_x (fst (loop (fst (run boot (ticks tilt_right_down 0 12)))
                                         (tick tilt_right_down 240)))) = true)
    by (vm_compute; reflexivity).
  assert (H2 : is_finite (ball_y (fst (loop (fst (run boot (ticks tilt_right_down 0 12)))
                                         (tick tilt_right_down 240)))) = true)
    by (vm_compute; reflexivity).
  split; [exact H1|]. split; [exact H2|].
  destruct (ball_drawn_inside_tube (fst (run boot (ticks tilt_right_down 0 12)))
              (tick tilt_right_down 240) H1 H2) as (sx & sy & E & B & _).
  assert (E' : ball_screen (fst (loop (fst (run boot (ticks tilt_right_down 0 12)))
                                   (tick tilt_right_down 240))) = Some (203, 142))
    by (vm_compute; reflexivity).
  split; [exact E'|].
  rewrite E' in E. injection E as <- <-. exact B.
Defined.

End Binary32Instances.
